(** * The YOLOv2 data generator ([utils/data_generator.py])

    A shallow embedding of the batch generator [flow_from_list], of the
    class-balance estimator [calc_augment_level] and of the helper
    [convert_opencv_to_box], followed by the properties the specification
    states about them.

    Conventions of the embedding.
    - Python integers are [Z]; the source is Python 2 (the iterator protocol
      is the [next] method), so [/] on two integers is floor division
      ([Z.div]).
    - A finite float64 value is the rational [Q] it denotes. Every float
      operation of the source converts its operands to binary64 and rounds
      its exact result to binary64, to nearest with ties to even (module
      [Float64]); [int(.)] truncates toward zero ([py_int]), [np.floor] is
      [Qfloor].
    - Exceptions are values of [exn]; a computation that can raise returns a
      [result].
    - The constants of [cfg.py] and the external collaborators (OpenCV, the
      augmentation transform, the random generator, the file system) are the
      fields of the records [Cfg] and [World].
    - The wrapper [threadsafe_iter] takes a lock around every call of
      [next]; for one consumer it is the generator itself, and it has no
      definition of its own here.
    - The module [Binary64] evaluates the numeric kernels with the
      primitive binary64 floats of Rocq, to cross-check [Float64] and the
      worked examples. *)

From Stdlib Require Import String Ascii ZArith QArith Qround Qabs Qpower List Bool Lia.
From Stdlib Require Import Permutation Lqa.
From Stdlib Require Import Sorted OrderedTypeEx.
From Stdlib Require Floats Uint63.
Import ListNotations.

(* ================================================================== *)
(** * Python and numpy primitives *)
(* ================================================================== *)

Module Py.

(** The exceptions the generator can raise. *)
Inductive exn : Type :=
| IndexError
| ValueError
| ZeroDivisionError
| NameError
| OverflowError.

Inductive result (A : Type) : Type :=
| Ok (a : A)
| Raise (e : exn).

Arguments Ok {A} a.
Arguments Raise {A} e.

Definition rbind {A B : Type} (m : result A) (f : A -> result B) : result B :=
  match m with
  | Ok a => f a
  | Raise e => Raise e
  end.

(** [int(q)] on a finite float: truncation toward zero. *)
Definition py_int (q : Q) : Z := Z.quot (Qnum q) (Zpos (Qden q)).

(** [float(n)] on an integer (the images of the generator have sides far
    below 2^53, which binary64 holds exactly). *)
Definition py_float (n : Z) : Q := inject_Z n.

(** [l[i]] for a Python list or a numpy axis of length [n]: a negative index
    counts from the end, anything outside [-n, n) raises [IndexError]. *)
Definition np_index (i : Z) (n : nat) : result nat :=
  if (0 <=? i)%Z && (i <? Z.of_nat n)%Z then Ok (Z.to_nat i)
  else if (- Z.of_nat n <=? i)%Z && (i <? 0)%Z then Ok (Z.to_nat (Z.of_nat n + i))
  else Raise IndexError.

Definition py_get {A : Type} (l : list A) (i : Z) : result A :=
  rbind (np_index i (length l))
        (fun k => match nth_error l k with
                  | Some a => Ok a
                  | None => Raise IndexError
                  end).

(** [l[a:b]]: negative bounds count from the end, both are clamped to
    [0, len(l)]. *)
Definition clamp_index (i : Z) (n : nat) : nat :=
  let j := if (i <? 0)%Z then (i + Z.of_nat n)%Z else i in
  Nat.min (Z.to_nat j) n.

Definition py_slice {A : Type} (l : list A) (a b : Z) : list A :=
  let a' := clamp_index a (length l) in
  let b' := clamp_index b (length l) in
  firstn (b' - a') (skipn a' l).

(** [range(n)]. *)
Definition py_range (n : Z) : list Z := map Z.of_nat (seq 0 (Z.to_nat n)).

(** [a / b] on Python 2 integers. *)
Definition py_div (a b : Z) : result Z :=
  if (b =? 0)%Z then Raise ZeroDivisionError else Ok (a / b)%Z.

(** [f] applied to the [i]-th element, the list unchanged when [i] is out of
    range (callers resolve the index with [np_index] first). *)
Fixpoint update_nth {A : Type} (i : nat) (f : A -> A) (l : list A) : list A :=
  match l, i with
  | [], _ => []
  | a :: t, O => f a :: t
  | a :: t, S j => a :: update_nth j f t
  end.

End Py.

Export Py.

Declare Scope result_scope.
Delimit Scope result_scope with result.
Notation "x <- m ;; k" := (rbind m (fun x => k))
  (at level 61, m at next level, right associativity) : result_scope.

(* ================================================================== *)
(** * Float arithmetic: IEEE 754 binary64 *)
(* ================================================================== *)

Module Float64.

Definition pow2 (k : Z) : Q := 2 ^ k.

(** The binary exponent of a positive rational: [2^k <= q < 2^(k+1)]. *)
Definition ilog2 (q : Q) : Z :=
  let k := (Z.log2 (Qnum q) - Z.log2 (Zpos (Qden q)))%Z in
  if Qle_bool (pow2 k) q then k else (k - 1)%Z.

(** The integer nearest to [m], the even one of the two when [m] lies
    halfway. *)
Definition round_half_even (m : Q) : Z :=
  let f := Qfloor m in
  match Qcompare (m - inject_Z f) (1 # 2) with
  | Lt => f
  | Gt => (f + 1)%Z
  | Eq => if Z.even f then f else (f + 1)%Z
  end.

(** The exponent of the last place of the binary64 values around [q]: 53
    significant bits, and no exponent below -1074 (the subnormal
    numbers). *)
Definition ulp_exponent (q : Q) : Z := Z.max (ilog2 q - 52) (-1074).

(** The multiple of the unit in the last place nearest to [q], for
    [0 <= q]. *)
Definition round_magnitude (q : Q) : Q :=
  let ex := ulp_exponent q in
  inject_Z (round_half_even (q / pow2 ex)) * pow2 ex.

Definition round_nearest (q : Q) : Q :=
  if Qle_bool 0 q then round_magnitude q else - round_magnitude (- q).

(** The largest finite binary64 value. *)
Definition float_max : Q := pow2 1024 - pow2 971.

(** The binary64 value of an exact result. A result beyond the finite
    range is [inf] in Python and numpy; in each of the three places where
    the generator computes with floats (lines 101-102, 155-158 and 180) the
    result goes to [int(.)], which raises [OverflowError] on [inf], and
    nothing observable happens in between, so the model raises at the
    operation. *)
Definition round64 (q : Q) : result Q :=
  let r := round_nearest q in
  if Qle_bool (Qabs r) float_max then Ok r else Raise OverflowError.

(** An operand of a float operation: a binary64 value is itself; a Python
    integer or a decimal literal is converted to the nearest binary64
    value ([float(n)] raises [OverflowError] beyond the finite range). *)
Definition to_float (q : Q) : result Q := round64 q.

(** [a * b] on floats. *)
Definition fmul (a b : Q) : result Q :=
  (a' <- to_float a ;;
   b' <- to_float b ;;
   round64 (a' * b'))%result.

(** [a / b] on numpy floats. A zero divisor gives [inf] or [nan] there,
    which [int(.)] refuses with [OverflowError] or [ValueError]; the only
    divisors of the generator are the counts of [np.unique], which are at
    least 1. *)
Definition fdiv (a b : Q) : result Q :=
  (a' <- to_float a ;;
   b' <- to_float b ;;
   if Qeq_bool b' 0 then
     Raise (if Qeq_bool a' 0 then ValueError else OverflowError)
   else round64 (a' / b'))%result.

(** The unit roundoff: the largest relative error of a rounding to a
    normal number. *)
Definition unit_roundoff : Q := pow2 (-53).

(** The product of two operands is a finite float. *)
Definition finite_product (a b : Q) : Prop := exists p, fmul a b = Ok p.

(** [q] is a binary64 value. *)
Definition is_float (q : Q) : Prop := exists r, round64 q = Ok r /\ r == q.

End Float64.

Export Float64.

(* ================================================================== *)
(** * Boxes ([utils/box.py], not part of the sources) *)
(* ================================================================== *)

Module BoxM.

(** A point [(x, y)] and a box in OpenCV form [((x1, y1), (x2, y2))]. *)
Definition point : Type := (Q * Q)%type.
Definition corners : Type := (point * point)%type.

Record Box : Type := mkBox { xc : Q; yc : Q; w : Q; h : Q }.

(** Modelled from the spec: [convert_bbox] of [utils/box.py] is missing;
    section 4.2 gives xc=(x1+x2)/2, yc=(y1+y2)/2, w=|x2-x1|, h=|y2-y1|. *)
Definition convert_bbox (x1 y1 x2 y2 : Q) : Q * Q * Q * Q :=
  ((x1 + x2) / 2, (y1 + y2) / 2, Qabs (x2 - x1), Qabs (y2 - y1)).

(** Modelled from the spec: [Box.to_relative_size] of [utils/box.py] is
    missing; the glossary defines relative coordinates as the box
    coordinates divided by the image width and height. *)
Definition to_relative_size (b : Box) (size : Q * Q) : Box :=
  let (width, height) := size in
  mkBox (xc b / width) (yc b / height) (w b / width) (h b / height).

(** Modelled from the spec: [Box.to_opencv_format] of [utils/box.py] is
    missing; section 4.2 asks for the inverse of [convert_bbox], the two
    corner points of the box. *)
Definition to_opencv_format (b : Box) : corners :=
  ((xc b - w b / 2, yc b - h b / 2), (xc b + w b / 2, yc b + h b / 2)).

(** [np.array(box)]: the four numbers of a box. *)
Definition box_array (b : Box) : list Q := [xc b; yc b; w b; h b].

(** [convert_opencv_to_box] (lines 184-188). *)
Definition convert_opencv_to_box (box : corners) : Box :=
  let '((x1, y1), (x2, y2)) := box in
  let '(xc, yc, w, h) := convert_bbox x1 y1 x2 y2 in
  mkBox xc yc w h.

End BoxM.

Export BoxM.

(* ================================================================== *)
(** * The class-balance estimator: [calc_augment_level] *)
(* ================================================================== *)

Module Estimator.

(** One row of the data frame: label, frequency, scaling_factor. *)
Record row : Type := mkRow { label : string; frequency : Z; scaling_factor : Z }.

(** [np.unique(col, return_counts=True)]: the sorted distinct values with
    their numbers of occurrences. [count_insert] adds one occurrence of [c]
    to a sorted table. *)
Fixpoint count_insert (c : string) (t : list (string * Z)) : list (string * Z) :=
  match t with
  | [] => [(c, 1%Z)]
  | (d, n) :: rest =>
      match String.compare c d with
      | Eq => (d, (n + 1)%Z) :: rest
      | Lt => (c, 1%Z) :: (d, n) :: rest
      | Gt => (d, n) :: count_insert c rest
      end
  end.

Definition np_unique (col : list string) : list (string * Z) :=
  fold_right count_insert [] col.

Definition sumZ (l : list Z) : Z := fold_right Z.add 0%Z l.

(** [frequencies.mean(axis=0)]: the sum of the counts, as a float, divided
    by their number. The counts add up to [len(y)], so for fewer than 2^53
    labels every partial sum is an integer that binary64 holds exactly. *)
Definition np_mean (l : list Z) : result Q :=
  fdiv (inject_Z (sumZ l)) (inject_Z (Z.of_nat (length l))).

(** Line 180, the function applied to a row:
    [int(scaling_factor*(mean / row['frequency']))]. *)
Definition augment_count (scaling_factor mean : Q) (f : Z) : result Z :=
  (ratio <- fdiv mean (inject_Z f) ;;
   scaled <- fmul scaling_factor ratio ;;
   Ok (py_int scaled))%result.

(** [df.apply(..., axis=1)]: the rows in order, the first exception ends
    the call. *)
Fixpoint apply_rows (scaling_factor mean : Q) (table : list (string * Z))
  : result (list row) :=
  match table with
  | [] => Ok []
  | (c, f) :: rest =>
      (n <- augment_count scaling_factor mean f ;;
       rows <- apply_rows scaling_factor mean rest ;;
       Ok (mkRow c f n :: rows))%result
  end.

(** Lines 176-181. [y] is the array of the labels [[Box, label_name]] and
    [y[:,1]] its column of class names; the array of no label has one axis
    only, and [y[:,1]] raises [IndexError]. *)
Definition calc_augment_level (y : list (Box * string)) (scaling_factor : Q)
  : result (list row) :=
  match y with
  | [] => Raise IndexError
  | _ :: _ =>
      let table := np_unique (map snd y) in
      (mean <- np_mean (map snd table) ;;
       apply_rows scaling_factor mean table)%result
  end.

(** [df.loc[df['label'] == label, 'scaling_factor'].values[0]] (line 118). *)
Fixpoint loc_scaling_factor (df : list row) (lab : string) : result Z :=
  match df with
  | [] => Raise IndexError
  | r :: rest =>
      if String.eqb (label r) lab then Ok (scaling_factor r)
      else loc_scaling_factor rest lab
  end.

(** The words of the specification: the frequency of a class is its number
    of occurrences among the labels, the classes are the distinct class
    names, and the mean is the average frequency over the classes. *)
Definition class_frequency (y : list (Box * string)) (c : string) : Z :=
  Z.of_nat (count_occ string_dec (map snd y) c).

Definition classes (y : list (Box * string)) : list string :=
  nodup string_dec (map snd y).

Definition mean_frequency (y : list (Box * string)) : Q :=
  inject_Z (sumZ (map (class_frequency y) (classes y)))
  / inject_Z (Z.of_nat (length (classes y))).

(** The count the specification gives a class of frequency [f]:
    floor(scaling_factor * mean / frequency), over the real numbers. *)
Definition exact_count (y : list (Box * string)) (scaling_factor : Q) (f : Z) : Z :=
  Qfloor (scaling_factor * mean_frequency y / inject_Z f).

(** The same count as line 180 evaluates it, in float arithmetic: the mean
    is the float quotient of the sum of the class frequencies by the
    number of classes, and the count is
    [int(scaling_factor * (mean / frequency))]. *)
Definition float_mean (y : list (Box * string)) : result Q :=
  fdiv (inject_Z (sumZ (map (class_frequency y) (classes y))))
       (inject_Z (Z.of_nat (length (classes y)))).

Definition float_count (y : list (Box * string)) (scaling_factor : Q) (f : Z) : result Z :=
  (mean <- float_mean y ;; augment_count scaling_factor mean f)%result.

(** The order of the tables [np_unique] builds: by class name, strictly. *)
Definition key_lt (a b : string * Z) : Prop := String_as_OT.lt (fst a) (fst b).

(** The number of occurrences a table records for [c]. *)
Fixpoint table_count (c : string) (t : list (string * Z)) : Z :=
  match t with
  | [] => 0%Z
  | (d, n) :: rest =>
      ((if String.eqb d c then n else 0) + table_count c rest)%Z
  end.

End Estimator.

Export Estimator.

(* ================================================================== *)
(** * The grid encoder (lines 147-166 of [flow_from_list]) *)
(* ================================================================== *)

Module GridEncoder.

(** The detection tensor [y_batch], indexed [b, c, r, anchor, k]. *)
Definition anchor_row : Type := list Q.
Definition cell : Type := list anchor_row.
Definition sample_grid : Type := list (list cell).
Definition tensor : Type := list sample_grid.

Definition nth_result {A : Type} (l : list A) (i : nat) : result A :=
  match nth_error l i with
  | Some a => Ok a
  | None => Raise IndexError
  end.

(** Broadcasting a vector to a row of [n] entries: the lengths agree, or
    the vector has one entry, which is repeated; [ValueError] otherwise. *)
Definition np_broadcast (v : list Q) (n : nat) : result (list Q) :=
  if Nat.eqb (length v) n then Ok v
  else match v with
       | [x] => Ok (repeat x n)
       | _ => Raise ValueError
       end.

(** [y_batch[b, c, r, :, lo:lo+width] = N_ANCHORS * [v]]: the indices are
    resolved (negative ones wrap, others raise [IndexError]), [v] is
    broadcast, and every anchor row of the cell gets [v] in columns
    [lo .. lo+width-1]. *)
Definition setitem (y_batch : tensor) (b : nat) (c r : Z) (lo width : nat) (v : list Q)
  : result tensor :=
  (sample <- nth_result y_batch b ;;
   ci <- np_index c (length sample) ;;
   grid_row <- nth_result sample ci ;;
   ri <- np_index r (length grid_row) ;;
   v' <- np_broadcast v width ;;
   Ok (update_nth b
         (update_nth ci
            (update_nth ri
               (map (fun row : anchor_row =>
                       firstn lo row ++ v' ++ skipn (lo + width) row))))
         y_batch))%result.

Section Encoder.

Variables N_ANCHORS N_CLASSES : nat.

(** [np.zeros((batch_size, grid_h, grid_w, N_ANCHORS, 5 + N_CLASSES))]. *)
Definition np_zeros (batch_size grid_h grid_w : Z) : result tensor :=
  if (batch_size <? 0)%Z || (grid_h <? 0)%Z || (grid_w <? 0)%Z then Raise ValueError
  else Ok (repeat
             (repeat
                (repeat (repeat (repeat 0%Q (5 + N_CLASSES)) N_ANCHORS)
                        (Z.to_nat grid_w))
                (Z.to_nat grid_h))
             (Z.to_nat batch_size)).

(** The grid cell of a label vector: column [r] and row [c] (lines
    155-158), [int(np.floor(.))] of the float product. *)
Definition cell_column (grid_w : Z) (xc_relative : Q) : result Z :=
  (center_x <- fmul xc_relative (inject_Z grid_w) ;;
   Ok (Qfloor center_x))%result.

Definition cell_row (grid_h : Z) (yc_relative : Q) : result Z :=
  (center_y <- fmul yc_relative (inject_Z grid_h) ;;
   Ok (Qfloor center_y))%result.

(** The body of the loop over [b] (lines 155-163). Both coordinates are
    read (lines 155-156) before the first index is converted (line 157). *)
Definition encode_at (grid_w grid_h : Z) (labels : list (list Q)) (y_batch : tensor) (b : nat)
  : result tensor :=
  (lab <- nth_result labels b ;;
   x <- nth_result lab 0 ;;
   y <- nth_result lab 1 ;;
   r <- cell_column grid_w x ;;
   c <- cell_row grid_h y ;;
   if (r <? grid_w)%Z && (c <? grid_h)%Z then
     y1 <- setitem y_batch b c r 0 4 (firstn 4 lab) ;;
     y2 <- setitem y1 b c r 4 1 [1%Q] ;;
     setitem y2 b c r 5 N_CLASSES (skipn 5 lab)
   else Ok y_batch)%result.

Fixpoint encode_loop (grid_w grid_h : Z) (labels : list (list Q)) (bs : list nat)
  (y_batch : tensor) : result tensor :=
  match bs with
  | [] => Ok y_batch
  | b :: rest =>
      (y' <- encode_at grid_w grid_h labels y_batch b ;;
       encode_loop grid_w grid_h labels rest y')%result
  end.

(** Lines 148-163: allocate the zero tensor, then rasterise each of the
    [batch_size] label vectors. *)
Definition grid_encode (batch_size grid_w grid_h : Z) (labels : list (list Q)) : result tensor :=
  (y0 <- np_zeros batch_size grid_h grid_w ;;
   encode_loop grid_w grid_h labels (seq 0 (Z.to_nat batch_size)) y0)%result.

End Encoder.

(** [y_batch.reshape([batch_size, grid_h, grid_w, N_ANCHORS*(N_CLASSES+5)])]:
    the anchor rows of a cell are laid end to end. *)
Definition reshape (y_batch : tensor) : list (list (list (list Q))) :=
  map (map (map (@concat Q))) y_batch.

(** Reading the tensor: the cell [y_batch[b][c][r]] and one entry of it. *)
Definition get_cell (y_batch : tensor) (b c r : nat) : option cell :=
  match nth_error y_batch b with
  | Some s => match nth_error s c with
              | Some g => nth_error g r
              | None => None
              end
  | None => None
  end.

Definition get_entry (y_batch : tensor) (b c r a k : nat) : option Q :=
  match get_cell y_batch b c r with
  | Some cl => match nth_error cl a with
               | Some row => nth_error row k
               | None => None
               end
  | None => None
  end.

(** The cell addressed with numpy indices (negative ones wrap). *)
Definition np_cell (y_batch : tensor) (b : nat) (c r : Z) : option cell :=
  match nth_error y_batch b with
  | Some s =>
      match np_index c (length s) with
      | Ok ci =>
          match nth_error s ci with
          | Some g =>
              match np_index r (length g) with
              | Ok ri => nth_error g ri
              | Raise _ => None
              end
          | None => None
          end
      | Raise _ => None
      end
  | None => None
  end.

(** A cell is populated when one of its anchor rows has a non-zero entry. *)
Definition row_nonzero (row : anchor_row) : bool :=
  existsb (fun q => negb (Qnum q =? 0)%Z) row.

Definition cell_populated (cl : cell) : bool := existsb row_nonzero cl.

(** What a populated anchor slot holds for a label vector: the four box
    coordinates, objectness 1, the class encoding. *)
Definition label_row (lab : list Q) : anchor_row :=
  firstn 4 lab ++ [1%Q] ++ skipn 5 lab.

(** Flat label vectors have [5 + n_classes] entries. *)
Definition well_shaped (n_classes : nat) (labels : list (list Q)) : Prop :=
  Forall (fun lab => length lab = (5 + n_classes)%nat) labels.

(** A cell as allocated: [n_anchors] rows of [5 + n_classes] zeros. *)
Definition zero_cell (n_anchors n_classes : nat) : cell :=
  repeat (repeat 0%Q (5 + n_classes)) n_anchors.

(** Writing one cell of one sample: [F] applied to the cell at [(ci, ri)]. *)
Definition put_cell (ci ri : nat) (F : cell -> cell) (s : sample_grid) : sample_grid :=
  update_nth ci (update_nth ri F) s.

Definition write_slice (lo width : nat) (v : list Q) (row : anchor_row) : anchor_row :=
  firstn lo row ++ v ++ skipn (lo + width) row.

(** The resolved position of a numpy cell index in a sample. *)
Definition resolve (s : sample_grid) (c r : Z) : result (nat * nat) :=
  (ci <- np_index c (length s) ;;
   grid_row <- nth_result s ci ;;
   ri <- np_index r (length grid_row) ;;
   Ok (ci, ri))%result.

(** Reading a cell of one sample. *)
Definition cell_at (s : sample_grid) (c r : nat) : option cell :=
  match nth_error s c with
  | Some g => nth_error g r
  | None => None
  end.

(** A sample as allocated: [grid_h] rows of [grid_w] zero cells. *)
Definition zero_sample (n_anchors n_classes : nat) (grid_w grid_h : Z) : sample_grid :=
  repeat (repeat (zero_cell n_anchors n_classes) (Z.to_nat grid_w)) (Z.to_nat grid_h).

(** A sample is the encoding of a label vector: all zeros when the guard
    of line 160 fails, and otherwise zeros but for one cell, whose anchor
    rows all are [label_row lab]. *)
Definition encoded (n_anchors n_classes : nat) (grid_w grid_h : Z)
  (lab : list Q) (s : sample_grid) : Prop :=
  exists x y r c,
    nth_error lab 0 = Some x /\ nth_error lab 1 = Some y /\
    cell_column grid_w x = Ok r /\ cell_row grid_h y = Ok c /\
    if (r <? grid_w)%Z && (c <? grid_h)%Z then
      exists ci ri,
        resolve (zero_sample n_anchors n_classes grid_w grid_h) c r = Ok (ci, ri)
        /\ s = put_cell ci ri (fun _ => repeat (label_row lab) n_anchors)
                        (zero_sample n_anchors n_classes grid_w grid_h)
    else s = zero_sample n_anchors n_classes grid_w grid_h.

(** The dimensions of a cell, of the grid of one sample and of the whole
    tensor: [n_samples x n_rows x n_columns x n_anchors x n_entries]. *)
Definition cell_shape (n_anchors n_entries : nat) (cl : cell) : Prop :=
  length cl = n_anchors /\ Forall (fun row => length row = n_entries) cl.

Definition sample_shape (n_rows n_columns n_anchors n_entries : nat) (s : sample_grid)
  : Prop :=
  length s = n_rows
  /\ Forall (fun g => length g = n_columns /\ Forall (cell_shape n_anchors n_entries) g) s.

Definition has_shape (n_samples n_rows n_columns n_anchors n_entries : nat) (T : tensor)
  : Prop :=
  length T = n_samples /\ Forall (sample_shape n_rows n_columns n_anchors n_entries) T.

(** The dimensions of a reshaped tensor:
    [n_samples x n_rows x n_columns x n_entries]. *)
Definition flat_shape (n_samples n_rows n_columns n_entries : nat)
  (G : list (list (list (list Q)))) : Prop :=
  length G = n_samples
  /\ Forall (fun s => length s = n_rows
                      /\ Forall (fun g => length g = n_columns
                                          /\ Forall (fun v => length v = n_entries) g) s) G.

(** Reading a reshaped tensor: the entry [G[b][c][r][j]]. *)
Definition get_flat (G : list (list (list (list Q)))) (b c r j : nat) : option Q :=
  match nth_error G b with
  | Some s => match nth_error s c with
              | Some g => match nth_error g r with
                          | Some v => nth_error v j
                          | None => None
                          end
              | None => None
              end
  | None => None
  end.

(** A centroid the encoder accepts on a grid: neither coordinate is
    negative, and their products with the grid sides are finite floats. *)
Definition centroid_ok (grid_w grid_h : Z) (x y : Q) : Prop :=
  0 <= x /\ 0 <= y
  /\ finite_product x (inject_Z grid_w) /\ finite_product y (inject_Z grid_h).

(** A label vector the encoder accepts: [5 + n_classes] entries, the
    centroid accepted. *)
Definition encodable (n_classes : nat) (grid_w grid_h : Z) (lab : list Q) : Prop :=
  length lab = (5 + n_classes)%nat
  /\ exists x y, nth_error lab 0 = Some x /\ nth_error lab 1 = Some y
                 /\ centroid_ok grid_w grid_h x y.

End GridEncoder.

Export GridEncoder.

(* ================================================================== *)
(** * The numeric kernels in binary64 *)
(* ================================================================== *)

Module Binary64.

Import Floats.

(** The integer part of a finite float, rounded down. *)
Definition float_floor (x : float) : option Z :=
  match Prim2SF x with
  | S754_zero _ => Some 0%Z
  | S754_finite s m e =>
      let v := if s then Z.neg m else Z.pos m in
      Some (if (0 <=? e)%Z then v * 2 ^ e else v / 2 ^ (- e))%Z
  | _ => None
  end.

(** [int(x)] on a finite float: rounded toward zero. *)
Definition float_int (x : float) : option Z :=
  match Prim2SF x with
  | S754_zero _ => Some 0%Z
  | S754_finite s m e =>
      let v := if s then Z.neg m else Z.pos m in
      Some (if (0 <=? e)%Z then v * 2 ^ e else Z.quot v (2 ^ (- e)))%Z
  | _ => None
  end.

(** [float(n)] for a small non-negative integer. *)
Definition float_of_Z (n : Z) : float := PrimFloat.of_uint63 (Uint63.of_Z n).

(** The rational a finite float denotes. *)
Definition value (x : float) : option Q :=
  match Prim2SF x with
  | S754_zero _ => Some 0
  | S754_finite s m e =>
      Some (inject_Z (if s then Z.neg m else Z.pos m) * Float64.pow2 e)
  | _ => None
  end.

(** A primitive float agrees with a result of [Float64]: the same finite
    value, or an infinity where the model raises [OverflowError]. *)
Definition agrees (x : float) (r : result Q) : bool :=
  match Prim2SF x, r with
  | S754_infinity _, Raise OverflowError => true
  | S754_nan, _ => false
  | _, Ok q => match value x with
               | Some v => Qeq_bool v q
               | None => false
               end
  | _, _ => false
  end.

(** The primitive product and quotient of two finite floats against
    [Float64.fmul] and [Float64.fdiv] on their values. *)
Definition mul_agrees (ab : float * float) : bool :=
  match value (fst ab), value (snd ab) with
  | Some a, Some b => agrees (PrimFloat.mul (fst ab) (snd ab)) (Float64.fmul a b)
  | _, _ => false
  end.

Definition div_agrees (ab : float * float) : bool :=
  match value (fst ab), value (snd ab) with
  | Some a, Some b => agrees (PrimFloat.div (fst ab) (snd ab)) (Float64.fdiv a b)
  | _, _ => false
  end.

(** Pairs of floats on which the primitive operations are compared with
    [Float64]: the operands of the worked examples, results that are
    rounded up, down and to even, subnormal results, and overflows. *)
#[warnings="-inexact-float"]
Definition operands : list (float * float) :=
  [(0.5384615384615384, 13); (0.7, 320); (1.15, 100); (0.999999, 13); (1, 13);
   (0.1, 3); (0.1, 0.2); (1.1, 1.1); (3, 2.3333333333333335); (5, 0.37);
   (11.666666666666666, 5); (37, 100); (2.4, 3); (2.4, 2); (12, 5);
   (-0.7, 320); (-1.15, 100); (0.3, -7); (-0.1, -0.1);
   (1e-200, 1e-200); (1e-160, 1e-160); (4.9e-324, 0.5); (4.9e-324, 1.5);
   (4.9e-324, 2.5); (2.2250738585072014e-308, 0.5); (2.2250738585072014e-308, 0.75);
   (1e-310, 0.3); (1e-310, 3); (1e300, 1e-300);
   (1e200, 1e200); (1.7976931348623157e308, 1); (1.7976931348623157e308, 1.0000000000000002);
   (1.7976931348623157e308, 2); (-1e308, 10); (9007199254740992, 9007199254740993);
   (9007199254740991, 3); (0, 5); (0, -5); (123456789, 987654321);
   (0.3333333333333333, 3); (0.6666666666666666, 1.5)]%float.

(** The literals [0.999999] and [1.0], rounded to binary64 as Python
    rounds them. *)
#[warnings="-inexact-float"]
Definition near_one : float := 0.999999%float.

Definition one : float := 1%float.

(** Lines 155-158: [int(np.floor(labels[b][0] * grid_w))]. *)
Definition cell_index (relative : float) (grid : Z) : option Z :=
  float_floor (PrimFloat.mul relative (float_of_Z grid)).

(** Lines 177-180: [int(scaling_factor * (mean / frequency))], with
    [mean] the mean of the frequencies. *)
Definition augment_count (scaling_factor : Z) (frequencies : list Z) (f : Z) : option Z :=
  let mean := PrimFloat.div (float_of_Z (sumZ frequencies))
                            (float_of_Z (Z.of_nat (length frequencies))) in
  float_int (PrimFloat.mul (float_of_Z scaling_factor)
                           (PrimFloat.div mean (float_of_Z f))).

End Binary64.

(* ================================================================== *)
(** * Configuration and external collaborators *)
(* ================================================================== *)

Module Env.

(** The constants [from cfg import *] brings in. [CLASSES] is the list of
    lines of the [CATEGORIES] file (lines 74-76); [encode_label] is
    [HIER_TREE.encode_label]. *)
Record Cfg : Type := mkCfg {
  IMG_INPUT : Z;
  SHRINK_FACTOR : Z;
  N_ANCHORS : nat;
  N_CLASSES : nat;
  MULTI_SCALE : list Q;
  CLASSES : list string;
  encode_label : nat -> list Q
}.

(** The collaborators: the file system, OpenCV, the preprocessing and
    augmentation of [utils/augment_img.py], and the random generator.
    Random operations take the generator state of type [rng] and return the
    next one. [shape] returns [(height, width)]; [resize] takes
    [(width, height)]; [permutation g n] is the index permutation
    [sklearn.utils.shuffle] draws for [n] samples. *)
Record World : Type := mkWorld {
  image : Type;
  rng : Type;
  isfile : string -> bool;
  imread : string -> image;
  cvtColor : image -> image;
  shape : image -> Z * Z;
  resize : image -> Z * Z -> image;
  preprocess_img : image -> image;
  random_transform : rng -> image -> corners -> (image * corners) * rng;
  random_integers : rng -> Z -> Z -> Z * rng;
  permutation : rng -> nat -> list nat * rng
}.

(** What the random generator is assumed to do: a shuffle is a permutation
    of the indices. *)
Definition permutation_ok (W : World) : Prop :=
  forall (g : rng W) (n : nat), Permutation (fst (permutation W g n)) (seq 0 n).

End Env.

Export Env.

(* ================================================================== *)
(** * The generator [flow_from_list] *)
(* ================================================================== *)

Module Generator.

Section Flow.

Variable cfg : Cfg.
Variable W : World.

(** One yielded pair: the image batch and the reshaped label grid. *)
Definition batch : Type := (list (image W) * list (list (list (list Q))))%type.

(** The state the generator threads through its loops: the random
    generator, the local variables [multi_scale], [new_height] and
    [new_width] (unbound until first assigned), what was printed, the
    arguments of every call of [random_transform], and the batches yielded
    so far. *)
Record state : Type := mkState {
  rand : rng W;
  multi_scale : option Q;
  new_height : option Z;
  new_width : option Z;
  printed : list string;
  transform_calls : list (image W * corners);
  yielded : list batch
}.

Definition M (A : Type) : Type := state -> result A * state.

Definition ret {A : Type} (a : A) : M A := fun s => (Ok a, s).

Definition raise {A : Type} (e : exn) : M A := fun s => (Raise e, s).

Definition bind {A B : Type} (m : M A) (f : A -> M B) : M B :=
  fun s => match m s with
           | (Ok a, s') => f a s'
           | (Raise e, s') => (Raise e, s')
           end.

Definition lift {A : Type} (r : result A) : M A := fun s => (r, s).

(** Reading a local variable: [NameError] while it is unbound. *)
Definition read_var {A : Type} (field : state -> option A) : M A :=
  fun s => match field s with
           | Some a => (Ok a, s)
           | None => (Raise NameError, s)
           end.

Definition set_multi_scale (ms : Q) : M unit :=
  fun s => (Ok tt, mkState (rand s) (Some ms) (new_height s) (new_width s)
                           (printed s) (transform_calls s) (yielded s)).

Definition set_new_size (nh nw : Z) : M unit :=
  fun s => (Ok tt, mkState (rand s) (multi_scale s) (Some nh) (Some nw)
                           (printed s) (transform_calls s) (yielded s)).

Definition print (msg : string) : M unit :=
  fun s => (Ok tt, mkState (rand s) (multi_scale s) (new_height s) (new_width s)
                           (printed s ++ [msg]) (transform_calls s) (yielded s)).

Definition yield (b : batch) : M unit :=
  fun s => (Ok tt, mkState (rand s) (multi_scale s) (new_height s) (new_width s)
                           (printed s) (transform_calls s) (yielded s ++ [b])).

(** A random draw: [f] consumes the generator state. *)
Definition draw {A : Type} (f : rng W -> A * rng W) : M A :=
  fun s => let (a, g) := f (rand s) in
           (Ok a, mkState g (multi_scale s) (new_height s) (new_width s)
                          (printed s) (transform_calls s) (yielded s)).

(** The call [random_transform(img, box)], its arguments recorded. *)
Definition call_random_transform (img : image W) (box : corners) : M (image W * corners) :=
  fun s => let (res, g) := random_transform W (rand s) img box in
           (Ok res, mkState g (multi_scale s) (new_height s) (new_width s)
                            (printed s) (transform_calls s ++ [(img, box)]) (yielded s)).

(** Two states that differ at most in what was printed. *)
Definition same_but_printed (s1 s2 : state) : Prop :=
  rand s1 = rand s2 /\ multi_scale s1 = multi_scale s2
  /\ new_height s1 = new_height s2 /\ new_width s1 = new_width s2
  /\ transform_calls s1 = transform_calls s2 /\ yielded s1 = yielded s2.

(** A computation is oblivious to the printed messages when neither its
    result nor the rest of its final state depends on them. *)
Definition oblivious {A : Type} (m : M A) : Prop :=
  forall s1 s2, same_but_printed s1 s2 ->
    fst (m s1) = fst (m s2) /\ same_but_printed (snd (m s1)) (snd (m s2)).

(** Computations that yield nothing. *)
Definition silent {A : Type} (m : M A) : Prop :=
  forall s, yielded (snd (m s)) = yielded s.

End Flow.

Arguments oblivious W {A} m.
Arguments silent W {A} m.
Arguments same_but_printed {W} s1 s2.
Arguments mkState {W} _ _ _ _ _ _ _.
Arguments rand {W} s.
Arguments multi_scale {W} s.
Arguments new_height {W} s.
Arguments new_width {W} s.
Arguments printed {W} s.
Arguments transform_calls {W} s.
Arguments yielded {W} s.
Arguments ret {W A} a.
Arguments raise {W A} e.
Arguments bind {W A B} m f.
Arguments lift {W A} r.
Arguments read_var {W A} field.
Arguments set_multi_scale {W} ms.
Arguments set_new_size {W} nh nw.
Arguments print {W} msg.
Arguments yield {W} b.
Arguments draw {W A} f.
Arguments call_random_transform {W} img box.

End Generator.

Export Generator.

Declare Scope gen_scope.
Delimit Scope gen_scope with gen.
Notation "x <- m ;; k" := (bind m (fun x => k))
  (at level 61, m at next level, right associativity) : gen_scope.
Notation "m ;;; k" := (bind m (fun _ => k))
  (at level 61, right associativity) : gen_scope.

Module SampleBuilder.

(** [np.where(CLASSES == label)[0][0]]: the first index at which the class
    name occurs; indexing the empty result raises [IndexError]. *)
Fixpoint np_where_first (classes : list string) (lab : string) : result nat :=
  match classes with
  | [] => Raise IndexError
  | c :: rest =>
      if String.eqb c lab then Ok O
      else (i <- np_where_first rest lab ;; Ok (S i))%result
  end.

(** [q < 0] on a float. *)
Definition Qnegb (q : Q) : bool := (Qnum q <? 0)%Z.

(** [int(IMG_INPUT * multi_scale)] (lines 101-102). *)
Definition scaled_size (img_input : Z) (multi_scale : Q) : result Z :=
  (side <- fmul (inject_Z img_input) multi_scale ;;
   Ok (py_int side))%result.

(** [np.any(np.asarray([width, height]) - p < 0)] (lines 125-127). *)
Definition any_negative (width height : Z) (p : point) : bool :=
  Qnegb (inject_Z width - fst p) || Qnegb (inject_Z height - snd p).

(** The test of line 127 on the two corners of the transformed box. *)
Definition out_of_bound (width height : Z) (aug_box : corners) : bool :=
  any_negative width height (fst aug_box) || any_negative width height (snd aug_box).

(** A flat label vector: the box, objectness 1, the class encoding. *)
Definition flat_label (box : Box) (one_hot : list Q) : list Q :=
  box_array box ++ [1%Q] ++ one_hot.

Section Builder.

Variable cfg : Cfg.
Variable W : World.
Variable augment_data : bool.
Variable augment_level : list row.

(** [X] and [Y], the two lists the slice loop appends to. *)
Definition XY : Type := (list (image W) * list (list Q))%type.

Definition append (xy : XY) (img : image W) (lab : list Q) : XY :=
  (fst xy ++ [img], snd xy ++ [lab]).

(** A [for] loop threading the loop-carried variables [acc]. *)
Fixpoint for_each {A S : Type} (l : list A) (body : S -> A -> M W S) (acc : S) : M W S :=
  match l with
  | [] => ret acc
  | a :: rest => (acc' <- body acc a ;; for_each rest body acc')%gen
  end.

(** One iteration of the augmentation loop (lines 121-135). *)
Definition augment_once (img : image W) (bbox : Box) (width height : Z)
  (one_hot : list Q) (xy : XY) (l : Z) : M W XY :=
  (res <- call_random_transform img (to_opencv_format bbox) ;;
   let (aug_img, aug_box) := res : image W * corners in
   if out_of_bound width height aug_box then ret xy
   else
     let processed_img := preprocess_img W aug_img in
     let aug_box' := to_relative_size (convert_opencv_to_box aug_box)
                                      (py_float width, py_float height) in
     ret (append xy processed_img (flat_label aug_box' one_hot)))%gen.

(** The body of the loop over the entries of a slice (lines 90-135). *)
Definition process_entry (xy : XY) (entry : string * (Box * string)) : M W XY :=
  let '(filename, (bbox, label)) := entry in
  if negb (isfile W filename) then
    (print "Image Not Found"%string ;;; ret xy)%gen
  else
    let img0 := cvtColor W (imread W filename) in
    let (height, width) := shape W img0 in
    let img1 := resize W img0 (IMG_INPUT cfg, IMG_INPUT cfg) in
    (img <- (if augment_data then
               ms <- read_var (@multi_scale W) ;;
               nh <- lift (scaled_size (IMG_INPUT cfg) ms) ;;
               nw <- lift (scaled_size (IMG_INPUT cfg) ms) ;;
               set_new_size nh nw ;;;
               ret (resize W img1 (nw, nh))
             else ret img1) ;;
     let processed_img := preprocess_img W img in
     index_label <- lift (np_where_first (CLASSES cfg) label) ;;
     let one_hot := encode_label cfg index_label in
     let box := to_relative_size bbox (py_float width, py_float height) in
     let xy1 := append xy processed_img (flat_label box one_hot) in
     if augment_data then
       aug_level <- lift (loc_scaling_factor augment_level label) ;;
       for_each (py_range aug_level)
                (augment_once img bbox width height one_hot) xy1
     else ret xy1)%gen.

(** Lines 82-135 for one slice: [X] and [Y] start empty. *)
Definition build_samples (f_name : list string) (labels : list (Box * string)) : M W XY :=
  for_each (combine f_name labels) process_entry ([], []).

End Builder.

Arguments for_each {W A S} l body acc.

(** The box lies within the image: both corners are in
    [0, width] x [0, height]. *)
Definition inside_image (width height : Z) (box : corners) : Prop :=
  let '((x1, y1), (x2, y2)) := box in
  (0 <= x1 <= inject_Z width /\ 0 <= y1 <= inject_Z height
   /\ 0 <= x2 <= inject_Z width /\ 0 <= y2 <= inject_Z height)%Q.

(** The statement that [random_transform] is called on the image at its
    original scale and on the original box: every call an entry adds has an
    image of the shape of the file's image and the entry's box in OpenCV
    form. *)
Definition transform_on_original (cfg : Cfg) (W : World) : Prop :=
  forall (augment_level : list row) (xy xy' : XY W) (f : string) (bbox : Box)
         (label : string) (s s' : state W),
    isfile W f = true ->
    process_entry cfg W true augment_level xy (f, (bbox, label)) s = (Ok xy', s') ->
    forall call,
      In call (skipn (length (transform_calls s)) (transform_calls s')) ->
      shape W (fst call) = shape W (cvtColor W (imread W f))
      /\ snd call = to_opencv_format bbox.

(** The entries of a slice whose file exists. *)
Definition present (W : World) (entries : list (string * (Box * string)))
  : list (string * (Box * string)) :=
  filter (fun e => isfile W (fst e)) entries.

(** The sample lines 95-115 make of an entry when augmentation is off: the
    image read, converted, resized to IMG_INPUT x IMG_INPUT and
    preprocessed; the box relative to the size the image had in the file,
    objectness 1 and the encoding of the class index. *)
Definition base_sample (cfg : Cfg) (W : World) (e : string * (Box * string))
  (p : image W * list Q) : Prop :=
  let '(f, (bbox, label)) := e in
  let img0 := cvtColor W (imread W f) in
  exists index,
    np_where_first (CLASSES cfg) label = Ok index
    /\ fst p = preprocess_img W (resize W img0 (IMG_INPUT cfg, IMG_INPUT cfg))
    /\ snd p = flat_label
                 (to_relative_size bbox (py_float (snd (shape W img0)),
                                         py_float (fst (shape W img0))))
                 (encode_label cfg index).

(** The number of samples an entry can add at most: itself, and with
    augmentation on one variant per round of the loop of line 120. *)
Definition budget (augment_data : bool) (augment_level : list row)
  (e : string * (Box * string)) : nat :=
  if augment_data then
    match loc_scaling_factor augment_level (snd (snd e)) with
    | Ok aug_level => S (Z.to_nat aug_level)
    | Raise _ => 1
    end
  else 1.

(** A label vector as lines 115 and 135 build it: four box numbers,
    objectness 1, the encoding of the index of a class of the categories
    file. *)
Definition built_label (cfg : Cfg) (lab : list Q) : Prop :=
  exists (box : Box) (index : nat),
    (index < length (CLASSES cfg))%nat
    /\ lab = flat_label box (encode_label cfg index).

End SampleBuilder.

Export SampleBuilder.

Module Loop.

(** [l[idx]] for an index list: the elements at those positions. *)
Definition np_take {A : Type} (l : list A) (idx : list nat) : list A :=
  flat_map (fun i => match nth_error l i with
                     | Some a => [a]
                     | None => []
                     end) idx.

Section Scheduler.

Variable cfg : Cfg.
Variable W : World.
Variable batch_size : Z.
Variable augment_data : bool.
Variable augment_level : list row.

(** [sklearn.utils.shuffle(a, b)]: both arrays are indexed by one random
    permutation; arrays of different lengths raise [ValueError]. *)
Definition shuffle {A B : Type} (a : list A) (b : list B) : M W (list A * list B) :=
  if Nat.eqb (length a) (length b) then
    (idx <- draw (fun g => permutation W g (length a)) ;;
     ret (np_take a idx, np_take b idx))%gen
  else raise ValueError.

(** Lines 140-166 for one sub-batch [z]. *)
Definition sub_batch (X : list (image W)) (Y : list (list Q)) (z : Z) : M W unit :=
  (wh <- (if augment_data then
            nw <- read_var (@new_width W) ;;
            gw <- lift (py_div nw (SHRINK_FACTOR cfg)) ;;
            nh <- read_var (@new_height W) ;;
            gh <- lift (py_div nh (SHRINK_FACTOR cfg)) ;;
            ret (gw, gh)
          else
            gw <- lift (py_div (IMG_INPUT cfg) (SHRINK_FACTOR cfg)) ;;
            gh <- lift (py_div (IMG_INPUT cfg) (SHRINK_FACTOR cfg)) ;;
            ret (gw, gh)) ;;
   let (grid_w, grid_h) := wh : Z * Z in
   let labels := py_slice Y (z * batch_size) (z * batch_size + batch_size) in
   y_batch <- lift (grid_encode (N_ANCHORS cfg) (N_CLASSES cfg)
                                  batch_size grid_w grid_h labels) ;;
   yield (py_slice X (z * batch_size) (z * batch_size + batch_size),
          reshape y_batch))%gen.

(** Lines 80-166 for one raw slice [i] of the shuffled dataset. *)
Definition run_slice (x : list string) (y : list (Box * string)) (i : Z) : M W unit :=
  let f_name := py_slice x (i * batch_size) (i * batch_size + batch_size) in
  let labels := py_slice y (i * batch_size) (i * batch_size + batch_size) in
  ((if (i mod 10 =? 0)%Z && augment_data then
      randint <- draw (fun g => random_integers W g 0
                                  (Z.of_nat (length (MULTI_SCALE cfg)) - 1)) ;;
      ms <- lift (py_get (MULTI_SCALE cfg) randint) ;;
      set_multi_scale ms
    else ret tt) ;;;
   xy <- build_samples cfg W augment_data augment_level f_name labels ;;
   xy' <- shuffle (fst xy) (snd xy) ;;
   let (X, Y) := xy' : list (image W) * list (list Q) in
   n <- lift (py_div (Z.of_nat (length X)) batch_size) ;;
   for_each (py_range n) (fun (_ : unit) z => sub_batch X Y z) tt)%gen.

(** One pass of the [while True] loop (lines 78-166): the dataset is
    shuffled and its [slices] slices are processed in turn. The shuffled
    dataset is what the next pass starts from. *)
Definition epoch (slices : Z) (xy : list string * list (Box * string))
  : M W (list string * list (Box * string)) :=
  (xy' <- shuffle (fst xy) (snd xy) ;;
   for_each (py_range slices) (fun (_ : unit) i => run_slice (fst xy') (snd xy') i) tt ;;;
   ret xy')%gen.

Fixpoint epochs (n : nat) (slices : Z) (xy : list string * list (Box * string))
  : M W unit :=
  match n with
  | O => ret tt
  | S m => (xy' <- epoch slices xy ;; epochs m slices xy')%gen
  end.

End Scheduler.

(** The state of a generator that has not run yet. *)
Definition initial_state (W : World) (seed : rng W) : state W :=
  mkState seed None None None [] [] [].

(** [flow_from_list] (lines 51-166), the [while True] loop cut after
    [n_epochs] passes. The generator yields lazily: the consumer has
    received the batches in [yielded] of the final state, whether the run
    ended normally or by an exception. *)
Definition flow_from_list (cfg : Cfg) (W : World) (seed : rng W)
  (x : list string) (y : list (Box * string))
  (batch_size : Z) (scaling_factor : Q) (augment_data : bool) (n_epochs : nat)
  : result unit * state W :=
  (slices <- lift (py_div (Z.of_nat (length x)) batch_size) ;;
   augment_level <- lift (if augment_data then calc_augment_level y scaling_factor
                          else Ok []) ;;
   epochs cfg W batch_size augment_data augment_level n_epochs slices (x, y))%gen
  (initial_state W seed).

(** A yielded pair that holds exactly [batch_size] images and
    [batch_size] label grids. *)
Definition full_batch (W : World) (batch_size : Z) (b : batch W) : Prop :=
  Z.of_nat (length (fst b)) = batch_size /\ Z.of_nat (length (snd b)) = batch_size.

(** Computations under which every batch yielded so far stays a full
    batch. *)
Definition keeps (W : World) (batch_size : Z) {A : Type} (m : M W A) : Prop :=
  forall s, Forall (full_batch W batch_size) (yielded s) ->
            Forall (full_batch W batch_size) (yielded (snd (m s))).

(** Computations that keep a property of the generator state, whether they
    return or raise. *)
Definition preserves (W : World) {A : Type} (I : state W -> Prop) (m : M W A) : Prop :=
  forall s, I s -> I (snd (m s)).

(** A state the augmentation has left no trace in: the transform was never
    called, and [multi_scale], [new_height] and [new_width] are unbound. *)
Definition never_augmented {W : World} (s : state W) : Prop :=
  transform_calls s = [] /\ multi_scale s = None
  /\ new_height s = None /\ new_width s = None.

(** The side of the resized images at one of the configured scales
    (lines 101-102). *)
Definition scaled_side (cfg : Cfg) (n : Z) : Prop :=
  exists ms, In ms (MULTI_SCALE cfg) /\ scaled_size (IMG_INPUT cfg) ms = Ok n.

(** The side of the label grid (lines 140-145). *)
Definition grid_side (cfg : Cfg) (augment_data : bool) (g : Z) : Prop :=
  if augment_data then exists n, scaled_side cfg n /\ g = (n / SHRINK_FACTOR cfg)%Z
  else g = (IMG_INPUT cfg / SHRINK_FACTOR cfg)%Z.

(** A yielded pair whose label grid has the dimensions of line 166:
    [batch_size x grid_h x grid_w x N_ANCHORS*(N_CLASSES+5)], the grid a
    square of side [grid_side]. *)
Definition grid_batch (cfg : Cfg) (W : World) (batch_size : Z) (augment_data : bool)
  (b : batch W) : Prop :=
  exists g,
    grid_side cfg augment_data g
    /\ flat_shape (Z.to_nat batch_size) (Z.to_nat g) (Z.to_nat g)
                  (N_ANCHORS cfg * (5 + N_CLASSES cfg)) (snd b).

(** What the loops maintain about the scale: [multi_scale], once bound, is
    an entry of MULTI_SCALE; [new_width] and [new_height] are bound
    together, to the image side at one of the configured scales; and every
    pair yielded so far has a label grid of the documented dimensions. *)
Definition scale_inv (cfg : Cfg) (W : World) (batch_size : Z) (augment_data : bool)
  (s : state W) : Prop :=
  (forall ms, multi_scale s = Some ms -> In ms (MULTI_SCALE cfg))
  /\ (forall n, new_width s = Some n -> scaled_side cfg n)
  /\ new_height s = new_width s
  /\ Forall (grid_batch cfg W batch_size augment_data) (yielded s).

(** An entry the generator can process with augmentation off: if its file
    exists, its class is in the categories file and the centre of its box,
    relative to the image, is not negative and has finite products with the
    sides of the grid of lines 144-145. *)
Definition entry_ok (cfg : Cfg) (W : World) (e : string * (Box * string)) : Prop :=
  let '(f, (bbox, label)) := e in
  isfile W f = true ->
  In label (CLASSES cfg)
  /\ let img0 := cvtColor W (imread W f) in
     let box := to_relative_size bbox (py_float (snd (shape W img0)),
                                       py_float (fst (shape W img0))) in
     centroid_ok (IMG_INPUT cfg / SHRINK_FACTOR cfg) (IMG_INPUT cfg / SHRINK_FACTOR cfg)
                 (xc box) (yc box).

(** The local variables of the loops, bound or not: [multi_scale] is
    assigned on line 86, [new_height] and [new_width] on lines 101-102. *)
Definition scale_bound {W : World} (s : state W) : Prop := multi_scale s <> None.

Definition size_bound {W : World} (s : state W) : Prop :=
  new_width s <> None /\ new_height s <> None.

(** A computation that, started in a state that satisfies [P], does not
    raise [NameError], and whose result and final state satisfy [Q] when
    it returns. *)
Definition binds (W : World) {A : Type} (P : state W -> Prop) (m : M W A)
  (Q : A -> state W -> Prop) : Prop :=
  forall s, P s ->
    match m s with
    | (Ok a, s') => Q a s'
    | (Raise e, _) => e <> NameError
    end.

(** A sample built with augmentation off from an entry of the dataset [D]
    whose file exists. *)
Definition sample_of (cfg : Cfg) (W : World) (D : list (string * (Box * string)))
  (p : image W * list Q) : Prop :=
  exists e, In e D /\ isfile W (fst e) = true /\ base_sample cfg W e p.

(** A yielded pair made of such samples: its images are the images of the
    samples, in order, and its label grid is the reshaped encoding of their
    label vectors, in the same order, on the grid of lines 144-145. *)
Definition aligned_batch (cfg : Cfg) (W : World) (batch_size : Z)
  (D : list (string * (Box * string))) (b : batch W) : Prop :=
  exists (P : list (image W * list Q)) (T : tensor),
    Forall (sample_of cfg W D) P
    /\ fst b = map fst P
    /\ grid_encode (N_ANCHORS cfg) (N_CLASSES cfg) batch_size
                   (IMG_INPUT cfg / SHRINK_FACTOR cfg) (IMG_INPUT cfg / SHRINK_FACTOR cfg)
                   (map snd P) = Ok T
    /\ snd b = reshape T.

(** A sample built with augmentation on, at image side [n], from an entry
    of the dataset [D] whose file exists: the entry's own sample (lines
    95-115), or a variant the loop of lines 120-135 kept, the transform
    being called with some state [g] of the random generator. *)
Definition scaled_sample (cfg : Cfg) (W : World) (D : list (string * (Box * string)))
  (n : Z) (p : image W * list Q) : Prop :=
  exists f bbox label index,
    In (f, (bbox, label)) D /\ isfile W f = true
    /\ np_where_first (CLASSES cfg) label = Ok index
    /\ let img0 := cvtColor W (imread W f) in
       let height := fst (shape W img0) in
       let width := snd (shape W img0) in
       let img := resize W (resize W img0 (IMG_INPUT cfg, IMG_INPUT cfg)) (n, n) in
       let relative := fun b : Box =>
         flat_label (to_relative_size b (py_float width, py_float height))
                    (encode_label cfg index) in
       p = (preprocess_img W img, relative bbox)
       \/ exists g : rng W,
            let res := fst (random_transform W g img (to_opencv_format bbox)) in
            out_of_bound width height (snd res) = false
            /\ p = (preprocess_img W (fst res),
                    relative (convert_opencv_to_box (snd res))).

(** A yielded pair made of samples built at one scale [ms] of MULTI_SCALE,
    its label grid encoded on the grid of that same scale (lines
    141-142). *)
Definition scaled_batch (cfg : Cfg) (W : World) (batch_size : Z)
  (D : list (string * (Box * string))) (b : batch W) : Prop :=
  exists (ms : Q) (n : Z) (P : list (image W * list Q)) (T : tensor),
    In ms (MULTI_SCALE cfg)
    /\ scaled_size (IMG_INPUT cfg) ms = Ok n
    /\ Forall (scaled_sample cfg W D n) P
    /\ fst b = map fst P
    /\ grid_encode (N_ANCHORS cfg) (N_CLASSES cfg) batch_size
                   (n / SHRINK_FACTOR cfg) (n / SHRINK_FACTOR cfg)
                   (map snd P) = Ok T
    /\ snd b = reshape T.

End Loop.

Export Loop.

(* ================================================================== *)
(** * A concrete configuration and world, for evaluating the model *)
(* ================================================================== *)

Module Sample.

Open Scope string_scope.

(** Two classes, two anchors, a 4x4 grid at scale 1. *)
Definition cfg0 : Cfg :=
  mkCfg 128 32 2 2 [1%Q; 2%Q] ["stop"; "yield"]
        (fun i => match i with O => [1%Q; 0%Q] | _ => [0%Q; 1%Q] end).

(** Images are a file name with a height and a width; every file holds a
    100x200 image except ["missing.jpg"], which does not exist. The random
    generator is a counter: the transform leaves the box in place on draws
    0, 3, 6, ..., moves it by +1000 on draws 1, 4, ... and by -1000 on
    draws 2, 5, ...; shuffles reverse the order. *)
Definition shift_corners (d : Q) (b : corners) : corners :=
  let '((x1, y1), (x2, y2)) := b in ((x1 + d, y1 + d), (x2 + d, y2 + d))%Q.

Definition world0 : World :=
  mkWorld (string * (Z * Z)) nat
    (fun f => negb (String.eqb f "missing.jpg"))
    (fun f => (f, (100, 200)%Z))
    (fun img => img)
    (fun img => snd img)
    (fun img wh => (fst img, (snd wh, fst wh)))
    (fun img => img)
    (fun g img b =>
       ((img, match Nat.modulo g 3 with
              | O => b
              | S O => shift_corners 1000 b
              | _ => shift_corners (-1000) b
              end), S g))
    (fun g lo hi => (lo, S g))
    (fun g n => (rev (seq 0 n), S g)).

Definition box0 : Box := mkBox 50 50 20 20.

(** A dataset of three entries, the last of which has no file. *)
Definition files3 : list string := ["a.jpg"; "b.jpg"; "missing.jpg"].

Definition labels3 : list (Box * string) :=
  [(box0, "stop"); (box0, "yield"); (box0, "yield")].

(** A generator state in which the multi-scale factor is 1, and a data
    frame that asks for one augmented variant of class "stop". *)
Definition state_scale1 (seed : nat) : state world0 :=
  mkState (W := world0) seed (Some 1%Q) None None [] [] [].

Definition level_one : list row := [mkRow "stop" 1 1].

(** The image of "a.jpg" as the generator resizes it at scale 1, and the
    box the transform returns on draw 2: [box0] moved by -1000. *)
Definition resized_a : image world0 := ("a.jpg", (128, 128)%Z).

Definition moved_box : corners := shift_corners (-1000) (to_opencv_format box0).

(** A batch of two flat label vectors for two classes, with centroids at
    (0.999999, 0.999999) and at (1, 1), and its encoding on a 13x13 grid
    with five anchors. *)
Definition labels13 : list (list Q) :=
  [[999999 # 1000000; 999999 # 1000000; 1 # 10; 1 # 10; 1; 0; 1]%Q;
   [1; 1; 1 # 10; 1 # 10; 1; 1; 0]%Q].

Definition tensor13 : tensor :=
  Eval vm_compute in
    match grid_encode 5 2 2 13 13 labels13 with
    | Ok T => T
    | Raise _ => []
    end.

(** A dataset of three classes with frequencies 100, 10 and 1. *)
Definition dataset_100_10_1 : list (Box * string) :=
  repeat (box0, "stop") 100 ++ repeat (box0, "yield") 10 ++ repeat (box0, "zebra") 1.

(** A dataset of three classes with frequencies 1, 5 and 29. *)
Definition dataset_1_5_29 : list (Box * string) :=
  repeat (box0, "stop") 1 ++ repeat (box0, "yield") 5 ++ repeat (box0, "zebra") 29.

(** A dataset of two entries whose files both exist. *)
Definition files2 : list string := ["a.jpg"; "b.jpg"].

Definition labels2 : list (Box * string) := [(box0, "stop"); (box0, "yield")].

End Sample.
(* ================================================================== *)
(** * Basic facts about the Python primitives *)
(* ================================================================== *)

Module PyFacts.

Lemma Ok_inj {A : Type} (a b : A) : Ok a = Ok b -> a = b.
Proof.
  intros H. inversion H. reflexivity.
Qed.

End PyFacts.

Export PyFacts.

(* ================================================================== *)
(** * Facts about binary64 rounding *)
(* ================================================================== *)

Module Float64Facts.

Lemma two_not_zero : ~ 2 == 0.
Proof.
  discriminate.
Qed.

Lemma pow2_pos (k : Z) : 0 < pow2 k.
Proof.
  apply Qpower_0_lt. reflexivity.
Qed.

Lemma pow2_le (a b : Z) : (a <= b)%Z -> pow2 a <= pow2 b.
Proof.
  intros H. apply Qpower_le_compat_l; [exact H|discriminate].
Qed.

Lemma pow2_lt (a b : Z) : (a < b)%Z -> pow2 a < pow2 b.
Proof.
  intros H. apply Qpower_lt_compat_l; [exact H|reflexivity].
Qed.

Lemma pow2_lt_inv (a b : Z) : pow2 a < pow2 b -> (a < b)%Z.
Proof.
  intros H. eapply Qpower_lt_compat_l_inv; [exact H|reflexivity].
Qed.

Lemma pow2_plus (a b : Z) : pow2 (a + b) == pow2 a * pow2 b.
Proof.
  apply Qpower_plus, two_not_zero.
Qed.

Lemma pow2_minus (a b : Z) : pow2 (a - b) == pow2 a / pow2 b.
Proof.
  apply Qpower_minus, two_not_zero.
Qed.

Lemma pow2_Z (k : Z) : (0 <= k)%Z -> pow2 k == inject_Z (2 ^ k).
Proof.
  intros H. unfold pow2. rewrite Zpower_Qpower by exact H. reflexivity.
Qed.

(** Dividing by a power of two and multiplying back. *)
Lemma scale_back (q : Q) (k : Z) : q / pow2 k * pow2 k == q.
Proof.
  field. pose proof (pow2_pos k) as H. intros E. rewrite E in H. discriminate.
Qed.

Lemma scale_le (a b : Q) (k : Z) : a <= b -> a / pow2 k <= b / pow2 k.
Proof.
  intros H. unfold Qdiv. apply Qmult_le_compat_r; [exact H|].
  apply Qlt_le_weak, Qinv_lt_0_compat, pow2_pos.
Qed.

Lemma scale_lt (a b : Q) (k : Z) : a < b -> a / pow2 k < b / pow2 k.
Proof.
  intros H. unfold Qdiv. apply Qmult_lt_compat_r; [|exact H].
  apply Qinv_lt_0_compat, pow2_pos.
Qed.

Lemma Qmake_div (n : Z) (d : positive) : n # d == inject_Z n / inject_Z (Zpos d).
Proof.
  rewrite Qmake_Qdiv. reflexivity.
Qed.

Lemma pow2_ratio (a b : Z) :
  (0 <= a)%Z -> (0 <= b)%Z -> pow2 (a - b) == 2 ^ a # Z.to_pos (2 ^ b).
Proof.
  intros Ha Hb. rewrite pow2_minus, (pow2_Z a), (pow2_Z b), Qmake_Qdiv by assumption.
  rewrite Z2Pos.id by (apply Z.pow_pos_nonneg; lia). reflexivity.
Qed.

(** [ilog2 q] is the integer part of the binary logarithm. *)
Lemma ilog2_spec (q : Q) : 0 < q -> pow2 (ilog2 q) <= q /\ q < pow2 (ilog2 q + 1).
Proof.
  intros Hq. destruct q as [n d]. unfold ilog2. cbn [Qnum Qden].
  assert (Hn : (0 < n)%Z).
  { unfold Qlt in Hq. cbn in Hq. lia. }
  set (a := Z.log2 n). set (b := Z.log2 (Zpos d)).
  assert (Ha : (2 ^ a <= n < 2 ^ (a + 1))%Z).
  { pose proof (Z.log2_spec n Hn) as H. unfold a. rewrite <- Z.add_1_r in H. exact H. }
  assert (Hb : (2 ^ b <= Zpos d < 2 ^ (b + 1))%Z).
  { pose proof (Z.log2_spec (Zpos d) eq_refl) as H. unfold b.
    rewrite <- Z.add_1_r in H. exact H. }
  assert (Ha0 : (0 <= a)%Z) by apply Z.log2_nonneg.
  assert (Hb0 : (0 <= b)%Z) by apply Z.log2_nonneg.
  assert (Hlow : pow2 (a - b - 1) <= n # d).
  { replace (a - b - 1)%Z with (a - (b + 1))%Z by lia.
    rewrite pow2_ratio by lia. unfold Qle. cbn [Qnum Qden].
    rewrite Z2Pos.id by lia. nia. }
  assert (Hhigh : n # d < pow2 (a - b + 1)).
  { replace (a - b + 1)%Z with (a + 1 - b)%Z by lia.
    rewrite pow2_ratio by lia. unfold Qlt. cbn [Qnum Qden].
    rewrite Z2Pos.id by lia. nia. }
  destruct (Qle_bool (pow2 (a - b)) (n # d)) eqn:E.
  - apply Qle_bool_iff in E. split; [exact E|exact Hhigh].
  - split; [exact Hlow|]. replace (a - b - 1 + 1)%Z with (a - b)%Z by lia.
    apply Qnot_le_lt. intros H. apply Qle_bool_iff in H. congruence.
Qed.

Lemma ilog2_unique (q : Q) (e : Z) :
  pow2 e <= q -> q < pow2 (e + 1) -> ilog2 q = e.
Proof.
  intros Hlow Hhigh.
  assert (Hq : 0 < q) by (eapply Qlt_le_trans; [apply (pow2_pos e)|exact Hlow]).
  destruct (ilog2_spec q Hq) as [Hl Hh].
  assert (H1 : (ilog2 q < e + 1)%Z).
  { apply pow2_lt_inv. eapply Qle_lt_trans; [exact Hl|exact Hhigh]. }
  assert (H2 : (e < ilog2 q + 1)%Z).
  { apply pow2_lt_inv. eapply Qle_lt_trans; [exact Hlow|exact Hh]. }
  lia.
Qed.

Lemma ilog2_comp (q1 q2 : Q) : 0 < q1 -> q1 == q2 -> ilog2 q1 = ilog2 q2.
Proof.
  intros Hq Heq. destruct (ilog2_spec q1 Hq) as [Hl Hh].
  symmetry. apply ilog2_unique; rewrite <- Heq; assumption.
Qed.

Lemma ilog2_mono (q1 q2 : Q) : 0 < q1 -> q1 <= q2 -> (ilog2 q1 <= ilog2 q2)%Z.
Proof.
  intros Hq Hle.
  assert (Hq2 : 0 < q2) by (eapply Qlt_le_trans; eassumption).
  destruct (ilog2_spec q1 Hq) as [Hl1 _]. destruct (ilog2_spec q2 Hq2) as [_ Hh2].
  assert (H : (ilog2 q1 < ilog2 q2 + 1)%Z).
  { apply pow2_lt_inv. eapply Qle_lt_trans; [exact Hl1|].
    eapply Qle_lt_trans; [exact Hle|exact Hh2]. }
  lia.
Qed.

(** Rounding to the nearest integer, ties to even. *)
Lemma round_half_even_bounds (m : Q) :
  (Qfloor m <= round_half_even m <= Qfloor m + 1)%Z.
Proof.
  unfold round_half_even. destruct (Qcompare _ _); [destruct (Z.even _)| |]; lia.
Qed.

Lemma round_half_even_Z (z : Z) : round_half_even (inject_Z z) = z.
Proof.
  unfold round_half_even. rewrite Qfloor_Z.
  assert (H : inject_Z z - inject_Z z == 0) by ring.
  rewrite (Qcompare_comp _ _ H (1 # 2) (1 # 2) (Qeq_refl _)). reflexivity.
Qed.

Lemma round_half_even_comp (m1 m2 : Q) :
  m1 == m2 -> round_half_even m1 = round_half_even m2.
Proof.
  intros H. unfold round_half_even. rewrite (Qfloor_comp _ _ H).
  assert (H' : m1 - inject_Z (Qfloor m2) == m2 - inject_Z (Qfloor m2))
    by (rewrite H; reflexivity).
  rewrite (Qcompare_comp _ _ H' (1 # 2) (1 # 2) (Qeq_refl _)). reflexivity.
Qed.

Lemma round_half_even_mono (m1 m2 : Q) :
  m1 <= m2 -> (round_half_even m1 <= round_half_even m2)%Z.
Proof.
  intros H. pose proof (Qfloor_resp_le _ _ H) as Hf.
  pose proof (round_half_even_bounds m1). pose proof (round_half_even_bounds m2).
  destruct (Z.eq_dec (Qfloor m1) (Qfloor m2)) as [E|E]; [|lia].
  unfold round_half_even. rewrite E.
  assert (Hfrac : m1 - inject_Z (Qfloor m2) <= m2 - inject_Z (Qfloor m2)).
  { apply Qplus_le_l with (z := inject_Z (Qfloor m2)). ring_simplify. exact H. }
  destruct (Qcompare (m1 - inject_Z (Qfloor m2)) (1 # 2)) eqn:E1;
    destruct (Qcompare (m2 - inject_Z (Qfloor m2)) (1 # 2)) eqn:E2;
    try (destruct (Z.even (Qfloor m2)); lia); try lia.
  - apply Qeq_alt in E1. apply Qlt_alt in E2. exfalso.
    rewrite E1 in Hfrac. apply (Qlt_not_le _ _ E2). exact Hfrac.
  - apply Qgt_alt in E1. apply Qeq_alt in E2. exfalso.
    rewrite E2 in Hfrac. apply (Qlt_not_le _ _ E1). exact Hfrac.
  - apply Qgt_alt in E1. apply Qlt_alt in E2. exfalso.
    apply (Qlt_not_le _ _ E1). eapply Qle_trans; [exact Hfrac|]. apply Qlt_le_weak. exact E2.
Qed.

Lemma round_half_even_nonneg (m : Q) : 0 <= m -> (0 <= round_half_even m)%Z.
Proof.
  intros H. pose proof (round_half_even_mono 0 m H) as H'.
  change 0 with (inject_Z 0) in H'. rewrite round_half_even_Z in H'. exact H'.
Qed.


(** ** Rounding a magnitude *)

Lemma ulp_exponent_low (q : Q) : (-1074 <= ulp_exponent q)%Z.
Proof.
  unfold ulp_exponent. lia.
Qed.

Lemma round_magnitude_zero (q : Q) : q == 0 -> round_magnitude q == 0.
Proof.
  intros H. unfold round_magnitude.
  assert (Hm : q / pow2 (ulp_exponent q) == inject_Z 0).
  { generalize (pow2 (ulp_exponent q)). intros p. rewrite H. unfold Qdiv. ring. }
  rewrite (round_half_even_comp _ _ Hm), round_half_even_Z. ring.
Qed.

Lemma scaled_nonneg (q : Q) (k : Z) : 0 <= q -> 0 <= q / pow2 k.
Proof.
  intros H. unfold Qdiv. apply Qmult_le_0_compat; [exact H|].
  apply Qlt_le_weak, Qinv_lt_0_compat, pow2_pos.
Qed.

Lemma round_magnitude_nonneg (q : Q) : 0 <= q -> 0 <= round_magnitude q.
Proof.
  intros H. unfold round_magnitude. apply Qmult_le_0_compat.
  - change 0 with (inject_Z 0). rewrite <- Zle_Qle.
    apply round_half_even_nonneg, scaled_nonneg, H.
  - apply Qlt_le_weak, pow2_pos.
Qed.

Lemma round_magnitude_comp (q1 q2 : Q) :
  0 <= q1 -> q1 == q2 -> round_magnitude q1 == round_magnitude q2.
Proof.
  intros Hq Heq. destruct (Qlt_le_dec 0 q1) as [Hpos|Hzero].
  - unfold round_magnitude, ulp_exponent. rewrite (ilog2_comp _ _ Hpos Heq).
    assert (Hm : q1 / pow2 (Z.max (ilog2 q2 - 52) (-1074))
                 == q2 / pow2 (Z.max (ilog2 q2 - 52) (-1074)))
      by (rewrite Heq; reflexivity).
    rewrite (round_half_even_comp _ _ Hm). reflexivity.
  - assert (H1 : q1 == 0) by (apply Qle_antisym; assumption).
    rewrite (round_magnitude_zero _ H1), round_magnitude_zero; [reflexivity|].
    rewrite <- Heq. exact H1.
Qed.

(** The scaled value of a number with the integer [k] as its multiple of
    [2 ^ j]. *)
Lemma scaled_multiple (k : Z) (j ex : Z) :
  (ex <= j)%Z -> inject_Z k * pow2 j / pow2 ex == inject_Z (k * 2 ^ (j - ex)).
Proof.
  intros H. rewrite inject_Z_mult, <- (pow2_Z (j - ex)) by lia.
  rewrite pow2_minus. field.
  pose proof (pow2_pos ex) as Hp. intros E. rewrite E in Hp. discriminate.
Qed.

Lemma round_magnitude_upper (q : Q) :
  0 < q -> round_magnitude q <= pow2 (ilog2 q + 1).
Proof.
  intros Hq. destruct (ilog2_spec q Hq) as [_ Hhigh].
  unfold round_magnitude. set (ex := ulp_exponent q).
  assert (Hm : q / pow2 ex < pow2 (ilog2 q + 1 - ex)).
  { rewrite pow2_minus. apply scale_lt. exact Hhigh. }
  destruct (Z_le_gt_dec 0 (ilog2 q + 1 - ex)) as [Hk|Hk].
  - rewrite (pow2_Z _ Hk) in Hm.
    assert (Hr : (round_half_even (q / pow2 ex) <= 2 ^ (ilog2 q + 1 - ex))%Z).
    { rewrite <- (round_half_even_Z (2 ^ (ilog2 q + 1 - ex))).
      apply round_half_even_mono, Qlt_le_weak, Hm. }
    rewrite Zle_Qle in Hr. rewrite <- (pow2_Z _ Hk) in Hr.
    apply Qle_trans with (pow2 (ilog2 q + 1 - ex) * pow2 ex).
    + apply Qmult_le_compat_r; [exact Hr|apply Qlt_le_weak, pow2_pos].
    + rewrite <- pow2_plus. replace (ilog2 q + 1 - ex + ex)%Z with (ilog2 q + 1)%Z by lia.
      apply Qle_refl.
  - assert (Hhalf : q / pow2 ex < 1 # 2).
    { eapply Qlt_le_trans; [exact Hm|]. change (1 # 2) with (pow2 (-1)).
      apply pow2_le. lia. }
    assert (H0 : 0 <= q / pow2 ex) by (apply scaled_nonneg, Qlt_le_weak, Hq).
    assert (Hfloor : Qfloor (q / pow2 ex) = 0%Z).
    { pose proof (Qfloor_le (q / pow2 ex)) as H1.
      pose proof (Qlt_floor (q / pow2 ex)) as H2.
      assert (H3 : (0 <= Qfloor (q / pow2 ex))%Z).
      { change 0%Z with (Qfloor 0). apply Qfloor_resp_le. exact H0. }
      assert (H4 : (Qfloor (q / pow2 ex) < 1)%Z).
      { rewrite Zlt_Qlt. eapply Qle_lt_trans; [exact H1|].
        eapply Qlt_trans; [exact Hhalf|reflexivity]. }
      lia. }
    assert (Hr : round_half_even (q / pow2 ex) = 0%Z).
    { unfold round_half_even. rewrite Hfloor.
      assert (Hc : Qcompare (q / pow2 ex - inject_Z 0) (1 # 2) = Lt).
      { apply Qlt_alt. unfold Qminus. change (- inject_Z 0) with 0.
        rewrite Qplus_0_r. exact Hhalf. }
      rewrite Hc. reflexivity. }
    rewrite Hr. rewrite Qmult_0_l. apply Qlt_le_weak, pow2_pos.
Qed.

Lemma round_magnitude_lower (q : Q) :
  0 < q -> ulp_exponent q = (ilog2 q - 52)%Z -> pow2 (ilog2 q) <= round_magnitude q.
Proof.
  intros Hq Hex. destruct (ilog2_spec q Hq) as [Hlow _].
  unfold round_magnitude. rewrite Hex.
  assert (Hm : inject_Z (2 ^ 52) <= q / pow2 (ilog2 q - 52)).
  { rewrite <- (pow2_Z 52) by lia.
    replace 52%Z with (ilog2 q - (ilog2 q - 52))%Z at 1 by lia.
    rewrite pow2_minus. apply scale_le. exact Hlow. }
  assert (Hr : (2 ^ 52 <= round_half_even (q / pow2 (ilog2 q - 52)))%Z).
  { rewrite <- (round_half_even_Z (2 ^ 52)) at 1. apply round_half_even_mono, Hm. }
  rewrite Zle_Qle in Hr. rewrite <- (pow2_Z 52) in Hr by lia.
  apply Qle_trans with (pow2 52 * pow2 (ilog2 q - 52)).
  - rewrite <- pow2_plus. replace (52 + (ilog2 q - 52))%Z with (ilog2 q) by lia.
    apply Qle_refl.
  - apply Qmult_le_compat_r; [exact Hr|apply Qlt_le_weak, pow2_pos].
Qed.

Lemma round_magnitude_mono (q1 q2 : Q) :
  0 <= q1 -> q1 <= q2 -> round_magnitude q1 <= round_magnitude q2.
Proof.
  intros H1 Hle.
  assert (H2 : 0 <= q2) by (eapply Qle_trans; eassumption).
  destruct (Qlt_le_dec 0 q1) as [Hpos|Hzero].
  - assert (Hpos2 : 0 < q2) by (eapply Qlt_le_trans; eassumption).
    pose proof (ilog2_mono _ _ Hpos Hle) as He.
    destruct (Z.eq_dec (ulp_exponent q1) (ulp_exponent q2)) as [E|E].
    + unfold round_magnitude. rewrite E. apply Qmult_le_compat_r.
      * rewrite <- Zle_Qle. apply round_half_even_mono, scale_le, Hle.
      * apply Qlt_le_weak, pow2_pos.
    + assert (Hex2 : ulp_exponent q2 = (ilog2 q2 - 52)%Z)
        by (unfold ulp_exponent in *; lia).
      assert (Hlt : (ilog2 q1 + 1 <= ilog2 q2)%Z) by (unfold ulp_exponent in *; lia).
      eapply Qle_trans; [apply round_magnitude_upper, Hpos|].
      eapply Qle_trans; [apply pow2_le, Hlt|].
      apply round_magnitude_lower; assumption.
  - assert (E : q1 == 0) by (apply Qle_antisym; assumption).
    rewrite (round_magnitude_zero _ E). apply round_magnitude_nonneg, H2.
Qed.

(** A multiple of [2 ^ j] by an integer below [2 ^ 53], with [j] not
    below -1074, is its own rounding. *)
Lemma round_magnitude_exact (k j : Z) :
  (0 <= k < 2 ^ 53)%Z -> (-1074 <= j)%Z ->
  round_magnitude (inject_Z k * pow2 j) == inject_Z k * pow2 j.
Proof.
  intros Hk Hj. destruct (Z.eq_dec k 0) as [->|Hk0].
  - rewrite round_magnitude_zero by ring. ring.
  - set (q := inject_Z k * pow2 j).
    assert (Hq : 0 < q).
    { unfold q. apply Qmult_lt_0_compat; [|apply pow2_pos].
      change 0 with (inject_Z 0). rewrite <- Zlt_Qlt. lia. }
    assert (He : (ilog2 q < 53 + j)%Z).
    { apply pow2_lt_inv. destruct (ilog2_spec q Hq) as [Hlow _].
      eapply Qle_lt_trans; [exact Hlow|]. unfold q.
      rewrite pow2_plus, (pow2_Z 53) by lia.
      apply Qmult_lt_compat_r; [apply pow2_pos|]. rewrite <- Zlt_Qlt. lia. }
    assert (Hex : (ulp_exponent q <= j)%Z) by (unfold ulp_exponent; lia).
    unfold round_magnitude. fold q.
    assert (Hm : q / pow2 (ulp_exponent q) == inject_Z (k * 2 ^ (j - ulp_exponent q)))
      by (apply scaled_multiple, Hex).
    rewrite (round_half_even_comp _ _ Hm), round_half_even_Z, <- Hm.
    apply scale_back.
Qed.

(** ** Rounding to nearest *)

Lemma round_nearest_nonneg (q : Q) : 0 <= q -> 0 <= round_nearest q.
Proof.
  intros H. unfold round_nearest.
  assert (E : Qle_bool 0 q = true) by (apply Qle_bool_iff; exact H).
  rewrite E. apply round_magnitude_nonneg, H.
Qed.

Lemma round_nearest_neg (q : Q) : q < 0 -> round_nearest q == - round_magnitude (- q).
Proof.
  intros H. unfold round_nearest.
  destruct (Qle_bool 0 q) eqn:E; [|reflexivity].
  apply Qle_bool_iff in E. exfalso. apply (Qlt_not_le _ _ H). exact E.
Qed.

Lemma round_nearest_pos (q : Q) : 0 <= q -> round_nearest q = round_magnitude q.
Proof.
  intros H. unfold round_nearest.
  assert (E : Qle_bool 0 q = true) by (apply Qle_bool_iff; exact H).
  rewrite E. reflexivity.
Qed.

Lemma round_nearest_nonpos (q : Q) : q <= 0 -> round_nearest q <= 0.
Proof.
  intros H. destruct (Qlt_le_dec q 0) as [Hneg|Hpos].
  - rewrite (round_nearest_neg _ Hneg).
    assert (H0 : 0 <= round_magnitude (- q)).
    { apply round_magnitude_nonneg. apply (Qopp_le_compat q 0) in H. exact H. }
    apply (Qopp_le_compat 0 _) in H0. exact H0.
  - rewrite (round_nearest_pos _ Hpos).
    rewrite round_magnitude_zero; [apply Qle_refl|]. apply Qle_antisym; assumption.
Qed.

Lemma round_nearest_mono (q1 q2 : Q) : q1 <= q2 -> round_nearest q1 <= round_nearest q2.
Proof.
  intros Hle. destruct (Qlt_le_dec q1 0) as [Hn1|Hp1].
  - destruct (Qlt_le_dec q2 0) as [Hn2|Hp2].
    + rewrite (round_nearest_neg _ Hn1), (round_nearest_neg _ Hn2).
      apply Qopp_le_compat. apply round_magnitude_mono.
      * apply Qlt_le_weak in Hn2. apply (Qopp_le_compat q2 0) in Hn2. exact Hn2.
      * apply Qopp_le_compat. exact Hle.
    + eapply Qle_trans; [apply round_nearest_nonpos, Qlt_le_weak, Hn1|].
      apply round_nearest_nonneg, Hp2.
  - assert (Hp2 : 0 <= q2) by (eapply Qle_trans; eassumption).
    rewrite (round_nearest_pos _ Hp1), (round_nearest_pos _ Hp2).
    apply round_magnitude_mono; assumption.
Qed.

Lemma round_nearest_comp (q1 q2 : Q) : q1 == q2 -> round_nearest q1 == round_nearest q2.
Proof.
  intros H. apply Qle_antisym; apply round_nearest_mono; rewrite H; apply Qle_refl.
Qed.

Lemma round_nearest_exact (k j : Z) :
  (Z.abs k < 2 ^ 53)%Z -> (-1074 <= j)%Z ->
  round_nearest (inject_Z k * pow2 j) == inject_Z k * pow2 j.
Proof.
  intros Hk Hj. destruct (Z_lt_le_dec k 0) as [Hneg|Hpos].
  - assert (Hq : inject_Z k * pow2 j < 0).
    { rewrite <- (Qmult_0_l (pow2 j)). apply Qmult_lt_compat_r; [apply pow2_pos|].
      change 0 with (inject_Z 0). rewrite <- Zlt_Qlt. exact Hneg. }
    rewrite (round_nearest_neg _ Hq).
    assert (E : - (inject_Z k * pow2 j) == inject_Z (- k) * pow2 j)
      by (rewrite inject_Z_opp; ring).
    rewrite (round_magnitude_comp _ _ (Qlt_le_weak _ _ ltac:(
      apply (Qopp_lt_compat _ 0) in Hq; exact Hq)) E).
    rewrite round_magnitude_exact by lia. rewrite inject_Z_opp. ring.
  - rewrite round_nearest_pos.
    + apply round_magnitude_exact; lia.
    + apply Qmult_le_0_compat; [|apply Qlt_le_weak, pow2_pos].
      change 0 with (inject_Z 0). rewrite <- Zle_Qle. exact Hpos.
Qed.

Lemma round_nearest_Z (z : Z) :
  (Z.abs z < 2 ^ 53)%Z -> round_nearest (inject_Z z) == inject_Z z.
Proof.
  intros H. assert (E : inject_Z z == inject_Z z * pow2 0) by (unfold pow2; simpl; ring).
  rewrite (round_nearest_comp _ _ E) at 1. rewrite round_nearest_exact by lia.
  symmetry. exact E.
Qed.

Lemma float_max_multiple : float_max == inject_Z (2 ^ 53 - 1) * pow2 971.
Proof.
  unfold float_max. vm_compute. reflexivity.
Qed.

Lemma round_nearest_float_max : round_nearest float_max == float_max.
Proof.
  rewrite (round_nearest_comp _ _ float_max_multiple), round_nearest_exact by lia.
  symmetry. apply float_max_multiple.
Qed.

Lemma float_max_pos : 0 < float_max.
Proof.
  reflexivity.
Qed.

(** ** The finite results *)

Lemma round64_Ok (q r : Q) :
  round64 q = Ok r <-> r = round_nearest q /\ Qabs (round_nearest q) <= float_max.
Proof.
  unfold round64. destruct (Qle_bool (Qabs (round_nearest q)) float_max) eqn:E.
  - apply Qle_bool_iff in E. split.
    + intros H. inversion H. auto.
    + intros [-> _]. reflexivity.
  - split; [discriminate|]. intros [_ H]. apply Qle_bool_iff in H. congruence.
Qed.

Lemma round64_mono (q1 q2 r1 r2 : Q) :
  round64 q1 = Ok r1 -> round64 q2 = Ok r2 -> q1 <= q2 -> r1 <= r2.
Proof.
  intros H1 H2 Hle. apply round64_Ok in H1, H2. destruct H1 as [-> _], H2 as [-> _].
  apply round_nearest_mono, Hle.
Qed.

Lemma round64_nonneg (q r : Q) : round64 q = Ok r -> 0 <= q -> 0 <= r.
Proof.
  intros H Hq. apply round64_Ok in H. destruct H as [-> _].
  apply round_nearest_nonneg, Hq.
Qed.

Lemma round64_nonpos (q r : Q) : round64 q = Ok r -> q <= 0 -> r <= 0.
Proof.
  intros H Hq. apply round64_Ok in H. destruct H as [-> _].
  apply round_nearest_nonpos, Hq.
Qed.

Lemma round_nearest_opp (q : Q) : round_nearest (- q) == - round_nearest q.
Proof.
  destruct (Qlt_le_dec q 0) as [Hn|Hp].
  - rewrite (round_nearest_neg _ Hn).
    assert (H : 0 <= - q).
    { apply Qlt_le_weak in Hn. apply (Qopp_le_compat q 0) in Hn. exact Hn. }
    rewrite (round_nearest_pos _ H). ring.
  - destruct (Qlt_le_dec 0 q) as [Hpos|Hzero].
    + assert (Hn : - q < 0) by (apply (Qopp_lt_compat 0 q) in Hpos; exact Hpos).
      rewrite (round_nearest_neg _ Hn), (round_nearest_pos _ Hp).
      rewrite (round_magnitude_comp (- - q) q); [reflexivity| |ring].
      rewrite Qopp_involutive. exact Hp.
    + assert (E : q == 0) by (apply Qle_antisym; assumption).
      assert (E' : - q == 0) by (rewrite E; reflexivity).
      rewrite (round_nearest_comp _ _ E'), (round_nearest_comp _ _ E).
      rewrite round_nearest_pos by apply Qle_refl.
      rewrite round_magnitude_zero by reflexivity. reflexivity.
Qed.

(** A value within the finite range is rounded to a finite value. *)
Lemma round64_finite (q : Q) :
  Qabs q <= float_max -> exists r, round64 q = Ok r /\ r == round_nearest q.
Proof.
  intros H. exists (round_nearest q). split; [|reflexivity].
  apply round64_Ok. split; [reflexivity|].
  apply Qabs_Qle_condition in H. destruct H as [Hlow Hhigh].
  apply Qabs_Qle_condition. split.
  - rewrite <- round_nearest_float_max, <- round_nearest_opp.
    apply round_nearest_mono, Hlow.
  - rewrite <- round_nearest_float_max. apply round_nearest_mono, Hhigh.
Qed.

Lemma round64_comp (q1 q2 r1 : Q) :
  q1 == q2 -> round64 q1 = Ok r1 -> exists r2, round64 q2 = Ok r2 /\ r1 == r2.
Proof.
  intros Heq H. apply round64_Ok in H. destruct H as [-> Hfin].
  exists (round_nearest q2). split; [|apply round_nearest_comp, Heq].
  apply round64_Ok. split; [reflexivity|].
  rewrite <- (round_nearest_comp _ _ Heq). exact Hfin.
Qed.

Lemma round64_Z (z : Z) :
  (Z.abs z < 2 ^ 53)%Z -> exists r, round64 (inject_Z z) = Ok r /\ r == inject_Z z.
Proof.
  intros H. exists (round_nearest (inject_Z z)). split; [|apply round_nearest_Z, H].
  apply round64_Ok. split; [reflexivity|].
  rewrite (round_nearest_Z _ H). apply Qabs_Qle_condition.
  assert (Hb : inject_Z (2 ^ 53) <= float_max) by (vm_compute; discriminate).
  split.
  - apply Qle_trans with (- inject_Z (2 ^ 53)); [apply Qopp_le_compat, Hb|].
    rewrite <- inject_Z_opp, <- Zle_Qle. lia.
  - eapply Qle_trans; [|exact Hb]. rewrite <- Zle_Qle. lia.
Qed.

(** ** The float operations *)

Lemma rbind_Ok {A B : Type} (m : result A) (f : A -> result B) (b : B) :
  rbind m f = Ok b <-> exists a, m = Ok a /\ f a = Ok b.
Proof.
  destruct m as [a|e]; cbn [rbind]; split.
  - intros H. exists a. auto.
  - intros (a' & Ha & H). inversion Ha. subst. exact H.
  - discriminate.
  - intros (a' & Ha & _). discriminate.
Qed.

Lemma fmul_Ok (a b p : Q) :
  fmul a b = Ok p <->
  exists a' b', round64 a = Ok a' /\ round64 b = Ok b' /\ round64 (a' * b') = Ok p.
Proof.
  unfold fmul, to_float. rewrite rbind_Ok. split.
  - intros (a' & Ha & H). apply rbind_Ok in H. destruct H as (b' & Hb & H).
    exists a', b'. auto.
  - intros (a' & b' & Ha & Hb & H). exists a'. split; [exact Ha|].
    apply rbind_Ok. exists b'. auto.
Qed.

Lemma fdiv_Ok (a b p : Q) :
  fdiv a b = Ok p <->
  exists a' b', round64 a = Ok a' /\ round64 b = Ok b' /\ ~ b' == 0
                /\ round64 (a' / b') = Ok p.
Proof.
  unfold fdiv, to_float. rewrite rbind_Ok. split.
  - intros (a' & Ha & H). apply rbind_Ok in H. destruct H as (b' & Hb & H).
    exists a', b'. destruct (Qeq_bool b' 0) eqn:E; [discriminate|].
    apply Qeq_bool_neq in E. auto.
  - intros (a' & b' & Ha & Hb & Hne & H). exists a'. split; [exact Ha|].
    apply rbind_Ok. exists b'. split; [exact Hb|].
    destruct (Qeq_bool b' 0) eqn:E; [|exact H].
    apply Qeq_bool_iff in E. contradiction.
Qed.

Lemma fmul_nonneg (a b p : Q) : 0 <= a -> 0 <= b -> fmul a b = Ok p -> 0 <= p.
Proof.
  intros Ha Hb H. apply fmul_Ok in H. destruct H as (a' & b' & Ea & Eb & Ep).
  apply (round64_nonneg _ _ Ep). apply Qmult_le_0_compat.
  - exact (round64_nonneg _ _ Ea Ha).
  - exact (round64_nonneg _ _ Eb Hb).
Qed.

Lemma Qmult_le_compat_nonneg (a1 a2 b1 b2 : Q) :
  0 <= a1 -> a1 <= a2 -> 0 <= b1 -> b1 <= b2 -> a1 * b1 <= a2 * b2.
Proof.
  intros Ha Hab Hb Hbb. apply Qle_trans with (a2 * b1).
  - apply Qmult_le_compat_r; assumption.
  - rewrite !(Qmult_comm a2). apply Qmult_le_compat_r; [assumption|].
    apply Qle_trans with a1; assumption.
Qed.

Lemma fmul_mono (a1 a2 b1 b2 p1 p2 : Q) :
  0 <= a1 -> a1 <= a2 -> 0 <= b1 -> b1 <= b2 ->
  fmul a1 b1 = Ok p1 -> fmul a2 b2 = Ok p2 -> p1 <= p2.
Proof.
  intros Ha Hab Hb Hbb H1 H2.
  apply fmul_Ok in H1, H2.
  destruct H1 as (a1' & b1' & Ea1 & Eb1 & Ep1).
  destruct H2 as (a2' & b2' & Ea2 & Eb2 & Ep2).
  apply (round64_mono _ _ _ _ Ep1 Ep2). apply Qmult_le_compat_nonneg.
  - exact (round64_nonneg _ _ Ea1 Ha).
  - exact (round64_mono _ _ _ _ Ea1 Ea2 Hab).
  - exact (round64_nonneg _ _ Eb1 Hb).
  - exact (round64_mono _ _ _ _ Eb1 Eb2 Hbb).
Qed.

Lemma Qdiv_nonneg (a b : Q) : 0 <= a -> 0 <= b -> 0 <= a / b.
Proof.
  intros Ha Hb. unfold Qdiv. apply Qmult_le_0_compat; [exact Ha|].
  apply Qinv_le_0_compat. exact Hb.
Qed.

(** Dividing a non-negative number by a larger divisor gives less. *)
Lemma Qdiv_antitone (m f1 f2 : Q) :
  0 <= m -> 0 < f1 -> f1 <= f2 -> m / f2 <= m / f1.
Proof.
  intros Hm Hf1 Hle.
  assert (Hf2 : 0 < f2) by (eapply Qlt_le_trans; eassumption).
  apply Qle_shift_div_r; [exact Hf2|].
  apply Qle_trans with ((m / f1) * f1).
  - unfold Qdiv. rewrite <- Qmult_assoc.
    rewrite (Qmult_comm (/ f1)), Qmult_inv_r.
    + rewrite Qmult_1_r. apply Qle_refl.
    + intros H0. rewrite H0 in Hf1. discriminate.
  - rewrite !(Qmult_comm (m / f1)).
    apply Qmult_le_compat_r; [exact Hle|].
    apply Qdiv_nonneg; [exact Hm|]. apply Qlt_le_weak, Hf1.
Qed.

Lemma Qdiv_mono_l (m1 m2 f : Q) : 0 <= f -> m1 <= m2 -> m1 / f <= m2 / f.
Proof.
  intros Hf Hm. unfold Qdiv. apply Qmult_le_compat_r; [exact Hm|].
  apply Qinv_le_0_compat. exact Hf.
Qed.

Lemma fdiv_nonneg (a b p : Q) : 0 <= a -> 0 <= b -> fdiv a b = Ok p -> 0 <= p.
Proof.
  intros Ha Hb H. apply fdiv_Ok in H. destruct H as (a' & b' & Ea & Eb & _ & Ep).
  apply (round64_nonneg _ _ Ep). apply Qdiv_nonneg.
  - exact (round64_nonneg _ _ Ea Ha).
  - exact (round64_nonneg _ _ Eb Hb).
Qed.

(** With a non-negative dividend, a larger divisor gives a smaller
    quotient, in floats as over the rationals. *)
Lemma fdiv_antitone (m f1 f2 p1 p2 : Q) :
  0 <= m -> 0 <= f1 -> f1 <= f2 ->
  fdiv m f1 = Ok p1 -> fdiv m f2 = Ok p2 -> p2 <= p1.
Proof.
  intros Hm Hf1 Hle H1 H2. apply fdiv_Ok in H1, H2.
  destruct H1 as (m1 & f1' & Em1 & Ef1 & Hne1 & Ep1).
  destruct H2 as (m2 & f2' & Em2 & Ef2 & Hne2 & Ep2).
  assert (m2 = m1) by congruence. subst m2.
  apply (round64_mono _ _ _ _ Ep2 Ep1). apply Qdiv_antitone.
  - exact (round64_nonneg _ _ Em1 Hm).
  - pose proof (round64_nonneg _ _ Ef1 Hf1) as H0.
    apply Qle_lteq in H0. destruct H0 as [H0|H0]; [exact H0|].
    exfalso. apply Hne1. symmetry. exact H0.
  - exact (round64_mono _ _ _ _ Ef1 Ef2 Hle).
Qed.

Lemma fdiv_mono_l (m1 m2 f p1 p2 : Q) :
  0 <= f -> m1 <= m2 -> fdiv m1 f = Ok p1 -> fdiv m2 f = Ok p2 -> p1 <= p2.
Proof.
  intros Hf Hm H1 H2. apply fdiv_Ok in H1, H2.
  destruct H1 as (m1' & f1' & Em1 & Ef1 & Hne1 & Ep1).
  destruct H2 as (m2' & f2' & Em2 & Ef2 & Hne2 & Ep2).
  assert (f2' = f1') by congruence. subst f2'.
  apply (round64_mono _ _ _ _ Ep1 Ep2). apply Qdiv_mono_l.
  - exact (round64_nonneg _ _ Ef1 Hf).
  - exact (round64_mono _ _ _ _ Em1 Em2 Hm).
Qed.

(** ** The results of rounding are floats *)

Lemma round_magnitude_significand (q : Q) :
  0 < q -> (0 <= round_half_even (q / pow2 (ulp_exponent q)) <= 2 ^ 53)%Z.
Proof.
  intros Hq. split.
  - apply round_half_even_nonneg, scaled_nonneg, Qlt_le_weak, Hq.
  - destruct (ilog2_spec q Hq) as [_ Hhigh].
    rewrite <- (round_half_even_Z (2 ^ 53)). apply round_half_even_mono.
    rewrite <- (pow2_Z 53) by lia. apply Qlt_le_weak.
    apply Qlt_le_trans with (pow2 (ilog2 q + 1 - ulp_exponent q)).
    + rewrite pow2_minus. apply scale_lt. exact Hhigh.
    + apply pow2_le. unfold ulp_exponent. lia.
Qed.

Lemma round_magnitude_idem (q : Q) :
  0 <= q -> round_magnitude (round_magnitude q) == round_magnitude q.
Proof.
  intros Hq. destruct (Qlt_le_dec 0 q) as [Hpos|Hzero].
  - pose proof (round_magnitude_significand q Hpos) as Hk.
    pose proof (ulp_exponent_low q) as Hex.
    unfold round_magnitude at 2 3.
    set (k := round_half_even (q / pow2 (ulp_exponent q))) in *.
    set (ex := ulp_exponent q) in *. cbv zeta.
    destruct (Z.eq_dec k (2 ^ 53)) as [E|E].
    + assert (Hform : inject_Z k * pow2 ex == inject_Z (2 ^ 52) * pow2 (ex + 1)).
      { rewrite E, pow2_plus. change (pow2 1) with 2.
        change (2 ^ 53)%Z with (2 ^ 52 * 2)%Z. rewrite inject_Z_mult.
        change (inject_Z 2) with 2. ring. }
      assert (H0 : 0 <= inject_Z k * pow2 ex).
      { apply Qmult_le_0_compat; [|apply Qlt_le_weak, pow2_pos].
        change 0 with (inject_Z 0). rewrite <- Zle_Qle. lia. }
      rewrite (round_magnitude_comp _ _ H0 Hform).
      rewrite round_magnitude_exact by lia. symmetry. exact Hform.
    + apply round_magnitude_exact; lia.
  - assert (E : q == 0) by (apply Qle_antisym; assumption).
    pose proof (round_magnitude_zero q E) as H0.
    rewrite (round_magnitude_comp _ 0 (round_magnitude_nonneg q Hq) H0).
    rewrite H0. apply round_magnitude_zero. reflexivity.
Qed.

Lemma round_nearest_idem (q : Q) : round_nearest (round_nearest q) == round_nearest q.
Proof.
  destruct (Qlt_le_dec q 0) as [Hneg|Hpos].
  - assert (H : 0 <= - q).
    { apply Qlt_le_weak in Hneg. apply (Qopp_le_compat q 0) in Hneg. exact Hneg. }
    pose proof (round_nearest_neg q Hneg) as E.
    rewrite (round_nearest_comp _ _ E), round_nearest_opp, E.
    rewrite (round_nearest_pos _ (round_magnitude_nonneg _ H)).
    rewrite round_magnitude_idem by exact H. reflexivity.
  - rewrite (round_nearest_pos q Hpos).
    rewrite (round_nearest_pos _ (round_magnitude_nonneg _ Hpos)).
    apply round_magnitude_idem, Hpos.
Qed.

(** The result of a rounding is a binary64 value. *)
Lemma round64_is_float (q r : Q) : round64 q = Ok r -> is_float r.
Proof.
  intros H. apply round64_Ok in H. destruct H as [-> Hfin].
  exists (round_nearest (round_nearest q)). split; [|apply round_nearest_idem].
  apply round64_Ok. split; [reflexivity|]. rewrite round_nearest_idem. exact Hfin.
Qed.

(** ** The error of a rounding *)

Lemma round_half_even_near (m : Q) :
  m - (1 # 2) <= inject_Z (round_half_even m) /\ inject_Z (round_half_even m) <= m + (1 # 2).
Proof.
  unfold round_half_even.
  pose proof (Qfloor_le m) as Hl. pose proof (Qlt_floor m) as Hh.
  rewrite inject_Z_plus in Hh. change (inject_Z 1) with 1 in Hh.
  destruct (Qcompare (m - inject_Z (Qfloor m)) (1 # 2)) eqn:E.
  - apply Qeq_alt in E. destruct (Z.even (Qfloor m)).
    + split; lra.
    + rewrite inject_Z_plus. change (inject_Z 1) with 1. split; lra.
  - apply Qlt_alt in E. split; lra.
  - apply Qgt_alt in E. rewrite inject_Z_plus. change (inject_Z 1) with 1. split; lra.
Qed.

Lemma round_magnitude_near (q : Q) :
  q - pow2 (ulp_exponent q - 1) <= round_magnitude q
  /\ round_magnitude q <= q + pow2 (ulp_exponent q - 1).
Proof.
  unfold round_magnitude. set (ex := ulp_exponent q). cbv zeta.
  destruct (round_half_even_near (q / pow2 ex)) as [Hl Hh].
  pose proof (pow2_pos ex) as Hp.
  assert (Hhalf : pow2 (ex - 1) == (1 # 2) * pow2 ex).
  { rewrite pow2_minus. change (pow2 1) with 2. field. }
  pose proof (scale_back q ex) as Hb.
  rewrite Hhalf.
  assert (H1 : (q / pow2 ex - (1 # 2)) * pow2 ex
               <= inject_Z (round_half_even (q / pow2 ex)) * pow2 ex)
    by (apply Qmult_le_compat_r; [exact Hl|lra]).
  assert (H2 : inject_Z (round_half_even (q / pow2 ex)) * pow2 ex
               <= (q / pow2 ex + (1 # 2)) * pow2 ex)
    by (apply Qmult_le_compat_r; [exact Hh|lra]).
  set (k := inject_Z (round_half_even (q / pow2 ex))) in *.
  set (a := q / pow2 ex) in *. set (p := pow2 ex) in *.
  split; lra.
Qed.

Lemma ilog2_pow2 (k : Z) : ilog2 (pow2 k) = k.
Proof.
  apply ilog2_unique; [apply Qle_refl|apply pow2_lt; lia].
Qed.

(** The error of a rounding is at most half a unit in the last place;
    relative to a normal number that is at most 2^-53. *)
Lemma round_nearest_relative (q : Q) :
  pow2 (-1022) <= q ->
  (1 - unit_roundoff) * q <= round_nearest q /\ round_nearest q <= (1 + unit_roundoff) * q.
Proof.
  intros Hq.
  assert (Hpos : 0 < q) by (eapply Qlt_le_trans; [apply (pow2_pos (-1022))|exact Hq]).
  rewrite (round_nearest_pos q (Qlt_le_weak _ _ Hpos)).
  assert (He : (-1022 <= ilog2 q)%Z).
  { rewrite <- (ilog2_pow2 (-1022)). apply ilog2_mono; [apply pow2_pos|exact Hq]. }
  destruct (ilog2_spec q Hpos) as [Hlow _].
  destruct (round_magnitude_near q) as [Hl Hh].
  assert (Hex : ulp_exponent q = (ilog2 q - 52)%Z) by (unfold ulp_exponent; lia).
  rewrite Hex in Hl, Hh.
  assert (Hu : pow2 (ilog2 q - 52 - 1) == unit_roundoff * pow2 (ilog2 q)).
  { unfold unit_roundoff. rewrite <- pow2_plus. 
    replace (ilog2 q - 52 - 1)%Z with (-53 + ilog2 q)%Z by lia. reflexivity. }
  rewrite Hu in Hl, Hh.
  assert (Hscaled : unit_roundoff * pow2 (ilog2 q) <= unit_roundoff * q).
  { rewrite !(Qmult_comm unit_roundoff). apply Qmult_le_compat_r; [exact Hlow|].
    apply Qlt_le_weak, pow2_pos. }
  set (r := round_magnitude q) in *. set (p := pow2 (ilog2 q)) in *.
  split; lra.
Qed.

(** The error of any rounding of a non-negative number: at most 2^-53 of
    the number, or half the smallest subnormal. *)
Lemma round_nearest_absolute (q : Q) :
  0 <= q ->
  q - unit_roundoff * q - pow2 (-1075) <= round_nearest q
  /\ round_nearest q <= q + unit_roundoff * q + pow2 (-1075).
Proof.
  intros Hq. rewrite (round_nearest_pos q Hq).
  pose proof (pow2_pos (-1075)) as Ht.
  assert (Hu0 : 0 <= unit_roundoff * q).
  { apply Qmult_le_0_compat; [apply Qlt_le_weak, pow2_pos|exact Hq]. }
  destruct (Qlt_le_dec 0 q) as [Hpos|Hzero].
  - destruct (ilog2_spec q Hpos) as [Hlow _].
    destruct (round_magnitude_near q) as [Hl Hh].
    assert (Hulp : pow2 (ulp_exponent q - 1) <= unit_roundoff * q + pow2 (-1075)).
    { unfold ulp_exponent. destruct (Z.max_spec (ilog2 q - 52) (-1074)) as [[_ ->]|[_ ->]].
      - change (-1074 - 1)%Z with (-1075)%Z. lra.
      - assert (Hu : pow2 (ilog2 q - 52 - 1) == unit_roundoff * pow2 (ilog2 q)).
        { unfold unit_roundoff. rewrite <- pow2_plus.
          replace (ilog2 q - 52 - 1)%Z with (-53 + ilog2 q)%Z by lia. reflexivity. }
        rewrite Hu.
        assert (Hscaled : unit_roundoff * pow2 (ilog2 q) <= unit_roundoff * q).
        { rewrite !(Qmult_comm unit_roundoff). apply Qmult_le_compat_r; [exact Hlow|].
          apply Qlt_le_weak, pow2_pos. }
        lra. }
    set (r := round_magnitude q) in *.
    set (c := pow2 (ulp_exponent q - 1)) in *. split; lra.
  - assert (E : q == 0) by (apply Qle_antisym; assumption).
    rewrite (round_magnitude_zero q E). split; lra.
Qed.

Lemma Qfloor_close (a b : Q) :
  a < b + 1 -> b < a + 1 -> (Z.abs (Qfloor a - Qfloor b) <= 1)%Z.
Proof.
  intros H1 H2.
  pose proof (Qfloor_le a) as Ha1. pose proof (Qlt_floor a) as Ha2.
  pose proof (Qfloor_le b) as Hb1. pose proof (Qlt_floor b) as Hb2.
  rewrite inject_Z_plus in Ha2, Hb2. change (inject_Z 1) with 1 in Ha2, Hb2.
  assert (Hab : (Qfloor a < Qfloor b + 2)%Z).
  { rewrite Zlt_Qlt, inject_Z_plus. change (inject_Z 2) with 2. lra. }
  assert (Hba : (Qfloor b < Qfloor a + 2)%Z).
  { rewrite Zlt_Qlt, inject_Z_plus. change (inject_Z 2) with 2. lra. }
  lia.
Qed.

Lemma round64_relative (q r : Q) :
  round64 q = Ok r -> pow2 (-1022) <= q ->
  (1 - unit_roundoff) * q <= r /\ r <= (1 + unit_roundoff) * q.
Proof.
  intros H Hq. apply round64_Ok in H. destruct H as [-> _].
  apply round_nearest_relative, Hq.
Qed.

Lemma round64_absolute (q r : Q) :
  round64 q = Ok r -> 0 <= q ->
  q - unit_roundoff * q - pow2 (-1075) <= r /\ r <= q + unit_roundoff * q + pow2 (-1075).
Proof.
  intros H Hq. apply round64_Ok in H. destruct H as [-> _].
  apply round_nearest_absolute, Hq.
Qed.

(** The quotient and the product of two floats, against the exact ones. *)
Lemma fdiv_float (a b p : Q) :
  is_float a -> is_float b -> fdiv a b = Ok p ->
  exists p', round64 (a / b) = Ok p' /\ p == p'.
Proof.
  intros (a1 & Ea & Ha) (b1 & Eb & Hb) H. apply fdiv_Ok in H.
  destruct H as (a' & b' & Ea' & Eb' & _ & Hp).
  assert (a' = a1) by congruence. assert (b' = b1) by congruence. subst a' b'.
  apply (round64_comp (a1 / b1) (a / b)); [rewrite Ha, Hb; reflexivity|exact Hp].
Qed.

Lemma fmul_float (a b p : Q) :
  is_float a -> is_float b -> fmul a b = Ok p ->
  exists p', round64 (a * b) = Ok p' /\ p == p'.
Proof.
  intros (a1 & Ea & Ha) (b1 & Eb & Hb) H. apply fmul_Ok in H.
  destruct H as (a' & b' & Ea' & Eb' & Hp).
  assert (a' = a1) by congruence. assert (b' = b1) by congruence. subst a' b'.
  apply (round64_comp (a1 * b1) (a * b)); [rewrite Ha, Hb; reflexivity|exact Hp].
Qed.

Lemma is_float_Z (z : Z) : (Z.abs z < 2 ^ 53)%Z -> is_float (inject_Z z).
Proof.
  intros H. destruct (round64_Z z H) as (r & Er & Hr). exists r. auto.
Qed.

Lemma round_nearest_abs (q b : Q) :
  round_nearest b == b -> Qabs q <= b -> Qabs (round_nearest q) <= b.
Proof.
  intros Hb H. apply Qabs_Qle_condition in H. destruct H as [Hlow Hhigh].
  apply Qabs_Qle_condition. split.
  - rewrite <- Hb, <- round_nearest_opp. apply round_nearest_mono, Hlow.
  - rewrite <- Hb. apply round_nearest_mono, Hhigh.
Qed.

Lemma round_nearest_pow2 (i : Z) : (-1074 <= i)%Z -> round_nearest (pow2 i) == pow2 i.
Proof.
  intros Hi. assert (E : pow2 i == inject_Z 1 * pow2 i) by ring.
  rewrite (round_nearest_comp _ _ E), round_nearest_exact by (simpl; lia).
  symmetry. exact E.
Qed.

Lemma pow2_finite (i : Z) : (i <= 1023)%Z -> pow2 i <= float_max.
Proof.
  intros Hi. apply Qle_trans with (pow2 1023); [apply pow2_le, Hi|].
  vm_compute. discriminate.
Qed.

(** The product of two operands bounded by powers of two whose exponents
    add up to at most 1023 is finite. *)
Lemma fmul_finite (a b : Q) (i j : Z) :
  (-1074 <= i <= 1023)%Z -> (-1074 <= j <= 1023)%Z -> (i + j <= 1023)%Z ->
  Qabs a <= pow2 i -> Qabs b <= pow2 j -> finite_product a b.
Proof.
  intros Hi Hj Hij Ha Hb.
  destruct (round64_finite a) as (a' & Ea & Ha').
  { eapply Qle_trans; [exact Ha|]. apply pow2_finite. lia. }
  destruct (round64_finite b) as (b' & Eb & Hb').
  { eapply Qle_trans; [exact Hb|]. apply pow2_finite. lia. }
  destruct (round64_finite (a' * b')) as (p & Ep & _).
  { rewrite Qabs_Qmult. apply Qle_trans with (pow2 i * pow2 j).
    - apply Qmult_le_compat_nonneg; try apply Qabs_nonneg.
      + rewrite Ha'. apply round_nearest_abs; [apply round_nearest_pow2; lia|exact Ha].
      + rewrite Hb'. apply round_nearest_abs; [apply round_nearest_pow2; lia|exact Hb].
    - rewrite <- pow2_plus. apply pow2_finite. exact Hij. }
  exists p. apply fmul_Ok. exists a', b'. auto.
Qed.

(** The product of two integers is exact as long as the operands and the
    product stay below 2^53. *)
Lemma fmul_Z (a b : Z) :
  (Z.abs a < 2 ^ 53)%Z -> (Z.abs b < 2 ^ 53)%Z -> (Z.abs (a * b) < 2 ^ 53)%Z ->
  exists p, fmul (inject_Z a) (inject_Z b) = Ok p /\ p == inject_Z (a * b).
Proof.
  intros Ha Hb Hab.
  destruct (round64_Z a Ha) as (a' & Ea & Ha').
  destruct (round64_Z b Hb) as (b' & Eb & Hb').
  destruct (round64_Z (a * b) Hab) as (p & Ep & Hp).
  assert (E : inject_Z (a * b) == a' * b') by (rewrite inject_Z_mult, Ha', Hb'; reflexivity).
  destruct (round64_comp _ _ _ E Ep) as (p' & Ep' & Hp').
  exists p'. split.
  - apply fmul_Ok. exists a', b'. auto.
  - rewrite <- Hp'. exact Hp.
Qed.

Lemma fmul_is_float (a b p : Q) : fmul a b = Ok p -> is_float p.
Proof.
  intros H. apply fmul_Ok in H. destruct H as (a' & b' & _ & _ & Hp).
  exact (round64_is_float _ _ Hp).
Qed.

Lemma fdiv_is_float (a b p : Q) : fdiv a b = Ok p -> is_float p.
Proof.
  intros H. apply fdiv_Ok in H. destruct H as (a' & b' & _ & _ & _ & Hp).
  exact (round64_is_float _ _ Hp).
Qed.

Lemma fmul_comp (a1 a2 b1 b2 p1 : Q) :
  a1 == a2 -> b1 == b2 -> fmul a1 b1 = Ok p1 ->
  exists p2, fmul a2 b2 = Ok p2 /\ p1 == p2.
Proof.
  intros Ha Hb H. apply fmul_Ok in H. destruct H as (a' & b' & Ea & Eb & Ep).
  destruct (round64_comp _ _ _ Ha Ea) as (a2' & Ea2 & Ha2).
  destruct (round64_comp _ _ _ Hb Eb) as (b2' & Eb2 & Hb2).
  assert (E : a' * b' == a2' * b2') by (rewrite Ha2, Hb2; reflexivity).
  destruct (round64_comp _ _ _ E Ep) as (p2 & Ep2 & Hp2).
  exists p2. split; [|exact Hp2]. apply fmul_Ok. exists a2', b2'. auto.
Qed.

End Float64Facts.

Export Float64Facts.

(* ================================================================== *)
(** * The model against the primitive floats *)
(* ================================================================== *)

Module Binary64Facts.

(** On every pair of [Binary64.operands] the primitive product and the
    primitive quotient have the values [Float64.fmul] and [Float64.fdiv]
    compute, infinities where the model raises [OverflowError]. *)
Example products_agree : forallb Binary64.mul_agrees Binary64.operands = true.
Proof.
  vm_compute. reflexivity.
Qed.

Example quotients_agree :
  forallb Binary64.div_agrees
          (filter (fun ab => negb (PrimFloat.eqb (snd ab) PrimFloat.zero)) Binary64.operands) = true.
Proof.
  vm_compute. reflexivity.
Qed.

(** On a grid of 13 columns the float 0.999999 falls in column 12 and 1.0
    gives 13, which the guard rejects. *)
Example cell_index_near_one :
  Binary64.cell_index Binary64.near_one 13 = Some 12%Z
  /\ Binary64.cell_index Binary64.one 13 = Some 13%Z.
Proof.
  split; vm_compute; reflexivity.
Qed.

(** Frequencies 100, 10, 1 with scaling factor 5 give the counts 1, 18,
    185. *)
Example augment_count_100_10_1 :
  map (Binary64.augment_count 5 [100; 10; 1]%Z) [100; 10; 1]%Z
  = [Some 1; Some 18; Some 185]%Z.
Proof.
  vm_compute. reflexivity.
Qed.

End Binary64Facts.
(* ================================================================== *)
(** * Properties of the class-balance estimator *)
(* ================================================================== *)

Module EstimatorFacts.

Lemma sumZ_app (l1 l2 : list Z) : sumZ (l1 ++ l2) = (sumZ l1 + sumZ l2)%Z.
Proof.
  induction l1 as [|a l1 IH]; simpl; [reflexivity|]. rewrite IH. lia.
Qed.

Lemma sumZ_perm (l1 l2 : list Z) : Permutation l1 l2 -> sumZ l1 = sumZ l2.
Proof.
  induction 1; simpl; lia.
Qed.

Lemma count_insert_count (c d : string) (t : list (string * Z)) :
  table_count c (count_insert d t)
  = (table_count c t + (if String.eqb d c then 1 else 0))%Z.
Proof.
  induction t as [|[e n] t IH]; simpl.
  - lia.
  - destruct (String.compare d e) eqn:Hcmp; simpl.
    + apply String.compare_eq_iff in Hcmp. subst e.
      destruct (String.eqb d c); lia.
    + lia.
    + rewrite IH. lia.
Qed.

Lemma np_unique_count (c : string) (col : list string) :
  table_count c (np_unique col) = Z.of_nat (count_occ string_dec col c).
Proof.
  induction col as [|d col IH]; simpl; [reflexivity|].
  rewrite count_insert_count, IH.
  destruct (string_dec d c) as [->|Hne].
  - rewrite String.eqb_refl. lia.
  - apply String.eqb_neq in Hne. rewrite Hne. lia.
Qed.

Lemma count_insert_hd (c : string) (a : string * Z) (t : list (string * Z)) :
  key_lt a (c, 1%Z) -> HdRel key_lt a t -> HdRel key_lt a (count_insert c t).
Proof.
  intros Hac Hhd. destruct t as [|[e n] t]; simpl.
  - constructor. exact Hac.
  - inversion Hhd; subst.
    destruct (String.compare c e); constructor; assumption.
Qed.

Lemma count_insert_sorted (c : string) (t : list (string * Z)) :
  Sorted key_lt t -> Sorted key_lt (count_insert c t).
Proof.
  induction t as [|[e n] t IH]; intros Hs; simpl.
  - repeat constructor.
  - inversion Hs as [|? ? Hs' Hhd]; subst.
    destruct (String.compare c e) eqn:Hcmp.
    + constructor; [assumption|].
      destruct t as [|[e' n'] t]; constructor.
      inversion Hhd; subst. assumption.
    + constructor; [assumption|]. constructor.
      apply String_as_OT.cmp_lt in Hcmp. exact Hcmp.
    + constructor; [apply IH; assumption|].
      apply count_insert_hd; [|assumption].
      unfold key_lt; simpl. apply String_as_OT.cmp_lt.
      change (String_as_OT.cmp e c = Lt).
      rewrite String_as_OT.cmp_antisym. unfold String_as_OT.cmp. rewrite Hcmp.
      reflexivity.
Qed.

Lemma np_unique_sorted (col : list string) : Sorted key_lt (np_unique col).
Proof.
  induction col as [|d col IH]; simpl; [constructor|].
  apply count_insert_sorted. exact IH.
Qed.

Lemma key_lt_trans : Relations_1.Transitive key_lt.
Proof.
  intros a b c Hab Hbc. unfold key_lt in *. eapply String_as_OT.lt_trans; eassumption.
Qed.

Lemma sorted_keys_nodup (t : list (string * Z)) :
  Sorted key_lt t -> NoDup (map fst t).
Proof.
  intros Hs. apply Sorted_StronglySorted in Hs; [|exact key_lt_trans].
  induction Hs as [|a t Hs IH Hall]; simpl; constructor; [|exact IH].
  intros Hin. apply in_map_iff in Hin. destruct Hin as [b [Hfst Hb]].
  rewrite Forall_forall in Hall. specialize (Hall b Hb).
  unfold key_lt in Hall. rewrite Hfst in Hall.
  exact (@String_as_OT.lt_not_eq _ _ Hall eq_refl).
Qed.

(** Every recorded count is at least one. *)
Lemma count_insert_positive (c : string) (t : list (string * Z)) :
  Forall (fun e => (1 <= snd e)%Z) t ->
  Forall (fun e => (1 <= snd e)%Z) (count_insert c t).
Proof.
  induction t as [|[e n] t IH]; intros Hall; simpl.
  - repeat constructor. simpl. lia.
  - inversion Hall; subst. simpl in *.
    destruct (String.compare c e); repeat constructor; simpl; auto; lia.
Qed.

Lemma np_unique_positive (col : list string) :
  Forall (fun e => (1 <= snd e)%Z) (np_unique col).
Proof.
  induction col as [|d col IH]; simpl; [constructor|].
  apply count_insert_positive. exact IH.
Qed.

Lemma table_count_absent (c : string) (t : list (string * Z)) :
  ~ In c (map fst t) -> table_count c t = 0%Z.
Proof.
  induction t as [|[e n] t IH]; simpl; intros Hn; [reflexivity|].
  destruct (String.eqb e c) eqn:He.
  - apply String.eqb_eq in He. tauto.
  - rewrite IH; [lia|tauto].
Qed.

Lemma table_count_entry (c : string) (n : Z) (t : list (string * Z)) :
  NoDup (map fst t) -> In (c, n) t -> table_count c t = n.
Proof.
  induction t as [|[e m] t IH]; simpl; intros Hnd Hin; [contradiction|].
  inversion Hnd as [|? ? Hnotin Hnd']; subst.
  destruct Hin as [Heq|Hin].
  - inversion Heq; subst. rewrite String.eqb_refl.
    rewrite table_count_absent by assumption. lia.
  - destruct (String.eqb e c) eqn:He.
    + apply String.eqb_eq in He. subst e. exfalso. apply Hnotin.
      apply in_map_iff. exists (c, n). split; [reflexivity|assumption].
    + rewrite IH by assumption. lia.
Qed.

Lemma np_unique_entry (col : list string) (c : string) (n : Z) :
  In (c, n) (np_unique col) ->
  n = Z.of_nat (count_occ string_dec col c) /\ (1 <= n)%Z /\ In c col.
Proof.
  intros Hin.
  assert (Hn : table_count c (np_unique col) = n).
  { apply table_count_entry; [|assumption].
    apply sorted_keys_nodup, np_unique_sorted. }
  rewrite np_unique_count in Hn.
  assert (Hpos : (1 <= n)%Z).
  { pose proof (np_unique_positive col) as Hall. rewrite Forall_forall in Hall.
    exact (Hall _ Hin). }
  repeat split; auto.
  apply (count_occ_In string_dec). lia.
Qed.

Lemma np_unique_keys (col : list string) (c : string) :
  In c (map fst (np_unique col)) <-> In c col.
Proof.
  split.
  - intros Hin. apply in_map_iff in Hin. destruct Hin as [[d n] [Hfst Hin]].
    simpl in Hfst. subst d. apply np_unique_entry in Hin. tauto.
  - intros Hin. destruct (in_dec string_dec c (map fst (np_unique col))) as [H|H]; [exact H|].
    apply table_count_absent in H. rewrite np_unique_count in H.
    apply (count_occ_In string_dec) in Hin. lia.
Qed.

Lemma np_unique_classes (y : list (Box * string)) :
  Permutation (map fst (np_unique (map snd y))) (classes y).
Proof.
  apply NoDup_Permutation.
  - apply sorted_keys_nodup, np_unique_sorted.
  - apply NoDup_nodup.
  - intros c. unfold classes. rewrite nodup_In. apply np_unique_keys.
Qed.

Lemma np_unique_frequencies (y : list (Box * string)) :
  map snd (np_unique (map snd y))
  = map (class_frequency y) (map fst (np_unique (map snd y))).
Proof.
  rewrite map_map. apply map_ext_in. intros [c n] Hin. simpl.
  apply np_unique_entry in Hin. unfold class_frequency. tauto.
Qed.

(** The mean the code computes is the float quotient of the sum of the
    class frequencies by the number of classes. *)
Lemma np_mean_is_float_mean (y : list (Box * string)) :
  np_mean (map snd (np_unique (map snd y))) = float_mean y.
Proof.
  unfold np_mean, float_mean.
  rewrite np_unique_frequencies at 1.
  rewrite (sumZ_perm _ _ (Permutation_map (class_frequency y) (np_unique_classes y))).
  rewrite length_map.
  rewrite <- (Permutation_length (np_unique_classes y)), length_map.
  reflexivity.
Qed.

Lemma py_int_floor (q : Q) : 0 <= q -> py_int q = Qfloor q.
Proof.
  destruct q as [n d]. unfold Qle, py_int, Qfloor. simpl. intros Hq.
  apply Z.quot_div_nonneg; lia.
Qed.

Lemma py_int_nonneg (q : Q) : 0 <= q -> (0 <= py_int q)%Z.
Proof.
  intros Hq. rewrite py_int_floor by assumption.
  change 0%Z with (Qfloor 0). apply Qfloor_resp_le. exact Hq.
Qed.

Lemma py_int_mono (q1 q2 : Q) : 0 <= q1 -> q1 <= q2 -> (py_int q1 <= py_int q2)%Z.
Proof.
  intros H1 Hle. rewrite !py_int_floor; [apply Qfloor_resp_le, Hle| |exact H1].
  eapply Qle_trans; eassumption.
Qed.

Lemma py_int_le (q : Q) : 0 <= q -> inject_Z (py_int q) <= q.
Proof.
  intros Hq. rewrite py_int_floor by exact Hq. apply Qfloor_le.
Qed.

Lemma sumZ_nonneg (l : list Z) : Forall (fun x => (0 <= x)%Z) l -> (0 <= sumZ l)%Z.
Proof.
  induction 1; simpl; lia.
Qed.

Lemma inject_Z_nonneg (z : Z) : (0 <= z)%Z -> 0 <= inject_Z z.
Proof.
  intros Hz. change 0 with (inject_Z 0). rewrite <- Zle_Qle. exact Hz.
Qed.

Lemma inject_Z_pos (z : Z) : (0 < z)%Z -> 0 < inject_Z z.
Proof.
  intros Hz. change 0 with (inject_Z 0). rewrite <- Zlt_Qlt. exact Hz.
Qed.

Lemma table_sum_nonneg (col : list string) : (0 <= sumZ (map snd (np_unique col)))%Z.
Proof.
  apply sumZ_nonneg.
  pose proof (np_unique_positive col) as Hall.
  rewrite Forall_forall in *. intros x Hx.
  apply in_map_iff in Hx. destruct Hx as [e [<- He]].
  specialize (Hall e He). simpl in Hall. lia.
Qed.

Lemma np_mean_table_nonneg (col : list string) (mean : Q) :
  np_mean (map snd (np_unique col)) = Ok mean -> 0 <= mean.
Proof.
  unfold np_mean. apply fdiv_nonneg.
  - apply inject_Z_nonneg, table_sum_nonneg.
  - apply inject_Z_nonneg. lia.
Qed.

(** The rows [df.apply] returns: one per entry of the table, in order, with
    the count of line 180. *)
Lemma apply_rows_Ok (sf mean : Q) (table : list (string * Z)) (df : list row) :
  apply_rows sf mean table = Ok df <->
  Forall2 (fun cf r => label r = fst cf /\ frequency r = snd cf
                       /\ augment_count sf mean (snd cf) = Ok (scaling_factor r))
          table df.
Proof.
  revert df. induction table as [|[c f] table IH]; intros df; simpl.
  - split.
    + intros H. inversion H. constructor.
    + intros H. inversion H. reflexivity.
  - rewrite rbind_Ok. split.
    + intros (n & Hn & H). apply rbind_Ok in H. destruct H as (rows & Hrows & H).
      inversion H. subst df. constructor; [simpl; auto|]. apply IH. exact Hrows.
    + intros H. inversion H as [|cf r t rows (Hl & Hf & Hn) Hrest]. subst.
      simpl in Hl, Hf, Hn. exists (scaling_factor r). split; [exact Hn|].
      apply rbind_Ok. exists rows. split; [apply IH; exact Hrest|].
      destruct r as [l' f' n']. simpl in *. subst. reflexivity.
Qed.

Lemma rows_labels (P : string * Z -> row -> Prop) (table : list (string * Z))
  (df : list row) :
  Forall2 (fun cf r => label r = fst cf /\ frequency r = snd cf /\ P cf r) table df ->
  map label df = map fst table /\ map frequency df = map snd table.
Proof.
  induction 1 as [|cf r t rows (Hl & Hf & _) _ [IH1 IH2]]; simpl; [auto|].
  rewrite Hl, Hf, IH1, IH2. auto.
Qed.

Lemma rows_in (P : string * Z -> row -> Prop) (table : list (string * Z))
  (df : list row) (r : row) :
  Forall2 (fun cf r => label r = fst cf /\ frequency r = snd cf /\ P cf r) table df ->
  In r df -> In (label r, frequency r) table /\ P (label r, frequency r) r.
Proof.
  induction 1 as [|[c f] r0 t rows (Hl & Hf & HP) _ IH]; simpl; [contradiction|].
  simpl in Hl, Hf. intros [<-|Hin].
  - rewrite Hl, Hf. auto.
  - destruct (IH Hin). auto.
Qed.

Lemma rows_of (P : string * Z -> row -> Prop) (table : list (string * Z))
  (df : list row) (cf : string * Z) :
  Forall2 (fun cf r => label r = fst cf /\ frequency r = snd cf /\ P cf r) table df ->
  In cf table -> exists r, In r df /\ label r = fst cf /\ frequency r = snd cf /\ P cf r.
Proof.
  induction 1 as [|cf0 r0 t rows H0 _ IH]; simpl; [contradiction|].
  intros [<-|Hin].
  - exists r0. auto.
  - destruct (IH Hin) as (r & Hr & H). exists r. auto.
Qed.

(** What a returned data frame is: [y] has a label, the mean is a finite
    float, and the rows are those of the [np.unique] table with their
    counts. *)
Lemma calc_augment_level_Ok (y : list (Box * string)) (sf : Q) (df : list row) :
  calc_augment_level y sf = Ok df <->
  y <> [] /\ exists mean,
    float_mean y = Ok mean
    /\ Forall2 (fun cf r => label r = fst cf /\ frequency r = snd cf
                            /\ augment_count sf mean (snd cf) = Ok (scaling_factor r))
               (np_unique (map snd y)) df.
Proof.
  unfold calc_augment_level. destruct y as [|e y].
  - split; [discriminate|]. intros [H _]. congruence.
  - cbv zeta. rewrite np_mean_is_float_mean, rbind_Ok. split.
    + intros (mean & Hmean & H). split; [discriminate|]. exists mean.
      split; [exact Hmean|]. apply apply_rows_Ok. exact H.
    + intros (_ & mean & Hmean & H). exists mean. split; [exact Hmean|].
      apply apply_rows_Ok. exact H.
Qed.

Lemma calc_augment_level_labels (y : list (Box * string)) (sf : Q) (df : list row) :
  calc_augment_level y sf = Ok df ->
  map label df = map fst (np_unique (map snd y))
  /\ map frequency df = map snd (np_unique (map snd y)).
Proof.
  intros H. apply calc_augment_level_Ok in H. destruct H as (_ & mean & _ & H).
  exact (rows_labels _ _ _ H).
Qed.

(** The rows of the data frame. *)
Lemma calc_augment_level_row (y : list (Box * string)) (sf : Q) (df : list row) (r : row) :
  calc_augment_level y sf = Ok df -> In r df ->
  In (label r, frequency r) (np_unique (map snd y))
  /\ float_count y sf (frequency r) = Ok (scaling_factor r).
Proof.
  intros H Hin. apply calc_augment_level_Ok in H. destruct H as (_ & mean & Hmean & H).
  destruct (rows_in _ _ _ _ H Hin) as [Ht Hn]. split; [exact Ht|].
  unfold float_count. rewrite Hmean. exact Hn.
Qed.

Lemma calc_augment_level_class (y : list (Box * string)) (sf : Q) (df : list row)
  (c : string) (f : Z) :
  calc_augment_level y sf = Ok df -> In (c, f) (np_unique (map snd y)) ->
  exists r, In r df /\ label r = c /\ frequency r = f
            /\ float_count y sf f = Ok (scaling_factor r).
Proof.
  intros H Hin. apply calc_augment_level_Ok in H. destruct H as (_ & mean & Hmean & H).
  destruct (rows_of _ _ _ _ H Hin) as (r & Hr & Hl & Hf & Hn).
  exists r. unfold float_count. rewrite Hmean. auto.
Qed.

(** ** The data frame exists *)

Lemma np_unique_nonempty (y : list (Box * string)) :
  y <> [] -> np_unique (map snd y) <> [].
Proof.
  intros Hne. destruct y as [|[b c] y]; [congruence|].
  assert (Hin : In c (map fst (np_unique (map snd ((b, c) :: y)))))
    by (apply np_unique_keys; left; reflexivity).
  intros E. rewrite E in Hin. exact Hin.
Qed.

Lemma count_insert_total (c : string) (t : list (string * Z)) :
  sumZ (map snd (count_insert c t)) = (sumZ (map snd t) + 1)%Z.
Proof.
  unfold sumZ. induction t as [|[d n] t IH]; [reflexivity|].
  cbn [count_insert]. destruct (String.compare c d);
    cbn [map snd fold_right]; try rewrite IH; lia.
Qed.

Lemma np_unique_total (col : list string) :
  sumZ (map snd (np_unique col)) = Z.of_nat (length col).
Proof.
  induction col as [|c col IH]; [reflexivity|].
  change (np_unique (c :: col)) with (count_insert c (np_unique col)).
  rewrite count_insert_total, IH. simpl length. lia.
Qed.

Lemma sumZ_ge_length (l : list Z) :
  Forall (fun x => (1 <= x)%Z) l -> (Z.of_nat (length l) <= sumZ l)%Z.
Proof.
  induction 1; simpl length; simpl sumZ; lia.
Qed.

Lemma sumZ_ge_entry (l : list Z) (x : Z) :
  Forall (fun x => (1 <= x)%Z) l -> In x l -> (x <= sumZ l)%Z.
Proof.
  induction 1 as [|a l Ha Hall IH]; simpl; [contradiction|].
  pose proof (sumZ_ge_length _ Hall). intros [->|Hin]; [lia|].
  specialize (IH Hin). lia.
Qed.

Lemma table_counts_positive (col : list string) :
  Forall (fun x => (1 <= x)%Z) (map snd (np_unique col)).
Proof.
  pose proof (np_unique_positive col) as H. rewrite Forall_forall in *.
  intros x Hx. apply in_map_iff in Hx. destruct Hx as [e [<- He]]. exact (H e He).
Qed.

(** The number of classes and every frequency are between 1 and the
    number of labels. *)
Lemma table_bounds (y : list (Box * string)) :
  y <> [] ->
  (1 <= Z.of_nat (length (np_unique (map snd y))) <= Z.of_nat (length y))%Z
  /\ forall c f, In (c, f) (np_unique (map snd y)) -> (1 <= f <= Z.of_nat (length y))%Z.
Proof.
  intros Hne. pose proof (np_unique_nonempty y Hne) as Ht.
  pose proof (table_counts_positive (map snd y)) as Hpos.
  pose proof (np_unique_total (map snd y)) as Htot. rewrite length_map in Htot.
  split.
  - split.
    + destruct (np_unique (map snd y)); [congruence|simpl; lia].
    + rewrite <- Htot. rewrite <- (length_map snd). apply sumZ_ge_length, Hpos.
  - intros c f Hin. split.
    + apply np_unique_entry in Hin. tauto.
    + rewrite <- Htot. apply sumZ_ge_entry; [exact Hpos|].
      apply in_map_iff. exists (c, f). auto.
Qed.

(** The quotient of two positive integers below 2^53 is a finite float
    between 0 and 2^53. *)
Lemma round64_small (q : Q) :
  0 <= q -> q <= pow2 53 -> exists r, round64 q = Ok r /\ 0 <= r /\ r <= pow2 53.
Proof.
  intros H0 H1. destruct (round64_finite q) as (r & Er & Hr).
  { rewrite Qabs_pos by exact H0. eapply Qle_trans; [exact H1|].
    apply pow2_finite. lia. }
  exists r. split; [exact Er|]. split; [exact (round64_nonneg _ _ Er H0)|].
  rewrite Hr, <- (round_nearest_pow2 53) by lia. apply round_nearest_mono, H1.
Qed.

Lemma fdiv_small (a : Q) (f : Z) :
  0 <= a -> a <= pow2 53 -> (1 <= f < 2 ^ 53)%Z ->
  exists r, fdiv a (inject_Z f) = Ok r /\ 0 <= r /\ r <= pow2 53.
Proof.
  intros H0 H1 Hf.
  destruct (round64_small a H0 H1) as (a' & Ea & Ha0 & Ha1).
  destruct (round64_Z f) as (f' & Ef & Hf'); [lia|].
  assert (Hf1 : 1 <= f').
  { rewrite Hf'. change 1 with (inject_Z 1). rewrite <- Zle_Qle. lia. }
  assert (Hq : a' / f' <= a').
  { apply Qle_shift_div_r; [eapply Qlt_le_trans; [|exact Hf1]; reflexivity|].
    rewrite <- (Qmult_1_r a') at 1. rewrite !(Qmult_comm a').
    apply Qmult_le_compat_r; assumption. }
  destruct (round64_small (a' / f')) as (r & Er & Hr0 & Hr1).
  { apply Qdiv_nonneg; [exact Ha0|]. eapply Qle_trans; [|exact Hf1]. discriminate. }
  { eapply Qle_trans; eassumption. }
  exists r. split; [|auto]. apply fdiv_Ok. exists a', f'.
  repeat split; try assumption.
  intros E. rewrite E in Hf1. apply Hf1. reflexivity.
Qed.

Lemma float_mean_total (y : list (Box * string)) :
  y <> [] -> (Z.of_nat (length y) < 2 ^ 53)%Z ->
  exists mean, float_mean y = Ok mean /\ 0 <= mean /\ mean <= pow2 53.
Proof.
  intros Hne Hlen. rewrite <- np_mean_is_float_mean. unfold np_mean.
  destruct (table_bounds y Hne) as [Hn _].
  pose proof (np_unique_total (map snd y)) as Htot. rewrite length_map in Htot.
  rewrite Htot, length_map. apply fdiv_small.
  - apply inject_Z_nonneg. lia.
  - rewrite (pow2_Z 53) by lia. rewrite <- Zle_Qle. lia.
  - lia.
Qed.

Lemma augment_count_total (sf mean : Q) (f : Z) :
  Qabs sf <= pow2 970 -> 0 <= mean -> mean <= pow2 53 -> (1 <= f < 2 ^ 53)%Z ->
  exists n, augment_count sf mean f = Ok n.
Proof.
  intros Hsf H0 H1 Hf. destruct (fdiv_small mean f H0 H1 Hf) as (ratio & Er & Hr0 & Hr1).
  destruct (fmul_finite sf ratio 970 53) as (p & Ep); try lia.
  - exact Hsf.
  - rewrite Qabs_pos by exact Hr0. exact Hr1.
  - exists (py_int p). unfold augment_count. rewrite Er. cbn [rbind]. rewrite Ep.
    reflexivity.
Qed.

Lemma apply_rows_total (sf mean : Q) (table : list (string * Z)) :
  (forall c f, In (c, f) table -> exists n, augment_count sf mean f = Ok n) ->
  exists df, apply_rows sf mean table = Ok df.
Proof.
  induction table as [|[c f] table IH]; intros H; simpl.
  - eexists; reflexivity.
  - destruct (H c f) as (n & Hn); [left; reflexivity|]. rewrite Hn. cbn [rbind].
    destruct IH as (rows & Hrows); [intros c' f' Hin; apply (H c' f'); right; exact Hin|].
    rewrite Hrows. eexists; reflexivity.
Qed.

(** For a dataset of at least one and fewer than 2^53 labels and a scaling
    factor of magnitude up to 2^970, [calc_augment_level] returns a data
    frame. *)
Lemma calc_augment_level_total (y : list (Box * string)) (sf : Q) :
  y <> [] -> (Z.of_nat (length y) < 2 ^ 53)%Z -> Qabs sf <= pow2 970 ->
  exists df, calc_augment_level y sf = Ok df.
Proof.
  intros Hne Hlen Hsf.
  destruct (float_mean_total y Hne Hlen) as (mean & Hmean & H0 & H1).
  destruct (apply_rows_total sf mean (np_unique (map snd y))) as (df & Hdf).
  { intros c f Hin. apply augment_count_total; try assumption.
    destruct (table_bounds y Hne) as [_ Hb]. specialize (Hb c f Hin). lia. }
  exists df. unfold calc_augment_level. destruct y as [|e y]; [congruence|].
  cbv zeta. rewrite np_mean_is_float_mean, Hmean. exact Hdf.
Qed.

(** ** The float count against the exact one *)

Lemma mean_frequency_table (y : list (Box * string)) :
  mean_frequency y
  = inject_Z (Z.of_nat (length y))
    / inject_Z (Z.of_nat (length (np_unique (map snd y)))).
Proof.
  unfold mean_frequency.
  rewrite <- (sumZ_perm _ _ (Permutation_map (class_frequency y) (np_unique_classes y))).
  rewrite <- np_unique_frequencies, np_unique_total, length_map.
  rewrite <- (Permutation_length (np_unique_classes y)), length_map. reflexivity.
Qed.

Lemma float_mean_table (y : list (Box * string)) :
  float_mean y
  = fdiv (inject_Z (Z.of_nat (length y)))
         (inject_Z (Z.of_nat (length (np_unique (map snd y))))).
Proof.
  unfold float_mean.
  rewrite <- (sumZ_perm _ _ (Permutation_map (class_frequency y) (np_unique_classes y))).
  rewrite <- np_unique_frequencies, np_unique_total, length_map.
  rewrite <- (Permutation_length (np_unique_classes y)), length_map. reflexivity.
Qed.

Lemma mean_frequency_at_least_one (y : list (Box * string)) :
  y <> [] -> 1 <= mean_frequency y.
Proof.
  intros Hne. rewrite mean_frequency_table.
  destruct (table_bounds y Hne) as [Hn _].
  apply Qle_shift_div_l; [apply inject_Z_pos; lia|].
  rewrite Qmult_1_l, <- Zle_Qle. lia.
Qed.

(** The float mean is within 2^-53 of the mean, relatively. *)
Lemma float_mean_close (y : list (Box * string)) (mean : Q) :
  y <> [] -> (Z.of_nat (length y) < 2 ^ 53)%Z -> float_mean y = Ok mean ->
  is_float mean
  /\ (1 - unit_roundoff) * mean_frequency y <= mean
  /\ mean <= (1 + unit_roundoff) * mean_frequency y.
Proof.
  intros Hne Hlen Hmean. split; [rewrite float_mean_table in Hmean;
                                 exact (fdiv_is_float _ _ _ Hmean)|].
  pose proof (mean_frequency_at_least_one y Hne) as H1.
  rewrite float_mean_table in Hmean. rewrite mean_frequency_table in *.
  destruct (table_bounds y Hne) as [Hn _].
  apply fdiv_float in Hmean; [|apply is_float_Z; lia|apply is_float_Z; lia].
  destruct Hmean as (m & Hm & Heq). rewrite Heq.
  apply (round64_relative _ _ Hm).
  eapply Qle_trans; [|exact H1]. vm_compute. discriminate.
Qed.

Lemma augment_count_close (mu sf mean : Q) (f n : Z) :
  1 <= mu -> 0 <= sf -> is_float sf -> is_float mean ->
  (1 - unit_roundoff) * mu <= mean -> mean <= (1 + unit_roundoff) * mu ->
  (1 <= f < 2 ^ 53)%Z ->
  augment_count sf mean f = Ok n ->
  sf * mu / inject_Z f <= pow2 50 ->
  (Z.abs (n - Qfloor (sf * mu / inject_Z f)) <= 1)%Z.
Proof.
  intros Hmu Hsf Fsf Fmean Hlo Hhi Hf H Hbound. unfold augment_count in H.
  apply rbind_Ok in H. destruct H as (ratio & Hr & H).
  apply rbind_Ok in H. destruct H as (p & Hp & H). inversion H. subst n. clear H.
  set (F := inject_Z f) in *.
  assert (HF1 : 1 <= F) by (unfold F; change 1 with (inject_Z 1); rewrite <- Zle_Qle; lia).
  assert (HF2 : F <= pow2 53).
  { unfold F. rewrite (pow2_Z 53) by lia. rewrite <- Zle_Qle. lia. }
  assert (HF0 : 0 < F) by lra.
  pose proof (fdiv_is_float _ _ _ Hr) as Fratio.
  assert (Hu : unit_roundoff == 1 # 9007199254740992) by reflexivity.
  assert (Hmean0 : (1 # 2) <= mean) by (rewrite Hu in Hlo; lra).
  (* the quotient *)
  apply fdiv_float in Hr; [|exact Fmean|apply is_float_Z; lia].
  destruct Hr as (r2 & Hr2 & Heq2).
  assert (Hq : pow2 (-1022) <= mean / F).
  { apply Qle_shift_div_l; [exact HF0|].
    apply Qle_trans with (pow2 (-1022) * pow2 53).
    - rewrite !(Qmult_comm (pow2 (-1022))). apply Qmult_le_compat_r; [exact HF2|].
      apply Qlt_le_weak, pow2_pos.
    - eapply Qle_trans; [|exact Hmean0]. vm_compute. discriminate. }
  destruct (round64_relative _ _ Hr2 Hq) as [Hr_lo Hr_hi].
  rewrite <- Heq2 in Hr_lo, Hr_hi.
  assert (Hratio0 : 0 <= ratio).
  { eapply Qle_trans; [|exact Hr_lo]. apply Qmult_le_0_compat.
    - rewrite Hu. lra.
    - eapply Qle_trans; [|exact Hq]. apply Qlt_le_weak, pow2_pos. }
  (* the product *)
  apply fmul_float in Hp; [|exact Fsf|exact Fratio].
  destruct Hp as (p2 & Hp2 & Heqp).
  assert (Hx0 : 0 <= sf * ratio) by (apply Qmult_le_0_compat; assumption).
  destruct (round64_absolute _ _ Hp2 Hx0) as [Hp_lo Hp_hi].
  rewrite <- Heqp in Hp_lo, Hp_hi.
  (* the mean over the frequency *)
  set (G := mu / F) in *.
  assert (HG : mean / F <= (1 + unit_roundoff) * G /\ (1 - unit_roundoff) * G <= mean / F).
  { unfold G. split.
    - apply Qle_trans with ((1 + unit_roundoff) * mu / F).
      + apply Qdiv_mono_l; [lra|exact Hhi].
      + apply Qle_lteq. right. unfold Qdiv. ring.
    - apply Qle_trans with ((1 - unit_roundoff) * mu / F).
      + apply Qle_lteq. right. unfold Qdiv. ring.
      + apply Qdiv_mono_l; [lra|exact Hlo]. }
  destruct HG as [HG_hi HG_lo].
  assert (HG0 : 0 <= G) by (unfold G; apply Qdiv_nonneg; lra).
  assert (HE : sf * mu / F == sf * G) by (unfold G, Qdiv; ring).
  rewrite HE in Hbound. rewrite (Qfloor_comp _ _ HE).
  (* scaling by the factor *)
  assert (Hs_hi : sf * ratio
                  <= sf * ((1 + unit_roundoff) * ((1 + unit_roundoff) * G))).
  { rewrite !(Qmult_comm sf). apply Qmult_le_compat_r; [|exact Hsf].
    rewrite Hu in *. lra. }
  assert (Hs_lo : sf * ((1 - unit_roundoff) * ((1 - unit_roundoff) * G))
                  <= sf * ratio).
  { rewrite !(Qmult_comm sf). apply Qmult_le_compat_r; [|exact Hsf].
    rewrite Hu in *. lra. }
  assert (HE0 : 0 <= sf * G) by (apply Qmult_le_0_compat; assumption).
  assert (Ht : pow2 (-1075) <= 1 # 4) by (vm_compute; discriminate).
  assert (H50 : pow2 50 == 1125899906842624) by reflexivity.
  rewrite H50 in Hbound.
  assert (Hp0 : 0 <= p).
  { apply round64_Ok in Hp2. destruct Hp2 as [E2 _]. rewrite Heqp, E2.
    apply round_nearest_nonneg, Hx0. }
  rewrite py_int_floor by exact Hp0.
  rewrite Hu in *.
  set (t := pow2 (-1075)) in *.
  apply Qfloor_close; lra.
Qed.

(** Frequencies 3, 3, 3, 2, 1 at scaling factor 5: the mean 2.4 divided by
    3 is rounded to 0.7999999999999999, five times that to
    3.9999999999999996, and the count is 3 where floor(5 * 2.4 / 3) is 4. *)
Example augment_count_3_3_3_2_1 :
  exists mean,
    np_mean [3; 3; 3; 2; 1]%Z = Ok mean
    /\ augment_count 5 mean 3 = Ok 3%Z
    /\ Qfloor (5 * (12 # 5) / 3) = 4%Z.
Proof.
  eexists. split; [vm_compute; reflexivity|]. split; vm_compute; reflexivity.
Qed.




Lemma exists_max (l : list Z) :
  l <> [] -> exists m, In m l /\ Forall (fun x => (x <= m)%Z) l.
Proof.
  induction l as [|a l IH]; intros Hne; [congruence|].
  destruct l as [|b l].
  - exists a. split; [left; reflexivity|]. repeat constructor. lia.
  - destruct IH as [m [Hin Hall]]; [discriminate|].
    destruct (Z_le_gt_dec a m) as [Hle|Hgt].
    + exists m. split; [right; exact Hin|]. constructor; assumption.
    + exists a. split; [left; reflexivity|]. constructor; [lia|].
      eapply Forall_impl; [|exact Hall]. simpl. intros; lia.
Qed.

Lemma sumZ_le_max (l : list Z) (m : Z) :
  Forall (fun x => (x <= m)%Z) l -> (sumZ l <= m * Z.of_nat (length l))%Z.
Proof.
  induction 1; simpl length; simpl sumZ; lia.
Qed.

(** Some class is at least as frequent as the mean. *)
Lemma frequent_class (y : list (Box * string)) :
  y <> [] ->
  exists c f, In (c, f) (np_unique (map snd y)) /\ (1 <= f)%Z /\
              mean_frequency y <= inject_Z f.
Proof.
  intros Hne. unfold mean_frequency.
  rewrite <- (sumZ_perm _ _ (Permutation_map (class_frequency y) (np_unique_classes y))).
  rewrite <- (Permutation_length (np_unique_classes y)), length_map.
  rewrite <- np_unique_frequencies.
  set (t := np_unique (map snd y)).
  assert (Ht : map snd t <> []).
  { pose proof (np_unique_nonempty y Hne) as H. fold t in H.
    destruct t; [congruence|discriminate]. }
  destruct (@exists_max _ Ht) as [m [Hin Hall]].
  apply in_map_iff in Hin. destruct Hin as [[c f] [Hf Hin]]. simpl in Hf. subst f.
  exists c, m. split; [exact Hin|].
  assert (Hpos : (1 <= m)%Z) by (apply np_unique_entry in Hin; tauto).
  split; [exact Hpos|].
  apply Qle_shift_div_r.
  - apply inject_Z_pos. rewrite <- (length_map snd).
    destruct (map snd t); [congruence|simpl; lia].
  - rewrite <- inject_Z_mult, <- Zle_Qle. rewrite <- (length_map snd).
    apply sumZ_le_max. exact Hall.
Qed.

(** The float mean is at most the frequency of that class as well. *)
Lemma frequent_class_float (y : list (Box * string)) (mean : Q) :
  y <> [] -> (Z.of_nat (length y) < 2 ^ 53)%Z -> float_mean y = Ok mean ->
  exists c f, In (c, f) (np_unique (map snd y)) /\ (1 <= f < 2 ^ 53)%Z /\
              mean <= inject_Z f.
Proof.
  intros Hne Hlen Hmean.
  destruct (frequent_class y Hne) as (c & f & Hin & Hpos & Hle).
  destruct (table_bounds y Hne) as [Hn Hb]. specialize (Hb c f Hin).
  exists c, f. split; [exact Hin|]. split; [lia|].
  unfold float_mean in Hmean. apply fdiv_Ok in Hmean.
  destruct Hmean as (s' & n' & Es & En & Hne' & Em).
  set (S0 := sumZ (map (class_frequency y) (classes y))) in *.
  set (n0 := Z.of_nat (length (classes y))) in *.
  assert (HS : S0 = Z.of_nat (length y)).
  { unfold S0.
    rewrite <- (sumZ_perm _ _ (Permutation_map (class_frequency y) (np_unique_classes y))).
    rewrite <- np_unique_frequencies, np_unique_total, length_map. reflexivity. }
  assert (Hn0 : n0 = Z.of_nat (length (np_unique (map snd y)))).
  { unfold n0. rewrite <- (Permutation_length (np_unique_classes y)), length_map.
    reflexivity. }
  destruct (round64_Z S0) as (s2 & Es2 & Hs2); [lia|].
  destruct (round64_Z n0) as (n2 & En2 & Hn2); [lia|].
  assert (s2 = s') by congruence. assert (n2 = n') by congruence. subst s2 n2.
  destruct (round64_Z f) as (f' & Ef & Hf'); [lia|].
  rewrite <- Hf'. apply (round64_mono _ _ _ _ Em Ef).
  rewrite Hs2, Hn2. exact Hle.
Qed.


Lemma augment_count_nonneg (sf mean : Q) (f n : Z) :
  0 <= sf -> 0 <= mean -> (1 <= f)%Z -> augment_count sf mean f = Ok n -> (0 <= n)%Z.
Proof.
  intros Hsf Hmean Hf H. unfold augment_count in H.
  apply rbind_Ok in H. destruct H as (ratio & Hr & H).
  apply rbind_Ok in H. destruct H as (p & Hp & H). inversion H. subst n.
  apply py_int_nonneg. apply (fmul_nonneg _ _ _ Hsf) in Hp; [exact Hp|].
  apply (fdiv_nonneg _ _ _ Hmean) in Hr; [exact Hr|]. apply inject_Z_nonneg. lia.
Qed.

Lemma augment_count_antitone (sf mean : Q) (f1 f2 n1 n2 : Z) :
  0 <= sf -> 0 <= mean -> (1 <= f1 <= f2)%Z ->
  augment_count sf mean f1 = Ok n1 -> augment_count sf mean f2 = Ok n2 -> (n2 <= n1)%Z.
Proof.
  intros Hsf Hmean Hf H1 H2. unfold augment_count in H1, H2.
  apply rbind_Ok in H1. destruct H1 as (ratio1 & Hr1 & H1).
  apply rbind_Ok in H1. destruct H1 as (p1 & Hp1 & H1). inversion H1. subst n1.
  apply rbind_Ok in H2. destruct H2 as (ratio2 & Hr2 & H2).
  apply rbind_Ok in H2. destruct H2 as (p2 & Hp2 & H2). inversion H2. subst n2.
  assert (H0 : 0 <= inject_Z f1) by (apply inject_Z_nonneg; lia).
  assert (Hle : inject_Z f1 <= inject_Z f2) by (rewrite <- Zle_Qle; lia).
  pose proof (fdiv_antitone _ _ _ _ _ Hmean H0 Hle Hr1 Hr2) as Hratio.
  assert (Hr20 : 0 <= ratio2).
  { apply (fdiv_nonneg _ _ _ Hmean) in Hr2; [exact Hr2|]. apply inject_Z_nonneg. lia. }
  apply py_int_mono.
  - exact (fmul_nonneg _ _ _ Hsf Hr20 Hp2).
  - exact (fmul_mono _ _ _ _ _ _ Hsf (Qle_refl sf) Hr20 Hratio Hp2 Hp1).
Qed.

(** A class at least as frequent as the mean gets at most the scaling
    factor. *)
Lemma augment_count_at_most (sf mean : Q) (f n : Z) :
  0 <= sf -> is_float sf -> 0 <= mean -> (1 <= f < 2 ^ 53)%Z -> mean <= inject_Z f ->
  augment_count sf mean f = Ok n -> inject_Z n <= sf.
Proof.
  intros Hsf (sf' & Esf & Hsf') Hmean Hf Hle H. unfold augment_count in H.
  apply rbind_Ok in H. destruct H as (ratio & Hr & H).
  apply rbind_Ok in H. destruct H as (p & Hp & H). inversion H. subst n.
  assert (Hf0 : 0 <= inject_Z f) by (apply inject_Z_nonneg; lia).
  assert (Hr0 : 0 <= ratio) by exact (fdiv_nonneg _ _ _ Hmean Hf0 Hr).
  assert (Hr1 : ratio <= 1).
  { destruct (round64_Z f) as (f' & Ef & Hf'); [lia|].
    destruct (round64_Z 1) as (one & E1 & H1); [simpl; lia|].
    assert (Hne : ~ f' == 0).
    { rewrite Hf'. intros E. apply (Qeq_bool_neq (inject_Z f) 0); [|exact E].
      unfold Qeq_bool. simpl. apply Z.eqb_neq. lia. }
    assert (E : inject_Z 1 == f' / f') by (symmetry; apply Qmult_inv_r; exact Hne).
    destruct (round64_comp _ _ _ E E1) as (q & Eq & Hq).
    assert (Hff : fdiv (inject_Z f) (inject_Z f) = Ok q).
    { apply fdiv_Ok. exists f', f'. auto. }
    pose proof (fdiv_mono_l _ _ _ _ _ Hf0 Hle Hr Hff) as Hle'.
    rewrite <- Hq, H1 in Hle'. exact Hle'. }
  pose proof (fmul_nonneg _ _ _ Hsf Hr0 Hp) as Hp0.
  eapply Qle_trans; [apply py_int_le; exact Hp0|].
  apply fmul_Ok in Hp. destruct Hp as (a' & r' & Ea & Er & Ep).
  assert (a' = sf') by congruence. subst a'.
  assert (Hr' : r' <= 1).
  { destruct (round64_Z 1) as (one & E1 & H1); [simpl; lia|].
    rewrite <- H1. exact (round64_mono _ _ _ _ Er E1 Hr1). }
  assert (Hsf0 : 0 <= sf') by exact (round64_nonneg _ _ Esf Hsf).
  assert (Hprod : sf' * r' <= sf).
  { rewrite <- Hsf'. rewrite <- (Qmult_1_r sf') at 2. rewrite !(Qmult_comm sf').
    apply Qmult_le_compat_r; assumption. }
  apply round64_Ok in Ep, Esf. destruct Ep as [-> _], Esf as [E _].
  apply Qle_trans with (round_nearest sf); [apply round_nearest_mono; exact Hprod|].
  rewrite <- E, Hsf'. apply Qle_refl.
Qed.



End EstimatorFacts.
(* ================================================================== *)
(** * Properties of the grid encoder *)
(* ================================================================== *)

Module EncoderFacts.

Lemma length_update_nth {A : Type} (i : nat) (f : A -> A) (l : list A) :
  length (update_nth i f l) = length l.
Proof.
  revert i. induction l as [|a l IH]; intros [|i]; simpl; auto.
Qed.

Lemma nth_error_update_nth {A : Type} (i j : nat) (f : A -> A) (l : list A) :
  nth_error (update_nth i f l) j
  = if Nat.eqb i j then option_map f (nth_error l j) else nth_error l j.
Proof.
  revert i j. induction l as [|a l IH]; intros [|i] [|j]; simpl; auto.
  destruct (Nat.eqb i j); reflexivity.
Qed.

Lemma update_nth_twice {A : Type} (i : nat) (f g : A -> A) (l : list A) :
  update_nth i f (update_nth i g l) = update_nth i (fun a => f (g a)) l.
Proof.
  revert i. induction l as [|a l IH]; intros [|i]; simpl; auto.
  rewrite IH. reflexivity.
Qed.

Lemma update_nth_ext {A : Type} (i : nat) (f g : A -> A) (l : list A) :
  (forall a, f a = g a) -> update_nth i f l = update_nth i g l.
Proof.
  intros Hfg. revert i. induction l as [|a l IH]; intros [|i]; simpl; auto.
  - rewrite Hfg. reflexivity.
  - rewrite IH. reflexivity.
Qed.

Lemma nth_result_ok {A : Type} (l : list A) (i : nat) (a : A) :
  nth_result l i = Ok a <-> nth_error l i = Some a.
Proof.
  unfold nth_result. destruct (nth_error l i); split; intros H; inversion H; reflexivity.
Qed.

Lemma np_broadcast_length (v v' : list Q) (n : nat) :
  np_broadcast v n = Ok v' -> length v' = n.
Proof.
  unfold np_broadcast. destruct (Nat.eqb (length v) n) eqn:E.
  - intros H. inversion H. subst. apply Nat.eqb_eq. exact E.
  - destruct v as [|x [|y v]]; intros H; inversion H. apply repeat_length.
Qed.

Lemma np_broadcast_same (v : list Q) (n : nat) :
  length v = n -> np_broadcast v n = Ok v.
Proof.
  intros H. unfold np_broadcast. apply Nat.eqb_eq in H. rewrite H. reflexivity.
Qed.

Lemma np_index_range (i : Z) (n k : nat) :
  np_index i n = Ok k -> (k < n)%nat.
Proof.
  unfold np_index.
  destruct ((0 <=? i)%Z && (i <? Z.of_nat n)%Z) eqn:E1.
  - intros H. inversion H. apply andb_true_iff in E1. lia.
  - destruct ((- Z.of_nat n <=? i)%Z && (i <? 0)%Z) eqn:E2; intros H; inversion H.
    apply andb_true_iff in E2. lia.
Qed.

Lemma np_index_nonneg (i : Z) (n : nat) :
  (0 <= i < Z.of_nat n)%Z -> np_index i n = Ok (Z.to_nat i).
Proof.
  intros H. unfold np_index.
  replace ((0 <=? i)%Z && (i <? Z.of_nat n)%Z) with true; [reflexivity|].
  symmetry. apply andb_true_iff. lia.
Qed.

Lemma setitem_inv (T T' : tensor) (b : nat) (c r : Z) (lo width : nat) (v : list Q) :
  setitem T b c r lo width v = Ok T' ->
  exists s ci ri v',
    nth_error T b = Some s /\ resolve s c r = Ok (ci, ri)
    /\ np_broadcast v width = Ok v'
    /\ T' = update_nth b (put_cell ci ri (map (write_slice lo width v'))) T.
Proof.
  unfold setitem. intros H.
  destruct (nth_result T b) as [s|] eqn:Es; simpl in H; [|discriminate].
  destruct (np_index c (length s)) as [ci|] eqn:Ec; simpl in H; [|discriminate].
  destruct (nth_result s ci) as [g|] eqn:Eg; simpl in H; [|discriminate].
  destruct (np_index r (length g)) as [ri|] eqn:Er; simpl in H; [|discriminate].
  destruct (np_broadcast v width) as [v'|] eqn:Ev; simpl in H; [|discriminate].
  inversion H. exists s, ci, ri, v'.
  split; [apply nth_result_ok; exact Es|].
  split; [unfold resolve; rewrite Ec; simpl; rewrite Eg; simpl; rewrite Er; reflexivity|].
  split; reflexivity.
Qed.

Lemma setitem_ok (T : tensor) (b : nat) (c r : Z) (lo width : nat) (v v' : list Q)
  (s : sample_grid) (ci ri : nat) :
  nth_error T b = Some s -> resolve s c r = Ok (ci, ri) ->
  np_broadcast v width = Ok v' ->
  setitem T b c r lo width v
  = Ok (update_nth b (put_cell ci ri (map (write_slice lo width v'))) T).
Proof.
  unfold setitem, resolve, nth_result. intros -> Hres ->. simpl.
  destruct (np_index c (length s)) as [ci'|]; simpl in *; [|discriminate].
  destruct (nth_error s ci') as [g|]; simpl in *; [|discriminate].
  destruct (np_index r (length g)) as [ri'|]; simpl in *; [|discriminate].
  inversion Hres. subst. reflexivity.
Qed.

Arguments setitem_ok {T b c r lo width v v' s ci ri} _ _ _.

Lemma resolve_put_cell (s : sample_grid) (c r : Z) (ci ri : nat) (F : cell -> cell) :
  resolve (put_cell ci ri F s) c r = resolve s c r.
Proof.
  unfold resolve, put_cell, nth_result. rewrite length_update_nth.
  destruct (np_index c (length s)) as [ci'|]; simpl; [|reflexivity].
  rewrite nth_error_update_nth.
  destruct (Nat.eqb ci ci'); [|reflexivity].
  destruct (nth_error s ci') as [g|]; simpl; [|reflexivity].
  rewrite length_update_nth. reflexivity.
Qed.

Lemma put_cell_twice (ci ri : nat) (F G : cell -> cell) (s : sample_grid) :
  put_cell ci ri F (put_cell ci ri G s) = put_cell ci ri (fun cl => F (G cl)) s.
Proof.
  unfold put_cell. rewrite update_nth_twice. apply update_nth_ext.
  intros g. apply update_nth_twice.
Qed.

Lemma update_nth_ext_at {A : Type} (i : nat) (f g : A -> A) (l : list A) (a : A) :
  nth_error l i = Some a -> f a = g a -> update_nth i f l = update_nth i g l.
Proof.
  revert i. induction l as [|x l IH]; intros [|i]; simpl; intros Hn Hfg; try discriminate.
  - inversion Hn. subst. rewrite Hfg. reflexivity.
  - rewrite (IH i Hn Hfg). reflexivity.
Qed.

Lemma update_nth_id {A : Type} (i : nat) (f : A -> A) (l : list A) :
  (forall a, nth_error l i = Some a -> f a = a) -> update_nth i f l = l.
Proof.
  revert i. induction l as [|x l IH]; intros [|i]; simpl; intros H; auto.
  - rewrite H; reflexivity.
  - rewrite IH; auto.
Qed.

Lemma existsb_repeat_false {A : Type} (f : A -> bool) (a : A) (n : nat) :
  f a = false -> existsb f (repeat a n) = false.
Proof.
  intros Hf. induction n as [|n IH]; simpl; [reflexivity|]. rewrite Hf, IH. reflexivity.
Qed.

Section OneSample.

Variables N_ANCHORS N_CLASSES : nat.
Variables grid_w grid_h : Z.

Local Abbreviation zeros := (zero_sample N_ANCHORS N_CLASSES grid_w grid_h).
Local Abbreviation is_encoding := (encoded N_ANCHORS N_CLASSES grid_w grid_h).

(** The three slice assignments of lines 161-163 rewrite a whole row. *)
Lemma write_three (row v4 v5 : list Q) :
  length row = (5 + N_CLASSES)%nat -> length v4 = 4%nat -> length v5 = N_CLASSES ->
  write_slice 5 N_CLASSES v5 (write_slice 4 1 [1%Q] (write_slice 0 4 v4 row))
  = v4 ++ [1%Q] ++ v5.
Proof.
  intros Hrow H4 H5. unfold write_slice.
  destruct v4 as [|a [|b [|c [|d [|e v4]]]]]; try discriminate. clear H4.
  destruct row as [|r0 [|r1 [|r2 [|r3 [|r4 row]]]]]; try discriminate.
  simpl in Hrow. simpl.
  rewrite skipn_all2 by lia. rewrite app_nil_r. reflexivity.
Qed.

Lemma label_row_shape (lab : list Q) :
  length lab = (5 + N_CLASSES)%nat ->
  length (firstn 4 lab) = 4%nat /\ length (skipn 5 lab) = N_CLASSES.
Proof.
  intros H. rewrite length_firstn, length_skipn. lia.
Qed.

Lemma nth_error_zero_sample (ci : nat) :
  nth_error zeros ci = Some (repeat (zero_cell N_ANCHORS N_CLASSES) (Z.to_nat grid_w))
  \/ nth_error zeros ci = None.
Proof.
  unfold zero_sample. destruct (Nat.lt_ge_cases ci (Z.to_nat grid_h)) as [H|H].
  - left. apply nth_error_repeat. exact H.
  - right. apply nth_error_None. rewrite repeat_length. exact H.
Qed.

Lemma put_cell_zero (ci ri : nat) (F : cell -> cell) :
  put_cell ci ri F zeros
  = put_cell ci ri (fun _ => F (zero_cell N_ANCHORS N_CLASSES)) zeros.
Proof.
  unfold put_cell.
  destruct (nth_error zeros ci) as [g|] eqn:Eg.
  - apply update_nth_ext_at with (a := g); [exact Eg|].
    destruct (nth_error_zero_sample ci) as [H|H]; rewrite H in Eg; [|discriminate].
    inversion Eg. subst g.
    destruct (nth_error (repeat (zero_cell N_ANCHORS N_CLASSES) (Z.to_nat grid_w)) ri)
      as [cl|] eqn:Ecl.
    + apply update_nth_ext_at with (a := cl); [exact Ecl|].
      apply nth_error_In, repeat_spec in Ecl. subst cl. reflexivity.
    + rewrite !update_nth_id; [reflexivity| |]; intros a Ha; congruence.
  - rewrite !update_nth_id; [reflexivity| |]; intros a Ha; congruence.
Qed.

(** The effect of the loop body on a tensor whose sample [b] is still all
    zeros. *)
Lemma encode_at_zero (labels : list (list Q)) (T T' : tensor) (b : nat) :
  Forall (fun lab => length lab = (5 + N_CLASSES)%nat) labels ->
  nth_error T b = Some zeros ->
  encode_at N_CLASSES grid_w grid_h labels T b = Ok T' ->
  exists lab s,
    nth_error labels b = Some lab /\ is_encoding lab s
    /\ T' = update_nth b (fun _ => s) T.
Proof.
  intros Hshape HTb H. unfold encode_at in H.
  destruct (nth_result labels b) as [lab|] eqn:Elab; cbn [rbind] in H; [|discriminate].
  apply nth_result_ok in Elab.
  assert (Hlen : length lab = (5 + N_CLASSES)%nat).
  { rewrite Forall_forall in Hshape. apply Hshape. eapply nth_error_In. exact Elab. }
  destruct (label_row_shape lab Hlen) as [H4 H5].
  destruct lab as [|x [|y rest]]; try discriminate.
  set (lab := x :: y :: rest) in *.
  change (nth_result lab 0) with (Ok x) in H.
  change (nth_result lab 1) with (Ok y) in H. cbn [rbind] in H.
  destruct (cell_column grid_w x) as [r|] eqn:Er; cbn [rbind] in H; [|discriminate].
  destruct (cell_row grid_h y) as [c|] eqn:Ec; cbn [rbind] in H; [|discriminate].
  exists lab.
  destruct ((r <? grid_w)%Z && (c <? grid_h)%Z) eqn:Eg.
  - destruct (setitem T b c r 0 4 (firstn 4 lab))
      as [T1|] eqn:E1; cbn [rbind] in H; [|discriminate].
    apply setitem_inv in E1. destruct E1 as (s & ci & ri & v4 & Hs & Hres & Hv4 & HT1).
    rewrite HTb in Hs. inversion Hs. subst s. clear Hs.
    rewrite (np_broadcast_same _ _ H4) in Hv4.
    assert (Ev4 : v4 = firstn 4 lab) by congruence. clear Hv4. subst v4.
    assert (HT1b : nth_error T1 b
                   = Some (put_cell ci ri (map (write_slice 0 4 (firstn 4 lab))) zeros)).
    { rewrite HT1, nth_error_update_nth, Nat.eqb_refl, HTb. reflexivity. }
    rewrite (setitem_ok HT1b
               (eq_trans (resolve_put_cell _ _ _ _ _ _) Hres)
               (np_broadcast_same [1%Q] 1 eq_refl)) in H.
    cbn [rbind] in H.
    set (T2 := update_nth b (put_cell ci ri (map (write_slice 4 1 [1%Q]))) T1) in *.
    assert (HT2b : nth_error T2 b
                   = Some (put_cell ci ri (map (write_slice 4 1 [1%Q]))
                             (put_cell ci ri (map (write_slice 0 4 (firstn 4 lab))) zeros))).
    { unfold T2. rewrite nth_error_update_nth, Nat.eqb_refl, HT1b. reflexivity. }
    rewrite (setitem_ok HT2b
               (eq_trans (resolve_put_cell _ _ _ _ _ _)
                  (eq_trans (resolve_put_cell _ _ _ _ _ _) Hres))
               (np_broadcast_same _ _ H5)) in H.
    apply Ok_inj in H. subst T'.
    eexists. split; [exact Elab|]. split.
    + exists x, y, r, c. split; [reflexivity|]. split; [reflexivity|].
      split; [exact Er|]. split; [exact Ec|]. rewrite Eg.
      exists ci, ri. split; [exact Hres|reflexivity].
    + unfold T2. rewrite HT1, !update_nth_twice.
      apply update_nth_ext_at with (a := zeros); [exact HTb|].
      rewrite !put_cell_twice, put_cell_zero.
      unfold zero_cell. rewrite !map_repeat.
      rewrite write_three; [reflexivity|apply repeat_length|exact H4|exact H5].
  - apply Ok_inj in H. subst T'. exists zeros. split; [exact Elab|]. split.
    + exists x, y, r, c. split; [reflexivity|]. split; [reflexivity|].
      split; [exact Er|]. split; [exact Ec|]. rewrite Eg. reflexivity.
    + symmetry. apply update_nth_id. intros a Ha. congruence.
Qed.


(** When the indices resolve, the loop body succeeds. *)
Lemma encode_at_zero_ok (labels : list (list Q)) (T : tensor) (b : nat)
  (lab : list Q) (x y : Q) (r c : Z) :
  length lab = (5 + N_CLASSES)%nat ->
  nth_error T b = Some zeros ->
  nth_error labels b = Some lab ->
  nth_error lab 0 = Some x -> nth_error lab 1 = Some y ->
  cell_column grid_w x = Ok r -> cell_row grid_h y = Ok c ->
  ((r <? grid_w)%Z && (c <? grid_h)%Z = true -> exists p, resolve zeros c r = Ok p) ->
  exists T', encode_at N_CLASSES grid_w grid_h labels T b = Ok T'.
Proof.
  intros Hlen HTb Elab Hx Hy Er Ec Hres. unfold encode_at.
  apply nth_result_ok in Elab, Hx, Hy. rewrite Elab. cbn [rbind].
  rewrite Hx. cbn [rbind]. rewrite Hy. cbn [rbind].
  rewrite Er. cbn [rbind]. rewrite Ec. cbn [rbind].
  destruct (label_row_shape lab Hlen) as [H4 H5].
  destruct ((r <? grid_w)%Z && (c <? grid_h)%Z);
    [|eexists; reflexivity].
  destruct (Hres eq_refl) as [[ci ri] Hp].
  rewrite (setitem_ok HTb Hp (np_broadcast_same _ _ H4)). cbn [rbind].
  erewrite setitem_ok;
    [| rewrite nth_error_update_nth, Nat.eqb_refl, HTb; reflexivity
     | rewrite resolve_put_cell; exact Hp
     | exact (np_broadcast_same [1%Q] 1 eq_refl)].
  cbn [rbind].
  erewrite setitem_ok;
    [| rewrite !nth_error_update_nth, Nat.eqb_refl, HTb; reflexivity
     | rewrite !resolve_put_cell; exact Hp
     | exact (np_broadcast_same _ _ H5)].
  eexists; reflexivity.
Qed.

(** The loop over [b]: the samples [k .. k+m-1], all zeros before, become
    the encodings of their label vectors; the others are left alone. *)
Lemma encode_loop_spec (labels : list (list Q)) (m : nat) :
  well_shaped N_CLASSES labels ->
  forall (k : nat) (T T' : tensor),
    (forall b, (k <= b < k + m)%nat -> nth_error T b = Some zeros) ->
    encode_loop N_CLASSES grid_w grid_h labels (seq k m) T = Ok T' ->
    length T' = length T
    /\ (forall b, (b < k \/ k + m <= b)%nat -> nth_error T' b = nth_error T b)
    /\ (forall b, (k <= b < k + m)%nat ->
          exists lab s, nth_error labels b = Some lab /\ is_encoding lab s
                        /\ nth_error T' b = Some s).
Proof.
  intros Hshape. induction m as [|m IH]; intros k T T' Hzero Hloop.
  - simpl in Hloop. apply Ok_inj in Hloop. subst T'.
    split; [reflexivity|]. split; [reflexivity|]. intros b Hb. lia.
  - simpl in Hloop.
    destruct (encode_at N_CLASSES grid_w grid_h labels T k) as [T1|] eqn:E1;
      cbn [rbind] in Hloop; [|discriminate].
    apply encode_at_zero in E1; [|exact Hshape|apply Hzero; lia].
    destruct E1 as (lab & s & Hlab & Henc & HT1).
    assert (Hk : nth_error T1 k = Some s).
    { rewrite HT1, nth_error_update_nth, Nat.eqb_refl, (Hzero k) by lia. reflexivity. }
    assert (Hother : forall b, b <> k -> nth_error T1 b = nth_error T b).
    { intros b Hb. rewrite HT1, nth_error_update_nth.
      destruct (Nat.eqb_spec k b); [congruence|reflexivity]. }
    destruct (IH (S k) T1 T') as (Hlen & Hout & Hin); [|exact Hloop|].
    { intros b Hb. rewrite Hother by lia. apply Hzero. lia. }
    split; [rewrite Hlen, HT1; apply length_update_nth|].
    split.
    + intros b Hb. rewrite Hout by lia. apply Hother. lia.
    + intros b Hb. destruct (Nat.eq_dec b k) as [->|Hne].
      * exists lab, s. rewrite Hout by lia. auto.
      * apply Hin. lia.
Qed.

Lemma encode_loop_total (labels : list (list Q)) (m : nat) :
  well_shaped N_CLASSES labels ->
  forall (k : nat) (T : tensor),
    (forall b, (k <= b < k + m)%nat -> nth_error T b = Some zeros) ->
    (forall b, (k <= b < k + m)%nat ->
       exists lab x y r c,
         nth_error labels b = Some lab /\ nth_error lab 0 = Some x
         /\ nth_error lab 1 = Some y
         /\ cell_column grid_w x = Ok r /\ cell_row grid_h y = Ok c
         /\ ((r <? grid_w)%Z && (c <? grid_h)%Z = true ->
             exists p, resolve zeros c r = Ok p)) ->
    exists T', encode_loop N_CLASSES grid_w grid_h labels (seq k m) T = Ok T'.
Proof.
  intros Hshape. induction m as [|m IH]; intros k T Hzero Hres.
  - eexists; reflexivity.
  - simpl.
    destruct (Hres k) as (lab & x & y & r & c & Hlab & Hx & Hy & Hr & Hc & Hp); [lia|].
    assert (Hlen : length lab = (5 + N_CLASSES)%nat).
    { unfold well_shaped in Hshape. rewrite Forall_forall in Hshape.
      apply Hshape. eapply nth_error_In. exact Hlab. }
    destruct (encode_at_zero_ok labels T k lab x y r c Hlen (Hzero k ltac:(lia))
                Hlab Hx Hy Hr Hc Hp)
      as [T1 E1].
    rewrite E1. cbn [rbind].
    apply encode_at_zero in E1; [|exact Hshape|apply Hzero; lia].
    destruct E1 as (lab' & s & _ & _ & HT1).
    apply IH.
    + intros b Hb. rewrite HT1, nth_error_update_nth.
      destruct (Nat.eqb_spec k b); [lia|]. apply Hzero. lia.
    + intros b Hb. apply Hres. lia.
Qed.

Lemma cell_at_zero (c r : nat) :
  cell_at zeros c r
  = if (c <? Z.to_nat grid_h)%nat && (r <? Z.to_nat grid_w)%nat
    then Some (zero_cell N_ANCHORS N_CLASSES) else None.
Proof.
  unfold cell_at, zero_sample.
  destruct (Nat.ltb_spec c (Z.to_nat grid_h)) as [Hc|Hc]; simpl.
  - rewrite nth_error_repeat by exact Hc.
    destruct (Nat.ltb_spec r (Z.to_nat grid_w)) as [Hr|Hr].
    + apply nth_error_repeat. exact Hr.
    + apply nth_error_None. rewrite repeat_length. exact Hr.
  - replace (nth_error _ c) with (@None (list cell)); [reflexivity|].
    symmetry. apply nth_error_None. rewrite repeat_length. exact Hc.
Qed.

Lemma cell_at_put (ci ri c r : nat) (F : cell -> cell) (s : sample_grid) :
  cell_at (put_cell ci ri F s) c r
  = if (ci =? c)%nat && (ri =? r)%nat then option_map F (cell_at s c r)
    else cell_at s c r.
Proof.
  unfold cell_at, put_cell. rewrite nth_error_update_nth.
  destruct (Nat.eqb ci c); simpl; [|reflexivity].
  destruct (nth_error s c) as [g|]; simpl.
  - apply nth_error_update_nth.
  - destruct (Nat.eqb ri r); reflexivity.
Qed.

Lemma resolve_zero (c r : Z) (ci ri : nat) :
  resolve zeros c r = Ok (ci, ri) ->
  np_index c (Z.to_nat grid_h) = Ok ci /\ np_index r (Z.to_nat grid_w) = Ok ri
  /\ (ci < Z.to_nat grid_h)%nat /\ (ri < Z.to_nat grid_w)%nat.
Proof.
  unfold resolve, zero_sample. rewrite repeat_length.
  destruct (np_index c (Z.to_nat grid_h)) as [ci'|] eqn:Ec; cbn [rbind]; [|discriminate].
  pose proof (np_index_range _ _ _ Ec) as Hci.
  unfold nth_result. rewrite nth_error_repeat by exact Hci. cbn [rbind].
  rewrite repeat_length.
  destruct (np_index r (Z.to_nat grid_w)) as [ri'|] eqn:Er; cbn [rbind]; [|discriminate].
  pose proof (np_index_range _ _ _ Er) as Hri.
  intros H. apply Ok_inj in H. inversion H. subst. auto.
Qed.

Lemma resolve_zero_ok (c r : Z) (ci ri : nat) :
  np_index c (Z.to_nat grid_h) = Ok ci -> np_index r (Z.to_nat grid_w) = Ok ri ->
  resolve zeros c r = Ok (ci, ri).
Proof.
  intros Ec Er. unfold resolve, zero_sample. rewrite repeat_length, Ec. cbn [rbind].
  unfold nth_result. rewrite nth_error_repeat by (eapply np_index_range; exact Ec).
  cbn [rbind]. rewrite repeat_length, Er. reflexivity.
Qed.

(** Populated and empty cells. *)
Lemma zero_cell_empty : cell_populated (zero_cell N_ANCHORS N_CLASSES) = false.
Proof.
  unfold cell_populated, zero_cell. apply existsb_repeat_false.
  unfold row_nonzero. apply existsb_repeat_false. reflexivity.
Qed.

Lemma label_row_nonzero (lab : list Q) : row_nonzero (label_row lab) = true.
Proof.
  unfold row_nonzero, label_row. rewrite existsb_app. apply orb_true_iff. right.
  reflexivity.
Qed.

Lemma label_cell_populated (lab : list Q) :
  (0 < N_ANCHORS)%nat -> cell_populated (repeat (label_row lab) N_ANCHORS) = true.
Proof.
  intros Hpos. unfold cell_populated.
  destruct N_ANCHORS as [|n]; [lia|]. simpl. rewrite label_row_nonzero. reflexivity.
Qed.

(** The cells of an encoded sample. *)
Lemma encoded_cells (lab : list Q) (s : sample_grid) :
  is_encoding lab s ->
  exists x y r c,
    nth_error lab 0 = Some x /\ nth_error lab 1 = Some y /\
    cell_column grid_w x = Ok r /\ cell_row grid_h y = Ok c /\
    ((r <? grid_w)%Z && (c <? grid_h)%Z = false -> s = zeros)
    /\ ((r <? grid_w)%Z && (c <? grid_h)%Z = true ->
        exists ci ri,
          resolve s c r = Ok (ci, ri)
          /\ np_index c (Z.to_nat grid_h) = Ok ci
          /\ np_index r (Z.to_nat grid_w) = Ok ri
          /\ (ci < Z.to_nat grid_h)%nat /\ (ri < Z.to_nat grid_w)%nat
          /\ cell_at s ci ri = Some (repeat (label_row lab) N_ANCHORS)
          /\ forall c r, (c, r) <> (ci, ri) -> cell_at s c r = cell_at zeros c r).
Proof.
  intros (x & y & r & c & Hx & Hy & Hr & Hc & Henc). exists x, y, r, c.
  split; [exact Hx|]. split; [exact Hy|]. split; [exact Hr|]. split; [exact Hc|].
  destruct ((r <? grid_w)%Z && (c <? grid_h)%Z).
  - split; [discriminate|]. intros _.
    destruct Henc as (ci & ri & Hres & ->). exists ci, ri.
    split; [rewrite resolve_put_cell; exact Hres|].
    apply resolve_zero in Hres. destruct Hres as (Hnc & Hnr & Hci & Hri).
    repeat (split; [assumption|]). split.
    + rewrite cell_at_put, !Nat.eqb_refl, cell_at_zero. simpl.
      apply Nat.ltb_lt in Hci, Hri. rewrite Hci, Hri. reflexivity.
    + intros c' r' Hne. rewrite cell_at_put.
      destruct (Nat.eqb_spec ci c'); destruct (Nat.eqb_spec ri r'); simpl; try reflexivity.
      subst. congruence.
  - split; [|discriminate]. intros _. exact Henc.
Qed.

Lemma np_cell_resolve (T : tensor) (b : nat) (s : sample_grid) (c r : Z) :
  nth_error T b = Some s ->
  np_cell T b c r = match resolve s c r with
                    | Ok (ci, ri) => cell_at s ci ri
                    | Raise _ => None
                    end.
Proof.
  intros Hs. unfold np_cell, resolve, cell_at, nth_result. rewrite Hs.
  destruct (np_index c (length s)) as [ci|]; cbn [rbind]; [|reflexivity].
  destruct (nth_error s ci) as [g|] eqn:Eg; cbn [rbind]; [|reflexivity].
  destruct (np_index r (length g)) as [ri|]; cbn [rbind]; [rewrite Eg|]; reflexivity.
Qed.

Lemma get_cell_at (T : tensor) (b : nat) (s : sample_grid) (c r : nat) :
  nth_error T b = Some s -> get_cell T b c r = cell_at s c r.
Proof.
  intros Hs. unfold get_cell, cell_at. rewrite Hs. reflexivity.
Qed.

(** The tensor [grid_encode] returns: one encoded sample per label. *)
Lemma grid_encode_spec (batch_size : Z) (labels : list (list Q)) (T : tensor) :
  well_shaped N_CLASSES labels ->
  grid_encode N_ANCHORS N_CLASSES batch_size grid_w grid_h labels = Ok T ->
  length T = Z.to_nat batch_size
  /\ forall b, (b < Z.to_nat batch_size)%nat ->
       exists lab s, nth_error labels b = Some lab /\ is_encoding lab s
                     /\ nth_error T b = Some s.
Proof.
  intros Hshape. unfold grid_encode, np_zeros.
  destruct ((batch_size <? 0)%Z || (grid_h <? 0)%Z || (grid_w <? 0)%Z);
    cbn [rbind]; [discriminate|].
  intros Hloop.
  apply encode_loop_spec in Hloop; [|exact Hshape|].
  - destruct Hloop as (Hlen & _ & Hin). rewrite repeat_length in Hlen.
    split; [exact Hlen|]. intros b Hb. apply Hin. lia.
  - intros b Hb. apply nth_error_repeat. lia.
Qed.

Lemma cell_column_Ok (g : Z) (x : Q) (r : Z) :
  cell_column g x = Ok r <-> exists p, fmul x (inject_Z g) = Ok p /\ r = Qfloor p.
Proof.
  unfold cell_column. rewrite rbind_Ok. split.
  - intros (p & Hp & H). inversion H. exists p. auto.
  - intros (p & Hp & ->). exists p. auto.
Qed.

Lemma cell_row_column (g : Z) (y : Q) : cell_row g y = cell_column g y.
Proof.
  reflexivity.
Qed.

Lemma cell_column_nonneg (g : Z) (x : Q) (r : Z) :
  0 <= x -> (0 <= g)%Z -> cell_column g x = Ok r -> (0 <= r)%Z.
Proof.
  intros Hx Hg H. apply cell_column_Ok in H. destruct H as (p & Hp & ->).
  change 0%Z with (Qfloor 0). apply Qfloor_resp_le.
  apply (fmul_nonneg _ _ _ Hx) in Hp; [exact Hp|].
  apply EstimatorFacts.inject_Z_nonneg, Hg.
Qed.

Lemma cell_column_finite (g : Z) (x : Q) :
  finite_product x (inject_Z g) -> exists r, cell_column g x = Ok r.
Proof.
  intros (p & Hp). exists (Qfloor p). apply cell_column_Ok. exists p. auto.
Qed.

(** A centroid at 1 has the grid side as its index. *)
Lemma cell_column_one (g : Z) (x : Q) (r : Z) :
  x == 1 -> (Z.abs g < 2 ^ 53)%Z -> cell_column g x = Ok r -> r = g.
Proof.
  intros Hx Hg H. apply cell_column_Ok in H. destruct H as (p & Hp & ->).
  destruct (fmul_comp _ (inject_Z 1) _ (inject_Z g) _ Hx (Qeq_refl _) Hp)
    as (p2 & Hp2 & Heq).
  destruct (fmul_Z 1 g) as (p3 & Hp3 & Heq3); [simpl; lia|exact Hg| |].
  { rewrite Z.mul_1_l. exact Hg. }
  assert (p3 = p2) by congruence. subst p3.
  rewrite (Qfloor_comp _ _ Heq), (Qfloor_comp _ _ Heq3), Z.mul_1_l. apply Qfloor_Z.
Qed.

(** The index of a float coordinate is the floor of the exact product or
    one more: the float product is the rounding of the exact one, and
    rounding is monotone and leaves integers below 2^53 in place. *)
Lemma cell_column_near_floor (g : Z) (x : Q) (r : Z) :
  is_float x -> (Z.abs g < 2 ^ 53)%Z ->
  (Z.abs (Qfloor (x * inject_Z g)) < 2 ^ 53 - 1)%Z ->
  cell_column g x = Ok r ->
  (Qfloor (x * inject_Z g) <= r <= Qfloor (x * inject_Z g) + 1)%Z.
Proof.
  intros Fx Hg Hk H. apply cell_column_Ok in H. destruct H as (p & Hp & ->).
  apply fmul_float in Hp; [|exact Fx|apply is_float_Z; exact Hg].
  destruct Hp as (p2 & Hp2 & Heq). rewrite (Qfloor_comp _ _ Heq).
  set (k := Qfloor (x * inject_Z g)) in *.
  destruct (round64_Z k) as (k1 & Ek1 & Hk1); [lia|].
  destruct (round64_Z (k + 1)) as (k2 & Ek2 & Hk2); [lia|].
  assert (Hlow : inject_Z k <= p2).
  { rewrite <- Hk1. apply (round64_mono _ _ _ _ Ek1 Hp2). apply Qfloor_le. }
  assert (Hhigh : p2 <= inject_Z (k + 1)).
  { rewrite <- Hk2. apply (round64_mono _ _ _ _ Hp2 Ek2).
    apply Qlt_le_weak, Qlt_floor. }
  split.
  - rewrite <- (Qfloor_Z k). apply Qfloor_resp_le. exact Hlow.
  - rewrite <- (Qfloor_Z (k + 1)). apply Qfloor_resp_le. exact Hhigh.
Qed.

(** Centroids of magnitude up to 2^970 have finite products with grid
    sides up to 2^53. *)
Lemma centroid_ok_bounded (x y : Q) :
  0 <= x -> x <= pow2 970 -> 0 <= y -> y <= pow2 970 ->
  (Z.abs grid_w <= 2 ^ 53)%Z -> (Z.abs grid_h <= 2 ^ 53)%Z ->
  centroid_ok grid_w grid_h x y.
Proof.
  intros Hx0 Hx1 Hy0 Hy1 Hw Hh.
  assert (Hside : forall g, (Z.abs g <= 2 ^ 53)%Z -> Qabs (inject_Z g) <= pow2 53).
  { intros g Hg. rewrite (pow2_Z 53) by lia. apply Qabs_Qle_condition.
    rewrite <- inject_Z_opp, <- !Zle_Qle. lia. }
  split; [exact Hx0|]. split; [exact Hy0|]. split.
  - apply (fmul_finite _ _ 970 53); try lia; [|apply Hside, Hw].
    rewrite Qabs_pos by exact Hx0. exact Hx1.
  - apply (fmul_finite _ _ 970 53); try lia; [|apply Hside, Hh].
    rewrite Qabs_pos by exact Hy0. exact Hy1.
Qed.

Lemma grid_encode_total (batch_size : Z) (labels : list (list Q)) :
  well_shaped N_CLASSES labels ->
  (0 <= batch_size)%Z -> (0 <= grid_w)%Z -> (0 <= grid_h)%Z ->
  (Z.to_nat batch_size <= length labels)%nat ->
  Forall (fun lab => exists x y, nth_error lab 0 = Some x /\ nth_error lab 1 = Some y
                                 /\ centroid_ok grid_w grid_h x y) labels ->
  exists T, grid_encode N_ANCHORS N_CLASSES batch_size grid_w grid_h labels = Ok T.
Proof.
  intros Hshape Hbs Hgw Hgh Hlen Hpos. unfold grid_encode, np_zeros.
  replace ((batch_size <? 0)%Z || (grid_h <? 0)%Z || (grid_w <? 0)%Z) with false
    by (symmetry; rewrite !orb_false_iff, !Z.ltb_ge; auto).
  cbn [rbind]. apply encode_loop_total; [exact Hshape| |].
  - intros b Hb. apply nth_error_repeat. lia.
  - intros b Hb.
    destruct (nth_error labels b) as [lab|] eqn:Elab;
      [|apply nth_error_None in Elab; lia].
    rewrite Forall_forall in Hpos.
    destruct (Hpos lab (nth_error_In _ _ Elab))
      as (x & y & Hx & Hy & Hx0 & Hy0 & Hfx & Hfy).
    destruct (cell_column_finite _ _ Hfx) as (r & Hr).
    destruct (cell_column_finite _ _ Hfy) as (c & Hc).
    exists lab, x, y, r, c. repeat (split; [assumption || reflexivity|]).
    intros Hguard. apply andb_true_iff in Hguard. destruct Hguard as [Hr' Hc'].
    apply Z.ltb_lt in Hr', Hc'.
    pose proof (cell_column_nonneg _ _ _ Hx0 Hgw Hr).
    pose proof (cell_column_nonneg _ _ _ Hy0 Hgh Hc).
    eexists. apply resolve_zero_ok; apply np_index_nonneg; lia.
Qed.

Lemma grid_encode_sides (batch_size : Z) (labels : list (list Q)) (T : tensor) :
  grid_encode N_ANCHORS N_CLASSES batch_size grid_w grid_h labels = Ok T ->
  (0 <= batch_size)%Z /\ (0 <= grid_w)%Z /\ (0 <= grid_h)%Z.
Proof.
  unfold grid_encode, np_zeros.
  destruct ((batch_size <? 0)%Z || (grid_h <? 0)%Z || (grid_w <? 0)%Z) eqn:E;
    cbn [rbind]; [discriminate|].
  intros _. rewrite !orb_false_iff, !Z.ltb_ge in E. tauto.
Qed.

Lemma cell_at_zero_empty (c r : nat) (cl : cell) :
  cell_at zeros c r = Some cl -> cell_populated cl = false.
Proof.
  rewrite cell_at_zero.
  destruct ((c <? Z.to_nat grid_h)%nat && (r <? Z.to_nat grid_w)%nat); [|discriminate].
  intros H. inversion H. apply zero_cell_empty.
Qed.

Lemma cell_at_zero_in_range (c r : nat) :
  (c < Z.to_nat grid_h)%nat -> (r < Z.to_nat grid_w)%nat ->
  cell_at zeros c r = Some (zero_cell N_ANCHORS N_CLASSES).
Proof.
  intros Hc Hr. rewrite cell_at_zero.
  apply Nat.ltb_lt in Hc, Hr. rewrite Hc, Hr. reflexivity.
Qed.

Lemma guard_iff (r c : Z) :
  (r <? grid_w)%Z && (c <? grid_h)%Z = true <-> (r < grid_w)%Z /\ (c < grid_h)%Z.
Proof.
  rewrite andb_true_iff, !Z.ltb_lt. reflexivity.
Qed.

Lemma np_index_position (i : Z) (n k : nat) :
  np_index i n = Ok k ->
  k = Z.to_nat (if (i <? 0)%Z then Z.of_nat n + i else i).
Proof.
  unfold np_index.
  destruct ((0 <=? i)%Z && (i <? Z.of_nat n)%Z) eqn:E1.
  - intros H. inversion H. apply andb_true_iff in E1. destruct E1 as [E1 _].
    apply Z.leb_le in E1. destruct (Z.ltb_spec i 0); [lia|reflexivity].
  - destruct ((- Z.of_nat n <=? i)%Z && (i <? 0)%Z) eqn:E2; [|discriminate].
    intros H. inversion H. apply andb_true_iff in E2. destruct E2 as [_ E2].
    rewrite E2. reflexivity.
Qed.

Lemma label_row_parts (lab : list Q) :
  length lab = (5 + N_CLASSES)%nat ->
  firstn 4 (label_row lab) = firstn 4 lab
  /\ nth_error (label_row lab) 4 = Some 1%Q
  /\ skipn 5 (label_row lab) = skipn 5 lab.
Proof.
  intros Hlen. unfold label_row.
  destruct lab as [|a [|b [|c [|d [|e lab]]]]]; try discriminate.
  simpl. auto.
Qed.

(** C2. In every tensor the grid encoder produces, every sample has at
    most one populated cell. With r and c the column and row indices lines
    155-158 compute for its centroid: when the guard of line 160 passes
    there is exactly one, the cell the indices address: all its [N_ANCHORS]
    slots hold the same row, the label's four box coordinates, objectness 1
    (entry 4 of every slot) and the label's class encoding, and every
    other cell of the sample is all zeros. When the guard fails the whole
    sample is zeros. *)
Theorem grid_encode_one_cell (batch_size : Z) (labels : list (list Q)) (T : tensor) :
  (0 < N_ANCHORS)%nat ->
  well_shaped N_CLASSES labels ->
  grid_encode N_ANCHORS N_CLASSES batch_size grid_w grid_h labels = Ok T ->
  length T = Z.to_nat batch_size
  /\ forall b, (b < Z.to_nat batch_size)%nat ->
       exists lab x y r c,
         nth_error labels b = Some lab
         /\ nth_error lab 0 = Some x /\ nth_error lab 1 = Some y
         /\ cell_column grid_w x = Ok r /\ cell_row grid_h y = Ok c
         /\ (forall c1 r1 c2 r2 cl1 cl2,
               get_cell T b c1 r1 = Some cl1 -> cell_populated cl1 = true ->
               get_cell T b c2 r2 = Some cl2 -> cell_populated cl2 = true ->
               c1 = c2 /\ r1 = r2)
         /\ ((r < grid_w)%Z /\ (c < grid_h)%Z ->
             exists ci ri,
               np_index c (Z.to_nat grid_h) = Ok ci
               /\ np_index r (Z.to_nat grid_w) = Ok ri
               /\ (ci < Z.to_nat grid_h)%nat /\ (ri < Z.to_nat grid_w)%nat
               /\ get_cell T b ci ri = Some (repeat (label_row lab) N_ANCHORS)
               /\ cell_populated (repeat (label_row lab) N_ANCHORS) = true
               /\ (forall a, (a < N_ANCHORS)%nat ->
                     get_entry T b ci ri a 4 = Some 1%Q)
               /\ forall c' r',
                    (c' < Z.to_nat grid_h)%nat -> (r' < Z.to_nat grid_w)%nat ->
                    (c', r') <> (ci, ri) ->
                    get_cell T b c' r' = Some (zero_cell N_ANCHORS N_CLASSES))
         /\ (~ ((r < grid_w)%Z /\ (c < grid_h)%Z) ->
             forall c' r',
               (c' < Z.to_nat grid_h)%nat -> (r' < Z.to_nat grid_w)%nat ->
               get_cell T b c' r' = Some (zero_cell N_ANCHORS N_CLASSES))
         /\ firstn 4 (label_row lab) = firstn 4 lab
         /\ nth_error (label_row lab) 4 = Some 1%Q
         /\ skipn 5 (label_row lab) = skipn 5 lab.
Proof.
  intros Hanchors Hshape Henc.
  destruct (grid_encode_spec _ _ _ Hshape Henc) as [Hlen Hsamples].
  split; [exact Hlen|]. intros b Hb.
  destruct (Hsamples b Hb) as (lab & s & Hlab & Hs & HTb).
  destruct (encoded_cells _ _ Hs) as (x & y & r & c & Hx & Hy & Hr & Hc & Hdrop & Hkeep).
  exists lab, x, y, r, c. repeat (split; [assumption|]).
  assert (Hlablen : length lab = (5 + N_CLASSES)%nat).
  { unfold well_shaped in Hshape. rewrite Forall_forall in Hshape.
    apply Hshape. eapply nth_error_In. exact Hlab. }
  destruct ((r <? grid_w)%Z && (c <? grid_h)%Z) eqn:Eg.
  - destruct (Hkeep eq_refl) as (ci & ri & _ & Hnc & Hnr & Hci & Hri & Hcell & Hrest).
    clear Hdrop Hkeep.
    assert (Honly : forall c' r' cl, get_cell T b c' r' = Some cl ->
                                     cell_populated cl = true -> c' = ci /\ r' = ri).
    { intros c' r' cl Hget Hpop. rewrite (get_cell_at _ _ _ _ _ HTb) in Hget.
      destruct (Nat.eq_dec c' ci) as [->|Hc'];
        destruct (Nat.eq_dec r' ri) as [->|Hr']; auto;
        rewrite Hrest in Hget by congruence;
        apply cell_at_zero_empty in Hget; congruence. }
    split.
    { intros c1 r1 c2 r2 cl1 cl2 H1 P1 H2 P2.
      destruct (Honly _ _ _ H1 P1), (Honly _ _ _ H2 P2). subst. auto. }
    split.
    { intros _. exists ci, ri.
      split; [exact Hnc|]. split; [exact Hnr|]. split; [exact Hci|]. split; [exact Hri|].
      split; [rewrite (get_cell_at _ _ _ _ _ HTb); exact Hcell|].
      split; [apply label_cell_populated; exact Hanchors|].
      split.
      { intros a Ha. unfold get_entry.
        rewrite (get_cell_at _ _ _ _ _ HTb), Hcell, nth_error_repeat by exact Ha.
        apply label_row_parts. exact Hlablen. }
      intros c' r' Hc' Hr' Hne. rewrite (get_cell_at _ _ _ _ _ HTb), Hrest by exact Hne.
      apply cell_at_zero_in_range; assumption. }
    split.
    { intros Hn. exfalso. apply Hn. apply guard_iff. exact Eg. }
    apply label_row_parts. exact Hlablen.
  - specialize (Hdrop eq_refl). subst s. clear Hkeep.
    split.
    { intros c1 r1 c2 r2 cl1 cl2 H1 P1 H2 P2.
      rewrite (get_cell_at _ _ _ _ _ HTb) in H1. apply cell_at_zero_empty in H1. congruence. }
    split.
    { intros Hg. apply guard_iff in Hg. congruence. }
    split.
    { intros _ c' r' Hc' Hr'. rewrite (get_cell_at _ _ _ _ _ HTb).
      apply cell_at_zero_in_range; assumption. }
    apply label_row_parts. exact Hlablen.
Qed.


End OneSample.


(** A centroid at (0.1, 0.1) on a 13x13 grid goes to the cell (1, 1), and
    the cell next to it stays empty. *)
Example centroid_in_cell_1_1 :
  exists T cl cl',
    grid_encode 5 2 1 13 13 [[1 # 10; 1 # 10; 1 # 5; 1 # 5; 1; 1; 0]] = Ok T
    /\ cell_column 13 (1 # 10) = Ok 1%Z /\ cell_row 13 (1 # 10) = Ok 1%Z
    /\ get_cell T 0 1 1 = Some cl /\ cell_populated cl = true
    /\ get_cell T 0 1 2 = Some cl' /\ cell_populated cl' = false.
Proof.
  do 3 eexists. split; [vm_compute; reflexivity|].
  repeat split; vm_compute; reflexivity.
Qed.

Lemma labels13_centroids :
  Forall (fun lab => exists x y, nth_error lab 0 = Some x /\ nth_error lab 1 = Some y
                                 /\ centroid_ok 13 13 x y) Sample.labels13.
Proof.
  repeat constructor; eexists; eexists;
    (split; [reflexivity|]); (split; [reflexivity|]);
    (apply centroid_ok_bounded; [discriminate|vm_compute; discriminate
                                |discriminate|vm_compute; discriminate
                                |simpl; lia|simpl; lia]).
Qed.


Lemma grid_encode_one_cell_witness :
  (0 < 5)%nat /\ well_shaped 2 Sample.labels13
  /\ grid_encode 5 2 2 13 13 Sample.labels13 = Ok Sample.tensor13
  /\ length Sample.tensor13 = Z.to_nat 2.
Proof.
  assert (Hs : well_shaped 2 Sample.labels13) by (repeat constructor).
  assert (He : grid_encode 5 2 2 13 13 Sample.labels13 = Ok Sample.tensor13)
    by (vm_compute; reflexivity).
  split; [lia|]. split; [exact Hs|]. split; [exact He|].
  exact (proj1 (grid_encode_one_cell 5 2 13 13 2 Sample.labels13 Sample.tensor13
                  ltac:(lia) Hs He)).
Defined.

End EncoderFacts.
(* ================================================================== *)
(** * Properties of the sample builder *)
(* ================================================================== *)

Module BuilderFacts.

Lemma np_where_first_found (classes : list string) (lab : string) (i : nat) :
  np_where_first classes lab = Ok i ->
  nth_error classes i = Some lab
  /\ forall j, (j < i)%nat -> nth_error classes j <> Some lab.
Proof.
  revert i. induction classes as [|c classes IH]; simpl; intros i H; [discriminate|].
  destruct (String.eqb c lab) eqn:Ec.
  - apply Ok_inj in H. subst i. apply String.eqb_eq in Ec. subst c.
    split; [reflexivity|]. intros j Hj. lia.
  - destruct (np_where_first classes lab) as [k|] eqn:Ek; cbn [rbind] in H; [|discriminate].
    apply Ok_inj in H. subst i. destruct (IH k eq_refl) as [Hk Hfirst].
    split; [exact Hk|]. intros [|j] Hj; simpl.
    + intros Hc. inversion Hc. subst c. rewrite String.eqb_refl in Ec. discriminate.
    + apply Hfirst. lia.
Qed.

Lemma np_where_first_absent (classes : list string) (lab : string) :
  ~ In lab classes -> np_where_first classes lab = Raise IndexError.
Proof.
  induction classes as [|c classes IH]; simpl; intros Hn; [reflexivity|].
  destruct (String.eqb c lab) eqn:Ec.
  - apply String.eqb_eq in Ec. tauto.
  - rewrite IH by tauto. reflexivity.
Qed.

Lemma np_where_first_present (classes : list string) (lab : string) :
  In lab classes -> exists i, np_where_first classes lab = Ok i.
Proof.
  induction classes as [|c classes IH]; simpl; intros Hin; [contradiction|].
  destruct (String.eqb c lab) eqn:Ec; [eexists; reflexivity|].
  destruct Hin as [->|Hin]; [rewrite String.eqb_refl in Ec; discriminate|].
  destruct (IH Hin) as [i ->]. eexists; reflexivity.
Qed.

Section Builder.

Variable cfg : Cfg.
Variable W : World.
Variable augment_data : bool.
Variable augment_level : list row.

Local Abbreviation process := (process_entry cfg W augment_data augment_level).

Lemma for_each_cons {A S : Type} (a : A) (l : list A) (body : S -> A -> M W S)
  (acc : S) (s : state W) :
  for_each (a :: l) body acc s
  = match body acc a s with
    | (Ok acc', s') => for_each l body acc' s'
    | (Raise e, s') => (Raise e, s')
    end.
Proof.
  reflexivity.
Qed.

Lemma for_each_app {A S : Type} (l1 l2 : list A) (body : S -> A -> M W S)
  (acc : S) (s : state W) :
  for_each (l1 ++ l2) body acc s
  = match for_each l1 body acc s with
    | (Ok acc', s') => for_each l2 body acc' s'
    | (Raise e, s') => (Raise e, s')
    end.
Proof.
  revert acc s. induction l1 as [|a l1 IH]; intros acc s; [reflexivity|].
  simpl app. rewrite !for_each_cons.
  destruct (body acc a s) as [[acc'|e] s']; [apply IH|reflexivity].
Qed.

(** An entry whose file is missing: the message is printed, [X] and [Y]
    stay as they are, nothing is raised. *)
Lemma process_entry_missing (xy : XY W) (f : string) (lab : Box * string) (s : state W) :
  isfile W f = false ->
  process xy (f, lab) s
  = (Ok xy, mkState (rand s) (multi_scale s) (new_height s) (new_width s)
                    (printed s ++ ["Image Not Found"%string])
                    (transform_calls s) (yielded s)).
Proof.
  intros Hf. unfold process_entry. destruct lab as [bbox label].
  rewrite Hf. reflexivity.
Qed.

(** An entry that is processed without an exception has its class name in
    the categories file. *)
Lemma process_entry_class (xy xy' : XY W) (f : string) (bbox : Box) (label : string)
  (s : state W) :
  isfile W f = true ->
  fst (process xy (f, (bbox, label)) s) = Ok xy' ->
  In label (CLASSES cfg).
Proof.
  intros Hf. unfold process_entry. rewrite Hf. cbn [negb].
  destruct (shape W (cvtColor W (imread W f))) as [height width].
  destruct (in_dec string_dec label (CLASSES cfg)) as [Hin|Hout]; [intros _; exact Hin|].
  apply np_where_first_absent in Hout.
  unfold bind, lift. rewrite Hout.
  destruct augment_data.
  - unfold read_var, set_new_size, ret. destruct (multi_scale s); simpl; [|discriminate].
    destruct (scaled_size (IMG_INPUT cfg) q); simpl; discriminate.
  - unfold ret. simpl. discriminate.
Qed.

Lemma process_entry_absent_class (xy : XY W) (f : string) (bbox : Box) (label : string)
  (s : state W) :
  isfile W f = true ->
  (augment_data = true ->
   exists ms, multi_scale s = Some ms /\ finite_product (inject_Z (IMG_INPUT cfg)) ms) ->
  ~ In label (CLASSES cfg) ->
  fst (process xy (f, (bbox, label)) s) = Raise IndexError.
Proof.
  intros Hf Hms Hout. unfold process_entry. rewrite Hf. cbn [negb].
  destruct (shape W (cvtColor W (imread W f))) as [height width].
  apply np_where_first_absent in Hout.
  unfold bind, lift. rewrite Hout.
  destruct augment_data.
  - destruct (Hms eq_refl) as (ms & Ems & p & Hp).
    unfold read_var, set_new_size, ret. rewrite Ems.
    unfold scaled_size. rewrite Hp. reflexivity.
  - reflexivity.
Qed.

Lemma for_each_classes (entries : list (string * (Box * string))) :
  forall (acc xy : XY W) (s : state W),
    fst (for_each entries process acc s) = Ok xy ->
    forall f bbox label,
      In (f, (bbox, label)) entries -> isfile W f = true -> In label (CLASSES cfg).
Proof.
  induction entries as [|e entries IH]; intros acc xy s Hok f bbox label Hin Hf;
    [contradiction|].
  rewrite for_each_cons in Hok.
  destruct (process acc e s) as [[acc'|err] s'] eqn:Ee; [|discriminate].
  destruct Hin as [->|Hin].
  - eapply process_entry_class; [exact Hf|]. rewrite Ee. reflexivity.
  - eapply IH; eassumption.
Qed.

Ltac oblivious_prim :=
  intros [g1 ms1 nh1 nw1 p1 c1 y1] [g2 ms2 nh2 nw2 p2 c2 y2] (H1 & H2 & H3 & H4 & H5 & H6);
  simpl in *; subst; unfold same_but_printed; simpl.

Lemma oblivious_ret {A : Type} (a : A) : oblivious W (ret a).
Proof.
  oblivious_prim. auto 10.
Qed.

Lemma oblivious_lift {A : Type} (r : result A) : oblivious W (lift r).
Proof.
  oblivious_prim. auto 10.
Qed.

Lemma oblivious_print (msg : string) : oblivious W (print msg).
Proof.
  oblivious_prim. auto 10.
Qed.

Lemma oblivious_set_new_size (nh nw : Z) : oblivious W (set_new_size nh nw).
Proof.
  oblivious_prim. auto 10.
Qed.

Lemma oblivious_read_multi_scale : oblivious W (read_var (@multi_scale W)).
Proof.
  oblivious_prim. unfold read_var. simpl. destruct ms2; simpl; auto 10.
Qed.

Lemma oblivious_call (img : image W) (box : corners) :
  oblivious W (call_random_transform img box).
Proof.
  oblivious_prim. unfold call_random_transform. simpl.
  destruct (random_transform W g2 img box) as [res g]. simpl. auto 10.
Qed.

Lemma oblivious_bind {A B : Type} (m : M W A) (f : A -> M W B) :
  oblivious W m -> (forall a, oblivious W (f a)) -> oblivious W (bind m f).
Proof.
  intros Hm Hf s1 s2 Hs. unfold bind.
  destruct (Hm s1 s2 Hs) as [Hr Hs'].
  destruct (m s1) as [[a1|e1] s1'], (m s2) as [[a2|e2] s2']; simpl in *;
    try discriminate.
  - inversion Hr. subst. apply Hf. exact Hs'.
  - simpl. split; [inversion Hr; reflexivity|exact Hs'].
Qed.

Lemma oblivious_for_each {A S : Type} (l : list A) (body : S -> A -> M W S) :
  (forall acc a, oblivious W (body acc a)) -> forall acc, oblivious W (for_each l body acc).
Proof.
  intros Hbody. induction l as [|a l IH]; intros acc; simpl.
  - apply oblivious_ret.
  - apply oblivious_bind; [apply Hbody|exact IH].
Qed.

Lemma oblivious_augment_once (img : image W) (bbox : Box) (width height : Z)
  (one_hot : list Q) (xy : XY W) (l : Z) :
  oblivious W (augment_once W img bbox width height one_hot xy l).
Proof.
  unfold augment_once. apply oblivious_bind; [apply oblivious_call|].
  intros [aug_img aug_box]. destruct (out_of_bound width height aug_box);
    apply oblivious_ret.
Qed.

Lemma oblivious_process_entry (xy : XY W) (e : string * (Box * string)) :
  oblivious W (process xy e).
Proof.
  destruct e as [f [bbox label]]. unfold process_entry.
  destruct (negb (isfile W f)).
  - apply oblivious_bind; [apply oblivious_print|]. intros _. apply oblivious_ret.
  - destruct (shape W (cvtColor W (imread W f))) as [height width].
    apply oblivious_bind.
    + destruct augment_data; [|apply oblivious_ret].
      apply oblivious_bind; [apply oblivious_read_multi_scale|]. intros ms.
      apply oblivious_bind; [apply oblivious_lift|]. intros nh.
      apply oblivious_bind; [apply oblivious_lift|]. intros nw.
      apply oblivious_bind; [apply oblivious_set_new_size|]. intros _.
      apply oblivious_ret.
    + intros img. apply oblivious_bind; [apply oblivious_lift|]. intros index_label.
      destruct augment_data; [|apply oblivious_ret].
      apply oblivious_bind; [apply oblivious_lift|]. intros aug_level.
      apply oblivious_for_each. intros acc l. apply oblivious_augment_once.
Qed.

Lemma same_but_printed_refl (s : state W) : same_but_printed s s.
Proof.
  unfold same_but_printed. auto 10.
Qed.

(** A slice with an entry whose file is missing, against the same slice
    without that entry. *)
Lemma for_each_missing (before after : list (string * (Box * string)))
  (f : string) (lab : Box * string) (acc : XY W) (s : state W) :
  isfile W f = false ->
  fst (for_each (before ++ (f, lab) :: after) process acc s)
  = fst (for_each (before ++ after) process acc s)
  /\ same_but_printed (snd (for_each (before ++ (f, lab) :: after) process acc s))
                      (snd (for_each (before ++ after) process acc s)).
Proof.
  intros Hf. rewrite !for_each_app.
  destruct (for_each before process acc s) as [[acc1|e] s1].
  - rewrite for_each_cons, process_entry_missing by exact Hf.
    apply oblivious_for_each; [apply oblivious_process_entry|].
    unfold same_but_printed. simpl. auto 10.
  - split; [reflexivity|apply same_but_printed_refl].
Qed.

End Builder.

Lemma combine_app {A B : Type} (l1 l2 : list A) (m1 m2 : list B) :
  length l1 = length m1 -> combine (l1 ++ l2) (m1 ++ m2) = combine l1 m1 ++ combine l2 m2.
Proof.
  revert m1. induction l1 as [|a l1 IH]; intros [|b m1] H; simpl in *; try discriminate.
  - reflexivity.
  - rewrite IH by lia. reflexivity.
Qed.

Section Augmentation.

Variable W : World.

Lemma Qnegb_spec (q : Q) : Qnegb q = true <-> q < 0.
Proof.
  destruct q as [n d]. unfold Qnegb, Qlt. simpl. rewrite Z.ltb_lt. lia.
Qed.

Lemma any_negative_spec (width height : Z) (p : point) :
  any_negative width height p = true
  <-> inject_Z width < fst p \/ inject_Z height < snd p.
Proof.
  unfold any_negative. rewrite orb_true_iff, !Qnegb_spec.
  assert (Hsub : forall a b : Q, a - b < 0 <-> a < b).
  { intros a b. split; intros H.
    - apply (Qplus_lt_l _ _ (- b)). rewrite Qplus_opp_r. exact H.
    - apply (Qplus_lt_l _ _ (- b)) in H. rewrite Qplus_opp_r in H. exact H. }
  rewrite !Hsub. reflexivity.
Qed.

(** The test of line 127 looks at the upper bounds only. *)
Lemma out_of_bound_spec (width height : Z) (x1 y1 x2 y2 : Q) :
  out_of_bound width height ((x1, y1), (x2, y2)) = true
  <-> inject_Z width < x1 \/ inject_Z height < y1
      \/ inject_Z width < x2 \/ inject_Z height < y2.
Proof.
  unfold out_of_bound. rewrite orb_true_iff, !any_negative_spec. simpl. tauto.
Qed.

(** One iteration of the augmentation loop: one call of the transform;
    the variant is appended unless the test of line 127 rejects it. *)
Lemma augment_once_run (img : image W) (bbox : Box) (width height : Z)
  (one_hot : list Q) (xy : XY W) (l : Z) (s : state W) :
  augment_once W img bbox width height one_hot xy l s
  = let res := fst (random_transform W (rand s) img (to_opencv_format bbox)) in
    (Ok (if out_of_bound width height (snd res) then xy
         else append W xy (preprocess_img W (fst res))
                (flat_label
                   (to_relative_size (convert_opencv_to_box (snd res))
                                     (py_float width, py_float height))
                   one_hot)),
     mkState (snd (random_transform W (rand s) img (to_opencv_format bbox)))
             (multi_scale s) (new_height s) (new_width s) (printed s)
             (transform_calls s ++ [(img, to_opencv_format bbox)]) (yielded s)).
Proof.
  unfold augment_once, bind, call_random_transform.
  destruct (random_transform W (rand s) img (to_opencv_format bbox)) as [[aug_img aug_box] g].
  simpl. destruct (out_of_bound width height aug_box); reflexivity.
Qed.

(** The whole augmentation loop: as many calls as iterations, all on the
    same image and box; the variants that pass the test are appended. *)
Lemma augment_loop_run (img : image W) (bbox : Box) (width height : Z)
  (one_hot : list Q) (l : list Z) :
  forall (xy : XY W) (s : state W),
  exists (xy' : XY W) (s' : state W) (kept : list (image W * corners)),
    for_each l (augment_once W img bbox width height one_hot) xy s = (Ok xy', s')
    /\ transform_calls s'
       = transform_calls s ++ repeat (img, to_opencv_format bbox) (length l)
    /\ Forall (fun c => out_of_bound width height (snd c) = false) kept
    /\ (length kept <= length l)%nat
    /\ fst xy' = fst xy ++ map (fun c => preprocess_img W (fst c)) kept
    /\ snd xy'
       = snd xy ++ map (fun c => flat_label
                                   (to_relative_size (convert_opencv_to_box (snd c))
                                                     (py_float width, py_float height))
                                   one_hot) kept.
Proof.
  induction l as [|z l IH]; intros xy s.
  - exists xy, s, []. simpl. rewrite !app_nil_r. repeat split; auto.
  - rewrite for_each_cons, augment_once_run. cbv zeta.
    set (res := fst (random_transform W (rand s) img (to_opencv_format bbox))).
    set (s1 := mkState _ _ _ _ _ _ _).
    destruct (out_of_bound width height (snd res)) eqn:Eb.
    + destruct (IH xy s1) as (xy' & s' & kept & Hrun & Hcalls & Hkept & Hlen & HX & HY).
      exists xy', s', kept. split; [exact Hrun|].
      split; [rewrite Hcalls; unfold s1; simpl; rewrite <- app_assoc; reflexivity|].
      split; [exact Hkept|]. split; [simpl; lia|]. split; assumption.
    + destruct (IH (append W xy (preprocess_img W (fst res))
                      (flat_label (to_relative_size (convert_opencv_to_box (snd res))
                                     (py_float width, py_float height)) one_hot)) s1)
        as (xy' & s' & kept & Hrun & Hcalls & Hkept & Hlen & HX & HY).
      exists xy', s', (res :: kept). split; [exact Hrun|].
      split; [rewrite Hcalls; unfold s1; simpl; rewrite <- app_assoc; reflexivity|].
      split; [constructor; assumption|].
      split; [simpl; lia|].
      split.
      * rewrite HX. unfold append. simpl. rewrite <- app_assoc. reflexivity.
      * rewrite HY. unfold append. simpl. rewrite <- app_assoc. reflexivity.
Qed.

End Augmentation.

(** For a non-negative float scale the image side is the floor of the
    exact product or one more. *)
Lemma scaled_size_near_floor (img_input : Z) (ms : Q) (n : Z) :
  is_float ms -> 0 <= ms -> (0 <= img_input < 2 ^ 53)%Z ->
  (Qfloor (inject_Z img_input * ms) < 2 ^ 53 - 1)%Z ->
  scaled_size img_input ms = Ok n ->
  (Qfloor (inject_Z img_input * ms) <= n <= Qfloor (inject_Z img_input * ms) + 1)%Z.
Proof.
  intros Fms Hms Himg Hk H. unfold scaled_size in H.
  apply rbind_Ok in H. destruct H as (p & Hp & H). inversion H. subst n. clear H.
  assert (Himg0 : 0 <= inject_Z img_input).
  { change 0 with (inject_Z 0). rewrite <- Zle_Qle. lia. }
  assert (Hp0 : 0 <= p) by exact (fmul_nonneg _ _ _ Himg0 Hms Hp).
  rewrite (EstimatorFacts.py_int_floor p Hp0).
  apply fmul_float in Hp; [|apply is_float_Z; lia|exact Fms].
  destruct Hp as (p2 & Hp2 & Heq). rewrite (Qfloor_comp _ _ Heq).
  set (k := Qfloor (inject_Z img_input * ms)) in *.
  assert (Hk0 : (0 <= k)%Z).
  { unfold k. change 0%Z with (Qfloor 0). apply Qfloor_resp_le.
    apply Qmult_le_0_compat; assumption. }
  destruct (round64_Z k) as (k1 & Ek1 & Hk1); [lia|].
  destruct (round64_Z (k + 1)) as (k2 & Ek2 & Hk2); [lia|].
  split.
  - rewrite <- (Qfloor_Z k). apply Qfloor_resp_le.
    rewrite <- Hk1. apply (round64_mono _ _ _ _ Ek1 Hp2). apply Qfloor_le.
  - rewrite <- (Qfloor_Z (k + 1)). apply Qfloor_resp_le.
    rewrite <- Hk2. apply (round64_mono _ _ _ _ Hp2 Ek2).
    apply Qlt_le_weak, Qlt_floor.
Qed.

(** The image side of lines 101-102 is the integer part of the float
    product: 320 * 0.7 is rounded to 224.0, where the exact product of 320
    and the float 0.7 is just below 224, and 100 * 1.15 is rounded to
    114.99999999999999, where 100 * 23/20 is 115. *)
Example scaled_size_floats :
  scaled_size 320 (7 # 10) = Ok 224%Z
  /\ (exists ms, round64 (7 # 10) = Ok ms /\ Qfloor (inject_Z 320 * ms) = 223%Z)
  /\ scaled_size 100 (23 # 20) = Ok 114%Z
  /\ Qfloor (inject_Z 100 * (23 # 20)) = 115%Z.
Proof.
  split; [vm_compute; reflexivity|]. split.
  - eexists. split; [vm_compute; reflexivity|]. vm_compute. reflexivity.
  - split; vm_compute; reflexivity.
Qed.

(** C5, as the code has it. For every entry processed with augmentation
    enabled, each of the [aug_level] calls of [random_transform] gets the
    image as resized (to IMG_INPUT x IMG_INPUT, then to the multi-scale
    size n x n, n the integer part of the float product
    IMG_INPUT * multi_scale), not the image at its original scale, together
    with the entry's box in OpenCV corner form, in original-image
    coordinates. The base box and every augmented box that is kept are made
    relative with the width and height the image had before any resize. *)
Theorem augmentation_on_resized_image (cfg : Cfg) (W : World)
  (augment_level : list row) (xy xy' : XY W) (f : string) (bbox : Box)
  (label : string) (s s' : state W) :
  isfile W f = true ->
  process_entry cfg W true augment_level xy (f, (bbox, label)) s = (Ok xy', s') ->
  exists (ms : Q) (n : Z) (index : nat) (aug_level : Z)
         (kept : list (image W * corners)),
    multi_scale s = Some ms
    /\ scaled_size (IMG_INPUT cfg) ms = Ok n
    /\ np_where_first (CLASSES cfg) label = Ok index
    /\ loc_scaling_factor augment_level label = Ok aug_level
    /\ let img0 := cvtColor W (imread W f) in
       let height := fst (shape W img0) in
       let width := snd (shape W img0) in
       let img := resize W (resize W img0 (IMG_INPUT cfg, IMG_INPUT cfg)) (n, n) in
       let relative := fun b : Box =>
         flat_label (to_relative_size b (py_float width, py_float height))
                    (encode_label cfg index) in
       transform_calls s'
       = transform_calls s ++ repeat (img, to_opencv_format bbox) (Z.to_nat aug_level)
       /\ fst xy'
          = fst xy ++ preprocess_img W img
                      :: map (fun c => preprocess_img W (fst c)) kept
       /\ snd xy'
          = snd xy ++ relative bbox
                      :: map (fun c => relative (convert_opencv_to_box (snd c))) kept
       /\ Forall (fun c => out_of_bound width height (snd c) = false) kept
       /\ forall b : Box,
            box_array (to_relative_size b (py_float width, py_float height))
            = [xc b / inject_Z width; yc b / inject_Z height;
               w b / inject_Z width; h b / inject_Z height].
Proof.
  intros Hf Hrun. unfold process_entry in Hrun. rewrite Hf in Hrun. cbn [negb] in Hrun.
  destruct (shape W (cvtColor W (imread W f))) as [height width] eqn:Eshape.
  unfold bind, lift, read_var in Hrun.
  destruct (multi_scale s) as [ms|] eqn:Ems; [|discriminate].
  destruct (scaled_size (IMG_INPUT cfg) ms) as [n|] eqn:En; [|discriminate].
  unfold set_new_size, ret in Hrun. cbn beta iota in Hrun.
  destruct (np_where_first (CLASSES cfg) label) as [index|] eqn:Eidx; [|discriminate].
  destruct (loc_scaling_factor augment_level label) as [aug_level|] eqn:Elvl;
    [|discriminate].
  exists ms, n, index, aug_level.
  match type of Hrun with
  | for_each ?l (augment_once _ ?img _ _ _ ?oh) ?acc ?st = _ =>
      destruct (augment_loop_run W img bbox width height oh l acc st)
        as (xy1 & s1 & kept & Hloop & Hcalls & Hkept & _ & HX & HY)
  end.
  rewrite Hloop in Hrun. inversion Hrun. subst xy1 s1. clear Hrun.
  exists kept. split; [reflexivity|]. split; [exact En|].
  repeat (split; [reflexivity|]). cbv zeta. rewrite ?Eshape. cbn [fst snd].
  unfold py_range in Hcalls. rewrite length_map, length_seq in Hcalls.
  split; [exact Hcalls|].
  split; [rewrite HX; unfold append; simpl; rewrite <- app_assoc; reflexivity|].
  split; [rewrite HY; unfold append; simpl; rewrite <- app_assoc; reflexivity|].
  split; [exact Hkept|]. intros b. reflexivity.
Qed.

(** At scale 1 the image handed to the transform is 128x128, while the
    file's image is 100x200: the call is not on the original-scale image. *)
Lemma transform_not_on_original : ~ transform_on_original Sample.cfg0 Sample.world0.
Proof.
  intros H.
  destruct (process_entry Sample.cfg0 Sample.world0 true Sample.level_one ([], [])
              ("a.jpg"%string, (Sample.box0, "stop"%string)) (Sample.state_scale1 0))
    as [[xy'|e] s'] eqn:E; [|vm_compute in E; discriminate].
  specialize (H _ _ _ _ _ _ _ _
                (eq_refl : isfile Sample.world0 "a.jpg"%string = true) E).
  vm_compute in E. inversion E. subst. clear E.
  destruct (H _ (or_introl eq_refl)) as [Hshape _].
  vm_compute in Hshape. discriminate.
Qed.

(** The theorem in the sample world at scale 1, for an entry of class
    "stop" with one augmented variant. *)
Lemma augmentation_on_resized_image_witness :
  isfile Sample.world0 "a.jpg"%string = true
  /\ exists xy' s',
       process_entry Sample.cfg0 Sample.world0 true Sample.level_one ([], [])
         ("a.jpg"%string, (Sample.box0, "stop"%string)) (Sample.state_scale1 0)
       = (Ok xy', s')
       /\ transform_calls s' = [(Sample.resized_a, to_opencv_format Sample.box0)].
Proof.
  split; [reflexivity|].
  destruct (process_entry Sample.cfg0 Sample.world0 true Sample.level_one ([], [])
              ("a.jpg"%string, (Sample.box0, "stop"%string)) (Sample.state_scale1 0))
    as [[xy'|e] s'] eqn:E; [|vm_compute in E; discriminate].
  exists xy', s'. split; [reflexivity|].
  destruct (augmentation_on_resized_image _ _ _ _ _ _ _ _ _ _
              (eq_refl : isfile Sample.world0 "a.jpg"%string = true) E)
    as (ms & n & index & lvl & kept & Hms & Hn & _ & Hlvl & Hcalls & _).
  cbv zeta in Hcalls. rewrite Hcalls.
  vm_compute in Hms. inversion Hms. subst ms.
  vm_compute in Hn. inversion Hn. subst n.
  vm_compute in Hlvl. inversion Hlvl. subst lvl.
  reflexivity.
Defined.

(** C4, at an input where the code departs from it. The test of line 127
    rejects a transformed box exactly when one of its corners lies beyond
    the width or the height; a rejected variant is dropped alone, without
    an exception. Nothing tests the lower bounds: in the sample world the
    transform returns on draw 2 a box whose corners are at -960 and -940,
    outside the 200x100 image, and the variant is kept, with a negative
    relative centroid. A run of the generator that meets such a variant
    (batch size 1, scaling factor 3) ends with [IndexError], raised when
    the grid is indexed with the negative cell of that centroid. *)
Theorem negative_corner_variant_kept :
  (forall width height x1 y1 x2 y2,
     out_of_bound width height ((x1, y1), (x2, y2)) = true
     <-> inject_Z width < x1 \/ inject_Z height < y1
         \/ inject_Z width < x2 \/ inject_Z height < y2)
  /\ (forall W img bbox width height one_hot xy l s,
        out_of_bound width height
          (snd (fst (random_transform W (rand s) img (to_opencv_format bbox)))) = true ->
        fst (augment_once W img bbox width height one_hot xy l s) = Ok xy)
  /\ random_transform Sample.world0 2%nat Sample.resized_a
       (to_opencv_format Sample.box0)
     = ((Sample.resized_a, Sample.moved_box), 3%nat)
  /\ fst (fst Sample.moved_box) == -960
  /\ ~ inside_image 200 100 Sample.moved_box
  /\ out_of_bound 200 100 Sample.moved_box = false
  /\ fst (augment_once Sample.world0 Sample.resized_a Sample.box0 200 100 [1; 0]
            ([], []) 0 (Sample.state_scale1 2))
     = Ok ([Sample.resized_a],
           [flat_label
              (to_relative_size (convert_opencv_to_box Sample.moved_box)
                                (py_float 200, py_float 100))
              [1; 0]])
  /\ xc (to_relative_size (convert_opencv_to_box Sample.moved_box)
                          (py_float 200, py_float 100)) == - (19 # 4)
  /\ fst (flow_from_list Sample.cfg0 Sample.world0 O Sample.files3 Sample.labels3
            1 3 true 1)
     = Raise IndexError.
Proof.
  refine (conj _ (conj _ (conj _ (conj _ (conj _ (conj _ (conj _ (conj _ _)))))))).
  - intros. apply out_of_bound_spec.
  - intros W img bbox width height one_hot xy l s Hout.
    rewrite augment_once_run. cbv zeta. cbn [fst]. rewrite Hout. reflexivity.
  - reflexivity.
  - vm_compute. reflexivity.
  - vm_compute. intros [[H _] _]. apply H. reflexivity.
  - vm_compute. reflexivity.
  - vm_compute. reflexivity.
  - vm_compute. reflexivity.
  - vm_compute. reflexivity.
Qed.



(** C10. The class-name lookup returns an index only for a name that
    occurs in the categories file, and then the first index at which it
    occurs; for a name that does not occur it raises [IndexError]. An entry
    whose file exists and whose class name is absent makes the loop body
    raise [IndexError] (with augmentation on, once the image size of lines
    101-102 is computed: [multi_scale] is bound and its product with
    IMG_INPUT is a finite float), so a slice is processed without an
    exception only
    if the class name of every entry with an existing file is in the
    categories file. *)
Theorem class_lookup_precondition :
  (forall classes lab i,
     np_where_first classes lab = Ok i ->
     In lab classes /\ nth_error classes i = Some lab
     /\ forall j, (j < i)%nat -> nth_error classes j <> Some lab)
  /\ (forall classes lab, In lab classes -> exists i, np_where_first classes lab = Ok i)
  /\ (forall classes lab,
        ~ In lab classes -> np_where_first classes lab = Raise IndexError)
  /\ (forall cfg W augment_data augment_level xy f bbox label s,
        isfile W f = true ->
        (augment_data = true ->
         exists ms, multi_scale s = Some ms
                    /\ finite_product (inject_Z (IMG_INPUT cfg)) ms) ->
        ~ In label (CLASSES cfg) ->
        fst (process_entry cfg W augment_data augment_level xy (f, (bbox, label)) s)
        = Raise IndexError)
  /\ (forall cfg W augment_data augment_level f_name labels s xy,
        fst (build_samples cfg W augment_data augment_level f_name labels s) = Ok xy ->
        forall f bbox label,
          In (f, (bbox, label)) (combine f_name labels) ->
          isfile W f = true -> In label (CLASSES cfg)).
Proof.
  refine (conj _ (conj _ (conj _ (conj _ _)))).
  - intros classes lab i H. destruct (np_where_first_found _ _ _ H) as [Hi Hfirst].
    split; [eapply nth_error_In; exact Hi|]. split; assumption.
  - apply np_where_first_present.
  - apply np_where_first_absent.
  - intros. apply process_entry_absent_class; assumption.
  - intros cfg W augment_data augment_level f_name labels s xy Hok.
    unfold build_samples in Hok. eapply for_each_classes. exact Hok.
Qed.

(** The theorem on the sample configuration: "zebra" is not one of its two
    classes, and an entry labelled "zebra" raises [IndexError]. *)
Lemma class_lookup_precondition_witness :
  ~ In "zebra"%string (CLASSES Sample.cfg0)
  /\ fst (process_entry Sample.cfg0 Sample.world0 false [] ([], [])
            ("a.jpg"%string, (Sample.box0, "zebra"%string))
            (initial_state Sample.world0 O))
     = Raise IndexError.
Proof.
  assert (Hout : ~ In "zebra"%string (CLASSES Sample.cfg0)).
  { simpl. intros [H|[H|[]]]; discriminate. }
  split; [exact Hout|].
  apply (proj1 (proj2 (proj2 (proj2 class_lookup_precondition)))).
  - reflexivity.
  - discriminate.
  - exact Hout.
Defined.

End BuilderFacts.
(* ================================================================== *)
(** * Properties of the batch scheduler *)
(* ================================================================== *)

Module LoopFacts.

Import BuilderFacts.

(** Python slices of whole chunks. *)
Lemma py_slice_chunk {A : Type} (l : list A) (bs z : Z) :
  (0 < bs)%Z -> (0 <= z)%Z -> ((z + 1) * bs <= Z.of_nat (length l))%Z ->
  py_slice l (z * bs) (z * bs + bs)
  = firstn (Z.to_nat bs) (skipn (Z.to_nat z * Z.to_nat bs) l).
Proof.
  intros Hbs Hz Hlen. unfold py_slice, clamp_index.
  assert (Ha : (0 <= z * bs)%Z) by nia.
  replace (z * bs <? 0)%Z with false by (symmetry; apply Z.ltb_ge; lia).
  replace (z * bs + bs <? 0)%Z with false by (symmetry; apply Z.ltb_ge; lia).
  rewrite !Nat.min_l by nia.
  replace (Z.to_nat (z * bs + bs) - Z.to_nat (z * bs))%nat with (Z.to_nat bs) by nia.
  replace (Z.to_nat (z * bs)) with (Z.to_nat z * Z.to_nat bs)%nat by nia.
  reflexivity.
Qed.

Lemma py_slice_chunk_length {A : Type} (l : list A) (bs z : Z) :
  (0 < bs)%Z -> (0 <= z)%Z -> ((z + 1) * bs <= Z.of_nat (length l))%Z ->
  Z.of_nat (length (py_slice l (z * bs) (z * bs + bs))) = bs.
Proof.
  intros Hbs Hz Hlen. rewrite py_slice_chunk by assumption.
  rewrite length_firstn, length_skipn. nia.
Qed.

Lemma firstn_plus {A : Type} (a b : nat) (l : list A) :
  firstn (a + b) l = firstn a l ++ firstn b (skipn a l).
Proof.
  revert l. induction a as [|a IH]; intros l; [reflexivity|].
  destruct l as [|x l]; simpl.
  - rewrite firstn_nil. reflexivity.
  - rewrite IH. reflexivity.
Qed.

(** The chunks of [k] elements, laid end to end, are the first [n * k]
    elements. *)
Lemma concat_chunks {A : Type} (l : list A) (k n : nat) :
  concat (map (fun i => firstn k (skipn (i * k) l)) (seq 0 n)) = firstn (n * k) l.
Proof.
  induction n as [|n IH]; [reflexivity|].
  rewrite seq_S, map_app, concat_app, IH. simpl.
  rewrite app_nil_r. replace (k + n * k)%nat with (n * k + k)%nat by lia.
  symmetry. apply firstn_plus.
Qed.

(** Indexing by a permutation of the positions permutes the list. *)
Lemma np_take_shift {A : Type} (x : A) (l : list A) (idx : list nat) :
  np_take (x :: l) (map S idx) = np_take l idx.
Proof.
  unfold np_take. induction idx as [|i idx IH]; simpl; [reflexivity|].
  rewrite IH. reflexivity.
Qed.

Lemma np_take_all {A : Type} (l : list A) : np_take l (seq 0 (length l)) = l.
Proof.
  induction l as [|x l IH]; [reflexivity|].
  simpl length. simpl seq. rewrite <- seq_shift.
  change (np_take (x :: l) (0%nat :: map S (seq 0 (length l))))
    with (x :: np_take (x :: l) (map S (seq 0 (length l)))).
  rewrite np_take_shift, IH. reflexivity.
Qed.

Lemma np_take_permutation {A : Type} (l : list A) (idx : list nat) :
  Permutation idx (seq 0 (length l)) -> Permutation (np_take l idx) l.
Proof.
  intros Hperm. rewrite <- (np_take_all l) at 2.
  unfold np_take. apply Permutation_flat_map. exact Hperm.
Qed.

(** A shuffle that completes has permuted its two arrays, which have the
    same length. *)
Lemma shuffle_permutes (W : World) {A B : Type} (a a' : list A) (b b' : list B)
  (s s' : state W) :
  permutation_ok W ->
  shuffle W a b s = (Ok (a', b'), s') ->
  length a = length b /\ Permutation a' a /\ Permutation b' b.
Proof.
  intros Hok. unfold shuffle.
  destruct (Nat.eqb (length a) (length b)) eqn:E; [|discriminate].
  apply Nat.eqb_eq in E. unfold bind, draw, ret.
  specialize (Hok (rand s) (length a)).
  destruct (permutation W (rand s) (length a)) as [idx g]. simpl in Hok.
  intros H. inversion H. subst. split; [exact E|]. split.
  - apply np_take_permutation. exact Hok.
  - apply np_take_permutation. rewrite <- E. exact Hok.
Qed.

Lemma div_neg_nonpos (a b : Z) : (0 <= a)%Z -> (b < 0)%Z -> (a / b <= 0)%Z.
Proof.
  intros Ha Hb.
  pose proof (Z.div_mod a b ltac:(lia)).
  pose proof (Z.mod_neg_bound a b Hb). nia.
Qed.

Lemma py_range_bounds (n z : Z) : In z (py_range n) -> (0 <= z < n)%Z.
Proof.
  unfold py_range. rewrite in_map_iff. intros [i [<- Hi]].
  apply in_seq in Hi. lia.
Qed.

(** The first dimension of an encoded tensor is the batch size. *)
Lemma setitem_length (T T' : tensor) (b : nat) (c r : Z) (lo width : nat) (v : list Q) :
  setitem T b c r lo width v = Ok T' -> length T' = length T.
Proof.
  intros H. apply EncoderFacts.setitem_inv in H.
  destruct H as (s & ci & ri & v' & _ & _ & _ & ->).
  apply EncoderFacts.length_update_nth.
Qed.

Lemma encode_at_length (n_classes : nat) (gw gh : Z) (labels : list (list Q))
  (T T' : tensor) (b : nat) :
  encode_at n_classes gw gh labels T b = Ok T' -> length T' = length T.
Proof.
  unfold encode_at. intros H.
  destruct (nth_result labels b) as [lab|]; cbn [rbind] in H; [|discriminate].
  destruct (nth_result lab 0) as [x|]; cbn [rbind] in H; [|discriminate].
  destruct (nth_result lab 1) as [y|]; cbn [rbind] in H; [|discriminate].
  destruct (cell_column gw x) as [r|]; cbn [rbind] in H; [|discriminate].
  destruct (cell_row gh y) as [c|]; cbn [rbind] in H; [|discriminate].
  destruct ((r <? gw)%Z && (c <? gh)%Z).
  - destruct (setitem T b _ _ 0 4 _) as [T1|] eqn:E1; cbn [rbind] in H; [|discriminate].
    destruct (setitem T1 b _ _ 4 1 _) as [T2|] eqn:E2; cbn [rbind] in H; [|discriminate].
    apply setitem_length in E1, E2, H. congruence.
  - apply Ok_inj in H. subst. reflexivity.
Qed.

Lemma encode_loop_length (n_classes : nat) (gw gh : Z) (labels : list (list Q))
  (bs : list nat) :
  forall T T', encode_loop n_classes gw gh labels bs T = Ok T' -> length T' = length T.
Proof.
  induction bs as [|b bs IH]; intros T T' H; simpl in H.
  - apply Ok_inj in H. subst. reflexivity.
  - destruct (encode_at n_classes gw gh labels T b) as [T1|] eqn:E1;
      cbn [rbind] in H; [|discriminate].
    apply encode_at_length in E1. apply IH in H. congruence.
Qed.

Lemma grid_encode_length (n_anchors n_classes : nat) (bs gw gh : Z)
  (labels : list (list Q)) (T : tensor) :
  grid_encode n_anchors n_classes bs gw gh labels = Ok T ->
  Z.of_nat (length T) = bs.
Proof.
  unfold grid_encode, np_zeros.
  destruct ((bs <? 0)%Z || (gh <? 0)%Z || (gw <? 0)%Z) eqn:E; cbn [rbind]; [discriminate|].
  intros H. apply encode_loop_length in H. rewrite repeat_length in H.
  apply orb_false_iff in E. destruct E as [E _].
  apply orb_false_iff in E. destruct E as [E _]. apply Z.ltb_ge in E. lia.
Qed.

Section Scheduler.

Variable cfg : Cfg.
Variable W : World.
Variable batch_size : Z.
Variable augment_data : bool.
Variable augment_level : list row.

Lemma silent_ret {A : Type} (a : A) : silent W (ret a).
Proof.
  intros s. reflexivity.
Qed.

Lemma silent_raise {A : Type} (e : exn) : silent W (@raise W A e).
Proof.
  intros s. reflexivity.
Qed.

Lemma silent_lift {A : Type} (r : result A) : silent W (lift r).
Proof.
  intros s. reflexivity.
Qed.

Lemma silent_read_var {A : Type} (field : state W -> option A) : silent W (read_var field).
Proof.
  intros s. unfold read_var. destruct (field s); reflexivity.
Qed.

Lemma silent_set_multi_scale (ms : Q) : silent W (@set_multi_scale W ms).
Proof.
  intros s. reflexivity.
Qed.

Lemma silent_set_new_size (nh nw : Z) : silent W (@set_new_size W nh nw).
Proof.
  intros s. reflexivity.
Qed.

Lemma silent_print (msg : string) : silent W (@print W msg).
Proof.
  intros s. reflexivity.
Qed.

Lemma silent_draw {A : Type} (f : rng W -> A * rng W) : silent W (draw f).
Proof.
  intros s. unfold draw. destruct (f (rand s)). reflexivity.
Qed.

Lemma silent_call (img : image W) (box : corners) :
  silent W (call_random_transform img box).
Proof.
  intros s. unfold call_random_transform.
  destruct (random_transform W (rand s) img box). reflexivity.
Qed.

Lemma silent_bind {A B : Type} (m : M W A) (f : A -> M W B) :
  silent W m -> (forall a, silent W (f a)) -> silent W (bind m f).
Proof.
  intros Hm Hf s. unfold bind. specialize (Hm s).
  destruct (m s) as [[a|e] s']; simpl in *; [|exact Hm].
  rewrite Hf. exact Hm.
Qed.

Lemma silent_for_each {A S : Type} (l : list A) (body : S -> A -> M W S) :
  (forall acc a, silent W (body acc a)) -> forall acc, silent W (for_each l body acc).
Proof.
  intros Hbody. induction l as [|a l IH]; intros acc; simpl.
  - apply silent_ret.
  - apply silent_bind; [apply Hbody|exact IH].
Qed.

Lemma silent_process_entry (xy : XY W) (e : string * (Box * string)) :
  silent W (process_entry cfg W augment_data augment_level xy e).
Proof.
  destruct e as [f [bbox label]]. unfold process_entry.
  destruct (negb (isfile W f)).
  - apply silent_bind; [apply silent_print|]. intros _. apply silent_ret.
  - destruct (shape W (cvtColor W (imread W f))) as [height width].
    apply silent_bind.
    + destruct augment_data; [|apply silent_ret].
      apply silent_bind; [apply silent_read_var|]. intros ms.
      apply silent_bind; [apply silent_lift|]. intros nh.
      apply silent_bind; [apply silent_lift|]. intros nw.
      apply silent_bind; [apply silent_set_new_size|]. intros _. apply silent_ret.
    + intros img. apply silent_bind; [apply silent_lift|]. intros index_label.
      destruct augment_data; [|apply silent_ret].
      apply silent_bind; [apply silent_lift|]. intros aug_level.
      apply silent_for_each. intros acc l. unfold augment_once.
      apply silent_bind; [apply silent_call|]. intros [aug_img aug_box].
      destruct (out_of_bound width height aug_box); apply silent_ret.
Qed.

Lemma silent_build_samples (f_name : list string) (labels : list (Box * string)) :
  silent W (build_samples cfg W augment_data augment_level f_name labels).
Proof.
  unfold build_samples. apply silent_for_each. apply silent_process_entry.
Qed.

Lemma silent_shuffle {A B : Type} (a : list A) (b : list B) : silent W (shuffle W a b).
Proof.
  unfold shuffle. destruct (Nat.eqb (length a) (length b)); [|apply silent_raise].
  apply silent_bind; [apply silent_draw|]. intros idx. apply silent_ret.
Qed.

Lemma silent_keeps {A : Type} (m : M W A) : silent W m -> keeps W batch_size m.
Proof.
  intros Hm s Hs. rewrite Hm. exact Hs.
Qed.

Lemma keeps_yield (b : batch W) : full_batch W batch_size b -> keeps W batch_size (yield b).
Proof.
  intros Hb s Hs. simpl. apply Forall_app. split; [exact Hs|]. constructor; [exact Hb|constructor].
Qed.

Lemma keeps_bind {A B : Type} (m : M W A) (f : A -> M W B) :
  keeps W batch_size m ->
  (forall a s s', m s = (Ok a, s') -> keeps W batch_size (f a)) ->
  keeps W batch_size (bind m f).
Proof.
  intros Hm Hf s Hs. unfold bind. specialize (Hm s Hs).
  destruct (m s) as [[a|e] s'] eqn:E; simpl in *; [|exact Hm].
  eapply Hf; [exact E|exact Hm].
Qed.

Lemma keeps_for_each {A S : Type} (l : list A) (body : S -> A -> M W S) :
  (forall acc a, In a l -> keeps W batch_size (body acc a)) ->
  forall acc, keeps W batch_size (for_each l body acc).
Proof.
  induction l as [|a l IH]; intros Hbody acc; simpl.
  - apply silent_keeps, silent_ret.
  - apply keeps_bind; [apply Hbody; left; reflexivity|].
    intros acc' s s' _. apply IH. intros acc'' a' Hin. apply Hbody. right. exact Hin.
Qed.

(** A sub-batch whose chunk lies within [X] yields a full batch. *)
Lemma keeps_sub_batch (X : list (image W)) (Y : list (list Q)) (z : Z) :
  (0 < batch_size)%Z -> (0 <= z)%Z ->
  ((z + 1) * batch_size <= Z.of_nat (length X))%Z ->
  keeps W batch_size (sub_batch cfg W batch_size augment_data X Y z).
Proof.
  intros Hbs Hz Hlen. unfold sub_batch.
  apply keeps_bind.
  { apply silent_keeps. destruct augment_data.
    - apply silent_bind; [apply silent_read_var|]. intros nw.
      apply silent_bind; [apply silent_lift|]. intros gw.
      apply silent_bind; [apply silent_read_var|]. intros nh.
      apply silent_bind; [apply silent_lift|]. intros gh. apply silent_ret.
    - apply silent_bind; [apply silent_lift|]. intros gw.
      apply silent_bind; [apply silent_lift|]. intros gh. apply silent_ret. }
  intros [grid_w grid_h] s0 s0' _.
  apply keeps_bind; [apply silent_keeps, silent_lift|].
  intros y_batch s1 s1' Hy. unfold lift in Hy. inversion Hy as [[Henc Hs1]].
  apply keeps_yield. split; cbn [fst snd].
  - apply py_slice_chunk_length; assumption.
  - unfold reshape. rewrite length_map. eapply grid_encode_length. exact Henc.
Qed.

Lemma keeps_run_slice (x : list string) (y : list (Box * string)) (i : Z) :
  keeps W batch_size (run_slice cfg W batch_size augment_data augment_level x y i).
Proof.
  unfold run_slice. apply keeps_bind.
  { apply silent_keeps. destruct ((i mod 10 =? 0)%Z && augment_data); [|apply silent_ret].
    apply silent_bind; [apply silent_draw|]. intros randint.
    apply silent_bind; [apply silent_lift|]. intros ms. apply silent_set_multi_scale. }
  intros _ _ _ _.
  apply keeps_bind; [apply silent_keeps, silent_build_samples|]. intros xy _ _ _.
  apply keeps_bind; [apply silent_keeps, silent_shuffle|]. intros [X Y] _ _ _.
  apply keeps_bind; [apply silent_keeps, silent_lift|].
  intros n s s' Hn. unfold lift, py_div in Hn.
  destruct (batch_size =? 0)%Z eqn:E0; [discriminate|].
  inversion Hn as [[Hdiv Hs]]. clear Hn. apply Z.eqb_neq in E0.
  apply keeps_for_each. intros [] z Hz. apply py_range_bounds in Hz.
  assert (Hpos : (0 < batch_size)%Z).
  { destruct (Z_lt_le_dec 0 batch_size) as [H|H]; [exact H|]. exfalso.
    pose proof (div_neg_nonpos (Z.of_nat (length X)) batch_size). lia. }
  apply keeps_sub_batch; [exact Hpos|lia|].
  pose proof (Z.mul_div_le (Z.of_nat (length X)) batch_size Hpos). nia.
Qed.

Lemma keeps_epoch (slices : Z) (xy : list string * list (Box * string)) :
  keeps W batch_size (epoch cfg W batch_size augment_data augment_level slices xy).
Proof.
  unfold epoch. apply keeps_bind; [apply silent_keeps, silent_shuffle|].
  intros xy' _ _ _. apply keeps_bind.
  - apply keeps_for_each. intros [] i _. apply keeps_run_slice.
  - intros _ _ _ _. apply silent_keeps, silent_ret.
Qed.

Lemma keeps_epochs (n : nat) (slices : Z) :
  forall xy, keeps W batch_size (epochs cfg W batch_size augment_data augment_level n slices xy).
Proof.
  induction n as [|n IH]; intros xy; simpl.
  - apply silent_keeps, silent_ret.
  - apply keeps_bind; [apply keeps_epoch|]. intros xy' _ _ _. apply IH.
Qed.

(** With no slice to process, an epoch yields nothing. *)
Lemma silent_epochs_zero (n : nat) :
  forall xy, silent W (epochs cfg W batch_size augment_data augment_level n 0 xy).
Proof.
  induction n as [|n IH]; intros xy; simpl.
  - apply silent_ret.
  - apply silent_bind; [|intros xy'; apply IH].
    unfold epoch. apply silent_bind; [apply silent_shuffle|]. intros xy'.
    apply silent_bind; [apply silent_ret|]. intros _. apply silent_ret.
Qed.

Lemma silent_grid_size :
  silent W
    (if augment_data
     then
       (nw <- read_var (@new_width W) ;;
        gw <- lift (py_div nw (SHRINK_FACTOR cfg)) ;;
        nh <- read_var (@new_height W) ;;
        gh <- lift (py_div nh (SHRINK_FACTOR cfg)) ;;
        ret (gw, gh))%gen
     else
       (gw <- lift (py_div (IMG_INPUT cfg) (SHRINK_FACTOR cfg)) ;;
        gh <- lift (py_div (IMG_INPUT cfg) (SHRINK_FACTOR cfg)) ;;
        ret (gw, gh))%gen).
Proof.
  destruct augment_data.
  - apply silent_bind; [apply silent_read_var|]. intros nw.
    apply silent_bind; [apply silent_lift|]. intros gw.
    apply silent_bind; [apply silent_read_var|]. intros nh.
    apply silent_bind; [apply silent_lift|]. intros gh. apply silent_ret.
  - apply silent_bind; [apply silent_lift|]. intros gw.
    apply silent_bind; [apply silent_lift|]. intros gh. apply silent_ret.
Qed.

(** A sub-batch that completes has yielded the chunk [z] of [X]. *)
Lemma sub_batch_yield (X : list (image W)) (Y : list (list Q)) (z : Z)
  (s s' : state W) :
  sub_batch cfg W batch_size augment_data X Y z s = (Ok tt, s') ->
  exists y_batch,
    yielded s'
    = yielded s ++ [(py_slice X (z * batch_size) (z * batch_size + batch_size), y_batch)].
Proof.
  unfold sub_batch. unfold bind at 1. intros H.
  pose proof (silent_grid_size s) as Hsil.
  match type of H with
  | match ?m s with _ => _ end = _ => destruct (m s) as [[[gw gh]|e] s1] eqn:E1
  end; [|discriminate].
  simpl in Hsil. unfold bind, lift in H.
  destruct (grid_encode _ _ _ _ _ _) as [y_batch|]; [|discriminate].
  unfold yield in H. inversion H. simpl. rewrite Hsil. eexists. reflexivity.
Qed.

Lemma sub_batches_yield (X : list (image W)) (Y : list (list Q)) (l : list Z) :
  forall s s',
    for_each l (fun (_ : unit) z => sub_batch cfg W batch_size augment_data X Y z) tt s
    = (Ok tt, s') ->
    exists new,
      yielded s' = yielded s ++ new
      /\ map fst new
         = map (fun z => py_slice X (z * batch_size) (z * batch_size + batch_size)) l.
Proof.
  induction l as [|z l IH]; intros s s' H.
  - simpl in H. inversion H. exists []. rewrite app_nil_r. split; reflexivity.
  - rewrite for_each_cons in H.
    destruct (sub_batch cfg W batch_size augment_data X Y z s) as [[[]|e] s1] eqn:E1;
      [|discriminate].
    apply sub_batch_yield in E1. destruct E1 as [yb Hy1].
    destruct (IH s1 s' H) as (new & Hnew & Hmap).
    exists ((py_slice X (z * batch_size) (z * batch_size + batch_size), yb) :: new).
    split; [rewrite Hnew, Hy1, <- app_assoc; reflexivity|].
    simpl. rewrite Hmap. reflexivity.
Qed.

(** The sub-batch loop over the expanded samples [X] of a slice, when it
    completes, has yielded floor(len(X) / batch_size) batches, the
    consecutive chunks of [batch_size] samples: laid end to end they are
    the first batch_size * floor(len(X) / batch_size) samples of [X]; fewer
    than [batch_size] samples are left over. *)
Lemma sub_batches_chunks (X : list (image W)) (Y : list (list Q)) (s s' : state W) :
  (0 < batch_size)%Z ->
  for_each (py_range (Z.of_nat (length X) / batch_size))
    (fun (_ : unit) z => sub_batch cfg W batch_size augment_data X Y z) tt s
  = (Ok tt, s') ->
  exists new,
    yielded s' = yielded s ++ new
    /\ length new = Z.to_nat (Z.of_nat (length X) / batch_size)
    /\ Forall (fun b => Z.of_nat (length (fst b)) = batch_size) new
    /\ concat (map fst new)
       = firstn (Z.to_nat (batch_size * (Z.of_nat (length X) / batch_size))) X
    /\ (Z.of_nat (length (skipn (Z.to_nat (batch_size
                                            * (Z.of_nat (length X) / batch_size))) X))
        < batch_size)%Z.
Proof.
  intros Hbs Hrun.
  destruct (sub_batches_yield _ _ _ _ _ Hrun) as (new & Hnew & Hmap).
  exists new. split; [exact Hnew|].
  assert (Hn : (0 <= Z.of_nat (length X) / batch_size)%Z)
    by (apply Z.div_pos; lia).
  assert (Hchunks :
    map fst new
    = map (fun i => firstn (Z.to_nat batch_size) (skipn (i * Z.to_nat batch_size) X))
          (seq 0 (Z.to_nat (Z.of_nat (length X) / batch_size)))).
  { rewrite Hmap. unfold py_range. rewrite map_map. apply map_ext_in.
    intros i Hi. apply in_seq in Hi.
    rewrite py_slice_chunk; [rewrite Nat2Z.id; reflexivity|lia|lia|].
    pose proof (Z.mul_div_le (Z.of_nat (length X)) batch_size Hbs). nia. }
  split; [|split; [|split]].
  - pose proof (length_map fst new) as Hl. rewrite Hchunks, length_map, length_seq in Hl.
    symmetry. exact Hl.
  - apply Forall_forall. intros b Hb.
    assert (Hin : In (fst b) (map fst new)) by (apply in_map; exact Hb).
    rewrite Hchunks in Hin. apply in_map_iff in Hin. destruct Hin as [i [Hi Hrange]].
    apply in_seq in Hrange. rewrite <- Hi, length_firstn, length_skipn.
    pose proof (Z.mul_div_le (Z.of_nat (length X)) batch_size Hbs). nia.
  - rewrite Hchunks, concat_chunks. f_equal. nia.
  - rewrite length_skipn.
    pose proof (Z.mul_div_le (Z.of_nat (length X)) batch_size Hbs).
    pose proof (Z.mod_pos_bound (Z.of_nat (length X)) batch_size Hbs).
    pose proof (Z.div_mod (Z.of_nat (length X)) batch_size ltac:(lia)). lia.
Qed.

(** A slice that completes: its entries were built into samples, the
    samples shuffled into [X] and [Y], and the batches it yielded are the
    chunks of [X]. *)
Lemma run_slice_yield (x : list string) (y : list (Box * string)) (i : Z)
  (s s' : state W) :
  (0 < batch_size)%Z ->
  run_slice cfg W batch_size augment_data augment_level x y i s = (Ok tt, s') ->
  exists (s0 s1 s2 : state W) (xy : XY W) (X : list (image W)) (Y : list (list Q))
         (new : list (batch W)),
    build_samples cfg W augment_data augment_level
      (py_slice x (i * batch_size) (i * batch_size + batch_size))
      (py_slice y (i * batch_size) (i * batch_size + batch_size)) s0 = (Ok xy, s1)
    /\ shuffle W (fst xy) (snd xy) s1 = (Ok (X, Y), s2)
    /\ yielded s' = yielded s ++ new
    /\ length new = Z.to_nat (Z.of_nat (length X) / batch_size)
    /\ Forall (fun b => Z.of_nat (length (fst b)) = batch_size) new
    /\ concat (map fst new)
       = firstn (Z.to_nat (batch_size * (Z.of_nat (length X) / batch_size))) X
    /\ (Z.of_nat (length (skipn (Z.to_nat (batch_size
                                            * (Z.of_nat (length X) / batch_size))) X))
        < batch_size)%Z.
Proof.
  intros Hbs Hrun. unfold run_slice in Hrun. unfold bind at 1 in Hrun.
  match type of Hrun with
  | match ?m s with _ => _ end = _ =>
      assert (Hsil0 : silent W m);
      [|pose proof (Hsil0 s) as Hy0; destruct (m s) as [[[]|e] s0]; [|discriminate]]
  end.
  { destruct ((i mod 10 =? 0)%Z && augment_data); [|apply silent_ret].
    apply silent_bind; [apply silent_draw|]. intros randint.
    apply silent_bind; [apply silent_lift|]. intros ms. apply silent_set_multi_scale. }
  cbn [snd] in Hy0. unfold bind at 1 in Hrun.
  pose proof (silent_build_samples
                (py_slice x (i * batch_size) (i * batch_size + batch_size))
                (py_slice y (i * batch_size) (i * batch_size + batch_size)) s0) as Hy1.
  destruct (build_samples cfg W augment_data augment_level _ _ s0) as [[xy|e] s1] eqn:Eb;
    [|discriminate].
  cbn [snd] in Hy1. unfold bind at 1 in Hrun.
  pose proof (silent_shuffle (fst xy) (snd xy) s1) as Hy2.
  destruct (shuffle W (fst xy) (snd xy) s1) as [[[X Y]|e] s2] eqn:Es; [|discriminate].
  cbn [snd] in Hy2. unfold bind, lift, py_div in Hrun.
  replace (batch_size =? 0)%Z with false in Hrun by (symmetry; apply Z.eqb_neq; lia).
  destruct (sub_batches_chunks X Y s2 s' Hbs Hrun) as (new & Hnew & Hrest).
  exists s0, s1, s2, xy, X, Y, new. split; [exact Eb|]. split; [exact Es|].
  split; [|exact Hrest]. rewrite Hnew, Hy2, Hy1, Hy0. reflexivity.
Qed.

End Scheduler.

End LoopFacts.
(* ================================================================== *)
(** * The augmentation table as the generator reads it *)
(* ================================================================== *)

Module TableFacts.

Import EstimatorFacts.

Lemma loc_scaling_factor_row (df : list row) (r : row) :
  NoDup (map label df) -> In r df ->
  loc_scaling_factor df (label r) = Ok (scaling_factor r).
Proof.
  induction df as [|r0 df IH]; intros Hnd Hin; [destruct Hin|].
  simpl in Hnd. inversion Hnd as [|? ? Hfresh Hnd']. subst. simpl.
  destruct Hin as [<-|Hin].
  - rewrite String.eqb_refl. reflexivity.
  - destruct (String.eqb (label r0) (label r)) eqn:E.
    + apply String.eqb_eq in E. exfalso. apply Hfresh. rewrite E.
      apply in_map. exact Hin.
    + apply IH; assumption.
Qed.

Lemma loc_scaling_factor_absent (df : list row) (lab : string) :
  ~ In lab (map label df) -> loc_scaling_factor df lab = Raise IndexError.
Proof.
  induction df as [|r0 df IH]; intros Hout; [reflexivity|]. simpl in *.
  destruct (String.eqb (label r0) lab) eqn:E.
  - apply String.eqb_eq in E. exfalso. apply Hout. left. exact E.
  - apply IH. intros Hin. apply Hout. right. exact Hin.
Qed.

Lemma calc_augment_level_nodup (y : list (Box * string)) (sf : Q) (df : list row) :
  calc_augment_level y sf = Ok df -> NoDup (map label df).
Proof.
  intros H. rewrite (proj1 (calc_augment_level_labels _ _ _ H)).
  apply sorted_keys_nodup, np_unique_sorted.
Qed.

Lemma sorted_keys (t : list (string * Z)) :
  Sorted key_lt t -> Sorted String_as_OT.lt (map fst t).
Proof.
  induction 1 as [|a t Hs IH Hhd]; simpl; constructor; [exact IH|].
  destruct Hhd; simpl; constructor. assumption.
Qed.

(** X1. The lookup of line 118 in the table [calc_augment_level] returned:
    for a class name that occurs among the labels the generator was given,
    it finds the count of that class, int(scaling_factor * (mean /
    frequency)) as float arithmetic evaluates it; for any other name the
    selection is empty and [.values[0]] raises [IndexError]. *)
Theorem augment_level_lookup (y : list (Box * string)) (sf : Q) (df : list row)
  (lab : string) :
  calc_augment_level y sf = Ok df ->
  (In lab (map snd y) ->
   exists n, float_count y sf (class_frequency y lab) = Ok n
             /\ loc_scaling_factor df lab = Ok n)
  /\ (~ In lab (map snd y) -> loc_scaling_factor df lab = Raise IndexError).
Proof.
  intros Hdf. split; intros Hlab.
  - apply np_unique_keys in Hlab. apply in_map_iff in Hlab.
    destruct Hlab as [[c f] [Hc Hin]]. simpl in Hc. subst c.
    destruct (np_unique_entry _ _ _ Hin) as (Hf & _ & _).
    destruct (calc_augment_level_class _ _ _ _ _ Hdf Hin) as (r & Hr & Hl & Hfr & Hn).
    exists (scaling_factor r). split.
    + unfold class_frequency. rewrite <- Hf. exact Hn.
    + rewrite <- Hl. apply loc_scaling_factor_row; [|exact Hr].
      exact (calc_augment_level_nodup _ _ _ Hdf).
  - apply loc_scaling_factor_absent.
    rewrite (proj1 (calc_augment_level_labels _ _ _ Hdf)).
    intros Hin. apply Hlab. apply np_unique_keys. exact Hin.
Qed.

(** The lookup on the three-class dataset at scaling factor 5: the class
    "yield", of frequency 10, has the count 18. *)
Lemma augment_level_lookup_witness :
  exists df,
    calc_augment_level Sample.dataset_100_10_1 5 = Ok df
    /\ exists n, float_count Sample.dataset_100_10_1 5
                   (class_frequency Sample.dataset_100_10_1 "yield") = Ok n
                 /\ loc_scaling_factor df "yield" = Ok n.
Proof.
  eexists. split; [vm_compute; reflexivity|].
  refine (proj1 (augment_level_lookup Sample.dataset_100_10_1 5 _ "yield" _) _).
  - vm_compute. reflexivity.
  - apply in_map_iff. exists (Sample.box0, "yield"%string). split; [reflexivity|].
    unfold Sample.dataset_100_10_1. apply in_or_app. right. apply in_or_app. left.
    left. reflexivity.
Defined.

(** X2. The table [calc_augment_level] returns accounts for every label
    once: its frequencies add up to the number of labels, and its rows are
    in strictly increasing order of class name, the order of
    [np.unique]. *)
Theorem frequencies_add_up (y : list (Box * string)) (sf : Q) (df : list row) :
  calc_augment_level y sf = Ok df ->
  sumZ (map frequency df) = Z.of_nat (length y)
  /\ Sorted String_as_OT.lt (map label df).
Proof.
  intros Hdf. destruct (calc_augment_level_labels _ _ _ Hdf) as [Hl Hf]. split.
  - rewrite Hf, np_unique_total, length_map. reflexivity.
  - rewrite Hl. apply sorted_keys, np_unique_sorted.
Qed.

(** The table of the three-class dataset: 111 labels. *)
Lemma frequencies_add_up_witness :
  exists df,
    calc_augment_level Sample.dataset_100_10_1 5 = Ok df
    /\ sumZ (map frequency df) = 111%Z.
Proof.
  eexists. split; [vm_compute; reflexivity|].
  refine (proj1 (frequencies_add_up Sample.dataset_100_10_1 5 _ _)).
  vm_compute. reflexivity.
Defined.

End TableFacts.
(* ================================================================== *)
(** * The dimensions and the layout of the label tensor *)
(* ================================================================== *)

Module ShapeFacts.

Import EncoderFacts.

Lemma Forall_update_nth {A : Type} (P : A -> Prop) (i : nat) (f : A -> A) (l : list A) :
  (forall a, P a -> P (f a)) -> Forall P l -> Forall P (update_nth i f l).
Proof.
  intros Hf Hl. revert i. induction Hl as [|a l Ha Hl IH]; intros i.
  - destruct i; constructor.
  - destruct i; simpl; constructor; auto.
Qed.

Lemma Forall_repeat {A : Type} (P : A -> Prop) (a : A) (n : nat) :
  P a -> Forall P (repeat a n).
Proof.
  intros Ha. apply Forall_forall. intros b Hb. apply repeat_spec in Hb. subst. exact Ha.
Qed.

Lemma write_slice_length (lo width : nat) (v : list Q) (row : anchor_row) :
  length v = width -> (lo + width <= length row)%nat ->
  length (write_slice lo width v row) = length row.
Proof.
  intros Hv Hfit. unfold write_slice.
  rewrite !length_app, length_firstn, length_skipn. lia.
Qed.

Lemma cell_shape_write (n_anchors n_entries lo width : nat) (v : list Q) (cl : cell) :
  length v = width -> (lo + width <= n_entries)%nat ->
  cell_shape n_anchors n_entries cl ->
  cell_shape n_anchors n_entries (map (write_slice lo width v) cl).
Proof.
  intros Hv Hfit [Hlen Hrows]. split; [rewrite length_map; exact Hlen|].
  apply Forall_map. eapply Forall_impl; [|exact Hrows].
  intros row Hrow. cbv beta in *. rewrite write_slice_length; lia.
Qed.

Lemma sample_shape_put (n_rows n_columns n_anchors n_entries ci ri : nat)
  (F : cell -> cell) (s : sample_grid) :
  (forall cl, cell_shape n_anchors n_entries cl -> cell_shape n_anchors n_entries (F cl)) ->
  sample_shape n_rows n_columns n_anchors n_entries s ->
  sample_shape n_rows n_columns n_anchors n_entries (put_cell ci ri F s).
Proof.
  intros HF [Hlen Hgrid]. unfold put_cell.
  split; [rewrite length_update_nth; exact Hlen|].
  apply Forall_update_nth; [|exact Hgrid].
  intros g [Hg Hcells]. split; [rewrite length_update_nth; exact Hg|].
  apply Forall_update_nth; assumption.
Qed.

Lemma setitem_shape (n_samples n_rows n_columns n_anchors n_entries : nat)
  (T T' : tensor) (b : nat) (c r : Z) (lo width : nat) (v : list Q) :
  (lo + width <= n_entries)%nat ->
  has_shape n_samples n_rows n_columns n_anchors n_entries T ->
  setitem T b c r lo width v = Ok T' ->
  has_shape n_samples n_rows n_columns n_anchors n_entries T'.
Proof.
  intros Hfit [Hlen Hsamples] Hset.
  apply setitem_inv in Hset. destruct Hset as (s & ci & ri & v' & _ & _ & Hv' & ->).
  apply np_broadcast_length in Hv'.
  split; [rewrite length_update_nth; exact Hlen|].
  apply Forall_update_nth; [|exact Hsamples].
  intros s0 Hs0. apply sample_shape_put; [|exact Hs0].
  intros cl Hcl. apply cell_shape_write; assumption.
Qed.

Section Dimensions.

Variables N_ANCHORS N_CLASSES : nat.
Variables grid_w grid_h : Z.

Local Abbreviation shaped n :=
  (has_shape n (Z.to_nat grid_h) (Z.to_nat grid_w) N_ANCHORS (5 + N_CLASSES)).

Lemma encode_at_shape (n : nat) (labels : list (list Q)) (T T' : tensor) (b : nat) :
  shaped n T -> encode_at N_CLASSES grid_w grid_h labels T b = Ok T' -> shaped n T'.
Proof.
  intros HT Henc. unfold encode_at in Henc.
  destruct (nth_result labels b) as [lab|]; [|discriminate]. cbn [rbind] in Henc.
  destruct (nth_result lab 0) as [x|]; [|discriminate]. cbn [rbind] in Henc.
  destruct (nth_result lab 1) as [y|]; [|discriminate]. cbn [rbind] in Henc.
  destruct (cell_column grid_w x) as [r|]; [|discriminate]. cbn [rbind] in Henc.
  destruct (cell_row grid_h y) as [c|]; [|discriminate]. cbn [rbind] in Henc.
  destruct ((r <? grid_w)%Z && (c <? grid_h)%Z).
  - destruct (setitem T b _ _ 0 4 _) as [T1|] eqn:E1; [|discriminate]. cbn [rbind] in Henc.
    destruct (setitem T1 b _ _ 4 1 _) as [T2|] eqn:E2; [|discriminate]. cbn [rbind] in Henc.
    eapply setitem_shape; [|eapply setitem_shape; [|eapply setitem_shape;
      [|exact HT|exact E1]|exact E2]|exact Henc]; lia.
  - apply Ok_inj in Henc. subst T'. exact HT.
Qed.

Lemma encode_loop_shape (n : nat) (labels : list (list Q)) (bs : list nat) :
  forall T T',
    shaped n T -> encode_loop N_CLASSES grid_w grid_h labels bs T = Ok T' -> shaped n T'.
Proof.
  induction bs as [|b bs IH]; intros T T' HT Hloop; simpl in Hloop.
  - apply Ok_inj in Hloop. subst T'. exact HT.
  - destruct (encode_at N_CLASSES grid_w grid_h labels T b) as [T1|] eqn:E1;
      [|discriminate]. cbn [rbind] in Hloop.
    eapply IH; [|exact Hloop]. eapply encode_at_shape; [exact HT|exact E1].
Qed.

Lemma np_zeros_shape (batch_size : Z) (T : tensor) :
  np_zeros N_ANCHORS N_CLASSES batch_size grid_h grid_w = Ok T ->
  (0 <= batch_size)%Z /\ (0 <= grid_h)%Z /\ (0 <= grid_w)%Z
  /\ shaped (Z.to_nat batch_size) T.
Proof.
  unfold np_zeros. intros Hz.
  destruct ((batch_size <? 0)%Z || (grid_h <? 0)%Z || (grid_w <? 0)%Z) eqn:E;
    [discriminate|].
  apply orb_false_iff in E. destruct E as [E Ew].
  apply orb_false_iff in E. destruct E as [Eb Eh].
  apply Z.ltb_ge in Eb, Eh, Ew. apply Ok_inj in Hz. subst T.
  refine (conj Eb (conj Eh (conj Ew _))).
  split; [apply repeat_length|]. apply Forall_repeat.
  split; [apply repeat_length|]. apply Forall_repeat.
  split; [apply repeat_length|]. apply Forall_repeat.
  split; [apply repeat_length|]. apply Forall_repeat. apply repeat_length.
Qed.

Lemma length_concat_rows (n_anchors n_entries : nat) (cl : cell) :
  cell_shape n_anchors n_entries cl -> length (concat cl) = (n_anchors * n_entries)%nat.
Proof.
  intros [Hlen Hrows]. subst n_anchors.
  induction Hrows as [|row cl Hrow Hrows IH]; [reflexivity|].
  simpl. rewrite length_app, IH, Hrow. reflexivity.
Qed.

Lemma reshape_shape (n_samples n_rows n_columns n_anchors n_entries : nat) (T : tensor) :
  has_shape n_samples n_rows n_columns n_anchors n_entries T ->
  flat_shape n_samples n_rows n_columns (n_anchors * n_entries) (reshape T).
Proof.
  intros [Hlen Hsamples]. unfold reshape.
  split; [rewrite length_map; exact Hlen|].
  apply Forall_map. eapply Forall_impl; [|exact Hsamples].
  intros s [Hs Hgrid]. split; [rewrite length_map; exact Hs|].
  apply Forall_map. eapply Forall_impl; [|exact Hgrid].
  intros g [Hg Hcells]. split; [rewrite length_map; exact Hg|].
  apply Forall_map. eapply Forall_impl; [|exact Hcells].
  intros cl Hcl. eapply length_concat_rows. exact Hcl.
Qed.

Lemma grid_encode_has_shape (batch_size : Z) (labels : list (list Q)) (T : tensor) :
  grid_encode N_ANCHORS N_CLASSES batch_size grid_w grid_h labels = Ok T ->
  (0 <= batch_size)%Z /\ (0 <= grid_h)%Z /\ (0 <= grid_w)%Z
  /\ shaped (Z.to_nat batch_size) T.
Proof.
  unfold grid_encode. intros Henc.
  destruct (np_zeros N_ANCHORS N_CLASSES batch_size grid_h grid_w) as [T0|] eqn:E0;
    [|discriminate]. cbn [rbind] in Henc.
  destruct (np_zeros_shape _ _ E0) as (Hb & Hh & Hw & HT0).
  refine (conj Hb (conj Hh (conj Hw _))).
  eapply encode_loop_shape; [exact HT0|exact Henc].
Qed.

Lemma nth_error_concat_rows (n_entries : nat) (cl : cell) :
  Forall (fun row => length row = n_entries) cl ->
  forall a k, (k < n_entries)%nat ->
    nth_error (concat cl) (a * n_entries + k)
    = match nth_error cl a with
      | Some row => nth_error row k
      | None => None
      end.
Proof.
  induction 1 as [|row cl Hrow Hrows IH]; intros a k Hk.
  - simpl. destruct a; destruct (_ + _)%nat; reflexivity.
  - destruct a as [|a]; simpl.
    + apply nth_error_app1. lia.
    + rewrite nth_error_app2 by lia.
      replace (n_entries + a * n_entries + k - length row)%nat
        with (a * n_entries + k)%nat by lia.
      apply IH. exact Hk.
Qed.

Lemma encode_loop_reads (labels : list (list Q)) (bs : list nat) :
  forall T T',
    encode_loop N_CLASSES grid_w grid_h labels bs T = Ok T' ->
    Forall (fun b => exists lab x y,
                nth_error labels b = Some lab
                /\ nth_error lab 0 = Some x /\ nth_error lab 1 = Some y) bs.
Proof.
  induction bs as [|b bs IH]; intros T T' Hloop; [constructor|].
  simpl in Hloop.
  destruct (encode_at N_CLASSES grid_w grid_h labels T b) as [T1|] eqn:E1;
    [|discriminate]. cbn [rbind] in Hloop.
  constructor; [|eapply IH; exact Hloop].
  unfold encode_at in E1.
  destruct (nth_result labels b) as [lab|] eqn:El; [|discriminate]. cbn [rbind] in E1.
  destruct (nth_result lab 0) as [x|] eqn:Ex; [|discriminate]. cbn [rbind] in E1.
  destruct (nth_result lab 1) as [y|] eqn:Ey; [|discriminate].
  apply nth_result_ok in El, Ex, Ey. exists lab, x, y. auto.
Qed.

Lemma encoded_unique (lab : list Q) (s1 s2 : sample_grid) :
  encoded N_ANCHORS N_CLASSES grid_w grid_h lab s1 ->
  encoded N_ANCHORS N_CLASSES grid_w grid_h lab s2 -> s1 = s2.
Proof.
  intros (x1 & y1 & r1 & c1 & Hx1 & Hy1 & Er1 & Ec1 & H1)
         (x2 & y2 & r2 & c2 & Hx2 & Hy2 & Er2 & Ec2 & H2).
  rewrite Hx1 in Hx2. rewrite Hy1 in Hy2.
  assert (x2 = x1) by congruence. assert (y2 = y1) by congruence. subst x2 y2.
  assert (r2 = r1) by congruence. assert (c2 = c1) by congruence. subst r2 c2.
  destruct ((r1 <? grid_w)%Z && (c1 <? grid_h)%Z).
  - destruct H1 as (ci1 & ri1 & Hr1 & ->). destruct H2 as (ci2 & ri2 & Hr2 & ->).
    rewrite Hr1 in Hr2. assert (Heq : (ci1, ri1) = (ci2, ri2)) by congruence.
    inversion Heq. reflexivity.
  - congruence.
Qed.

End Dimensions.

(** X3. The tensor the encoder returns has the dimensions it was allocated
    with (line 148), [batch_size x grid_h x grid_w x N_ANCHORS x
    (5 + N_CLASSES)], whatever the labels are: no write changes the length
    of an axis. Reshaped for the yield (line 166) it is [batch_size x
    grid_h x grid_w x N_ANCHORS*(5 + N_CLASSES)]. The encoder returns only
    for non-negative dimensions. *)
Theorem grid_encode_dimensions (N_ANCHORS N_CLASSES : nat) (batch_size grid_w grid_h : Z)
  (labels : list (list Q)) (T : tensor) :
  grid_encode N_ANCHORS N_CLASSES batch_size grid_w grid_h labels = Ok T ->
  (0 <= batch_size)%Z /\ (0 <= grid_h)%Z /\ (0 <= grid_w)%Z
  /\ has_shape (Z.to_nat batch_size) (Z.to_nat grid_h) (Z.to_nat grid_w)
               N_ANCHORS (5 + N_CLASSES) T
  /\ flat_shape (Z.to_nat batch_size) (Z.to_nat grid_h) (Z.to_nat grid_w)
                (N_ANCHORS * (5 + N_CLASSES)) (reshape T).
Proof.
  intros Henc. apply grid_encode_has_shape in Henc.
  destruct Henc as (Hb & Hh & Hw & HT).
  refine (conj Hb (conj Hh (conj Hw (conj HT _)))).
  apply reshape_shape. exact HT.
Qed.

Lemma grid_encode_dimensions_witness :
  grid_encode 5 2 2 13 13 Sample.labels13 = Ok Sample.tensor13
  /\ flat_shape 2 13 13 35 (reshape Sample.tensor13).
Proof.
  assert (H : grid_encode 5 2 2 13 13 Sample.labels13 = Ok Sample.tensor13)
    by (vm_compute; reflexivity).
  split; [exact H|].
  exact (proj2 (proj2 (proj2 (proj2 (grid_encode_dimensions 5 2 2 13 13 _ _ H))))).
Defined.

(** X4. The reshape of line 166 lays the anchor rows of a cell end to end:
    entry [k] of anchor [a] of a cell of the tensor is entry
    [a * (5 + N_CLASSES) + k] of that cell in the yielded grid. *)
Theorem reshape_layout (N_ANCHORS N_CLASSES : nat) (batch_size grid_w grid_h : Z)
  (labels : list (list Q)) (T : tensor) :
  grid_encode N_ANCHORS N_CLASSES batch_size grid_w grid_h labels = Ok T ->
  forall b c r a k,
    (k < 5 + N_CLASSES)%nat ->
    get_flat (reshape T) b c r (a * (5 + N_CLASSES) + k) = get_entry T b c r a k.
Proof.
  intros Henc b c r a k Hk. apply grid_encode_has_shape in Henc.
  destruct Henc as (_ & _ & _ & _ & HT).
  unfold get_flat, get_entry, get_cell, reshape.
  unfold tensor, sample_grid, cell, anchor_row in *. rewrite nth_error_map.
  destruct (nth_error T b) as [s|] eqn:Es; rewrite ?Es; [|reflexivity].
  cbn [option_map]. rewrite nth_error_map.
  destruct (nth_error s c) as [g|] eqn:Eg; rewrite ?Eg; [|reflexivity].
  cbn [option_map]. rewrite nth_error_map.
  destruct (nth_error g r) as [cl|] eqn:Ecl; rewrite ?Ecl; [|reflexivity].
  cbn [option_map].
  apply nth_error_In in Es, Eg, Ecl.
  rewrite Forall_forall in HT. destruct (HT _ Es) as [_ Hs].
  rewrite Forall_forall in Hs. destruct (Hs _ Eg) as [_ Hg].
  rewrite Forall_forall in Hg. destruct (Hg _ Ecl) as [_ Hrows].
  apply nth_error_concat_rows; assumption.
Qed.

Lemma reshape_layout_witness :
  grid_encode 5 2 2 13 13 Sample.labels13 = Ok Sample.tensor13
  /\ get_flat (reshape Sample.tensor13) 0 12 12 (3 * (5 + 2) + 4)
     = get_entry Sample.tensor13 0 12 12 3 4.
Proof.
  assert (H : grid_encode 5 2 2 13 13 Sample.labels13 = Ok Sample.tensor13)
    by (vm_compute; reflexivity).
  split; [exact H|].
  apply (reshape_layout 5 2 2 13 13 _ _ H). simpl; lia.
Defined.

(** X5. The grid of a sample depends on that sample's label vector only:
    two batches that agree at position [b] are encoded to tensors that
    agree at position [b], whatever the other label vectors are. *)
Theorem grid_encode_per_sample (N_ANCHORS N_CLASSES : nat) (batch_size grid_w grid_h : Z)
  (labels labels' : list (list Q)) (T T' : tensor) (b : nat) :
  well_shaped N_CLASSES labels -> well_shaped N_CLASSES labels' ->
  grid_encode N_ANCHORS N_CLASSES batch_size grid_w grid_h labels = Ok T ->
  grid_encode N_ANCHORS N_CLASSES batch_size grid_w grid_h labels' = Ok T' ->
  nth_error labels b = nth_error labels' b ->
  nth_error T b = nth_error T' b.
Proof.
  intros Hshape Hshape' Henc Henc' Hsame.
  destruct (grid_encode_spec _ _ _ _ _ _ _ Hshape Henc) as [Hlen Hall].
  destruct (grid_encode_spec _ _ _ _ _ _ _ Hshape' Henc') as [Hlen' Hall'].
  destruct (Nat.lt_ge_cases b (Z.to_nat batch_size)) as [Hb|Hb].
  - destruct (Hall b Hb) as (lab & s & Hlab & Hs & HT).
    destruct (Hall' b Hb) as (lab' & s' & Hlab' & Hs' & HT').
    assert (lab' = lab) by congruence. subst lab'.
    rewrite HT, HT'. f_equal.
    eapply encoded_unique; eassumption.
  - assert (H1 : nth_error T b = None) by (apply nth_error_None; lia).
    assert (H2 : nth_error T' b = None) by (apply nth_error_None; lia).
    congruence.
Qed.

Lemma grid_encode_per_sample_witness :
  exists T',
    grid_encode 5 2 2 13 13 [nth 0 Sample.labels13 []; nth 0 Sample.labels13 []] = Ok T'
    /\ nth_error Sample.tensor13 0 = nth_error T' 0.
Proof.
  destruct (grid_encode 5 2 2 13 13 [nth 0 Sample.labels13 []; nth 0 Sample.labels13 []])
    as [T'|] eqn:E; [|vm_compute in E; discriminate].
  exists T'. split; [reflexivity|].
  apply (grid_encode_per_sample 5 2 2 13 13 Sample.labels13
           [nth 0 Sample.labels13 []; nth 0 Sample.labels13 []] _ _ 0).
  - repeat constructor.
  - repeat constructor.
  - vm_compute; reflexivity.
  - exact E.
  - reflexivity.
Defined.

(** X6. The encoder reads [labels[b]], [labels[b][0]] and [labels[b][1]]
    for every [b] below [batch_size] (lines 153-156): it returns only when
    there are at least [batch_size] label vectors, and each of the first
    [batch_size] has its two centroid coordinates. A shorter batch raises
    instead of being padded. *)
Theorem grid_encode_reads_full_batch (N_ANCHORS N_CLASSES : nat)
  (batch_size grid_w grid_h : Z) (labels : list (list Q)) (T : tensor) :
  grid_encode N_ANCHORS N_CLASSES batch_size grid_w grid_h labels = Ok T ->
  (Z.to_nat batch_size <= length labels)%nat
  /\ forall b, (b < Z.to_nat batch_size)%nat ->
       exists lab x y,
         nth_error labels b = Some lab
         /\ nth_error lab 0 = Some x /\ nth_error lab 1 = Some y.
Proof.
  unfold grid_encode. intros Henc.
  destruct (np_zeros N_ANCHORS N_CLASSES batch_size grid_h grid_w) as [T0|];
    [|discriminate]. cbn [rbind] in Henc.
  apply encode_loop_reads in Henc. rewrite Forall_forall in Henc.
  assert (Hall : forall b, (b < Z.to_nat batch_size)%nat ->
            exists lab x y, nth_error labels b = Some lab
                            /\ nth_error lab 0 = Some x /\ nth_error lab 1 = Some y).
  { intros b Hb. apply Henc. apply in_seq. lia. }
  split; [|exact Hall].
  destruct (Nat.le_gt_cases (Z.to_nat batch_size) (length labels)) as [H|H]; [exact H|].
  destruct (Hall (length labels) H) as (lab & _ & _ & Hlab & _).
  assert (Hnone : nth_error labels (length labels) = None)
    by (apply nth_error_None; lia).
  congruence.
Qed.

Lemma grid_encode_reads_full_batch_witness :
  grid_encode 5 2 2 13 13 Sample.labels13 = Ok Sample.tensor13
  /\ (Z.to_nat 2 <= length Sample.labels13)%nat.
Proof.
  assert (H : grid_encode 5 2 2 13 13 Sample.labels13 = Ok Sample.tensor13)
    by (vm_compute; reflexivity).
  split; [exact H|].
  exact (proj1 (grid_encode_reads_full_batch 5 2 2 13 13 _ _ H)).
Defined.

End ShapeFacts.
(* ================================================================== *)
(** * The samples of a slice *)
(* ================================================================== *)

Module SliceFacts.

Import BuilderFacts.

Section Slice.

Variable cfg : Cfg.
Variable W : World.
Variable augment_data : bool.
Variable augment_level : list row.

Local Abbreviation process := (process_entry cfg W augment_data augment_level).
Local Abbreviation relative f index :=
  (fun b : Box =>
     flat_label
       (to_relative_size b (py_float (snd (shape W (cvtColor W (imread W f)))),
                            py_float (fst (shape W (cvtColor W (imread W f))))))
       (encode_label cfg index)).

(** The augmentation loop touches the random generator and the record of
    the transform calls, and nothing else of the state. *)
Lemma augment_loop_frame (img : image W) (bbox : Box) (width height : Z)
  (one_hot : list Q) (l : list Z) :
  forall (xy : XY W) (s : state W),
    let s' := snd (for_each l (augment_once W img bbox width height one_hot) xy s) in
    multi_scale s' = multi_scale s /\ new_height s' = new_height s
    /\ new_width s' = new_width s /\ printed s' = printed s /\ yielded s' = yielded s.
Proof.
  induction l as [|z l IH]; intros xy s; [cbn; auto|].
  cbv zeta. rewrite for_each_cons, augment_once_run. cbv beta iota zeta.
  match goal with
  | |- context [for_each l _ ?acc ?st] =>
      specialize (IH acc st); cbv zeta in IH; cbn [multi_scale new_height new_width
        printed yielded] in IH; exact IH
  end.
Qed.

Lemma np_where_first_bound (classes : list string) (lab : string) (i : nat) :
  np_where_first classes lab = Ok i -> (i < length classes)%nat.
Proof.
  intros H. apply np_where_first_found in H. destruct H as [H _].
  apply nth_error_Some. congruence.
Qed.

(** An entry whose file exists adds its own sample, then the variants the
    augmentation loop keeps. *)
Lemma process_entry_present (xy xy' : XY W) (f : string) (bbox : Box) (label : string)
  (s s' : state W) :
  isfile W f = true ->
  process xy (f, (bbox, label)) s = (Ok xy', s') ->
  exists (index : nat) (img : image W) (kept : list (image W * corners)),
    np_where_first (CLASSES cfg) label = Ok index
    /\ (S (length kept) <= budget augment_data augment_level (f, (bbox, label)))%nat
    /\ (augment_data = false ->
        kept = [] /\ s' = s
        /\ img = resize W (cvtColor W (imread W f)) (IMG_INPUT cfg, IMG_INPUT cfg))
    /\ printed s' = printed s /\ yielded s' = yielded s
    /\ fst xy' = fst xy ++ preprocess_img W img
                           :: map (fun c => preprocess_img W (fst c)) kept
    /\ snd xy' = snd xy ++ relative f index bbox
                           :: map (fun c => relative f index (convert_opencv_to_box (snd c)))
                                  kept.
Proof.
  intros Hf Hrun. unfold process_entry in Hrun. rewrite Hf in Hrun. cbn [negb] in Hrun.
  destruct (shape W (cvtColor W (imread W f))) as [height width] eqn:Eshape.
  cbn [fst snd]. unfold budget. cbn [snd]. destruct augment_data.
  - unfold bind, lift, read_var in Hrun.
    destruct (multi_scale s) as [ms|] eqn:Ems; [|discriminate].
    destruct (scaled_size (IMG_INPUT cfg) ms) as [side|] eqn:Eside; [|discriminate].
    unfold set_new_size, ret in Hrun. cbn beta iota in Hrun.
    destruct (np_where_first (CLASSES cfg) label) as [index|] eqn:Eidx; [|discriminate].
    destruct (loc_scaling_factor augment_level label) as [aug_level|] eqn:Elvl;
      [|discriminate].
    match type of Hrun with
    | for_each ?l (augment_once _ ?img _ _ _ ?oh) ?acc ?st = _ =>
        destruct (augment_loop_run W img bbox width height oh l acc st)
          as (xy1 & s1 & kept & Hloop & _ & _ & Hlen & HX & HY);
        pose proof (augment_loop_frame img bbox width height oh l acc st) as Hframe;
        exists index, img, kept
    end.
    cbv zeta in Hframe. rewrite Hloop in Hrun, Hframe. inversion Hrun. subst xy1 s1.
    clear Hrun. cbn [snd printed yielded] in Hframe.
    destruct Hframe as (_ & _ & _ & Hp & Hy).
    unfold py_range in Hlen. rewrite length_map, length_seq in Hlen.
    split; [reflexivity|]. split; [lia|]. split; [discriminate|].
    split; [exact Hp|]. split; [exact Hy|].
    split.
    + rewrite HX. unfold append. simpl. rewrite <- app_assoc. reflexivity.
    + rewrite HY. unfold append. simpl. rewrite <- app_assoc. reflexivity.
  - unfold bind, lift, ret in Hrun.
    destruct (np_where_first (CLASSES cfg) label) as [index|] eqn:Eidx; [|discriminate].
    inversion Hrun. subst xy' s'. clear Hrun.
    exists index, (resize W (cvtColor W (imread W f)) (IMG_INPUT cfg, IMG_INPUT cfg)), [].
    split; [reflexivity|]. split; [simpl; lia|]. split; [auto|].
    repeat split.
Qed.

Lemma present_length (entries : list (string * (Box * string))) :
  (length (present W entries) <= length entries)%nat.
Proof.
  apply filter_length_le.
Qed.

(** The slice loop, entry by entry. *)
Lemma slice_run (entries : list (string * (Box * string))) :
  forall (acc xy' : XY W) (s s' : state W),
    for_each entries process acc s = (Ok xy', s') ->
    exists new : list (image W * list Q),
      fst xy' = fst acc ++ map fst new /\ snd xy' = snd acc ++ map snd new
      /\ Forall (fun p => built_label cfg (snd p)) new
      /\ (length (present W entries) <= length new
          <= list_sum (map (budget augment_data augment_level) (present W entries)))%nat
      /\ printed s'
         = printed s ++ repeat "Image Not Found"%string
                               (length entries - length (present W entries))
      /\ yielded s' = yielded s
      /\ (augment_data = false ->
          Forall2 (base_sample cfg W) (present W entries) new
          /\ same_but_printed s s').
Proof.
  induction entries as [|[f [bbox label]] entries IH]; intros acc xy' s s' Hrun.
  - cbn in Hrun. inversion Hrun. subst xy' s'. exists [].
    cbn. rewrite !app_nil_r. repeat split; auto.
  - rewrite for_each_cons in Hrun. pose proof (present_length entries) as Hle.
    destruct (isfile W f) eqn:Hf.
    + destruct (process acc (f, (bbox, label)) s) as [[acc1|e] s1] eqn:E1;
        [|discriminate].
      destruct (process_entry_present _ _ _ _ _ _ _ Hf E1)
        as (index & img & kept & Hidx & Hbudget & Hplain & Hp & Hy & HX & HY).
      destruct (IH _ _ _ _ Hrun)
        as (new & HX' & HY' & Hnew & Hcount & Hlog & Hyield & Hoff).
      exists ((preprocess_img W img, relative f index bbox)
              :: map (fun c => (preprocess_img W (fst c),
                                relative f index (convert_opencv_to_box (snd c)))) kept
              ++ new).
      unfold present in *. cbn [filter fst]. rewrite Hf.
      split; [|split; [|split; [|split; [|split; [|split]]]]].
      * rewrite HX', HX. cbn [map fst]. rewrite map_app, map_map. cbn [fst].
        rewrite <- app_assoc. reflexivity.
      * rewrite HY', HY. cbn [map snd]. rewrite map_app, map_map. cbn [snd].
        rewrite <- app_assoc. reflexivity.
      * assert (Hi : (index < length (CLASSES cfg))%nat)
          by (eapply np_where_first_bound; exact Hidx).
        constructor; [eexists; exists index; split; [exact Hi|reflexivity]|].
        apply Forall_app. split; [|exact Hnew].
        apply Forall_map. apply Forall_forall. intros c _.
        eexists; exists index; split; [exact Hi|reflexivity].
      * cbn [length map]. rewrite length_app, length_map.
        unfold list_sum in *. cbn [fold_right]. lia.
      * rewrite Hlog, Hp. cbn [length]. reflexivity.
      * rewrite Hyield. exact Hy.
      * intros Hoff'. destruct (Hplain Hoff') as (-> & -> & ->).
        destruct (Hoff Hoff') as [Hall Hsame]. split; [|exact Hsame].
        cbn [map app]. constructor; [|exact Hall].
        exists index. cbn [fst snd]. auto.
    + rewrite (process_entry_missing cfg W augment_data augment_level acc f
                 (bbox, label) s Hf) in Hrun.
      destruct (IH _ _ _ _ Hrun)
        as (new & HX' & HY' & Hnew & Hcount & Hlog & Hyield & Hoff).
      exists new. unfold present in *. cbn [filter fst]. rewrite Hf.
      split; [exact HX'|]. split; [exact HY'|]. split; [exact Hnew|].
      split; [exact Hcount|].
      split; [|split].
      * rewrite Hlog. cbn [printed length]. rewrite <- app_assoc.
        replace (S (length entries) - length (filter (fun e => isfile W (fst e)) entries))%nat
          with (S (length entries - length (filter (fun e => isfile W (fst e)) entries)))
          by lia.
        reflexivity.
      * rewrite Hyield. reflexivity.
      * intros Hoff'. destruct (Hoff Hoff') as [Hall Hsame]. split; [exact Hall|].
        destruct Hsame as (H1 & H2 & H3 & H4 & H5 & H6).
        cbn [rand multi_scale new_height new_width transform_calls yielded] in *.
        unfold same_but_printed. repeat split; assumption.
Qed.

End Slice.

(** With augmentation off an entry whose file exists and whose class is in
    the categories file is processed without an exception. *)
Lemma slice_total (cfg : Cfg) (W : World) (augment_level : list row)
  (entries : list (string * (Box * string))) :
  Forall (fun e => isfile W (fst e) = true -> In (snd (snd e)) (CLASSES cfg)) entries ->
  forall (acc : XY W) (s : state W),
  exists xy' s',
    for_each entries (process_entry cfg W false augment_level) acc s = (Ok xy', s').
Proof.
  induction 1 as [|[f [bbox label]] entries He Hrest IH]; intros acc s.
  - exists acc, s. reflexivity.
  - rewrite for_each_cons. destruct (isfile W f) eqn:Hf.
    + cbn [fst snd] in He. destruct (np_where_first_present _ _ (He Hf)) as [i Hi].
      unfold process_entry. rewrite Hf. cbn [negb].
      destruct (shape W (cvtColor W (imread W f))) as [height width].
      unfold bind, lift, ret. rewrite Hi. apply IH.
    + rewrite (process_entry_missing cfg W false augment_level acc f (bbox, label) s Hf).
      apply IH.
Qed.

(** X7. The samples of a slice (lines 82-135), with or without
    augmentation. [X] and [Y] grow in step. Every label vector is four box
    numbers, objectness 1 and the encoding of the index of a class of the
    categories file. An entry whose file exists adds at least one sample
    and at most one more than its augmentation level, an entry whose file
    is missing adds none and one line to the log; nothing is yielded while
    the samples are built. *)
Theorem slice_sample_count (cfg : Cfg) (W : World) (augment_data : bool)
  (augment_level : list row) (f_name : list string) (labels : list (Box * string))
  (s s' : state W) (X : list (image W)) (Y : list (list Q)) :
  build_samples cfg W augment_data augment_level f_name labels s = (Ok (X, Y), s') ->
  length X = length Y
  /\ Forall (built_label cfg) Y
  /\ (length (present W (combine f_name labels)) <= length X
      <= list_sum (map (budget augment_data augment_level)
                       (present W (combine f_name labels))))%nat
  /\ printed s'
     = printed s ++ repeat "Image Not Found"%string
                           (length (combine f_name labels)
                            - length (present W (combine f_name labels)))
  /\ yielded s' = yielded s.
Proof.
  intros Hrun. unfold build_samples in Hrun.
  destruct (slice_run cfg W augment_data augment_level _ _ _ _ _ Hrun)
    as (new & HX & HY & Hnew & Hcount & Hlog & Hyield & _).
  cbn [fst snd app] in HX, HY. subst X Y.
  rewrite !length_map.
  split; [reflexivity|]. split; [apply Forall_map; exact Hnew|].
  split; [exact Hcount|]. split; [exact Hlog|exact Hyield].
Qed.

Lemma slice_sample_count_witness :
  exists X Y s',
    build_samples Sample.cfg0 Sample.world0 true Sample.level_one
      ["a.jpg"%string; "missing.jpg"%string]
      [(Sample.box0, "stop"%string); (Sample.box0, "yield"%string)]
      (Sample.state_scale1 0)
    = (Ok (X, Y), s')
    /\ length X = length Y /\ printed s' = ["Image Not Found"%string].
Proof.
  destruct (build_samples Sample.cfg0 Sample.world0 true Sample.level_one
              ["a.jpg"%string; "missing.jpg"%string]
              [(Sample.box0, "stop"%string); (Sample.box0, "yield"%string)]
              (Sample.state_scale1 0)) as [[[X Y]|e] s'] eqn:E;
    [|vm_compute in E; discriminate].
  exists X, Y, s'. split; [reflexivity|].
  pose proof (slice_sample_count _ _ _ _ _ _ _ _ _ _ E) as H.
  split; [exact (proj1 H)|exact (proj1 (proj2 (proj2 (proj2 H))))].
Defined.

(** X8. With augmentation off the samples of a slice are, in the order of
    the slice, one per entry whose file exists: the image read, converted
    to RGB, resized to IMG_INPUT x IMG_INPUT and preprocessed, with the box
    relative to the size of the image in the file, objectness 1 and the
    encoding of the class. Building them sets no variable, draws no random
    number and calls no transform: only the log can change. The slice is
    built without an exception when the class of every entry whose file
    exists is in the categories file. *)
Theorem slice_without_augmentation (cfg : Cfg) (W : World) (augment_level : list row)
  (f_name : list string) (labels : list (Box * string)) (s : state W) :
  (forall X Y s',
     build_samples cfg W false augment_level f_name labels s = (Ok (X, Y), s') ->
     Forall2 (base_sample cfg W) (present W (combine f_name labels)) (combine X Y)
     /\ length X = length (present W (combine f_name labels))
     /\ length Y = length (present W (combine f_name labels))
     /\ same_but_printed s s')
  /\ ((forall f bbox label,
         In (f, (bbox, label)) (combine f_name labels) -> isfile W f = true ->
         In label (CLASSES cfg)) ->
      exists X Y s',
        build_samples cfg W false augment_level f_name labels s = (Ok (X, Y), s')).
Proof.
  split.
  - intros X Y s' Hrun. unfold build_samples in Hrun.
    destruct (slice_run cfg W false augment_level _ _ _ _ _ Hrun)
      as (new & HX & HY & _ & _ & _ & _ & Hoff).
    destruct (Hoff eq_refl) as [Hall Hsame].
    cbn [fst snd app] in HX, HY. subst X Y.
    assert (Hzip : combine (map fst new) (map snd new) = new).
    { clear. induction new as [|[a b] new IH]; [reflexivity|]. simpl. rewrite IH.
      reflexivity. }
    rewrite Hzip, !length_map. pose proof (Forall2_length Hall) as Hlen.
    split; [exact Hall|]. split; [symmetry; exact Hlen|].
    split; [symmetry; exact Hlen|exact Hsame].
  - intros Hclasses. unfold build_samples.
    destruct (slice_total cfg W augment_level (combine f_name labels)) with
      (acc := (([], []) : XY W)) (s := s) as ([X Y] & s' & Hrun).
    + apply Forall_forall. intros [f [bbox label]] Hin Hf. cbn [fst snd] in *.
      eapply Hclasses; eassumption.
    + exists X, Y, s'. exact Hrun.
Qed.

End SliceFacts.
(* ================================================================== *)
(** * Invariants of the generator loop *)
(* ================================================================== *)

Module FlowFacts.

Import EncoderFacts BuilderFacts LoopFacts ShapeFacts SliceFacts.

Section Invariants.

Variable cfg : Cfg.
Variable W : World.
Variable batch_size : Z.

Lemma preserves_ret {A : Type} (I : state W -> Prop) (a : A) : preserves W I (ret a).
Proof.
  intros s Hs. exact Hs.
Qed.

Lemma preserves_raise {A : Type} (I : state W -> Prop) (e : exn) :
  preserves W I (@raise W A e).
Proof.
  intros s Hs. exact Hs.
Qed.

Lemma preserves_lift {A : Type} (I : state W -> Prop) (r : result A) :
  preserves W I (lift r).
Proof.
  intros s Hs. exact Hs.
Qed.

Lemma preserves_read_var {A : Type} (I : state W -> Prop) (field : state W -> option A) :
  preserves W I (read_var field).
Proof.
  intros s Hs. unfold read_var. destruct (field s); exact Hs.
Qed.

Lemma preserves_bind {A B : Type} (I : state W -> Prop) (m : M W A) (f : A -> M W B) :
  preserves W I m ->
  (forall a s s', m s = (Ok a, s') -> preserves W I (f a)) ->
  preserves W I (bind m f).
Proof.
  intros Hm Hf s Hs. unfold bind. specialize (Hm s Hs).
  destruct (m s) as [[a|e] s'] eqn:E; cbn [snd] in *; [|exact Hm].
  eapply Hf; [exact E|exact Hm].
Qed.

Lemma preserves_for_each {A S : Type} (I : state W -> Prop) (l : list A)
  (body : S -> A -> M W S) :
  (forall acc a, In a l -> preserves W I (body acc a)) ->
  forall acc, preserves W I (for_each l body acc).
Proof.
  induction l as [|a l IH]; intros Hbody acc; simpl.
  - apply preserves_ret.
  - apply preserves_bind; [apply Hbody; left; reflexivity|].
    intros acc' s s' _. apply IH. intros acc'' a' Hin. apply Hbody. right. exact Hin.
Qed.

(** ** With augmentation off *)

Lemma plain_print (msg : string) : preserves W never_augmented (print msg).
Proof.
  intros s Hs. exact Hs.
Qed.

Lemma plain_draw {A : Type} (f : rng W -> A * rng W) : preserves W never_augmented (draw f).
Proof.
  intros s Hs. unfold draw. destruct (f (rand s)). exact Hs.
Qed.

Lemma plain_yield (b : batch W) : preserves W never_augmented (yield b).
Proof.
  intros s Hs. exact Hs.
Qed.

Lemma plain_shuffle {A B : Type} (a : list A) (b : list B) :
  preserves W never_augmented (shuffle W a b).
Proof.
  unfold shuffle. destruct (Nat.eqb (length a) (length b)); [|apply preserves_raise].
  apply preserves_bind; [apply plain_draw|]. intros idx _ _ _. apply preserves_ret.
Qed.

Lemma plain_process_entry (augment_level : list row) (xy : XY W)
  (e : string * (Box * string)) :
  preserves W never_augmented (process_entry cfg W false augment_level xy e).
Proof.
  destruct e as [f [bbox label]]. unfold process_entry.
  destruct (negb (isfile W f)).
  - apply preserves_bind; [apply plain_print|]. intros _ _ _ _. apply preserves_ret.
  - destruct (shape W (cvtColor W (imread W f))) as [height width].
    apply preserves_bind; [apply preserves_ret|]. intros img _ _ _.
    apply preserves_bind; [apply preserves_lift|]. intros index _ _ _.
    apply preserves_ret.
Qed.

Lemma plain_sub_batch (X : list (image W)) (Y : list (list Q)) (z : Z) :
  preserves W never_augmented (sub_batch cfg W batch_size false X Y z).
Proof.
  unfold sub_batch.
  apply preserves_bind.
  { apply preserves_bind; [apply preserves_lift|]. intros gw _ _ _.
    apply preserves_bind; [apply preserves_lift|]. intros gh _ _ _. apply preserves_ret. }
  intros [grid_w grid_h] _ _ _.
  apply preserves_bind; [apply preserves_lift|]. intros y_batch _ _ _. apply plain_yield.
Qed.

Lemma plain_run_slice (augment_level : list row) (x : list string)
  (y : list (Box * string)) (i : Z) :
  preserves W never_augmented (run_slice cfg W batch_size false augment_level x y i).
Proof.
  unfold run_slice. rewrite andb_false_r.
  apply preserves_bind; [apply preserves_ret|]. intros _ _ _ _.
  apply preserves_bind.
  { unfold build_samples. apply preserves_for_each. intros acc e _.
    apply plain_process_entry. }
  intros xy _ _ _.
  apply preserves_bind; [apply plain_shuffle|]. intros [X Y] _ _ _.
  apply preserves_bind; [apply preserves_lift|]. intros n _ _ _.
  apply preserves_for_each. intros [] z _. apply plain_sub_batch.
Qed.

Lemma plain_epochs (augment_level : list row) (n : nat) (slices : Z) :
  forall xy,
    preserves W never_augmented
      (epochs cfg W batch_size false augment_level n slices xy).
Proof.
  induction n as [|n IH]; intros xy; simpl; [apply preserves_ret|].
  apply preserves_bind; [|intros xy' _ _ _; apply IH].
  unfold epoch. apply preserves_bind; [apply plain_shuffle|]. intros xy' _ _ _.
  apply preserves_bind; [|intros _ _ _ _; apply preserves_ret].
  apply preserves_for_each. intros [] i _. apply plain_run_slice.
Qed.

(** ** The scale in force and the dimensions of the yielded grids *)

Local Abbreviation scale_ok augment_data := (scale_inv cfg W batch_size augment_data).

Lemma scale_print (augment_data : bool) (msg : string) : preserves W (scale_ok augment_data) (print msg).
Proof.
  intros s Hs. exact Hs.
Qed.

Lemma scale_draw (augment_data : bool) {A : Type} (f : rng W -> A * rng W) : preserves W (scale_ok augment_data) (draw f).
Proof.
  intros s Hs. unfold draw. destruct (f (rand s)). exact Hs.
Qed.

Lemma scale_call (augment_data : bool) (img : image W) (box : corners) :
  preserves W (scale_ok augment_data) (call_random_transform img box).
Proof.
  intros s Hs. unfold call_random_transform.
  destruct (random_transform W (rand s) img box). exact Hs.
Qed.

Lemma scale_shuffle (augment_data : bool) {A B : Type} (a : list A) (b : list B) :
  preserves W (scale_ok augment_data) (shuffle W a b).
Proof.
  unfold shuffle. destruct (Nat.eqb (length a) (length b)); [|apply preserves_raise].
  apply preserves_bind; [apply scale_draw|]. intros idx _ _ _. apply preserves_ret.
Qed.

Lemma py_get_In {A : Type} (l : list A) (i : Z) (a : A) : py_get l i = Ok a -> In a l.
Proof.
  unfold py_get. destruct (np_index i (length l)) as [k|]; [|discriminate].
  cbn [rbind]. destruct (nth_error l k) as [a'|] eqn:E; [|discriminate].
  intros H. apply Ok_inj in H. subst a'. eapply nth_error_In. exact E.
Qed.

Lemma scale_process_entry (augment_data : bool) (augment_level : list row) (xy : XY W)
  (e : string * (Box * string)) :
  preserves W (scale_ok augment_data) (process_entry cfg W augment_data augment_level xy e).
Proof.
  destruct e as [f [bbox label]]. unfold process_entry.
  destruct (negb (isfile W f)).
  - apply preserves_bind; [apply scale_print|]. intros _ _ _ _. apply preserves_ret.
  - destruct (shape W (cvtColor W (imread W f))) as [height width].
    apply preserves_bind.
    { destruct augment_data; [|apply preserves_ret].
      intros s Hs. unfold bind, read_var, lift.
      destruct (multi_scale s) as [ms|] eqn:Ems; [|exact Hs].
      destruct (scaled_size (IMG_INPUT cfg) ms) as [n|] eqn:En; [|exact Hs].
      destruct Hs as (Hms & Hside & Hsame & Hy).
      cbn. refine (conj Hms (conj _ (conj eq_refl Hy))).
      intros n' Hn. inversion Hn. subst n'. exists ms.
      split; [apply Hms; exact Ems|exact En]. }
    intros img _ _ _.
    apply preserves_bind; [apply preserves_lift|]. intros index _ _ _.
    destruct augment_data; [|apply preserves_ret].
    apply preserves_bind; [apply preserves_lift|]. intros aug_level _ _ _.
    apply preserves_for_each. intros acc l _. unfold augment_once.
    apply preserves_bind; [apply scale_call|]. intros [aug_img aug_box] _ _ _.
    destruct (out_of_bound width height aug_box); apply preserves_ret.
Qed.

Lemma scale_sub_batch (augment_data : bool) (X : list (image W)) (Y : list (list Q)) (z : Z) :
  preserves W (scale_ok augment_data) (sub_batch cfg W batch_size augment_data X Y z).
Proof.
  intros s (Hms & Hside & Hsame & Hy). unfold sub_batch.
  assert (Hkeep : scale_ok augment_data s) by exact (conj Hms (conj Hside (conj Hsame Hy))).
  assert (Hgrid :
    forall g T,
      grid_side cfg augment_data g ->
      grid_encode (N_ANCHORS cfg) (N_CLASSES cfg) batch_size g g
        (py_slice Y (z * batch_size) (z * batch_size + batch_size)) = Ok T ->
      scale_ok augment_data (snd (yield (py_slice X (z * batch_size) (z * batch_size + batch_size),
                            reshape T) s))).
  { intros g T Hg HT. cbn. refine (conj Hms (conj Hside (conj Hsame _))).
    apply Forall_app. split; [exact Hy|]. constructor; [|constructor].
    exists g. split; [exact Hg|]. cbn [snd].
    apply grid_encode_has_shape in HT. destruct HT as (_ & _ & _ & HT).
    apply reshape_shape. exact HT. }
  unfold bind, lift, read_var. destruct augment_data.
  - destruct (new_width s) as [n|] eqn:En; [|exact Hkeep].
    unfold py_div. destruct (SHRINK_FACTOR cfg =? 0)%Z; [exact Hkeep|].
    rewrite Hsame. unfold ret.
    destruct (grid_encode _ _ _ _ _ _) as [T|] eqn:ET; [|exact Hkeep].
    eapply Hgrid; [|exact ET]. exists n. split; [apply Hside; reflexivity|reflexivity].
  - unfold py_div. destruct (SHRINK_FACTOR cfg =? 0)%Z; [exact Hkeep|]. unfold ret.
    destruct (grid_encode _ _ _ _ _ _) as [T|] eqn:ET; [|exact Hkeep].
    eapply Hgrid; [|exact ET]. reflexivity.
Qed.

Lemma scale_run_slice (augment_data : bool) (augment_level : list row) (x : list string)
  (y : list (Box * string)) (i : Z) :
  preserves W (scale_ok augment_data) (run_slice cfg W batch_size augment_data augment_level x y i).
Proof.
  unfold run_slice.
  apply preserves_bind.
  { destruct ((i mod 10 =? 0)%Z && augment_data); [|apply preserves_ret].
    apply preserves_bind; [apply scale_draw|]. intros randint _ _ _.
    apply preserves_bind; [apply preserves_lift|]. intros ms s0 s0' Hget.
    unfold lift in Hget. inversion Hget as [[Hms Hs0]]. apply py_get_In in Hms.
    intros s (Hms' & Hside & Hsame & Hy). cbn.
    refine (conj _ (conj Hside (conj Hsame Hy))).
    intros ms' E. inversion E. subst ms'. exact Hms. }
  intros _ _ _ _.
  apply preserves_bind.
  { unfold build_samples. apply preserves_for_each. intros acc e _.
    apply scale_process_entry. }
  intros xy _ _ _.
  apply preserves_bind; [apply scale_shuffle|]. intros [X Y] _ _ _.
  apply preserves_bind; [apply preserves_lift|]. intros n _ _ _.
  apply preserves_for_each. intros [] z _. apply scale_sub_batch.
Qed.

Lemma scale_epochs (augment_data : bool) (augment_level : list row) (n : nat) (slices : Z) :
  forall xy,
    preserves W (scale_ok augment_data)
      (epochs cfg W batch_size augment_data augment_level n slices xy).
Proof.
  induction n as [|n IH]; intros xy; simpl; [apply preserves_ret|].
  apply preserves_bind; [|intros xy' _ _ _; apply IH].
  unfold epoch. apply preserves_bind; [apply scale_shuffle|]. intros xy' _ _ _.
  apply preserves_bind; [|intros _ _ _ _; apply preserves_ret].
  apply preserves_for_each. intros [] i _. apply scale_run_slice.
Qed.

Lemma scale_flow (augment_data : bool) (seed : rng W) (x : list string) (y : list (Box * string))
  (scaling_factor : Q) (n_epochs : nat) :
  scale_ok augment_data (snd (flow_from_list cfg W seed x y batch_size scaling_factor
                   augment_data n_epochs)).
Proof.
  unfold flow_from_list.
  eapply (preserves_bind (scale_ok augment_data)).
  - apply preserves_lift.
  - intros slices ? ? ?. apply preserves_bind; [apply preserves_lift|].
    intros augment_level ? ? ?. apply scale_epochs.
  - unfold initial_state. repeat split; cbn; try discriminate. constructor.
Qed.

End Invariants.


(** ** Lists: slices and index selections *)

Lemma In_firstn {A : Type} (n : nat) (l : list A) (x : A) : In x (firstn n l) -> In x l.
Proof.
  intros H. rewrite <- (firstn_skipn n l). apply in_or_app. left. exact H.
Qed.

Lemma In_skipn {A : Type} (n : nat) (l : list A) (x : A) : In x (skipn n l) -> In x l.
Proof.
  intros H. rewrite <- (firstn_skipn n l). apply in_or_app. right. exact H.
Qed.

Lemma In_py_slice {A : Type} (l : list A) (a b : Z) (x : A) :
  In x (py_slice l a b) -> In x l.
Proof.
  unfold py_slice. intros H. apply In_firstn in H. apply In_skipn in H. exact H.
Qed.

Lemma combine_skipn {A B : Type} (n : nat) :
  forall (l : list A) (l' : list B),
    skipn n (combine l l') = combine (skipn n l) (skipn n l').
Proof.
  induction n as [|n IH]; intros l l'; [reflexivity|].
  destruct l as [|a l]; [reflexivity|]. destruct l' as [|b l'].
  - simpl. rewrite combine_nil. reflexivity.
  - simpl. apply IH.
Qed.

Lemma combine_py_slice {A B : Type} (l : list A) (l' : list B) (a b : Z) :
  length l = length l' ->
  combine (py_slice l a b) (py_slice l' a b) = py_slice (combine l l') a b.
Proof.
  intros Hlen. unfold py_slice.
  rewrite length_combine, <- Hlen, Nat.min_id, combine_skipn, combine_firstn.
  reflexivity.
Qed.

Lemma In_np_take {A : Type} (l : list A) (idx : list nat) (x : A) :
  In x (np_take l idx) -> In x l.
Proof.
  unfold np_take. intros H. apply in_flat_map in H. destruct H as (i & _ & H).
  destruct (nth_error l i) as [a|] eqn:E; [|destruct H].
  destruct H as [<-|[]]. eapply nth_error_In. exact E.
Qed.

Lemma nth_error_combine {A B : Type} (l : list A) :
  forall (l' : list B) (i : nat),
    nth_error (combine l l') i
    = match nth_error l i, nth_error l' i with
      | Some x, Some y => Some (x, y)
      | _, _ => None
      end.
Proof.
  induction l as [|a l IH]; intros l' i.
  - destruct i; reflexivity.
  - destruct l' as [|b l'].
    + destruct i; simpl; [reflexivity|]. destruct (nth_error l i); reflexivity.
    + destruct i; simpl; [reflexivity|]. apply IH.
Qed.

Lemma np_take_combine {A B : Type} (a : list A) (b : list B) (idx : list nat) :
  length a = length b ->
  np_take a idx = map fst (np_take (combine a b) idx)
  /\ np_take b idx = map snd (np_take (combine a b) idx).
Proof.
  intros Hlen. unfold np_take.
  induction idx as [|i idx [IHa IHb]]; [split; reflexivity|].
  cbn [flat_map]. rewrite !map_app, <- IHa, <- IHb, nth_error_combine.
  destruct (nth_error a i) as [x|] eqn:Ea; destruct (nth_error b i) as [y|] eqn:Eb.
  - split; reflexivity.
  - exfalso. apply nth_error_None in Eb.
    assert (H : nth_error a i <> None) by congruence. apply nth_error_Some in H. lia.
  - exfalso. apply nth_error_None in Ea.
    assert (H : nth_error b i <> None) by congruence. apply nth_error_Some in H. lia.
  - split; reflexivity.
Qed.

Lemma combine_fst_snd {A B : Type} (l : list (A * B)) :
  combine (map fst l) (map snd l) = l.
Proof.
  induction l as [|[a b] l IH]; [reflexivity|]. simpl. rewrite IH. reflexivity.
Qed.

Lemma py_range_nonpos (n : Z) : (n <= 0)%Z -> py_range n = [].
Proof.
  intros Hn. unfold py_range. replace (Z.to_nat n) with 0%nat by lia. reflexivity.
Qed.

Lemma Forall2_In_r {A B : Type} (R : A -> B -> Prop) (l : list A) (l' : list B) (y : B) :
  Forall2 R l l' -> In y l' -> exists x, In x l /\ R x y.
Proof.
  induction 1 as [|a b l l' Hab Hrest IH]; intros Hin; [destruct Hin|].
  destruct Hin as [<-|Hin].
  - exists a. split; [left; reflexivity|exact Hab].
  - destruct (IH Hin) as (x & Hx & HR). exists x. split; [right; exact Hx|exact HR].
Qed.

(** ** Runs without augmentation *)

Section Runs.

Variable cfg : Cfg.
Variable W : World.
Variable batch_size : Z.
Variable augment_level : list row.

Hypothesis batch_size_positive : (0 < batch_size)%Z.
Hypothesis shrink_factor_nonzero : SHRINK_FACTOR cfg <> 0%Z.
Hypothesis grid_nonnegative : (0 <= IMG_INPUT cfg / SHRINK_FACTOR cfg)%Z.
Hypothesis encoding_length :
  forall i, (i < length (CLASSES cfg))%nat ->
            length (encode_label cfg i) = N_CLASSES cfg.

Local Abbreviation ready :=
  (Forall (encodable (N_CLASSES cfg) (IMG_INPUT cfg / SHRINK_FACTOR cfg)
                     (IMG_INPUT cfg / SHRINK_FACTOR cfg))).

Lemma bind_ok {A B : Type} (m : M W A) (f : A -> M W B) (s s1 : state W) (a : A) :
  m s = (Ok a, s1) -> bind m f s = f a s1.
Proof.
  intros H. unfold bind. rewrite H. reflexivity.
Qed.

Lemma sub_batch_runs (X : list (image W)) (Y : list (list Q)) (z : Z) (s : state W) :
  (0 <= z)%Z -> ((z + 1) * batch_size <= Z.of_nat (length Y))%Z -> ready Y ->
  exists s',
    sub_batch cfg W batch_size false X Y z s = (Ok tt, s')
    /\ length (yielded s') = S (length (yielded s)).
Proof.
  intros Hz Hfit HY. unfold sub_batch.
  assert (Hdiv : py_div (IMG_INPUT cfg) (SHRINK_FACTOR cfg)
                 = Ok (IMG_INPUT cfg / SHRINK_FACTOR cfg)%Z).
  { unfold py_div. apply Z.eqb_neq in shrink_factor_nonzero.
    rewrite shrink_factor_nonzero. reflexivity. }
  rewrite Hdiv. unfold bind at 1. unfold bind at 2 3. unfold lift at 1 2. unfold ret.
  cbv beta iota.
  set (labels := py_slice Y (z * batch_size) (z * batch_size + batch_size)).
  assert (Hlabels : ready labels).
  { apply Forall_forall. intros lab Hin. apply In_py_slice in Hin.
    rewrite Forall_forall in HY. apply HY. exact Hin. }
  assert (Hlen : Z.of_nat (length labels) = batch_size)
    by (apply py_slice_chunk_length; assumption).
  destruct (grid_encode_total (N_ANCHORS cfg) (N_CLASSES cfg)
              (IMG_INPUT cfg / SHRINK_FACTOR cfg) (IMG_INPUT cfg / SHRINK_FACTOR cfg)
              batch_size labels) as [T HT].
  - eapply Forall_impl; [|exact Hlabels]. intros lab [H _]. exact H.
  - lia.
  - exact grid_nonnegative.
  - exact grid_nonnegative.
  - lia.
  - eapply Forall_impl; [|exact Hlabels]. intros lab [_ H]. exact H.
  - unfold bind, lift. rewrite HT. eexists. split; [reflexivity|].
    cbn. rewrite length_app. cbn. lia.
Qed.

Lemma sub_batches_run (X : list (image W)) (Y : list (list Q)) (l : list Z) :
  Forall (fun z => (0 <= z)%Z /\ ((z + 1) * batch_size <= Z.of_nat (length Y))%Z) l ->
  ready Y ->
  forall s,
  exists s',
    for_each l (fun (_ : unit) z => sub_batch cfg W batch_size false X Y z) tt s
    = (Ok tt, s')
    /\ length (yielded s') = (length (yielded s) + length l)%nat.
Proof.
  intros Hl HY. induction Hl as [|z l [Hz Hfit] Hl IH]; intros s.
  - exists s. split; [reflexivity|]. cbn. lia.
  - rewrite for_each_cons.
    destruct (sub_batch_runs X Y z s Hz Hfit HY) as (s1 & Hrun & Hy1).
    rewrite Hrun. destruct (IH s1) as (s' & Hrest & Hy'). exists s'.
    split; [exact Hrest|]. cbn [length]. lia.
Qed.

Lemma shuffle_runs {A B : Type} (a : list A) (b : list B) (s : state W) :
  length a = length b ->
  exists (P : list (A * B)) (s' : state W),
    shuffle W a b s = (Ok (map fst P, map snd P), s')
    /\ (forall p, In p P -> In p (combine a b))
    /\ yielded s' = yielded s
    /\ (permutation_ok W -> length P = length a).
Proof.
  intros Hlen. unfold shuffle. rewrite Hlen, Nat.eqb_refl. unfold bind, draw, ret.
  destruct (permutation W (rand s) (length b)) as [idx g] eqn:Eperm.
  destruct (np_take_combine a b idx Hlen) as [Ha Hb].
  exists (np_take (combine a b) idx). eexists. rewrite Ha, Hb.
  split; [reflexivity|]. split; [intros p; apply In_np_take|].
  split; [reflexivity|].
  intros Hperm. specialize (Hperm (rand s) (length b)). rewrite Eperm in Hperm.
  cbn [fst] in Hperm.
  assert (Hc : length (combine a b) = length b)
    by (rewrite length_combine; lia).
  rewrite <- Hc in Hperm. apply np_take_permutation in Hperm.
  apply Permutation_length in Hperm. lia.
Qed.

Lemma base_sample_ready (e : string * (Box * string)) (p : image W * list Q) :
  entry_ok cfg W e -> isfile W (fst e) = true -> base_sample cfg W e p ->
  encodable (N_CLASSES cfg) (IMG_INPUT cfg / SHRINK_FACTOR cfg)
            (IMG_INPUT cfg / SHRINK_FACTOR cfg) (snd p).
Proof.
  destruct e as [f [bbox label]]. unfold entry_ok, base_sample. cbn [fst].
  intros Hok Hf (index & Hidx & _ & Hlab). destruct (Hok Hf) as (_ & Hcentroid).
  apply np_where_first_bound in Hidx. rewrite Hlab. split.
  - unfold flat_label, box_array. rewrite !length_app. cbn [length].
    rewrite (encoding_length _ Hidx). reflexivity.
  - eexists. eexists. split; [reflexivity|]. split; [reflexivity|]. exact Hcentroid.
Qed.

Lemma build_runs (entries : list (string * (Box * string))) (s : state W) :
  Forall (entry_ok cfg W) entries ->
  exists (new : list (image W * list Q)) (s' : state W),
    for_each entries (process_entry cfg W false augment_level) ([], []) s
    = (Ok (map fst new, map snd new), s')
    /\ ready (map snd new)
    /\ length new = length (present W entries)
    /\ yielded s' = yielded s.
Proof.
  intros Hok.
  destruct (slice_total cfg W augment_level entries) with
    (acc := (([], []) : XY W)) (s := s) as ([X Y] & s' & Hrun).
  { eapply Forall_impl; [|exact Hok]. intros [f [bbox label]] He Hf.
    cbn [fst snd] in *. apply He. exact Hf. }
  destruct (slice_run cfg W false augment_level _ _ _ _ _ Hrun)
    as (new & HX & HY & _ & _ & _ & Hyield & Hoff).
  destruct (Hoff eq_refl) as [Hall _]. cbn [fst snd app] in HX, HY. subst X Y.
  exists new, s'. split; [exact Hrun|].
  split; [|split; [symmetry; eapply Forall2_length; exact Hall|exact Hyield]].
  apply Forall_map. apply Forall_forall. intros p Hp.
  destruct (Forall2_In_r _ _ _ _ Hall Hp) as (e & He & Hbase).
  unfold present in He. apply filter_In in He. destruct He as [He Hf].
  rewrite Forall_forall in Hok. eapply base_sample_ready; eauto.
Qed.

Lemma run_slice_runs (x : list string) (y : list (Box * string)) (i : Z) (s : state W) :
  length x = length y -> Forall (entry_ok cfg W) (combine x y) ->
  exists s',
    run_slice cfg W batch_size false augment_level x y i s = (Ok tt, s')
    /\ (permutation_ok W ->
        length (yielded s')
        = (length (yielded s)
           + Z.to_nat (Z.of_nat (length (present W
                 (py_slice (combine x y) (i * batch_size) (i * batch_size + batch_size))))
               / batch_size))%nat).
Proof.
  intros Hlen Hok. unfold run_slice. rewrite andb_false_r.
  rewrite (bind_ok _ _ s s tt) by reflexivity.
  unfold build_samples. rewrite (combine_py_slice _ _ _ _ Hlen).
  set (entries := py_slice (combine x y) (i * batch_size) (i * batch_size + batch_size)).
  assert (Hentries : Forall (entry_ok cfg W) entries).
  { apply Forall_forall. intros e He. apply In_py_slice in He.
    rewrite Forall_forall in Hok. apply Hok. exact He. }
  destruct (build_runs entries s Hentries) as (new & s1 & Hbuild & Hready & Hnew & Hy1).
  rewrite (bind_ok _ _ _ _ _ Hbuild). cbn [fst snd].
  destruct (shuffle_runs (map fst new) (map snd new) s1) as (P & s2 & Hsh & HP & Hy2 & HPlen);
    [rewrite !length_map; reflexivity|].
  rewrite (bind_ok _ _ _ _ _ Hsh).
  assert (Hdiv : py_div (Z.of_nat (length (map fst P))) batch_size
                 = Ok (Z.of_nat (length (map fst P)) / batch_size)%Z).
  { unfold py_div. replace (batch_size =? 0)%Z with false; [reflexivity|].
    symmetry. apply Z.eqb_neq. lia. }
  rewrite Hdiv. rewrite (bind_ok _ _ s2 s2 _) by reflexivity.
  destruct (sub_batches_run (map fst P) (map snd P)
              (py_range (Z.of_nat (length (map fst P)) / batch_size))) with (s := s2)
    as (s' & Hrun & Hy').
  - apply Forall_forall. intros z Hz. apply py_range_bounds in Hz.
    rewrite !length_map in *.
    pose proof (Z.mul_div_le (Z.of_nat (length P)) batch_size batch_size_positive).
    split; [lia|nia].
  - apply Forall_map. apply Forall_forall. intros p Hp. apply HP in Hp.
    rewrite combine_fst_snd in Hp. rewrite Forall_forall in Hready.
    apply Hready. apply in_map. exact Hp.
  - exists s'. split; [exact Hrun|]. intros Hperm.
    rewrite Hy', Hy2, Hy1. f_equal. unfold py_range.
    rewrite length_map, length_seq, !length_map, (HPlen Hperm), length_map, Hnew.
    reflexivity.
Qed.

Lemma slices_run (x : list string) (y : list (Box * string)) (l : list Z) :
  length x = length y -> Forall (entry_ok cfg W) (combine x y) ->
  forall s,
  exists s',
    for_each l (fun (_ : unit) i => run_slice cfg W batch_size false augment_level x y i)
             tt s
    = (Ok tt, s')
    /\ (permutation_ok W ->
        (forall f, In f x -> isfile W f = true) ->
        Forall (fun i => (0 <= i)%Z /\ ((i + 1) * batch_size <= Z.of_nat (length x))%Z) l ->
        length (yielded s') = (length (yielded s) + length l)%nat).
Proof.
  intros Hlen Hok. induction l as [|i l IH]; intros s.
  - exists s. split; [reflexivity|]. intros _ _ _. cbn. lia.
  - rewrite for_each_cons.
    destruct (run_slice_runs x y i s Hlen Hok) as (s1 & Hrun & Hy1). rewrite Hrun.
    destruct (IH s1) as (s' & Hrest & Hy'). exists s'. split; [exact Hrest|].
    intros Hperm Hfiles Hl. inversion Hl as [|? ? [Hi Hfit] Hl']. subst.
    rewrite (Hy' Hperm Hfiles Hl'), (Hy1 Hperm). cbn [length].
    set (entries := py_slice (combine x y) (i * batch_size) (i * batch_size + batch_size)).
    assert (Hall : present W entries = entries).
    { unfold present. apply forallb_filter_id. apply forallb_forall.
      intros [f lab] He. apply In_py_slice in He. apply in_combine_l in He.
      cbn [fst]. apply Hfiles. exact He. }
    assert (Hsize : Z.of_nat (length entries) = batch_size).
    { apply py_slice_chunk_length; [assumption|assumption|].
      rewrite length_combine. lia. }
    rewrite Hall, Hsize, Z.div_same by lia. simpl. lia.
Qed.

Lemma epoch_runs (slices : Z) (x : list string) (y : list (Box * string)) (s : state W) :
  length x = length y -> Forall (entry_ok cfg W) (combine x y) ->
  exists x' y' s',
    epoch cfg W batch_size false augment_level slices (x, y) s = (Ok (x', y'), s')
    /\ length x' = length y' /\ Forall (entry_ok cfg W) (combine x' y')
    /\ (permutation_ok W ->
        (forall f, In f x -> isfile W f = true) ->
        slices = (Z.of_nat (length x) / batch_size)%Z ->
        length x' = length x /\ (forall f, In f x' -> isfile W f = true)
        /\ length (yielded s') = (length (yielded s) + Z.to_nat slices)%nat).
Proof.
  intros Hlen Hok. unfold epoch. cbn [fst snd].
  destruct (shuffle_runs x y s Hlen) as (P & s1 & Hsh & HP & Hy1 & HPlen).
  rewrite (bind_ok _ _ _ _ _ Hsh). cbn [fst snd].
  assert (Hlen' : length (map fst P) = length (map snd P))
    by (rewrite !length_map; reflexivity).
  assert (Hok' : Forall (entry_ok cfg W) (combine (map fst P) (map snd P))).
  { rewrite combine_fst_snd. apply Forall_forall. intros p Hp.
    rewrite Forall_forall in Hok. apply Hok. apply HP. exact Hp. }
  destruct (slices_run (map fst P) (map snd P) (py_range slices) Hlen' Hok' s1)
    as (s' & Hrun & Hy').
  rewrite (bind_ok _ _ _ _ _ Hrun). exists (map fst P), (map snd P), s'.
  split; [reflexivity|]. split; [exact Hlen'|]. split; [exact Hok'|].
  intros Hperm Hfiles Hslices.
  assert (Hfiles' : forall f, In f (map fst P) -> isfile W f = true).
  { intros f Hf. apply in_map_iff in Hf. destruct Hf as ([f' lab] & <- & Hp).
    apply HP in Hp. apply in_combine_l in Hp. apply Hfiles. exact Hp. }
  rewrite length_map, (HPlen Hperm).
  split; [reflexivity|]. split; [exact Hfiles'|].
  rewrite Hy', Hy1; [|exact Hperm|exact Hfiles'|].
  - unfold py_range. rewrite length_map, length_seq. reflexivity.
  - apply Forall_forall. intros i Hi. apply py_range_bounds in Hi.
    rewrite length_map, (HPlen Hperm). subst slices.
    pose proof (Z.mul_div_le (Z.of_nat (length x)) batch_size batch_size_positive).
    split; [lia|nia].
Qed.

Lemma epochs_run (n : nat) (slices : Z) :
  forall (x : list string) (y : list (Box * string)) (s : state W),
    length x = length y -> Forall (entry_ok cfg W) (combine x y) ->
    exists s',
      epochs cfg W batch_size false augment_level n slices (x, y) s = (Ok tt, s')
      /\ (permutation_ok W ->
          (forall f, In f x -> isfile W f = true) ->
          slices = (Z.of_nat (length x) / batch_size)%Z ->
          length (yielded s') = (length (yielded s) + n * Z.to_nat slices)%nat).
Proof.
  induction n as [|n IH]; intros x y s Hlen Hok.
  - exists s. split; [reflexivity|]. intros _ _ _. cbn. lia.
  - cbn [epochs].
    destruct (epoch_runs slices x y s Hlen Hok)
      as (x' & y' & s1 & Hrun & Hlen' & Hok' & Hcount).
    rewrite (bind_ok _ _ _ _ _ Hrun).
    destruct (IH x' y' s1 Hlen' Hok') as (s' & Hrest & Hcount').
    exists s'. split; [exact Hrest|].
    intros Hperm Hfiles Hslices.
    destruct (Hcount Hperm Hfiles Hslices) as (Hsame & Hfiles' & Hy1).
    rewrite Hcount'; [|exact Hperm|exact Hfiles'|rewrite Hsame; exact Hslices].
    rewrite Hy1. cbn [Nat.mul]. lia.
Qed.

End Runs.


(** With no slice to process, the passes yield nothing. *)
Lemma silent_epochs_empty (cfg : Cfg) (W : World) (batch_size : Z) (augment_data : bool)
  (augment_level : list row) (slices : Z) (n : nat) :
  (slices <= 0)%Z ->
  forall xy, silent W (epochs cfg W batch_size augment_data augment_level n slices xy).
Proof.
  intros Hslices. induction n as [|n IH]; intros xy; simpl.
  - apply silent_ret.
  - apply silent_bind; [|intros xy'; apply IH].
    unfold epoch. rewrite (py_range_nonpos _ Hslices).
    apply silent_bind; [apply silent_shuffle|]. intros xy'.
    apply silent_bind; [apply silent_ret|]. intros _. apply silent_ret.
Qed.

Lemma forallb_map {A B : Type} (f : B -> bool) (g : A -> B) (l : list A) :
  forallb f (map g l) = forallb (fun a => f (g a)) l.
Proof.
  induction l as [|a l IH]; [reflexivity|]. simpl. rewrite IH. reflexivity.
Qed.

Lemma map_fst_combine {A B : Type} (l : list A) :
  forall l' : list B, length l = length l' -> map fst (combine l l') = l.
Proof.
  induction l as [|a l IH]; intros [|b l'] Hlen; try discriminate; [reflexivity|].
  simpl. rewrite IH; [reflexivity|]. simpl in Hlen. lia.
Qed.

(** ** Images and labels stay paired *)

Section Alignment.

Variable cfg : Cfg.
Variable W : World.
Variable batch_size : Z.
Variable augment_level : list row.
Variable D : list (string * (Box * string)).

Local Abbreviation aligned :=
  (fun s : state W => Forall (aligned_batch cfg W batch_size D) (yielded s)).

Lemma silent_aligned {A : Type} (m : M W A) : silent W m -> preserves W aligned m.
Proof.
  intros Hm s Hs. cbv beta. rewrite Hm. exact Hs.
Qed.

Lemma py_slice_same_length {A B : Type} (l : list A) (l' : list B) (a b : Z) :
  length l = length l' -> length (py_slice l a b) = length (py_slice l' a b).
Proof.
  intros Hlen. unfold py_slice. rewrite !length_firstn, !length_skipn, Hlen. reflexivity.
Qed.

Lemma map_snd_combine {A B : Type} (l : list A) :
  forall l' : list B, length l = length l' -> map snd (combine l l') = l'.
Proof.
  induction l as [|a l IH]; intros [|b l'] Hlen; try discriminate; [reflexivity|].
  simpl. rewrite IH; [reflexivity|]. simpl in Hlen. lia.
Qed.

Lemma shuffle_inv {A B : Type} (a a' : list A) (b b' : list B) (s s' : state W) :
  shuffle W a b s = (Ok (a', b'), s') ->
  length a' = length b' /\ forall p, In p (combine a' b') -> In p (combine a b).
Proof.
  intros Hrun.
  assert (Hlen : length a = length b).
  { unfold shuffle in Hrun. destruct (Nat.eqb (length a) (length b)) eqn:E;
      [apply Nat.eqb_eq; exact E|discriminate]. }
  destruct (shuffle_runs W a b s Hlen) as (P & s1 & Hsh & HP & _).
  rewrite Hsh in Hrun. inversion Hrun. subst a' b'.
  split; [rewrite !length_map; reflexivity|].
  rewrite combine_fst_snd. exact HP.
Qed.

Lemma aligned_sub_batch (X : list (image W)) (Y : list (list Q)) (z : Z) :
  length X = length Y -> Forall (sample_of cfg W D) (combine X Y) ->
  preserves W aligned (sub_batch cfg W batch_size false X Y z).
Proof.
  intros Hlen Hsamples s Hs. unfold sub_batch, bind, lift, py_div.
  destruct (SHRINK_FACTOR cfg =? 0)%Z; [exact Hs|]. unfold ret.
  destruct (grid_encode _ _ _ _ _ _) as [T|] eqn:ET; [|exact Hs].
  cbn. apply Forall_app. split; [exact Hs|]. constructor; [|constructor].
  pose proof (py_slice_same_length X Y (z * batch_size) (z * batch_size + batch_size) Hlen)
    as Hsame.
  exists (combine (py_slice X (z * batch_size) (z * batch_size + batch_size))
                  (py_slice Y (z * batch_size) (z * batch_size + batch_size))), T.
  cbn [fst snd]. rewrite (map_fst_combine _ _ Hsame), (map_snd_combine _ _ Hsame).
  split; [|split; [reflexivity|split; [exact ET|reflexivity]]].
  rewrite (combine_py_slice _ _ _ _ Hlen). apply Forall_forall. intros p Hp.
  apply In_py_slice in Hp. rewrite Forall_forall in Hsamples. apply Hsamples. exact Hp.
Qed.

Lemma aligned_run_slice (x : list string) (y : list (Box * string)) (i : Z) :
  length x = length y -> (forall e, In e (combine x y) -> In e D) ->
  preserves W aligned (run_slice cfg W batch_size false augment_level x y i).
Proof.
  intros Hlen Hsub. unfold run_slice. rewrite andb_false_r.
  apply preserves_bind; [apply preserves_ret|]. intros _ _ _ _.
  apply preserves_bind; [apply silent_aligned, silent_build_samples|].
  intros [X0 Y0] s0 s0' Hbuild. cbn [fst snd].
  unfold build_samples in Hbuild. rewrite (combine_py_slice _ _ _ _ Hlen) in Hbuild.
  destruct (slice_run cfg W false augment_level _ _ _ _ _ Hbuild)
    as (new & HX & HY & _ & _ & _ & _ & Hoff).
  destruct (Hoff eq_refl) as [Hall _]. cbn [fst snd app] in HX, HY. subst X0 Y0.
  assert (Hnew : Forall (sample_of cfg W D) new).
  { apply Forall_forall. intros p Hp.
    destruct (Forall2_In_r _ _ _ _ Hall Hp) as (e & He & Hbase).
    unfold present in He. apply filter_In in He. destruct He as [He Hf].
    apply In_py_slice in He. exists e. auto. }
  apply preserves_bind; [apply silent_aligned, silent_shuffle|].
  intros [X Y] s1 s1' Hsh. apply shuffle_inv in Hsh. destruct Hsh as [Hlen' Hsub'].
  rewrite combine_fst_snd in Hsub'. cbn [fst snd] in *.
  apply preserves_bind; [apply preserves_lift|]. intros n _ _ _.
  apply preserves_for_each. intros [] z _.
  apply aligned_sub_batch; [exact Hlen'|].
  apply Forall_forall. intros p Hp. rewrite Forall_forall in Hnew. apply Hnew, Hsub', Hp.
Qed.

Lemma aligned_epochs (n : nat) (slices : Z) :
  forall (x : list string) (y : list (Box * string)),
    (forall e, In e (combine x y) -> In e D) ->
    preserves W aligned (epochs cfg W batch_size false augment_level n slices (x, y)).
Proof.
  induction n as [|n IH]; intros x y Hsub; simpl; [apply preserves_ret|].
  apply preserves_bind.
  - unfold epoch. apply preserves_bind; [apply silent_aligned, silent_shuffle|].
    intros [x' y'] s s' Hsh. cbn [fst snd] in Hsh. apply shuffle_inv in Hsh.
    destruct Hsh as [Hlen' Hsub']. cbn [fst snd].
    apply preserves_bind; [|intros _ _ _ _; apply preserves_ret].
    apply preserves_for_each. intros [] i _.
    apply aligned_run_slice; [exact Hlen'|]. intros e He. apply Hsub, Hsub', He.
  - intros [x' y'] s s' Hepoch. apply IH.
    unfold epoch, bind in Hepoch. cbn [fst snd] in Hepoch.
    destruct (shuffle W x y s) as [[[x1 y1]|e] s1] eqn:Hsh; [|discriminate].
    apply shuffle_inv in Hsh. destruct Hsh as [_ Hsub']. cbn [fst snd] in Hepoch.
    destruct (for_each _ _ _ _) as [[u|e] s2]; [|discriminate].
    unfold ret in Hepoch. inversion Hepoch. subst x' y'.
    intros e He. apply Hsub, Hsub', He.
Qed.

End Alignment.


(** ** Samples and grids at one scale *)

Section Scaled.

Variable cfg : Cfg.
Variable W : World.
Variable batch_size : Z.
Variable augment_level : list row.
Variable D : list (string * (Box * string)).

Local Abbreviation side ms :=
  (match scaled_size (IMG_INPUT cfg) ms with Ok n => n | Raise _ => 0%Z end).

Local Abbreviation at_scale :=
  (fun s : state W =>
     (forall ms, multi_scale s = Some ms -> In ms (MULTI_SCALE cfg))
     /\ Forall (scaled_batch cfg W batch_size D) (yielded s)).

Local Abbreviation framed c w h y :=
  (fun s : state W =>
     multi_scale s = c /\ new_width s = w /\ new_height s = h /\ yielded s = y).

Lemma framed_print (c : option Q) (w h : option Z) (y : list (batch W)) (msg : string) :
  preserves W (framed c w h y) (print msg).
Proof.
  intros s Hs. exact Hs.
Qed.

Lemma framed_draw {A : Type} (c : option Q) (w h : option Z) (y : list (batch W))
  (f : rng W -> A * rng W) :
  preserves W (framed c w h y) (draw f).
Proof.
  intros s Hs. unfold draw. destruct (f (rand s)). exact Hs.
Qed.

Lemma framed_shuffle {A B : Type} (c : option Q) (w h : option Z) (y : list (batch W))
  (a : list A) (b : list B) :
  preserves W (framed c w h y) (shuffle W a b).
Proof.
  unfold shuffle. destruct (Nat.eqb (length a) (length b)); [|apply preserves_raise].
  apply preserves_bind; [apply framed_draw|]. intros idx _ _ _. apply preserves_ret.
Qed.

(** Building the samples of a slice leaves [multi_scale] and the yielded
    batches as they are. *)
Lemma build_samples_frame (augment_data : bool) (f_name : list string)
  (labels : list (Box * string)) (s : state W) :
  let s' := snd (build_samples cfg W augment_data augment_level f_name labels s) in
  multi_scale s' = multi_scale s /\ yielded s' = yielded s.
Proof.
  cbv zeta. split; [|apply silent_build_samples].
  assert (H : preserves W (fun s' => multi_scale s' = multi_scale s)
                (build_samples cfg W augment_data augment_level f_name labels)).
  { unfold build_samples. apply preserves_for_each. intros acc [f [bbox label]] _.
    unfold process_entry. destruct (negb (isfile W f)).
    - apply preserves_bind; [intros s0 H0; exact H0|]. intros _ _ _ _. apply preserves_ret.
    - destruct (shape W (cvtColor W (imread W f))) as [height width].
      apply preserves_bind.
      { destruct augment_data; [|apply preserves_ret].
        apply preserves_bind; [apply preserves_read_var|]. intros ms _ _ _.
        apply preserves_bind; [apply preserves_lift|]. intros nh _ _ _.
        apply preserves_bind; [apply preserves_lift|]. intros nw _ _ _.
        apply preserves_bind; [intros s0 H0; exact H0|]. intros _ _ _ _.
        apply preserves_ret. }
      intros img _ _ _.
      apply preserves_bind; [apply preserves_lift|]. intros index _ _ _.
      destruct augment_data; [|apply preserves_ret].
      apply preserves_bind; [apply preserves_lift|]. intros aug_level _ _ _.
      apply preserves_for_each. intros acc' l _. unfold augment_once.
      apply preserves_bind.
      { intros s0 H0. unfold call_random_transform.
        destruct (random_transform W (rand s0) _ _). exact H0. }
      intros [aug_img aug_box] _ _ _.
      destruct (out_of_bound width height aug_box); apply preserves_ret. }
  apply H. reflexivity.
Qed.

Lemma augment_loop_samples (Pp : image W * list Q -> Prop) (img : image W) (bbox : Box)
  (width height : Z) (one_hot : list Q) (l : list Z) :
  (forall g : rng W,
     let res := fst (random_transform W g img (to_opencv_format bbox)) in
     out_of_bound width height (snd res) = false ->
     Pp (preprocess_img W (fst res),
         flat_label (to_relative_size (convert_opencv_to_box (snd res))
                                      (py_float width, py_float height)) one_hot)) ->
  forall (xy : XY W) (s : state W),
    length (fst xy) = length (snd xy) ->
    Forall Pp (combine (fst xy) (snd xy)) ->
    exists xy',
      fst (for_each l (augment_once W img bbox width height one_hot) xy s) = Ok xy'
      /\ length (fst xy') = length (snd xy')
      /\ Forall Pp (combine (fst xy') (snd xy')).
Proof.
  intros Hvariant. induction l as [|z l IH]; intros xy s Hlen Hall.
  - exists xy. auto.
  - rewrite for_each_cons, augment_once_run. cbv beta iota zeta.
    destruct (out_of_bound width height
                (snd (fst (random_transform W (rand s) img (to_opencv_format bbox)))))
      eqn:Eb.
    + apply IH; assumption.
    + apply IH.
      * unfold append. cbn [fst snd]. rewrite !length_app. cbn [length]. lia.
      * unfold append. cbn [fst snd]. rewrite (combine_app _ _ _ _ Hlen).
        apply Forall_app. split; [exact Hall|]. constructor; [|constructor].
        apply (Hvariant (rand s)). exact Eb.
Qed.

Local Abbreviation built :=
  (fun (ms : Q) (xy : XY W) (s : state W) =>
     multi_scale s = Some ms
     /\ length (fst xy) = length (snd xy)
     /\ Forall (scaled_sample cfg W D (side ms)) (combine (fst xy) (snd xy))
     /\ (fst xy <> [] ->
         scaled_size (IMG_INPUT cfg) ms = Ok (side ms)
         /\ new_width s = Some (side ms) /\ new_height s = Some (side ms))).

Lemma scaled_process_entry (ms : Q) (xy xy' : XY W) (e : string * (Box * string))
  (s s' : state W) :
  In e D -> built ms xy s ->
  process_entry cfg W true augment_level xy e s = (Ok xy', s') ->
  built ms xy' s'.
Proof.
  destruct e as [f [bbox label]]. intros HD (Hms & Hlen & Hall & Hsize) Hrun.
  destruct (isfile W f) eqn:Hf.
  - unfold process_entry in Hrun. rewrite Hf in Hrun. cbn [negb] in Hrun.
    destruct (shape W (cvtColor W (imread W f))) as [height width] eqn:Eshape.
    unfold bind, lift, read_var in Hrun. rewrite Hms in Hrun.
    destruct (scaled_size (IMG_INPUT cfg) ms) as [n|] eqn:En; [|discriminate].
    unfold set_new_size, ret in Hrun. cbn beta iota in Hrun.
    destruct (np_where_first (CLASSES cfg) label) as [index|] eqn:Eidx; [|discriminate].
    destruct (loc_scaling_factor augment_level label) as [aug_level|] eqn:Elvl;
      [|discriminate].
    assert (Hentry : forall p,
              (let img0 := cvtColor W (imread W f) in
               let height := fst (shape W img0) in
               let width := snd (shape W img0) in
               let img := resize W (resize W img0 (IMG_INPUT cfg, IMG_INPUT cfg))
                                 (n, n) in
               let relative := fun b : Box =>
                 flat_label (to_relative_size b (py_float width, py_float height))
                            (encode_label cfg index) in
               p = (preprocess_img W img, relative bbox)
               \/ exists g : rng W,
                    let res := fst (random_transform W g img (to_opencv_format bbox)) in
                    out_of_bound width height (snd res) = false
                    /\ p = (preprocess_img W (fst res),
                            relative (convert_opencv_to_box (snd res)))) ->
              scaled_sample cfg W D n p).
    { intros p Hp. exists f, bbox, label, index. auto. }
    cbv zeta in Hentry. rewrite Eshape in Hentry. cbn [fst snd] in Hentry.
    match type of Hrun with
    | for_each ?l (augment_once _ ?img _ _ _ ?oh) ?acc ?st = _ =>
        destruct (augment_loop_samples (scaled_sample cfg W D n)
                    img bbox width height oh l) with (xy := acc) (s := st)
          as (xy1 & Hloop & Hlen1 & Hall1);
        [ | | | pose proof (augment_loop_frame W img bbox width height oh l acc st)
                  as Hframe ]
    end.
    + intros g res Hb. apply Hentry. right. exists g. split; [exact Hb|reflexivity].
    + unfold append. cbn [fst snd]. rewrite !length_app. cbn [length]. lia.
    + unfold append. cbn [fst snd]. rewrite (combine_app _ _ _ _ Hlen).
      apply Forall_app. split; [exact Hall|]. constructor; [|constructor].
      apply Hentry. left. reflexivity.
    + cbv zeta in Hframe. rewrite Hrun in Hloop, Hframe. cbn [fst snd] in Hloop, Hframe.
      apply Ok_inj in Hloop. subst xy1.
      cbn [multi_scale new_height new_width] in Hframe.
      destruct Hframe as (Hms' & Hnh & Hnw & _).
      split; [rewrite Hms'; exact Hms|]. split; [exact Hlen1|]. split; [exact Hall1|].
      intros _. rewrite Hnw, Hnh. split; [reflexivity|]. split; reflexivity.
  - rewrite (process_entry_missing cfg W true augment_level xy f (bbox, label) s Hf)
      in Hrun.
    inversion Hrun. subst xy' s'. cbn [multi_scale new_width new_height].
    auto.
Qed.

Lemma scaled_slice_run (ms : Q) (entries : list (string * (Box * string))) :
  (forall e, In e entries -> In e D) ->
  forall (acc xy' : XY W) (s s' : state W),
    built ms acc s ->
    for_each entries (process_entry cfg W true augment_level) acc s = (Ok xy', s') ->
    built ms xy' s'.
Proof.
  induction entries as [|e entries IH]; intros Hsub acc xy' s s' Hacc Hrun.
  - cbn in Hrun. inversion Hrun. subst xy' s'. exact Hacc.
  - rewrite for_each_cons in Hrun.
    destruct (process_entry cfg W true augment_level acc e s) as [[acc1|ex] s1] eqn:E1;
      [|discriminate].
    eapply IH; [intros e' He'; apply Hsub; right; exact He'| |exact Hrun].
    eapply scaled_process_entry; [apply Hsub; left; reflexivity|exact Hacc|exact E1].
Qed.

(** While [multi_scale] is unbound only entries whose file is missing are
    passed without an exception: no sample is built. *)
Lemma unscaled_slice_run (entries : list (string * (Box * string))) :
  forall (acc xy' : XY W) (s s' : state W),
    multi_scale s = None ->
    for_each entries (process_entry cfg W true augment_level) acc s = (Ok xy', s') ->
    xy' = acc.
Proof.
  induction entries as [|[f [bbox label]] entries IH]; intros acc xy' s s' Hms Hrun.
  - cbn in Hrun. inversion Hrun. reflexivity.
  - rewrite for_each_cons in Hrun. destruct (isfile W f) eqn:Hf.
    + exfalso. unfold process_entry in Hrun. rewrite Hf in Hrun. cbn [negb] in Hrun.
      destruct (shape W (cvtColor W (imread W f))) as [height width].
      unfold bind at 1 2 in Hrun. unfold read_var in Hrun. rewrite Hms in Hrun.
      discriminate.
    + rewrite (process_entry_missing cfg W true augment_level acc f (bbox, label) s Hf)
        in Hrun.
      eapply IH; [|exact Hrun]. exact Hms.
Qed.

Lemma scaled_sub_batch (ms : Q) (n : Z) (X : list (image W)) (Y : list (list Q)) (z : Z) :
  In ms (MULTI_SCALE cfg) -> scaled_size (IMG_INPUT cfg) ms = Ok n ->
  length X = length Y ->
  Forall (scaled_sample cfg W D n) (combine X Y) ->
  preserves W (fun s => at_scale s /\ new_width s = Some n /\ new_height s = Some n)
            (sub_batch cfg W batch_size true X Y z).
Proof.
  intros Hms Hn Hlen Hsamples s Hs. pose proof Hs as ((Hscale & Hy) & Hw & Hh).
  unfold sub_batch, bind, read_var, lift. rewrite Hw.
  unfold py_div. destruct (SHRINK_FACTOR cfg =? 0)%Z; [exact Hs|]. rewrite Hh.
  unfold ret.
  destruct (grid_encode _ _ _ _ _ _) as [T|] eqn:ET; [|exact Hs].
  cbn. refine (conj (conj Hscale _) (conj Hw Hh)).
  apply Forall_app. split; [exact Hy|]. constructor; [|constructor].
  pose proof (py_slice_same_length X Y (z * batch_size) (z * batch_size + batch_size) Hlen)
    as Hsame.
  exists ms, n,
    (combine (py_slice X (z * batch_size) (z * batch_size + batch_size))
             (py_slice Y (z * batch_size) (z * batch_size + batch_size))), T.
  cbn [fst snd]. rewrite (map_fst_combine _ _ Hsame), (map_snd_combine _ _ Hsame).
  split; [exact Hms|]. split; [exact Hn|].
  split; [|split; [reflexivity|split; [exact ET|reflexivity]]].
  rewrite (combine_py_slice _ _ _ _ Hlen). apply Forall_forall. intros p Hp.
  apply In_py_slice in Hp. rewrite Forall_forall in Hsamples. apply Hsamples. exact Hp.
Qed.

Lemma scaled_run_slice (x : list string) (y : list (Box * string)) (i : Z) :
  length x = length y -> (forall e, In e (combine x y) -> In e D) ->
  preserves W at_scale (run_slice cfg W batch_size true augment_level x y i).
Proof.
  intros Hlen Hsub. unfold run_slice.
  apply preserves_bind.
  { destruct ((i mod 10 =? 0)%Z && true); [|apply preserves_ret].
    apply preserves_bind; [intros s Hs; unfold draw; destruct (random_integers _ _ _ _);
                           exact Hs|].
    intros randint _ _ _.
    apply preserves_bind; [apply preserves_lift|]. intros ms s0 s0' Hget.
    unfold lift in Hget. inversion Hget as [[Hms Hs0]]. apply py_get_In in Hms.
    intros s [Hscale Hy]. cbn. split; [|exact Hy].
    intros ms' E. inversion E. subst ms'. exact Hms. }
  intros _ _ _ _ s Hs. pose proof Hs as [Hscale Hy].
  set (f_name := py_slice x (i * batch_size) (i * batch_size + batch_size)).
  set (labels := py_slice y (i * batch_size) (i * batch_size + batch_size)).
  unfold bind, lift.
  pose proof (build_samples_frame true f_name labels s) as Hframe. cbv zeta in Hframe.
  destruct (build_samples cfg W true augment_level f_name labels s)
    as [[[X0 Y0]|e] s1] eqn:Hbuild; cbn [snd] in Hframe; destruct Hframe as [Hms1 Hy1].
  2:{ cbv beta iota. cbn [snd]. rewrite Hms1, Hy1. exact Hs. }
  cbn [fst snd].
  pose proof (framed_shuffle (multi_scale s1) (new_width s1) (new_height s1) (yielded s1)
                X0 Y0 s1 (conj eq_refl (conj eq_refl (conj eq_refl eq_refl)))) as Hframe2.
  destruct (shuffle W X0 Y0 s1) as [[[X Y]|e] s2] eqn:Hsh; cbn [snd] in Hframe2;
    destruct Hframe2 as (Hms2 & Hw2 & Hh2 & Hy2).
  2:{ cbv beta iota. cbn [snd]. rewrite Hms2, Hy2, Hms1, Hy1. exact Hs. }
  assert (Hs2 : at_scale s2) by (cbv beta; rewrite Hms2, Hy2, Hms1, Hy1; exact Hs).
  apply shuffle_inv in Hsh. destruct Hsh as [HlenXY HsubXY].
  destruct (py_div (Z.of_nat (length X)) batch_size) as [n|e] eqn:Ediv; [|exact Hs2].
  destruct X as [|x0 X].
  { unfold py_div in Ediv. destruct (batch_size =? 0)%Z; [discriminate|].
    apply Ok_inj in Ediv. subst n. cbn. exact Hs2. }
  assert (HX0 : X0 <> []).
  { intros ->. destruct Y as [|y0 Y]; [discriminate|].
    apply (HsubXY (x0, y0)). left. reflexivity. }
  unfold build_samples in Hbuild.
  destruct (multi_scale s) as [ms|] eqn:Ems.
  2:{ exfalso. apply unscaled_slice_run in Hbuild; [|exact Ems].
      inversion Hbuild. contradiction. }
  assert (Hin : In ms (MULTI_SCALE cfg)) by (apply Hscale; reflexivity).
  apply (scaled_slice_run ms) in Hbuild.
  - destruct Hbuild as (_ & _ & Hall0 & Hsize0). cbn [fst snd] in Hall0, Hsize0.
    destruct (Hsize0 HX0) as (Hside & Hw1 & Hh1).
    assert (Hloop : preserves W
              (fun s => at_scale s /\ new_width s = Some (side ms)
                        /\ new_height s = Some (side ms))
              (for_each (py_range n)
                 (fun (_ : unit) z => sub_batch cfg W batch_size true (x0 :: X) Y z) tt)).
    { apply preserves_for_each. intros [] z _.
      apply (scaled_sub_batch ms); [exact Hin|exact Hside|exact HlenXY|].
      apply Forall_forall. intros p Hp. rewrite Forall_forall in Hall0.
      apply Hall0, HsubXY, Hp. }
    apply Hloop. split; [exact Hs2|]. rewrite Hw2, Hh2. auto.
  - unfold f_name, labels. rewrite (combine_py_slice _ _ _ _ Hlen).
    intros e He. apply In_py_slice in He. apply Hsub. exact He.
  - cbn [fst snd]. split; [exact Ems|]. split; [reflexivity|].
    split; [constructor|]. intros H. exfalso. apply H. reflexivity.
Qed.

Lemma scaled_epochs (n : nat) (slices : Z) :
  forall (x : list string) (y : list (Box * string)),
    (forall e, In e (combine x y) -> In e D) ->
    preserves W at_scale (epochs cfg W batch_size true augment_level n slices (x, y)).
Proof.
  induction n as [|n IH]; intros x y Hsub; simpl; [apply preserves_ret|].
  apply preserves_bind.
  - unfold epoch.
    apply preserves_bind.
    { intros s Hs.
      pose proof (framed_shuffle (multi_scale s) (new_width s) (new_height s) (yielded s)
                    x y s (conj eq_refl (conj eq_refl (conj eq_refl eq_refl)))) as Hframe.
      cbn [fst snd]. destruct Hframe as (Hms & _ & _ & Hy). cbv beta.
      rewrite Hms, Hy. exact Hs. }
    intros [x' y'] s s' Hsh. cbn [fst snd] in Hsh. apply shuffle_inv in Hsh.
    destruct Hsh as [Hlen' Hsub']. cbn [fst snd].
    apply preserves_bind; [|intros _ _ _ _; apply preserves_ret].
    apply preserves_for_each. intros [] i _.
    apply scaled_run_slice; [exact Hlen'|]. intros e He. apply Hsub, Hsub', He.
  - intros [x' y'] s s' Hepoch. apply IH.
    unfold epoch, bind in Hepoch. cbn [fst snd] in Hepoch.
    destruct (shuffle W x y s) as [[[x1 y1]|e] s1] eqn:Hsh; [|discriminate].
    apply shuffle_inv in Hsh. destruct Hsh as [_ Hsub']. cbn [fst snd] in Hepoch.
    destruct (for_each _ _ _ _) as [[u|e] s2]; [|discriminate].
    unfold ret in Hepoch. inversion Hepoch. subst x' y'.
    intros e He. apply Hsub, Hsub', He.
Qed.

End Scaled.

(** ** The schedule of the scale *)

Lemma rest_of_slice_keeps_scale (cfg : Cfg) (W : World) (batch_size : Z)
  (augment_data : bool) (augment_level : list row)
  (f_name : list string) (labels : list (Box * string)) (c : option Q) :
  preserves W (fun s => multi_scale s = c)
    (xy <- build_samples cfg W augment_data augment_level f_name labels ;;
     xy' <- shuffle W (fst xy) (snd xy) ;;
     let (X, Y) := xy' : list (image W) * list (list Q) in
     n <- lift (py_div (Z.of_nat (length X)) batch_size) ;;
     for_each (py_range n)
              (fun (_ : unit) z => sub_batch cfg W batch_size augment_data X Y z) tt)%gen.
Proof.
  apply preserves_bind.
  { intros s Hs.
    rewrite (proj1 (build_samples_frame cfg W augment_level augment_data f_name labels s)).
    exact Hs. }
  intros xy _ _ _. apply preserves_bind.
  { intros s Hs.
    destruct (framed_shuffle W (multi_scale s) (new_width s) (new_height s) (yielded s)
                (fst xy) (snd xy) s (conj eq_refl (conj eq_refl (conj eq_refl eq_refl))))
      as (Hms & _). rewrite Hms. exact Hs. }
  intros [X Y] _ _ _.
  apply preserves_bind; [apply preserves_lift|]. intros n _ _ _.
  apply preserves_for_each. intros [] z _. unfold sub_batch.
  apply preserves_bind.
  { destruct augment_data.
    - apply preserves_bind; [apply preserves_read_var|]. intros nw _ _ _.
      apply preserves_bind; [apply preserves_lift|]. intros gw _ _ _.
      apply preserves_bind; [apply preserves_read_var|]. intros nh _ _ _.
      apply preserves_bind; [apply preserves_lift|]. intros gh _ _ _. apply preserves_ret.
    - apply preserves_bind; [apply preserves_lift|]. intros gw _ _ _.
      apply preserves_bind; [apply preserves_lift|]. intros gh _ _ _. apply preserves_ret. }
  intros [grid_w grid_h] _ _ _.
  apply preserves_bind; [apply preserves_lift|]. intros y_batch _ _ _.
  intros s Hs. exact Hs.
Qed.

Ltac sample_entry :=
  cbn; intros Hfile;
  first [ discriminate Hfile
        | split;
          [ cbn; auto
          | apply centroid_ok_bounded;
            first [ apply Qle_bool_imp_le; vm_compute; reflexivity
                  | vm_compute; intros Hbound; discriminate Hbound ] ] ].

Ltac sample_entries := repeat (apply Forall_cons; [sample_entry|]); apply Forall_nil.

Lemma world0_permutation_ok : permutation_ok Sample.world0.
Proof.
  intros g n. cbn. symmetry. apply Permutation_rev.
Qed.

(** C7. Every pair the generator yields holds exactly [batch_size] images
    and [batch_size] label grids, whatever the dataset, the batch size and
    the number of passes, and whether the run ends or raises. When
    [batch_size] exceeds the size of the dataset the number of slices is 0
    and nothing is yielded. A slice that completes has built its entries
    into samples, shuffled them into [X] and [Y], and yielded
    floor(len(X) / batch_size) batches, the consecutive chunks of
    [batch_size] samples of [X]: laid end to end they are the first
    batch_size * floor(len(X) / batch_size) samples of [X], and the fewer
    than [batch_size] samples after those are in no batch. And batches are
    yielded: with augmentation off, shuffles that are permutations, every
    file present and every entry one the generator can process, a run of
    [n] passes ends without an exception and has yielded
    n * floor(len(x) / batch_size) pairs, each of [batch_size] samples. *)
Theorem batches_are_full (cfg : Cfg) (W : World) (seed : rng W)
  (x : list string) (y : list (Box * string))
  (batch_size : Z) (scaling_factor : Q) (augment_data : bool) (n_epochs : nat) :
  Forall (full_batch W batch_size)
    (yielded (snd (flow_from_list cfg W seed x y batch_size scaling_factor
                     augment_data n_epochs)))
  /\ ((Z.of_nat (length x) < batch_size)%Z ->
      py_div (Z.of_nat (length x)) batch_size = Ok 0%Z
      /\ yielded (snd (flow_from_list cfg W seed x y batch_size scaling_factor
                         augment_data n_epochs)) = [])
  /\ (forall (augment_level : list row) (x' : list string) (y' : list (Box * string))
             (i : Z) (s s' : state W),
        (0 < batch_size)%Z ->
        run_slice cfg W batch_size augment_data augment_level x' y' i s = (Ok tt, s') ->
        exists (s0 s1 s2 : state W) (xy : XY W) (X : list (image W)) (Y : list (list Q))
               (new : list (batch W)),
          build_samples cfg W augment_data augment_level
            (py_slice x' (i * batch_size) (i * batch_size + batch_size))
            (py_slice y' (i * batch_size) (i * batch_size + batch_size)) s0 = (Ok xy, s1)
          /\ shuffle W (fst xy) (snd xy) s1 = (Ok (X, Y), s2)
          /\ yielded s' = yielded s ++ new
          /\ length new = Z.to_nat (Z.of_nat (length X) / batch_size)
          /\ Forall (fun b => Z.of_nat (length (fst b)) = batch_size) new
          /\ concat (map fst new)
             = firstn (Z.to_nat (batch_size * (Z.of_nat (length X) / batch_size))) X
          /\ (Z.of_nat (length (skipn (Z.to_nat (batch_size
                                                  * (Z.of_nat (length X) / batch_size)))
                                      X))
              < batch_size)%Z)
  /\ (permutation_ok W ->
      (0 < batch_size)%Z ->
      length x = length y ->
      SHRINK_FACTOR cfg <> 0%Z ->
      (0 <= IMG_INPUT cfg / SHRINK_FACTOR cfg)%Z ->
      (forall i, (i < length (CLASSES cfg))%nat ->
                 length (encode_label cfg i) = N_CLASSES cfg) ->
      Forall (entry_ok cfg W) (combine x y) ->
      (forall f, In f x -> isfile W f = true) ->
      let run := flow_from_list cfg W seed x y batch_size scaling_factor false n_epochs in
      fst run = Ok tt
      /\ length (yielded (snd run))
         = (n_epochs * Z.to_nat (Z.of_nat (length x) / batch_size))%nat
      /\ Forall (fun b : batch W => Z.of_nat (length (fst b)) = batch_size
                                    /\ Z.of_nat (length (snd b)) = batch_size)
                (yielded (snd run))).
Proof.
  assert (Hfull : forall augment_data',
            Forall (full_batch W batch_size)
              (yielded (snd (flow_from_list cfg W seed x y batch_size scaling_factor
                               augment_data' n_epochs)))).
  { intros augment_data'. unfold flow_from_list.
    eapply (@keeps_bind W batch_size).
    - apply silent_keeps, silent_lift.
    - intros slices ? ? ?. apply keeps_bind; [apply silent_keeps, silent_lift|].
      intros augment_level ? ? ?. apply keeps_epochs.
    - constructor. }
  refine (conj (Hfull augment_data) (conj _ (conj _ _))).
  - intros Hsmall. unfold flow_from_list, py_div, bind, lift.
    assert (Hbs : (batch_size =? 0)%Z = false) by (apply Z.eqb_neq; lia).
    rewrite Hbs, Z.div_small by lia. split; [reflexivity|].
    destruct (if augment_data then calc_augment_level y scaling_factor else Ok [])
      as [augment_level|e]; [|reflexivity].
    rewrite silent_epochs_zero. reflexivity.
  - intros augment_level x' y' i s s' Hbs Hrun.
    exact (run_slice_yield cfg W batch_size augment_data augment_level x' y' i s s'
             Hbs Hrun).
  - intros Hperm Hbs Hlen Hshrink Hgrid Hcode Hok Hfiles. cbv zeta.
    split; [|split; [|exact (Hfull false)]].
    + unfold flow_from_list, bind, lift, py_div.
      replace (batch_size =? 0)%Z with false by (symmetry; apply Z.eqb_neq; lia).
      destruct (epochs_run cfg W batch_size [] Hbs Hshrink Hgrid Hcode n_epochs
                  (Z.of_nat (length x) / batch_size) x y (initial_state W seed) Hlen Hok)
        as (s' & Hrun & _).
      rewrite Hrun. reflexivity.
    + unfold flow_from_list, bind, lift, py_div.
      replace (batch_size =? 0)%Z with false by (symmetry; apply Z.eqb_neq; lia).
      destruct (epochs_run cfg W batch_size [] Hbs Hshrink Hgrid Hcode n_epochs
                  (Z.of_nat (length x) / batch_size) x y (initial_state W seed) Hlen Hok)
        as (s' & Hrun & Hcount).
      rewrite Hrun. cbn [snd]. rewrite (Hcount Hperm Hfiles eq_refl). reflexivity.
Qed.

(** The theorem in the sample world: with a batch size of 1 on the dataset
    of two images, three passes yield six pairs. *)
Lemma batches_are_full_witness :
  fst (flow_from_list Sample.cfg0 Sample.world0 O Sample.files2 Sample.labels2
         1 5 false 3) = Ok tt
  /\ length (yielded (snd (flow_from_list Sample.cfg0 Sample.world0 O
                             Sample.files2 Sample.labels2 1 5 false 3))) = 6%nat.
Proof.
  destruct (proj2 (proj2 (proj2 (batches_are_full Sample.cfg0 Sample.world0 O
                                   Sample.files2 Sample.labels2 1 5 false 3))))
    as (Hrun & Hcount & _).
  - exact world0_permutation_ok.
  - lia.
  - reflexivity.
  - cbn. lia.
  - cbn. lia.
  - intros [|[|i]] Hi; [reflexivity|reflexivity|cbn in Hi; lia].
  - sample_entries.
  - intros f [<-|[<-|[]]]; reflexivity.
  - split; [exact Hrun|exact Hcount].
Defined.

(** X9. The scale in force is always a configured one. Whenever a run of
    the generator stops, after any number of passes or at an exception,
    [multi_scale], if it was assigned, is an entry of MULTI_SCALE, also
    when the random index was negative and wrapped around; and
    [new_width] and [new_height], if they were assigned, are equal, to
    int(IMG_INPUT * ms) for an entry [ms] of MULTI_SCALE, the product
    taken in float arithmetic. *)
Theorem scale_is_configured (cfg : Cfg) (W : World) (seed : rng W)
  (x : list string) (y : list (Box * string))
  (batch_size : Z) (scaling_factor : Q) (augment_data : bool) (n_epochs : nat) :
  let s := snd (flow_from_list cfg W seed x y batch_size scaling_factor
                  augment_data n_epochs) in
  (forall ms, multi_scale s = Some ms -> In ms (MULTI_SCALE cfg))
  /\ new_height s = new_width s
  /\ (forall n, new_width s = Some n ->
        exists ms, In ms (MULTI_SCALE cfg)
                   /\ scaled_size (IMG_INPUT cfg) ms = Ok n).
Proof.
  cbv zeta.
  destruct (scale_flow cfg W batch_size augment_data seed x y scaling_factor n_epochs)
    as (Hms & Hside & Hsame & _).
  refine (conj Hms (conj Hsame _)). exact Hside.
Qed.

(** X10. Every label grid the generator yields has the dimensions of
    line 166, [batch_size x grid_h x grid_w x N_ANCHORS*(N_CLASSES+5)],
    with [grid_h = grid_w]: IMG_INPUT / SHRINK_FACTOR when augmentation is
    off, and int(IMG_INPUT * ms) / SHRINK_FACTOR for an entry [ms] of
    MULTI_SCALE when it is on, the product taken in float arithmetic and
    the quotient rounded down. *)
Theorem yielded_grid_dimensions (cfg : Cfg) (W : World) (seed : rng W)
  (x : list string) (y : list (Box * string))
  (batch_size : Z) (scaling_factor : Q) (augment_data : bool) (n_epochs : nat) :
  Forall (fun b : batch W =>
            exists g,
              (if augment_data
               then exists ms n, In ms (MULTI_SCALE cfg)
                                 /\ scaled_size (IMG_INPUT cfg) ms = Ok n
                                 /\ g = (n / SHRINK_FACTOR cfg)%Z
               else g = (IMG_INPUT cfg / SHRINK_FACTOR cfg)%Z)
              /\ flat_shape (Z.to_nat batch_size) (Z.to_nat g) (Z.to_nat g)
                            (N_ANCHORS cfg * (5 + N_CLASSES cfg)) (snd b))
         (yielded (snd (flow_from_list cfg W seed x y batch_size scaling_factor
                          augment_data n_epochs))).
Proof.
  destruct (scale_flow cfg W batch_size augment_data seed x y scaling_factor n_epochs)
    as (_ & _ & _ & Hy).
  eapply Forall_impl; [|exact Hy]. intros b (g & Hg & Hshape). exists g.
  split; [|exact Hshape]. unfold grid_side in Hg. destruct augment_data; [|exact Hg].
  destruct Hg as (n & (ms & Hms & Hn) & ->). exists ms, n. auto.
Qed.

(** X11. With augmentation off the generator never calls
    [random_transform] and never assigns [multi_scale], [new_height] or
    [new_width], however long it runs. *)
Theorem no_augmentation_trace (cfg : Cfg) (W : World) (seed : rng W)
  (x : list string) (y : list (Box * string))
  (batch_size : Z) (scaling_factor : Q) (n_epochs : nat) :
  let s := snd (flow_from_list cfg W seed x y batch_size scaling_factor false n_epochs) in
  transform_calls s = [] /\ multi_scale s = None
  /\ new_height s = None /\ new_width s = None.
Proof.
  cbv zeta. unfold flow_from_list.
  eapply (preserves_bind W never_augmented).
  - apply preserves_lift.
  - intros slices ? ? ?. apply plain_epochs.
  - unfold initial_state, never_augmented. cbn. auto.
Qed.

(** X12. A batch size of zero makes line 69 raise [ZeroDivisionError]
    before anything else happens: nothing is drawn, printed or yielded. A
    negative batch size gives no slice at all, and the generator yields
    nothing however long it runs. *)
Theorem nonpositive_batch_size (cfg : Cfg) (W : World) (seed : rng W)
  (x : list string) (y : list (Box * string))
  (batch_size : Z) (scaling_factor : Q) (augment_data : bool) (n_epochs : nat) :
  (batch_size = 0%Z ->
   flow_from_list cfg W seed x y batch_size scaling_factor augment_data n_epochs
   = (Raise ZeroDivisionError, initial_state W seed))
  /\ ((batch_size < 0)%Z ->
      yielded (snd (flow_from_list cfg W seed x y batch_size scaling_factor
                      augment_data n_epochs)) = []).
Proof.
  split.
  - intros ->. reflexivity.
  - intros Hneg. unfold flow_from_list, bind, lift, py_div.
    replace (batch_size =? 0)%Z with false by (symmetry; apply Z.eqb_neq; lia).
    destruct (if augment_data then calc_augment_level y scaling_factor else Ok [])
      as [augment_level|e]; [|reflexivity].
    rewrite silent_epochs_empty; [reflexivity|].
    apply div_neg_nonpos; lia.
Qed.

(** X13. With augmentation off the generator raises no exception, however
    long it runs, when the batch size is positive, there are as many
    labels as file names, SHRINK_FACTOR is not zero, the grid side
    IMG_INPUT / SHRINK_FACTOR is not negative, class encodings have
    N_CLASSES entries, and every entry whose file exists has its class in
    the categories file and a box centre that is not negative. Missing
    files do not matter. *)
Theorem generator_runs_without_augmentation (cfg : Cfg) (W : World) (seed : rng W)
  (x : list string) (y : list (Box * string))
  (batch_size : Z) (scaling_factor : Q) (n_epochs : nat) :
  (0 < batch_size)%Z ->
  length x = length y ->
  SHRINK_FACTOR cfg <> 0%Z ->
  (0 <= IMG_INPUT cfg / SHRINK_FACTOR cfg)%Z ->
  (forall i, (i < length (CLASSES cfg))%nat ->
             length (encode_label cfg i) = N_CLASSES cfg) ->
  Forall (entry_ok cfg W) (combine x y) ->
  fst (flow_from_list cfg W seed x y batch_size scaling_factor false n_epochs) = Ok tt.
Proof.
  intros Hbs Hlen Hshrink Hgrid Hcode Hok. unfold flow_from_list, bind, lift, py_div.
  replace (batch_size =? 0)%Z with false by (symmetry; apply Z.eqb_neq; lia).
  destruct (epochs_run cfg W batch_size [] Hbs Hshrink Hgrid Hcode n_epochs
              (Z.of_nat (length x) / batch_size) x y (initial_state W seed) Hlen Hok)
    as (s' & Hrun & _).
  rewrite Hrun. reflexivity.
Qed.

Lemma generator_runs_without_augmentation_witness :
  fst (flow_from_list Sample.cfg0 Sample.world0 O Sample.files3 Sample.labels3
         1 5 false 2) = Ok tt.
Proof.
  apply (generator_runs_without_augmentation Sample.cfg0 Sample.world0 O
           Sample.files3 Sample.labels3 1 5 2).
  - lia.
  - reflexivity.
  - cbn. lia.
  - cbn. lia.
  - intros [|[|i]] Hi; [reflexivity|reflexivity|cbn in Hi; lia].
  - sample_entries.
Defined.

(** X14. With augmentation off, shuffles that are permutations and every
    file present, each pass over the dataset yields exactly
    floor(len(x) / batch_size) batches: after [n] passes the consumer has
    received [n * floor(len(x) / batch_size)] of them. *)
Theorem batches_per_pass (cfg : Cfg) (W : World) (seed : rng W)
  (x : list string) (y : list (Box * string))
  (batch_size : Z) (scaling_factor : Q) (n_epochs : nat) :
  permutation_ok W ->
  (0 < batch_size)%Z ->
  length x = length y ->
  SHRINK_FACTOR cfg <> 0%Z ->
  (0 <= IMG_INPUT cfg / SHRINK_FACTOR cfg)%Z ->
  (forall i, (i < length (CLASSES cfg))%nat ->
             length (encode_label cfg i) = N_CLASSES cfg) ->
  Forall (entry_ok cfg W) (combine x y) ->
  (forall f, In f x -> isfile W f = true) ->
  length (yielded (snd (flow_from_list cfg W seed x y batch_size scaling_factor
                          false n_epochs)))
  = (n_epochs * Z.to_nat (Z.of_nat (length x) / batch_size))%nat.
Proof.
  intros Hperm Hbs Hlen Hshrink Hgrid Hcode Hok Hfiles.
  unfold flow_from_list, bind, lift, py_div.
  replace (batch_size =? 0)%Z with false by (symmetry; apply Z.eqb_neq; lia).
  destruct (epochs_run cfg W batch_size [] Hbs Hshrink Hgrid Hcode n_epochs
              (Z.of_nat (length x) / batch_size) x y (initial_state W seed) Hlen Hok)
    as (s' & Hrun & Hcount).
  rewrite Hrun. cbn [snd]. rewrite (Hcount Hperm Hfiles eq_refl). reflexivity.
Qed.

Lemma batches_per_pass_witness :
  length (yielded (snd (flow_from_list Sample.cfg0 Sample.world0 O
                          Sample.files2 Sample.labels2 1 5 false 3)))
  = (3 * Z.to_nat (Z.of_nat (length Sample.files2) / 1))%nat.
Proof.
  apply (batches_per_pass Sample.cfg0 Sample.world0 O
           Sample.files2 Sample.labels2 1 5 3).
  - exact world0_permutation_ok.
  - lia.
  - reflexivity.
  - cbn. lia.
  - cbn. lia.
  - intros [|[|i]] Hi; [reflexivity|reflexivity|cbn in Hi; lia].
  - sample_entries.
  - intros f [<-|[<-|[]]]; reflexivity.
Defined.

(** X15. With augmentation off a slice is all or nothing. A slice of
    [batch_size] entries whose files all exist yields exactly one batch; if
    one of its files is missing, fewer than [batch_size] samples are built,
    floor(len(X) / batch_size) is zero and the slice yields nothing: the
    samples of its other entries are dropped. *)
Theorem incomplete_slice_dropped (cfg : Cfg) (W : World) (batch_size : Z)
  (augment_level : list row) (x : list string) (y : list (Box * string)) (i : Z)
  (s : state W) :
  permutation_ok W ->
  (0 < batch_size)%Z ->
  length x = length y ->
  SHRINK_FACTOR cfg <> 0%Z ->
  (0 <= IMG_INPUT cfg / SHRINK_FACTOR cfg)%Z ->
  (forall i, (i < length (CLASSES cfg))%nat ->
             length (encode_label cfg i) = N_CLASSES cfg) ->
  Forall (entry_ok cfg W) (combine x y) ->
  (0 <= i)%Z -> ((i + 1) * batch_size <= Z.of_nat (length x))%Z ->
  exists s',
    run_slice cfg W batch_size false augment_level x y i s = (Ok tt, s')
    /\ length (yielded s')
       = (length (yielded s)
          + if forallb (isfile W) (py_slice x (i * batch_size) (i * batch_size + batch_size))
            then 1 else 0)%nat.
Proof.
  intros Hperm Hbs Hlen Hshrink Hgrid Hcode Hok Hi Hfit.
  destruct (run_slice_runs cfg W batch_size augment_level Hbs Hshrink Hgrid Hcode
              x y i s Hlen Hok) as (s' & Hrun & Hcount).
  exists s'. split; [exact Hrun|]. rewrite (Hcount Hperm). f_equal.
  rewrite <- (combine_py_slice _ _ _ _ Hlen).
  set (f_name := py_slice x (i * batch_size) (i * batch_size + batch_size)).
  set (labels := py_slice y (i * batch_size) (i * batch_size + batch_size)).
  assert (Hf : Z.of_nat (length f_name) = batch_size)
    by (apply py_slice_chunk_length; assumption).
  assert (Hl : Z.of_nat (length labels) = batch_size)
    by (apply py_slice_chunk_length; [assumption|assumption|rewrite <- Hlen; assumption]).
  assert (Hsize : length (combine f_name labels) = length f_name)
    by (rewrite length_combine; lia).
  assert (Hfst : forallb (isfile W) f_name
                 = forallb (fun e => isfile W (fst e)) (combine f_name labels)).
  { rewrite <- (forallb_map (isfile W) fst), map_fst_combine; [reflexivity|lia]. }
  rewrite Hfst. unfold present.
  destruct (forallb (fun e => isfile W (fst e)) (combine f_name labels)) eqn:Eall.
  - rewrite (forallb_filter_id _ _ Eall), Hsize, Hf, Z.div_same by lia. reflexivity.
  - pose proof (filter_length_le (fun e => isfile W (fst e)) (combine f_name labels))
      as Hle.
    assert (Hne : length (filter (fun e => isfile W (fst e)) (combine f_name labels))
                  <> length (combine f_name labels)).
    { intros Heq. apply filter_length_forallb in Heq. congruence. }
    rewrite Z.div_small by lia. reflexivity.
Qed.

Lemma incomplete_slice_dropped_witness :
  exists s',
    run_slice Sample.cfg0 Sample.world0 1 false [] Sample.files3 Sample.labels3 2
      (initial_state Sample.world0 O) = (Ok tt, s')
    /\ length (yielded s') = 0%nat.
Proof.
  destruct (incomplete_slice_dropped Sample.cfg0 Sample.world0 1 [] Sample.files3
              Sample.labels3 2 (initial_state Sample.world0 O))
    as (s' & Hrun & Hcount).
  - exact world0_permutation_ok.
  - lia.
  - reflexivity.
  - cbn. lia.
  - cbn. lia.
  - intros [|[|i]] Hi; [reflexivity|reflexivity|cbn in Hi; lia].
  - sample_entries.
  - lia.
  - cbn. lia.
  - exists s'. split; [exact Hrun|exact Hcount].
Defined.


(** ** Unbound variables *)

Lemma rbind_no_name_error {A B : Type} (m : result A) (f : A -> result B) :
  m <> Raise NameError -> (forall a, f a <> Raise NameError) ->
  rbind m f <> Raise NameError.
Proof.
  intros Hm Hf. destruct m as [a|e]; [apply Hf|].
  cbn. intros H. apply Hm. inversion H. reflexivity.
Qed.

Lemma nth_result_no_name_error {A : Type} (l : list A) (i : nat) :
  nth_result l i <> Raise NameError.
Proof.
  unfold nth_result. destruct (nth_error l i); discriminate.
Qed.

Lemma np_index_no_name_error (i : Z) (n : nat) : np_index i n <> Raise NameError.
Proof.
  unfold np_index.
  destruct ((0 <=? i)%Z && (i <? Z.of_nat n)%Z); [discriminate|].
  destruct ((- Z.of_nat n <=? i)%Z && (i <? 0)%Z); discriminate.
Qed.

Lemma np_broadcast_no_name_error (v : list Q) (n : nat) :
  np_broadcast v n <> Raise NameError.
Proof.
  unfold np_broadcast. destruct (Nat.eqb (length v) n); [discriminate|].
  destruct v as [|x [|x' v]]; discriminate.
Qed.

Lemma setitem_no_name_error (T : tensor) (b : nat) (c r : Z) (lo width : nat)
  (v : list Q) :
  setitem T b c r lo width v <> Raise NameError.
Proof.
  unfold setitem.
  apply rbind_no_name_error; [apply nth_result_no_name_error|]. intros sample.
  apply rbind_no_name_error; [apply np_index_no_name_error|]. intros ci.
  apply rbind_no_name_error; [apply nth_result_no_name_error|]. intros grid_row.
  apply rbind_no_name_error; [apply np_index_no_name_error|]. intros ri.
  apply rbind_no_name_error; [apply np_broadcast_no_name_error|]. intros v'.
  discriminate.
Qed.

Lemma round64_no_name_error (q : Q) : round64 q <> Raise NameError.
Proof.
  unfold round64. destruct (Qle_bool _ _); discriminate.
Qed.

Lemma fmul_no_name_error (a b : Q) : fmul a b <> Raise NameError.
Proof.
  unfold fmul, to_float.
  apply rbind_no_name_error; [apply round64_no_name_error|]. intros a'.
  apply rbind_no_name_error; [apply round64_no_name_error|]. intros b'.
  apply round64_no_name_error.
Qed.

Lemma fdiv_no_name_error (a b : Q) : fdiv a b <> Raise NameError.
Proof.
  unfold fdiv, to_float.
  apply rbind_no_name_error; [apply round64_no_name_error|]. intros a'.
  apply rbind_no_name_error; [apply round64_no_name_error|]. intros b'.
  destruct (Qeq_bool b' 0); [destruct (Qeq_bool a' 0); discriminate|].
  apply round64_no_name_error.
Qed.

Lemma calc_augment_level_no_name_error (y : list (Box * string)) (sf : Q) :
  calc_augment_level y sf <> Raise NameError.
Proof.
  unfold calc_augment_level. destruct y as [|e y]; [discriminate|]. cbv zeta.
  apply rbind_no_name_error; [apply fdiv_no_name_error|]. intros mean.
  induction (np_unique (map snd (e :: y))) as [|[c f] table IH]; [discriminate|].
  cbn [apply_rows].
  apply rbind_no_name_error.
  - unfold augment_count.
    apply rbind_no_name_error; [apply fdiv_no_name_error|]. intros ratio.
    apply rbind_no_name_error; [apply fmul_no_name_error|]. discriminate.
  - intros n. apply rbind_no_name_error; [exact IH|]. discriminate.
Qed.

Lemma cell_column_no_name_error (g : Z) (x : Q) : cell_column g x <> Raise NameError.
Proof.
  unfold cell_column.
  apply rbind_no_name_error; [apply fmul_no_name_error|]. discriminate.
Qed.

Lemma scaled_size_no_name_error (n : Z) (ms : Q) : scaled_size n ms <> Raise NameError.
Proof.
  unfold scaled_size.
  apply rbind_no_name_error; [apply fmul_no_name_error|]. discriminate.
Qed.

Lemma encode_at_no_name_error (n_classes : nat) (grid_w grid_h : Z)
  (labels : list (list Q)) (T : tensor) (b : nat) :
  encode_at n_classes grid_w grid_h labels T b <> Raise NameError.
Proof.
  unfold encode_at.
  apply rbind_no_name_error; [apply nth_result_no_name_error|]. intros lab.
  apply rbind_no_name_error; [apply nth_result_no_name_error|]. intros x.
  apply rbind_no_name_error; [apply nth_result_no_name_error|]. intros y.
  apply rbind_no_name_error; [apply cell_column_no_name_error|]. intros r.
  apply rbind_no_name_error; [apply cell_column_no_name_error|]. intros c.
  destruct ((r <? grid_w)%Z && (c <? grid_h)%Z); [|discriminate].
  apply rbind_no_name_error; [apply setitem_no_name_error|]. intros y1.
  apply rbind_no_name_error; [apply setitem_no_name_error|]. intros y2.
  apply setitem_no_name_error.
Qed.

Lemma grid_encode_no_name_error (n_anchors n_classes : nat) (batch_size grid_w grid_h : Z)
  (labels : list (list Q)) :
  grid_encode n_anchors n_classes batch_size grid_w grid_h labels <> Raise NameError.
Proof.
  unfold grid_encode. apply rbind_no_name_error.
  - unfold np_zeros.
    destruct ((batch_size <? 0)%Z || (grid_h <? 0)%Z || (grid_w <? 0)%Z); discriminate.
  - intros T0. generalize (seq 0 (Z.to_nat batch_size)). intros bs. revert T0.
    induction bs as [|b bs IH]; intros T0; simpl; [discriminate|].
    apply rbind_no_name_error; [apply encode_at_no_name_error|exact IH].
Qed.

Lemma np_where_first_no_name_error (classes : list string) (lab : string) :
  np_where_first classes lab <> Raise NameError.
Proof.
  induction classes as [|c classes IH]; simpl; [discriminate|].
  destruct (String.eqb c lab); [discriminate|].
  apply rbind_no_name_error; [exact IH|discriminate].
Qed.

Lemma loc_scaling_factor_no_name_error (df : list row) (lab : string) :
  loc_scaling_factor df lab <> Raise NameError.
Proof.
  induction df as [|r df IH]; simpl; [discriminate|].
  destruct (String.eqb (label r) lab); [discriminate|exact IH].
Qed.

Lemma py_div_no_name_error (a b : Z) : py_div a b <> Raise NameError.
Proof.
  unfold py_div. destruct (b =? 0)%Z; discriminate.
Qed.

Lemma py_get_no_name_error {A : Type} (l : list A) (i : Z) : py_get l i <> Raise NameError.
Proof.
  unfold py_get. apply rbind_no_name_error; [apply np_index_no_name_error|].
  intros k. destruct (nth_error l k); discriminate.
Qed.

Section Bound.

Variable cfg : Cfg.
Variable W : World.
Variable batch_size : Z.
Variable augment_data : bool.
Variable augment_level : list row.

Lemma binds_ret {A : Type} (P : state W -> Prop) (a : A) (Q : A -> state W -> Prop) :
  (forall s, P s -> Q a s) -> binds W P (ret a) Q.
Proof.
  intros H s Hs. apply H. exact Hs.
Qed.

Lemma binds_lift {A : Type} (P : state W -> Prop) (r : result A)
  (Q : A -> state W -> Prop) :
  r <> Raise NameError -> (forall a s, r = Ok a -> P s -> Q a s) -> binds W P (lift r) Q.
Proof.
  intros Hr H s Hs. unfold lift. destruct r as [a|e].
  - apply H; [reflexivity|exact Hs].
  - intros ->. apply Hr. reflexivity.
Qed.

Lemma binds_bind {A B : Type} (P : state W -> Prop) (m : M W A)
  (R : A -> state W -> Prop) (f : A -> M W B) (Q : B -> state W -> Prop) :
  binds W P m R -> (forall a, binds W (R a) (f a) Q) -> binds W P (bind m f) Q.
Proof.
  intros Hm Hf s Hs. unfold bind. specialize (Hm s Hs).
  destruct (m s) as [[a|e] s']; [|exact Hm]. apply Hf. exact Hm.
Qed.

Lemma binds_weaken {A : Type} (P P' : state W -> Prop) (m : M W A)
  (Q Q' : A -> state W -> Prop) :
  binds W P m Q -> (forall s, P' s -> P s) -> (forall a s, Q a s -> Q' a s) ->
  binds W P' m Q'.
Proof.
  intros Hm HP HQ s Hs. specialize (Hm s (HP s Hs)).
  destruct (m s) as [[a|e] s']; [|exact Hm]. apply HQ. exact Hm.
Qed.

Lemma binds_for_each {A S : Type} (Inv : S -> state W -> Prop) (l : list A)
  (body : S -> A -> M W S) :
  (forall acc a, In a l -> binds W (Inv acc) (body acc a) Inv) ->
  forall acc, binds W (Inv acc) (for_each l body acc) Inv.
Proof.
  induction l as [|a l IH]; intros Hbody acc; simpl.
  - apply binds_ret. auto.
  - eapply binds_bind; [apply Hbody; left; reflexivity|].
    intros acc'. apply IH. intros acc'' a' Hin. apply Hbody. right. exact Hin.
Qed.

(** What holds between the entries of a slice: with augmentation on, the
    scale is bound, and so is the size once a sample was built. *)
Local Abbreviation building := (fun (xy : XY W) (s : state W) =>
  augment_data = true -> scale_bound s /\ (fst xy <> [] -> size_bound s)).

Lemma binds_process_entry (xy : XY W) (e : string * (Box * string)) :
  binds W (building xy) (process_entry cfg W augment_data augment_level xy e) building.
Proof.
  destruct e as [f [bbox label]]. intros s Hs. unfold process_entry.
  destruct (isfile W f) eqn:Hf; cbn [negb].
  - destruct (shape W (cvtColor W (imread W f))) as [height width].
    destruct augment_data.
    + destruct (Hs eq_refl) as [Hscale _]. unfold scale_bound in Hscale.
      unfold bind, lift, read_var.
      destruct (multi_scale s) as [ms|] eqn:Ems; [|exfalso; apply Hscale; reflexivity].
      destruct (scaled_size (IMG_INPUT cfg) ms) as [side|e] eqn:Eside;
        [|intros ->; exact (scaled_size_no_name_error _ _ Eside)].
      unfold set_new_size, ret. cbn beta iota.
      destruct (np_where_first (CLASSES cfg) label) as [index|e] eqn:Eidx;
        [|intros ->; exact (np_where_first_no_name_error _ _ Eidx)].
      destruct (loc_scaling_factor augment_level label) as [aug_level|e] eqn:Elvl;
        [|intros ->; exact (loc_scaling_factor_no_name_error _ _ Elvl)].
      match goal with
      | |- context [for_each ?l (augment_once _ ?img _ _ _ ?oh) ?acc ?st] =>
          destruct (augment_loop_run W img bbox width height oh l acc st)
            as (xy1 & s1 & kept & Hloop & _);
          pose proof (augment_loop_frame W img bbox width height oh l acc st) as Hframe
      end.
      cbv zeta in Hframe. rewrite Hloop in Hframe. rewrite Hloop.
      cbn [snd multi_scale new_height new_width] in Hframe.
      destruct Hframe as (Hms & Hnh & Hnw & _).
      intros _. unfold scale_bound, size_bound. rewrite Hms, Hnh, Hnw, Ems.
      split; [discriminate|]. intros _. split; discriminate.
    + unfold bind, lift, ret.
      destruct (np_where_first (CLASSES cfg) label) as [index|e] eqn:Eidx;
        [discriminate|intros ->; exact (np_where_first_no_name_error _ _ Eidx)].
  - cbn. exact Hs.
Qed.

Lemma binds_shuffle {A B : Type} (P : state W -> Prop) (a : list A) (b : list B) :
  (forall s1 s2 : state W,
     multi_scale s1 = multi_scale s2 -> new_height s1 = new_height s2 ->
     new_width s1 = new_width s2 -> P s1 -> P s2) ->
  binds W P (shuffle W a b) (fun ab s => P s /\ (fst ab <> [] -> a <> [])).
Proof.
  intros Hframe s Hs. unfold shuffle.
  destruct (Nat.eqb (length a) (length b)); [|cbn; discriminate].
  unfold bind, draw, ret. destruct (permutation W (rand s) (length a)) as [idx g].
  cbn [fst]. split.
  - eapply Hframe; [| | |exact Hs]; reflexivity.
  - intros Hne ->. apply Hne. unfold np_take. clear.
    induction idx as [|i idx IH]; [reflexivity|]. simpl. rewrite IH.
    destruct i; reflexivity.
Qed.

Lemma binds_sub_batch (X : list (image W)) (Y : list (list Q)) (z : Z) :
  binds W (fun s => augment_data = true -> size_bound s)
        (sub_batch cfg W batch_size augment_data X Y z)
        (fun _ s => augment_data = true -> size_bound s).
Proof.
  intros s Hs. unfold sub_batch. unfold bind at 1 2.
  assert (Hrest : forall wh : Z * Z,
            match (let (grid_w, grid_h) := wh in
                   (y_batch <- lift (grid_encode (N_ANCHORS cfg) (N_CLASSES cfg)
                                       batch_size grid_w grid_h
                                       (py_slice Y (z * batch_size)
                                                 (z * batch_size + batch_size))) ;;
                    yield (py_slice X (z * batch_size) (z * batch_size + batch_size),
                           reshape y_batch))%gen) s
            with
            | (Ok _, s') => augment_data = true -> size_bound s'
            | (Raise e, _) => e <> NameError
            end).
  { intros [grid_w grid_h]. unfold bind, lift.
    destruct (grid_encode _ _ _ _ _ _) as [T|e] eqn:ET;
      [|intros ->; exact (grid_encode_no_name_error _ _ _ _ _ _ ET)].
    cbn. exact Hs. }
  destruct augment_data.
  - destruct (Hs eq_refl) as [Hw Hh]. unfold bind, read_var, lift.
    destruct (new_width s) as [nw|]; [|exfalso; apply Hw; reflexivity].
    destruct (py_div nw (SHRINK_FACTOR cfg)) as [gw|e] eqn:Egw;
      [|intros ->; exact (py_div_no_name_error _ _ Egw)].
    destruct (new_height s) as [nh|]; [|exfalso; apply Hh; reflexivity].
    destruct (py_div nh (SHRINK_FACTOR cfg)) as [gh|e] eqn:Egh;
      [|intros ->; exact (py_div_no_name_error _ _ Egh)].
    unfold ret. apply (Hrest (gw, gh)).
  - unfold bind, lift.
    destruct (py_div (IMG_INPUT cfg) (SHRINK_FACTOR cfg)) as [g|e] eqn:Eg;
      [|intros ->; exact (py_div_no_name_error _ _ Eg)].
    unfold ret. apply (Hrest (g, g)).
Qed.

Lemma binds_run_slice (x : list string) (y : list (Box * string)) (i : Z) :
  binds W (fun s => augment_data = true -> (i mod 10 = 0)%Z \/ scale_bound s)
        (run_slice cfg W batch_size augment_data augment_level x y i)
        (fun _ s => augment_data = true -> scale_bound s).
Proof.
  unfold run_slice.
  eapply binds_bind with (R := fun _ s => augment_data = true -> scale_bound s).
  { intros s Hs. destruct ((i mod 10 =? 0)%Z && augment_data) eqn:E.
    - unfold bind, draw, lift.
      destruct (random_integers W (rand s) 0 (Z.of_nat (length (MULTI_SCALE cfg)) - 1))
        as [randint g].
      destruct (py_get (MULTI_SCALE cfg) randint) as [ms|e] eqn:Eget;
        [|intros ->; exact (py_get_no_name_error _ _ Eget)].
      cbn. intros _. unfold scale_bound. cbn. discriminate.
    - cbn. intros Haug. destruct (Hs Haug) as [Hi|Hb]; [|exact Hb].
      rewrite Haug, andb_true_r in E. apply Z.eqb_neq in E. contradiction. }
  intros _.
  eapply binds_bind with (R := building).
  { eapply binds_weaken.
    - unfold build_samples. apply (binds_for_each building). intros acc e _.
      apply binds_process_entry.
    - intros s Hs Haug. split; [exact (Hs Haug)|]. intros H. exfalso. apply H. reflexivity.
    - intros a s Hs. exact Hs. }
  intros [X0 Y0]. cbn [fst snd].
  eapply binds_bind.
  { apply (binds_shuffle (building (X0, Y0))). intros s1 s2 Hms Hnh Hnw Hs Haug.
    unfold scale_bound, size_bound in *. rewrite <- Hms, <- Hnh, <- Hnw. exact (Hs Haug). }
  intros [X Y]. cbn [fst snd].
  eapply binds_bind with
    (R := fun n s => augment_data = true ->
                     scale_bound s /\ (py_range n <> [] -> size_bound s)).
  { apply binds_lift; [apply py_div_no_name_error|].
    intros n s Hn [Hs Hne] Haug. destruct (Hs Haug) as [Hscale Hsize].
    split; [exact Hscale|]. intros Hrange. apply Hsize. cbn [fst]. apply Hne.
    intros ->. apply Hrange. unfold py_div in Hn.
    destruct (batch_size =? 0)%Z; [discriminate|]. apply Ok_inj in Hn. subst n.
    reflexivity. }
  intros n.
  destruct (py_range n) as [|z0 zs] eqn:Erange.
  { apply binds_ret. intros s Hs Haug. exact (proj1 (Hs Haug)). }
  eapply binds_weaken with
    (P := fun s => augment_data = true -> scale_bound s /\ size_bound s)
    (Q := fun _ s => augment_data = true -> scale_bound s /\ size_bound s).
  - apply (binds_for_each
             (fun (_ : unit) s => augment_data = true -> scale_bound s /\ size_bound s)).
    intros [] z _ s Hs.
    assert (Hsize : augment_data = true -> size_bound s)
      by (intros Haug; exact (proj2 (Hs Haug))).
    pose proof (binds_sub_batch X Y z s Hsize) as Hrun.
    destruct (sub_batch cfg W batch_size augment_data X Y z s) as [[u|e] s'] eqn:Esub;
      [|exact Hrun].
    intros Haug. split; [|exact (Hrun Haug)].
    destruct (Hs Haug) as [Hscale _]. unfold scale_bound in *.
    assert (Hsame : multi_scale s' = multi_scale s); [|rewrite Hsame; exact Hscale].
    clear - Esub. unfold sub_batch, bind, read_var, lift, ret, yield in Esub.
    destruct augment_data.
    + destruct (new_width s); [|inversion Esub].
      destruct (py_div _ _); [|inversion Esub].
      destruct (new_height s); [|inversion Esub].
      destruct (py_div _ _); [|inversion Esub].
      destruct (grid_encode _ _ _ _ _ _); inversion Esub. reflexivity.
    + destruct (py_div _ _); [|inversion Esub].
      destruct (grid_encode _ _ _ _ _ _); inversion Esub. reflexivity.
  - intros s Hs Haug. destruct (Hs Haug) as [Hscale Hsize].
    split; [exact Hscale|]. apply Hsize. discriminate.
  - intros a s Hs Haug. exact (proj1 (Hs Haug)).
Qed.

Lemma binds_slices (x : list string) (y : list (Box * string)) (k : nat) :
  forall (a : nat),
    binds W (fun s => augment_data = true -> a = 0%nat \/ scale_bound s)
          (for_each (map Z.of_nat (seq a k))
             (fun (_ : unit) i =>
                run_slice cfg W batch_size augment_data augment_level x y i) tt)
          (fun _ _ => True).
Proof.
  induction k as [|k IH]; intros a; simpl.
  - apply binds_ret. auto.
  - eapply binds_bind.
    + eapply binds_weaken; [apply binds_run_slice| |intros u s Hs; exact Hs].
      intros s Hs Haug. destruct (Hs Haug) as [->|Hb]; [left; reflexivity|right; exact Hb].
    + intros []. eapply binds_weaken; [apply (IH (S a))| |auto].
      intros s Hs Haug. right. exact (Hs Haug).
Qed.

Lemma binds_epochs (n : nat) (slices : Z) :
  forall xy,
    binds W (fun _ => True)
          (epochs cfg W batch_size augment_data augment_level n slices xy)
          (fun _ _ => True).
Proof.
  induction n as [|n IH]; intros xy; simpl; [apply binds_ret; auto|].
  eapply binds_bind with (R := fun _ _ => True); [|intros xy'; apply IH].
  unfold epoch.
  eapply binds_bind with (R := fun _ _ => True).
  { eapply binds_weaken; [apply (binds_shuffle (fun _ => True)); auto|auto|auto]. }
  intros xy'.
  eapply binds_bind with (R := fun _ _ => True); [|intros _; apply binds_ret; auto].
  eapply binds_weaken; [apply (binds_slices (fst xy') (snd xy') (Z.to_nat slices) 0)| |auto].
  intros s _ _. left. reflexivity.
Qed.

End Bound.

(** X16. The generator never reads an unbound variable. [multi_scale] is
    assigned only on the slices whose index is a multiple of 10, and
    [new_width] and [new_height] only when an entry with an existing file is
    processed, yet no run raises [NameError]: the first slice of every pass
    has index 0, and the sub-batch loop runs only when a sample was built. *)
Theorem no_unbound_variable (cfg : Cfg) (W : World) (seed : rng W)
  (x : list string) (y : list (Box * string))
  (batch_size : Z) (scaling_factor : Q) (augment_data : bool) (n_epochs : nat) :
  fst (flow_from_list cfg W seed x y batch_size scaling_factor augment_data n_epochs)
  <> Raise NameError.
Proof.
  unfold flow_from_list, bind, lift.
  destruct (py_div (Z.of_nat (length x)) batch_size) as [slices|e] eqn:Ediv;
    [|cbn; intros H; inversion H; subst e; exact (py_div_no_name_error _ _ Ediv)].
  destruct (if augment_data then calc_augment_level y scaling_factor else Ok [])
    as [augment_level|e] eqn:Edf.
  2:{ cbn. intros H. inversion H. subst e. destruct augment_data; [|discriminate].
      exact (calc_augment_level_no_name_error _ _ Edf). }
  match goal with
  | |- fst (epochs _ _ _ _ ?df _ _ ?xy ?s) <> _ =>
      pose proof (binds_epochs cfg W batch_size augment_data df n_epochs slices xy s I)
        as Hrun;
      destruct (epochs cfg W batch_size augment_data df n_epochs slices xy s)
        as [[u|e] s']
  end.
  - discriminate.
  - cbn. intros H. inversion H. subst e. apply Hrun. reflexivity.
Qed.

(** X17. With augmentation off every yielded pair keeps images and labels
    together: there are samples, each built from an entry of the dataset
    whose file exists (the file's image resized and preprocessed, with that
    entry's box, objectness 1 and class encoding), such that the image
    batch is the list of their images and the label grid is the reshaped
    encoding of their label vectors, in the same order. Neither the
    shuffles of the dataset nor those of the samples of a slice separate an
    image from its label. *)
Theorem batches_pair_images_with_labels (cfg : Cfg) (W : World) (seed : rng W)
  (x : list string) (y : list (Box * string))
  (batch_size : Z) (scaling_factor : Q) (n_epochs : nat) :
  Forall (fun b : batch W =>
            exists (P : list (image W * list Q)) (T : tensor),
              Forall (fun p => exists e, In e (combine x y) /\ isfile W (fst e) = true
                                         /\ base_sample cfg W e p) P
              /\ fst b = map fst P
              /\ grid_encode (N_ANCHORS cfg) (N_CLASSES cfg) batch_size
                             (IMG_INPUT cfg / SHRINK_FACTOR cfg)
                             (IMG_INPUT cfg / SHRINK_FACTOR cfg) (map snd P) = Ok T
              /\ snd b = reshape T)
         (yielded (snd (flow_from_list cfg W seed x y batch_size scaling_factor
                          false n_epochs))).
Proof.
  unfold flow_from_list.
  eapply (preserves_bind W
            (fun s => Forall (aligned_batch cfg W batch_size (combine x y)) (yielded s))).
  - apply preserves_lift.
  - intros slices ? ? ?. apply preserves_bind; [apply preserves_lift|].
    intros augment_level ? ? ?. apply aligned_epochs. auto.
  - constructor.
Qed.


(** X18. With augmentation on every yielded pair is built at one scale:
    there are an entry [ms] of MULTI_SCALE, with n = int(IMG_INPUT * ms)
    the integer part of the float product, and samples, each made from an
    entry of the dataset whose file exists, with the image resized to n on
    both sides, such that the image batch is the list of their images and
    the label grid is the reshaped encoding of their label vectors, in the
    same order, on a grid of side n / SHRINK_FACTOR. A sample is the
    entry's own, or a variant: the image and box [random_transform]
    returned for the resized image and the entry's box, kept by the test
    of line 127, the box made relative to the size of the image in the
    file. *)
Theorem batches_built_at_one_scale (cfg : Cfg) (W : World) (seed : rng W)
  (x : list string) (y : list (Box * string))
  (batch_size : Z) (scaling_factor : Q) (n_epochs : nat) :
  Forall (fun b : batch W =>
            exists (ms : Q) (n : Z) (P : list (image W * list Q)) (T : tensor),
              In ms (MULTI_SCALE cfg)
              /\ scaled_size (IMG_INPUT cfg) ms = Ok n
              /\ Forall (scaled_sample cfg W (combine x y) n) P
              /\ fst b = map fst P
              /\ grid_encode (N_ANCHORS cfg) (N_CLASSES cfg) batch_size
                   (n / SHRINK_FACTOR cfg) (n / SHRINK_FACTOR cfg)
                   (map snd P) = Ok T
              /\ snd b = reshape T)
         (yielded (snd (flow_from_list cfg W seed x y batch_size scaling_factor
                          true n_epochs))).
Proof.
  unfold flow_from_list.
  assert (H : preserves W
                (fun s => (forall ms, multi_scale s = Some ms -> In ms (MULTI_SCALE cfg))
                          /\ Forall (scaled_batch cfg W batch_size (combine x y))
                                    (yielded s))
                (slices <- lift (py_div (Z.of_nat (length x)) batch_size) ;;
                 augment_level <- lift (calc_augment_level y scaling_factor) ;;
                 epochs cfg W batch_size true augment_level
                        n_epochs slices (x, y))%gen).
  { apply preserves_bind; [apply preserves_lift|].
    intros slices ? ? ?. apply preserves_bind; [apply preserves_lift|].
    intros augment_level ? ? ?. apply scaled_epochs. auto. }
  apply H. split; [discriminate|constructor].
Qed.


(** X19. The schedule of the scale (lines 84-86). A slice whose index is
    not a multiple of 10, and any slice when augmentation is off, leaves
    [multi_scale] as it found it, whether the slice ends normally or by an
    exception. A slice whose index is a multiple of 10, with augmentation
    on, draws one index between 0 and len(MULTI_SCALE) - 1 and runs the
    whole slice at MULTI_SCALE[index]; if that index is out of range the
    slice ends there with the exception of the indexing and the scale is
    unchanged. *)
Theorem scale_schedule (cfg : Cfg) (W : World) (batch_size : Z) (augment_data : bool)
  (augment_level : list row) (x : list string) (y : list (Box * string)) (i : Z)
  (s : state W) :
  let run := run_slice cfg W batch_size augment_data augment_level x y i s in
  let randint :=
    fst (random_integers W (rand s) 0 (Z.of_nat (length (MULTI_SCALE cfg)) - 1)) in
  ((i mod 10 =? 0)%Z && augment_data = false -> multi_scale (snd run) = multi_scale s)
  /\ ((i mod 10 =? 0)%Z && augment_data = true ->
      match py_get (MULTI_SCALE cfg) randint with
      | Ok ms => multi_scale (snd run) = Some ms
      | Raise e => fst run = Raise e /\ multi_scale (snd run) = multi_scale s
      end).
Proof.
  cbv zeta. unfold run_slice.
  match goal with |- context [bind _ (fun _ => ?r)] => set (rest := r) end.
  split; intros Hi; rewrite Hi.
  - unfold bind, ret.
    apply (rest_of_slice_keeps_scale cfg W batch_size augment_data augment_level
             _ _ (multi_scale s) s eq_refl).
  - unfold bind, draw, lift.
    destruct (random_integers W (rand s) 0 (Z.of_nat (length (MULTI_SCALE cfg)) - 1))
      as [randint g].
    cbn [fst]. destruct (py_get (MULTI_SCALE cfg) randint) as [ms|e].
    + unfold set_multi_scale.
      apply (rest_of_slice_keeps_scale cfg W batch_size augment_data augment_level
               _ _ (Some ms)). reflexivity.
    + split; reflexivity.
Qed.


End FlowFacts.
